(** * Nested-set tree maintenance of [mptt/managers.py] (TreeManager)

    A shallow embedding of the manager's tree arithmetic: the table of
    nodes is a list of rows, every raw SQL UPDATE is a row-wise map with
    its WHERE clause and its CASE expressions, Python exceptions are the
    [Raise] branch of a result type, and the model-level switches
    (updates enabled, tracking, recorded tree ids) are fields of the
    store that every operation threads. *)

From Stdlib Require Import ZArith List Bool Lia String Permutation Sorted.
Import ListNotations.
Open Scope Z_scope.

(** ** Rows and in-memory instances *)

(** One node: a row of the table, or the attributes of a model instance
    held in memory.  [pk] is [None] for an instance that was never saved,
    [parent] is the raw foreign key ([None] for a root), [okey] is the
    value the declared [order_insertion_by] ordering sorts on. *)
Record node : Type := mkNode {
  pk : option Z;
  parent : option Z;
  lft : Z;
  rght : Z;
  level : Z;
  tree_id : Z;
  okey : Z
}.

Definition set_lft (v : Z) (n : node) : node :=
  mkNode (pk n) (parent n) v (rght n) (level n) (tree_id n) (okey n).
Definition set_rght (v : Z) (n : node) : node :=
  mkNode (pk n) (parent n) (lft n) v (level n) (tree_id n) (okey n).
Definition set_level (v : Z) (n : node) : node :=
  mkNode (pk n) (parent n) (lft n) (rght n) v (tree_id n) (okey n).
Definition set_tree_id (v : Z) (n : node) : node :=
  mkNode (pk n) (parent n) (lft n) (rght n) (level n) v (okey n).
Definition set_parent (v : option Z) (n : node) : node :=
  mkNode (pk n) v (lft n) (rght n) (level n) (tree_id n) (okey n).

(** A model instance together with the related-object cache of its parent
    foreign key: [cached_chain] lists the cached parent object, then that
    object's own cached parent, and so on ([[]] when nothing is cached,
    which is what [cached_field_value] then reports as [None]). *)
Record inst : Type := Inst {
  fields : node;
  cached_chain : list node
}.

Definition opt_eqb (a b : option Z) : bool :=
  match a, b with
  | Some x, Some y => x =? y
  | None, None => true
  | _, _ => false
  end.

(** [node == target] on model instances: equal primary keys.  Two
    instances without a primary key are distinct objects here. *)
Definition node_eqb (a b : node) : bool :=
  match pk a, pk b with
  | Some x, Some y => x =? y
  | _, _ => false
  end.

(** ** Exceptions *)

Inductive exn : Type :=
| ValueError (msg : string)
| InvalidMove (msg : string)
| RuntimeError (msg : string) (arg : Z)
| CantDisableUpdates (msg : string)
| AttributeError
| DoesNotExist
| RecursionError.

(** The ValueError every position dispatch ends in. *)
Definition invalid_position (position : string) : exn :=
  ValueError ("An invalid position was given: " ++ position ++ ".")%string.

Definition already_saved : exn :=
  ValueError "Cannot insert a node which has already been saved."%string.

(** ** Model options and the store *)

(** [_mptt_meta] and [_meta] of the model the manager serves.
    [order_insertion_by] tells whether an ordering is declared (its key is
    [okey]); [tree_id_default] is the default of the tree-id field, used
    when root ordering is off: its n-th call returns [tree_id_default n]. *)
Record mptt_meta : Type := mkMeta {
  root_node_ordering : bool;
  order_insertion_by : bool;
  meta_abstract : bool;
  meta_proxy : bool;
  owns_tree_fields : bool;
  tree_id_default : nat -> Z
}.

(** What the database connection has been asked to rebuild. *)
Inductive event : Type :=
| EvRebuild (filter_tree_id : option Z)
| EvPartialRebuild (tid : Z).

Record store : Type := mkStore {
  rows : list node;
  mptt_updates_enabled : bool;
  mptt_is_tracking : bool;
  mptt_delayed_tree_changes : list Z;
  uuid_draws : nat;
  journal : list event
}.

Definition with_rows (rs : list node) (st : store) : store :=
  mkStore rs (mptt_updates_enabled st) (mptt_is_tracking st)
          (mptt_delayed_tree_changes st) (uuid_draws st) (journal st).
Definition with_tracked (ts : list Z) (st : store) : store :=
  mkStore (rows st) (mptt_updates_enabled st) (mptt_is_tracking st)
          ts (uuid_draws st) (journal st).
Definition with_flags (enabled tracking : bool) (st : store) : store :=
  mkStore (rows st) enabled tracking
          (mptt_delayed_tree_changes st) (uuid_draws st) (journal st).
Definition with_journal (j : list event) (st : store) : store :=
  mkStore (rows st) (mptt_updates_enabled st) (mptt_is_tracking st)
          (mptt_delayed_tree_changes st) (uuid_draws st) j.
Definition with_draws (d : nat) (st : store) : store :=
  mkStore (rows st) (mptt_updates_enabled st) (mptt_is_tracking st)
          (mptt_delayed_tree_changes st) d (journal st).

(** ** The manager's monad

    Every operation reads and writes the store and may raise; what it
    wrote before raising stays written. *)

Inductive result (A : Type) : Type :=
| Ok (a : A)
| Raise (e : exn).
Arguments Ok {A} a.
Arguments Raise {A} e.

Definition M (A : Type) : Type := store -> store * result A.

Definition ret {A : Type} (a : A) : M A := fun st => (st, Ok a).
Definition raise {A : Type} (e : exn) : M A := fun st => (st, Raise e).
Definition bind {A B : Type} (m : M A) (k : A -> M B) : M B :=
  fun st =>
    match m st with
    | (st1, Ok a) => k a st1
    | (st1, Raise e) => (st1, Raise e)
    end.
Definition get : M store := fun st => (st, Ok st).
Definition modify (f : store -> store) : M unit := fun st => (f st, Ok tt).

Notation "x <- m ;; k" := (bind m (fun x => k))
  (at level 61, m at next level, right associativity).
Notation "' p <- m ;; k" := (bind m (fun p => k))
  (at level 61, p pattern, m at next level, right associativity).
Notation "m ;;; k" := (bind m (fun _ => k))
  (at level 61, right associativity).

(** [try: body finally: fin]. *)
Definition try_finally {A : Type} (body : M A) (fin : M unit) : M A :=
  fun st =>
    match body st with
    | (st1, r) =>
        match fin st1 with
        | (st2, Ok _) => (st2, r)
        | (st2, Raise e) => (st2, Raise e)
        end
    end.

(** [try: body except Exception as e: handler e]. *)
Definition try_except {A : Type} (body : M A) (handler : exn -> M A) : M A :=
  fun st =>
    match body st with
    | (st1, Ok a) => (st1, Ok a)
    | (st1, Raise e) => handler e st1
    end.

(** [for x in xs: f x]. *)
Fixpoint for_each {A : Type} (xs : list A) (f : A -> M unit) : M unit :=
  match xs with
  | [] => ret tt
  | x :: xs' => f x ;;; for_each xs' f
  end.

(** ** Following an instance

    A procedure writes the attributes of the instance it is handed as it
    goes, and an exception does not take these writes back.  [MI A]
    threads the instance next to the store: a computation ends with the
    attributes the instance then holds, whether it returned or raised. *)
Definition MI (A : Type) : Type := node -> store -> node * (store * result A).

Definition retI {A : Type} (a : A) : MI A := fun i st => (i, (st, Ok a)).
Definition bindI {A B : Type} (m : MI A) (k : A -> MI B) : MI B :=
  fun i st =>
    match m i st with
    | (i1, (st1, Ok a)) => k a i1 st1
    | (i1, (st1, Raise e)) => (i1, (st1, Raise e))
    end.
(** A statement that does not touch the instance. *)
Definition liftI {A : Type} (m : M A) : MI A := fun i st => (i, m st).
(** Reading the instance, and [setattr] on it. *)
Definition self : MI node := fun i st => (i, (st, Ok i)).
Definition setattr (f : node -> node) : MI unit := fun i st => (f i, (st, Ok tt)).

(** ** SQL statements and queries *)

(** [UPDATE t SET ... WHERE w]: rows matching [w] are rewritten by [set],
    whose CASE expressions all read the row as it was. *)
Definition sql_update (where_ : node -> bool) (set : node -> node)
  (rs : list node) : list node :=
  map (fun r => if where_ r then set r else r) rs.

Definition execute (where_ : node -> bool) (set : node -> node) : M unit :=
  modify (fun st => with_rows (sql_update where_ set (rows st)) st).

Definition between (lo hi x : Z) : bool := (lo <=? x) && (x <=? hi).

(** Modelled from the spec: [clean_tree_ids] of mptt.utils is not part of
    this module; it renders a tree id for the database driver and denotes
    the same tree id as its argument. *)
Definition clean_tree_ids (tid : Z) : Z := tid.

(** Modelled from the spec: [is_root_node] and [is_child_node] of the model
    class are not part of this module; the root is the node with a null
    parent. *)
Definition is_root_node (n : node) : bool :=
  match parent n with
  | None => true
  | Some _ => false
  end.
Definition is_child_node (n : node) : bool := negb (is_root_node n).

(** Truth value of [node.pk] in a Python condition. *)
Definition truthy_pk (k : option Z) : bool :=
  match k with
  | Some v => negb (v =? 0)
  | None => false
  end.

(** [self.filter(pk=k).exists()]. *)
Definition pk_exists (k : option Z) (rs : list node) : bool :=
  existsb (fun r => opt_eqb (pk r) k) rs.

(** [Max(tree_id)] over the table, [None] on an empty table. *)
Definition max_tree_id (rs : list node) : option Z :=
  fold_left (fun acc r =>
               match acc with
               | None => Some (tree_id r)
               | Some m => Some (Z.max m (tree_id r))
               end) rs None.

(** ** Tracking hooks of the model class *)

(** Set insertion for the recorded tree ids (a Python [set]). *)
Fixpoint set_add (t : Z) (s : list Z) : list Z :=
  match s with
  | [] => [t]
  | x :: s' => if x =? t then s else x :: set_add t s'
  end.

(** Modelled from the spec: [_mptt_track_tree_modified] of the model class
    is not part of this module; inside a tracking scope it records the
    tree id as dirty, outside it does nothing. *)
Definition _mptt_track_tree_modified (tid : Z) : M unit :=
  modify (fun st =>
            if mptt_is_tracking st
            then with_tracked (set_add tid (mptt_delayed_tree_changes st)) st
            else st).

(** Modelled from the spec: [_mptt_track_tree_insertions] of the model
    class is not part of this module; when tree ids from [tid] on are
    shifted by [n], the recorded ids follow their trees. *)
Definition _mptt_track_tree_insertions (tid n : Z) : M unit :=
  modify (fun st =>
            if mptt_is_tracking st
            then with_tracked
                   (fold_right set_add []
                      (map (fun t => if tid <=? t then t + n else t)
                           (mptt_delayed_tree_changes st))) st
            else st).

(** Modelled from the spec: [_mptt_start_tracking] and [_mptt_stop_tracking]
    of the model class are not part of this module; the first begins
    recording with an empty set, the second ends it and hands back what
    was recorded. *)
Definition _mptt_start_tracking : M unit :=
  modify (fun st => with_tracked [] (with_flags (mptt_updates_enabled st) true st)).

Definition _mptt_stop_tracking : M (list Z) :=
  fun st =>
    (with_tracked [] (with_flags (mptt_updates_enabled st) false st),
     Ok (mptt_delayed_tree_changes st)).

(** Modelled from the spec: [_set_mptt_updates_enabled] of the model class
    is not part of this module; it switches per-operation maintenance. *)
Definition _set_mptt_updates_enabled (b : bool) : M unit :=
  modify (fun st => with_flags b (mptt_is_tracking st) st).

(** ** Space management *)

Definition space_where (target tid : Z) (r : node) : bool :=
  (tree_id r =? clean_tree_ids tid) && ((lft r >? target) || (rght r >? target)).

Definition space_set (size target : Z) (r : node) : node :=
  let l := if lft r >? target then lft r + size else lft r in
  let g := if rght r >? target then rght r + size else rght r in
  set_rght g (set_lft l r).

Definition _manage_space (size target tid : Z) : M unit :=
  st <- get ;;
  if mptt_is_tracking st
  then _mptt_track_tree_modified tid
  else execute (space_where target tid) (space_set size target).

Definition _close_gap (size target tid : Z) : M unit :=
  _manage_space (- size) target tid.

Definition _create_space (size target tid : Z) : M unit :=
  _manage_space size target tid.

Definition _create_tree_space (target_tree_id num_trees : Z) : M unit :=
  execute (fun r => tree_id r >? target_tree_id)
          (fun r => set_tree_id (tree_id r + num_trees) r) ;;;
  _mptt_track_tree_insertions (target_tree_id + 1) num_trees.

Section Manager.

Variable opts : mptt_meta.

(** The values successive calls of [uuid.uuid4()] return. *)
Variable uuid4 : nat -> Z.

Definition _get_next_tree_id : M Z :=
  if negb (root_node_ordering opts)
  then fun st => (with_draws (S (uuid_draws st)) st,
                  Ok (tree_id_default opts (uuid_draws st)))
  else
    st <- get ;;
    let max_id := match max_tree_id (rows st) with
                  | Some m => if m =? 0 then 0 else m
                  | None => 0
                  end in
    ret (max_id + 1).


(** ** Reading related rows *)

(** Modelled from the spec: the foreign-key descriptor behind
    [getattr(target, parent_attr)] is not part of this module; it yields
    [None] for a null parent, the cached parent object when there is one,
    and otherwise the parent's row as the store has it. *)
Definition get_parent (t : inst) : M (option inst) :=
  match parent (fields t) with
  | None => ret None
  | Some p =>
      match cached_chain t with
      | c :: rest => ret (Some (Inst c rest))
      | [] =>
          st <- get ;;
          match find (fun r => opt_eqb (pk r) (Some p)) (rows st) with
          | Some r => ret (Some (Inst r []))
          | None => raise DoesNotExist
          end
      end
  end.

(** Modelled from the spec: [get_descendant_count] of the model class is
    not part of this module; [right - left] equals twice the number of
    descendants plus one. *)
Definition get_descendant_count (n : node) : Z := (rght n - lft n - 1) / 2.

(** Modelled from the spec: [_mptt_refresh] of the model class is not part
    of this module; it re-reads left, right, level and tree id of a saved
    instance from its row. *)
Definition _mptt_refresh (t : inst) : M inst :=
  st <- get ;;
  if truthy_pk (pk (fields t))
  then
    match find (fun r => opt_eqb (pk r) (pk (fields t))) (rows st) with
    | Some r =>
        ret (Inst (set_tree_id (tree_id r) (set_level (level r)
                    (set_rght (rght r) (set_lft (lft r) (fields t)))))
                  (cached_chain t))
    | None => raise DoesNotExist
    end
  else ret t.

(** First row of [rs] that maximises (resp. minimises) [key]. *)
Definition pick_max (key : node -> Z) (rs : list node) : option node :=
  fold_left (fun acc r =>
               match acc with
               | None => Some r
               | Some b => if key r >? key b then Some r else Some b
               end) rs None.
Definition pick_min (key : node -> Z) (rs : list node) : option node :=
  fold_left (fun acc r =>
               match acc with
               | None => Some r
               | Some b => if key r <? key b then Some r else Some b
               end) rs None.

(** Modelled from the spec: [get_previous_sibling] and [get_next_sibling]
    of the model class are not part of this module; root nodes are
    siblings of one another in the order of their tree ids, so the
    previous (next) sibling of a root is the root with the greatest
    (least) tree id below (above) its own. *)
Definition get_previous_sibling (t : node) : M (option node) :=
  st <- get ;;
  ret (pick_max tree_id
         (filter (fun r => is_root_node r && (tree_id r <? tree_id t)) (rows st))).
Definition get_next_sibling (t : node) : M (option node) :=
  st <- get ;;
  ret (pick_min tree_id
         (filter (fun r => is_root_node r && (tree_id r >? tree_id t)) (rows st))).

(** Modelled from the spec: [save] of the model class is not part of this
    module; it writes the instance's attributes to its row (a new row when
    the store has none for it, with a fresh key when the instance has
    none) and, inside a tracking scope, records the instance's tree id. *)
Definition node_save (n : node) : M node :=
  st <- get ;;
  let n' := match pk n with
            | Some _ => n
            | None =>
                mkNode (Some (fold_left (fun m r => match pk r with
                                                    | Some k => Z.max m k
                                                    | None => m
                                                    end) (rows st) 0 + 1))
                       (parent n) (lft n) (rght n) (level n) (tree_id n) (okey n)
            end in
  modify (with_rows
            (if pk_exists (pk n') (rows st)
             then map (fun r => if opt_eqb (pk r) (pk n') then n' else r) (rows st)
             else rows st ++ [n'])) ;;;
  _mptt_track_tree_modified (tree_id n') ;;;
  ret n'.

(** ** Moving nodes *)

Definition eqs (a b : string) : bool := String.eqb a b.

Definition is_child_position (position : string) : bool :=
  eqs position "last-child" || eqs position "first-child".
Definition is_sibling_position (position : string) : bool :=
  eqs position "left" || eqs position "right".

(** Walks the cached parents of [instance], adding [right_shift] to each
    cached right; returns the objects it updated, nearest first. *)
Fixpoint _post_insert_update_cached_parent_right (chain : list node)
  (instance : node) (right_shift : Z) (seen : list node) : M (list node) :=
  let instance' := set_rght (rght instance + right_shift) instance in
  match chain with
  | [] => ret [instance']
  | p :: rest =>
      let seen' := instance' :: seen in
      if existsb (node_eqb p) seen'
      then raise (InvalidMove EmptyString)
      else
        ups <- _post_insert_update_cached_parent_right rest p right_shift seen' ;;
        ret (instance' :: ups)
  end.

Definition _calculate_inter_tree_move_values (nd : node) (target : inst)
  (position : string) : M (Z * Z * Z * option inst * Z) :=
  let left := lft nd in
  let lvl := level nd in
  let target_left := lft (fields target) in
  let target_right := rght (fields target) in
  let target_level := level (fields target) in
  '(space_target, level_change, parent) <-
    (if is_child_position position
     then
       ret (if eqs position "last-child" then target_right - 1 else target_left,
            lvl - target_level - 1,
            Some target)
     else if is_sibling_position position
     then
       par <- get_parent target ;;
       ret (if eqs position "left" then target_left - 1 else target_right,
            lvl - target_level,
            par)
     else raise (invalid_position position)) ;;
  let left_right_change := left - space_target - 1 in
  let right_shift := match parent with
                     | Some _ => 2 * (get_descendant_count nd + 1)
                     | None => 0
                     end in
  ret (space_target, level_change, left_right_change, parent, right_shift).

Definition _inter_tree_move_and_close_gap (nd : node)
  (level_change left_right_change new_tree_id : Z) : M unit :=
  let left := lft nd in
  let right := rght nd in
  let gap_size := right - left + 1 in
  let gap_target_left := left - 1 in
  let new_tree_id := clean_tree_ids new_tree_id in
  let current_tree_id := clean_tree_ids (tree_id nd) in
  execute (fun r => tree_id r =? current_tree_id)
    (fun r =>
       mkNode (pk r) (parent r)
         (if between left right (lft r) then lft r - left_right_change
          else if lft r >? gap_target_left then lft r - gap_size
          else lft r)
         (if between left right (rght r) then rght r - left_right_change
          else if rght r >? gap_target_left then rght r - gap_size
          else rght r)
         (if between left right (lft r) then level r - level_change
          else level r)
         (if between left right (lft r) then new_tree_id else tree_id r)
         (okey r)).

Definition _make_child_root_node (nd : node) (new_tree_id : option Z) : M node :=
  let left := lft nd in
  let right := rght nd in
  let lvl := level nd in
  new_tree_id <- match new_tree_id with
                 | Some t => if t =? 0 then _get_next_tree_id else ret t
                 | None => _get_next_tree_id
                 end ;;
  let left_right_change := left - 1 in
  _inter_tree_move_and_close_gap nd lvl left_right_change new_tree_id ;;;
  ret (set_parent None
         (set_tree_id new_tree_id
            (set_level 0
               (set_rght (right - left_right_change)
                  (set_lft (left - left_right_change) nd))))).

Definition _make_sibling_of_root_node (nd : node) (target : inst)
  (position : string) : M node :=
  if node_eqb nd (fields target)
  then raise (InvalidMove "A node may not be made a sibling of itself.")
  else
    let tid := tree_id nd in
    let target_tree_id := tree_id (fields target) in
    if is_child_node nd
    then
      '(space_target, new_tree_id) <-
        (if eqs position "left" then ret (target_tree_id - 1, target_tree_id)
         else if eqs position "right" then ret (target_tree_id, target_tree_id + 1)
         else raise (invalid_position position)) ;;
      _create_tree_space space_target 1 ;;;
      _make_child_root_node
        (if tid >? space_target then set_tree_id (tid + 1) nd else nd)
        (Some new_tree_id)
    else
      plan <-
        (if eqs position "left"
         then
           if target_tree_id >? tid
           then
             left_sibling <- get_previous_sibling (fields target) ;;
             match left_sibling with
             | Some s =>
                 if node_eqb nd s then ret None
                 else ret (Some (tree_id s, tid, tree_id s, -1))
             | None => raise AttributeError
             end
           else ret (Some (target_tree_id, target_tree_id, tid, 1))
         else if eqs position "right"
         then
           if target_tree_id >? tid
           then ret (Some (target_tree_id, tid, target_tree_id, -1))
           else
             right_sibling <- get_next_sibling (fields target) ;;
             match right_sibling with
             | Some s =>
                 if node_eqb nd s then ret None
                 else ret (Some (tree_id s, tree_id s, tid, 1))
             | None => raise AttributeError
             end
         else raise (invalid_position position)) ;;
      match plan with
      | None => ret nd
      | Some (new_tree_id, lower_bound, upper_bound, shift) =>
          execute (fun r => between lower_bound upper_bound (tree_id r))
            (fun r =>
               set_tree_id
                 (if tree_id r =? clean_tree_ids tid
                  then clean_tree_ids new_tree_id
                  else tree_id r + shift) r) ;;;
          ret (set_tree_id new_tree_id nd)
      end.

Definition parent_pk (par : option inst) : M (option Z) :=
  match par with
  | Some q => ret (pk (fields q))
  | None => raise AttributeError
  end.

Definition _move_child_to_new_tree (nd : node) (target : inst)
  (position : string) : M node :=
  let left := lft nd in
  let right := rght nd in
  let lvl := level nd in
  let new_tree_id := tree_id (fields target) in
  '(space_target, level_change, left_right_change, par, new_parent_right) <-
    _calculate_inter_tree_move_values nd target position ;;
  let tree_width := right - left + 1 in
  _create_space tree_width space_target new_tree_id ;;;
  _inter_tree_move_and_close_gap nd level_change left_right_change new_tree_id ;;;
  ppk <- parent_pk par ;;
  ret (set_parent ppk
         (set_tree_id new_tree_id
            (set_level (lvl - level_change)
               (set_rght (right - left_right_change)
                  (set_lft (left - left_right_change) nd))))).

Definition _move_child_within_tree (nd : node) (target : inst)
  (position : string) : M node :=
  let left := lft nd in
  let right := rght nd in
  let lvl := level nd in
  let width := right - left + 1 in
  let tid := tree_id nd in
  let target_left := lft (fields target) in
  let target_right := rght (fields target) in
  let target_level := level (fields target) in
  '(new_left, new_right, level_change, par) <-
    (if is_child_position position
     then
       if node_eqb nd (fields target)
       then raise (InvalidMove "A node may not be made a child of itself.")
       else if (left <? target_left) && (target_left <? right)
       then raise (InvalidMove "A node may not be made a child of any of its descendants.")
       else
         let '(new_left, new_right) :=
           if eqs position "last-child"
           then
             if target_right >? right
             then (target_right - width, target_right - 1)
             else (target_right, target_right + width - 1)
           else
             if target_left >? left
             then (target_left - width + 1, target_left)
             else (target_left + 1, target_left + width) in
         ret (new_left, new_right, lvl - target_level - 1, Some target)
     else if is_sibling_position position
     then
       if node_eqb nd (fields target)
       then raise (InvalidMove "A node may not be made a sibling of itself.")
       else if (left <? target_left) && (target_left <? right)
       then raise (InvalidMove "A node may not be made a sibling of any of its descendants.")
       else
         let '(new_left, new_right) :=
           if eqs position "left"
           then
             if target_left >? left
             then (target_left - width, target_left - 1)
             else (target_left, target_left + width - 1)
           else
             if target_right >? right
             then (target_right - width + 1, target_right)
             else (target_right + 1, target_right + width) in
         par <- get_parent target ;;
         ret (new_left, new_right, lvl - target_level, par)
     else raise (invalid_position position)) ;;
  let left_boundary := Z.min left new_left in
  let right_boundary := Z.max right new_right in
  let left_right_change := new_left - left in
  let gap_size := if left_right_change >? 0 then - width else width in
  execute (fun r => tree_id r =? clean_tree_ids tid)
    (fun r =>
       mkNode (pk r) (parent r)
         (if between left right (lft r) then lft r + left_right_change
          else if between left_boundary right_boundary (lft r) then lft r + gap_size
          else lft r)
         (if between left right (rght r) then rght r + left_right_change
          else if between left_boundary right_boundary (rght r) then rght r + gap_size
          else rght r)
         (if between left right (lft r) then level r - level_change else level r)
         (tree_id r)
         (okey r)) ;;;
  ppk <- parent_pk par ;;
  ret (set_parent ppk
         (set_level (lvl - level_change)
            (set_rght new_right (set_lft new_left nd)))).

Definition _move_root_node (nd : node) (target : inst)
  (position : string) : M node :=
  let left := lft nd in
  let right := rght nd in
  let lvl := level nd in
  let tid := tree_id nd in
  let new_tree_id := tree_id (fields target) in
  let width := right - left + 1 in
  if node_eqb nd (fields target)
  then raise (InvalidMove "A node may not be made a child of itself.")
  else if tid =? new_tree_id
  then raise (InvalidMove "A node may not be made a child of any of its descendants.")
  else
    '(space_target, level_change, left_right_change, par, right_shift) <-
      _calculate_inter_tree_move_values nd target position ;;
    _create_space width space_target new_tree_id ;;;
    execute (fun r => between left right (lft r) && (tree_id r =? clean_tree_ids tid))
      (fun r =>
         mkNode (pk r) (parent r)
           (lft r - left_right_change)
           (rght r - left_right_change)
           (level r - level_change)
           (clean_tree_ids new_tree_id)
           (okey r)) ;;;
    ppk <- parent_pk par ;;
    ret (set_parent ppk
           (set_tree_id new_tree_id
              (set_level (lvl - level_change)
                 (set_rght (right - left_right_change)
                    (set_lft (left - left_right_change) nd))))).

Definition _move_child_node (nd : node) (target : inst)
  (position : string) : M node :=
  let tid := tree_id nd in
  let target_tree_id := tree_id (fields target) in
  if tid =? target_tree_id
  then _move_child_within_tree nd target position
  else _move_child_to_new_tree nd target position.

(** ** Inserting nodes *)

Definition as_new_root (tid : Z) (nd : node) : node :=
  set_parent None (set_tree_id tid (set_level 0 (set_rght 2 (set_lft 1 nd)))).

(** Returns the positioned node and the cached ancestors whose right it
    shifted (empty when none). *)
Definition insert_node (nd : node) (target : option inst) (position : string)
  (save allow_existing_pk refresh_target : bool) : M (node * list node) :=
  st <- get ;;
  if truthy_pk (pk nd) && negb allow_existing_pk && pk_exists (pk nd) (rows st)
  then raise already_saved
  else
    '(nd', ups) <-
      match target with
      | None =>
          tid <- _get_next_tree_id ;;
          ret (as_new_root tid nd, [])
      | Some target =>
          if is_root_node (fields target) && is_sibling_position position
          then
            target <- (if refresh_target then _mptt_refresh target else ret target) ;;
            let target_tree_id := tree_id (fields target) in
            '(tid, space_target) <-
              (if eqs position "left"
               then
                 space_target <- (if root_node_ordering opts
                                  then ret (target_tree_id - 1)
                                  else _get_next_tree_id) ;;
                 ret (target_tree_id, space_target)
               else
                 tid <- (if root_node_ordering opts
                         then ret (target_tree_id + 1)
                         else _get_next_tree_id) ;;
                 ret (tid, target_tree_id)) ;;
            (if root_node_ordering opts
             then _create_tree_space space_target 1
             else ret tt) ;;;
            ret (as_new_root tid nd, [])
          else
            let nd0 := set_level 0 (set_lft 0 nd) in
            target <- (if refresh_target then _mptt_refresh target else ret target) ;;
            '(space_target, level_change, left_change, par, right_shift) <-
              _calculate_inter_tree_move_values nd0 target position ;;
            let tid := tree_id (fields target) in
            _create_space 2 space_target tid ;;;
            let nd1 :=
              set_parent (match par with Some q => pk (fields q) | None => None end)
                (set_tree_id tid
                   (set_level (- level_change)
                      (set_rght (- left_change + 1) (set_lft (- left_change) nd0)))) in
            match par with
            | Some q =>
                ups <- _post_insert_update_cached_parent_right
                         (cached_chain q) (fields q) right_shift [] ;;
                ret (nd1, ups)
            | None => ret (nd1, [])
            end
      end ;;
    if save
    then nd'' <- node_save nd' ;; ret (nd'', ups)
    else ret (nd', ups).

(** [insert_node] once more, now following the instance [node]: the
    same statements in the same order, with each [setattr(node, ...)]
    where the source has it.  It returns the cached ancestors whose right
    it shifted; the positioned node is the instance it ends with. *)
Definition insert_node_instance (target : option inst) (position : string)
  (save allow_existing_pk refresh_target : bool) : MI (list node) :=
  bindI self (fun nd =>
  bindI (liftI get) (fun st =>
  if truthy_pk (pk nd) && negb allow_existing_pk && pk_exists (pk nd) (rows st)
  then liftI (raise already_saved)
  else
    bindI
      (match target with
       | None =>
           bindI (liftI _get_next_tree_id) (fun tid =>
           bindI (setattr (as_new_root tid)) (fun _ =>
           retI []))
       | Some target =>
           if is_root_node (fields target) && is_sibling_position position
           then
             bindI (liftI (if refresh_target then _mptt_refresh target else ret target))
               (fun target =>
             let target_tree_id := tree_id (fields target) in
             bindI (liftI
                      (if eqs position "left"
                       then
                         space_target <- (if root_node_ordering opts
                                          then ret (target_tree_id - 1)
                                          else _get_next_tree_id) ;;
                         ret (target_tree_id, space_target)
                       else
                         tid <- (if root_node_ordering opts
                                 then ret (target_tree_id + 1)
                                 else _get_next_tree_id) ;;
                         ret (tid, target_tree_id)))
               (fun ids =>
             bindI (liftI (if root_node_ordering opts
                           then _create_tree_space (snd ids) 1
                           else ret tt)) (fun _ =>
             bindI (setattr (as_new_root (fst ids))) (fun _ =>
             retI []))))
           else
             bindI (setattr (fun n => set_level 0 (set_lft 0 n))) (fun _ =>
             bindI (liftI (if refresh_target then _mptt_refresh target else ret target))
               (fun target =>
             bindI self (fun nd0 =>
             bindI (liftI (_calculate_inter_tree_move_values nd0 target position))
               (fun values =>
             let '(space_target, level_change, left_change, par, right_shift) := values in
             let tid := tree_id (fields target) in
             bindI (liftI (_create_space 2 space_target tid)) (fun _ =>
             bindI (setattr
                      (fun n =>
                         set_parent (match par with
                                     | Some q => pk (fields q)
                                     | None => None
                                     end)
                           (set_tree_id tid
                              (set_level (- level_change)
                                 (set_rght (- left_change + 1)
                                    (set_lft (- left_change) n)))))) (fun _ =>
             match par with
             | Some q =>
                 liftI (_post_insert_update_cached_parent_right
                          (cached_chain q) (fields q) right_shift [])
             | None => retI []
             end))))))
       end)
      (fun ups =>
       if save
       then
         bindI self (fun n =>
         bindI (liftI (node_save n)) (fun saved =>
         bindI (setattr (fun _ => saved)) (fun _ =>
         retI ups)))
       else retI ups))).

Definition _move_node (nd : node) (target : option inst) (position : string)
  (save refresh_target : bool) : M (node * list node) :=
  st <- get ;;
  if mptt_is_tracking st
  then insert_node nd target position save true refresh_target
  else
    nd' <-
      match target with
      | None =>
          if is_child_node nd then _make_child_root_node nd None else ret nd
      | Some target =>
          if is_root_node (fields target) && is_sibling_position position
          then _make_sibling_of_root_node nd target position
          else if is_root_node nd
          then _move_root_node nd target position
          else _move_child_node nd target position
      end ;;
    ret (nd', []).

(** [move_node]: the move, then [node.save()]; the [node_moved] signal has
    no receiver in the store. *)
Definition move_node (nd : node) (target : option inst) (position : string) : M node :=
  '(nd', _) <- _move_node nd target position true true ;;
  node_save nd'.

(** ** Rebuilding from parent links *)

(** [ORDER BY]: a stable sort of the rows in the order the table holds
    them. *)
Fixpoint insert_by (le : node -> node -> bool) (x : node) (l : list node) : list node :=
  match l with
  | [] => [x]
  | y :: l' => if le x y then x :: l else y :: insert_by le x l'
  end.

Fixpoint order_by (le : node -> node -> bool) (l : list node) : list node :=
  match l with
  | [] => []
  | x :: l' => insert_by le x (order_by le l')
  end.

(** The manager's default ordering, [(tree_id, left)]. *)
Definition tree_order (a b : node) : bool :=
  (tree_id a <? tree_id b) || ((tree_id a =? tree_id b) && (lft a <=? lft b)).

(** The declared [order_insertion_by] ordering. *)
Definition insertion_order (a b : node) : bool := okey a <=? okey b.

Definition rebuild_order : node -> node -> bool :=
  if order_insertion_by opts then insertion_order else tree_order.

(** [**filters]: the manager itself only ever passes [tree_id]. *)
Definition matches (filters : option Z) (r : node) : bool :=
  match filters with
  | Some t => tree_id r =? t
  | None => true
  end.

Definition _get_parents (filters : option Z) (rs : list node) : list node :=
  order_by rebuild_order (filter (fun r => is_root_node r && matches filters r) rs).

(** [defaultdict(list)] keyed by the parent's primary key. *)
Definition dict : Type := Z -> list node.

Definition dict_append (d : dict) (k : Z) (c : node) : dict :=
  fun k' => if k' =? k then d k' ++ [c] else d k'.

Definition dict_get (d : dict) (k : option Z) : list node :=
  match k with
  | Some k => d k
  | None => []
  end.

Definition _get_children (filters : option Z) (rs : list node) : dict :=
  fold_left (fun d c =>
               match parent c with
               | Some p => dict_append d p c
               | None => d
               end)
            (order_by rebuild_order
               (filter (fun r => is_child_node r && matches filters r) rs))
            (fun _ => []).

(** The loop over [children[node.pk]] inside [_rebuild_helper]: [visit] is
    the recursive call, the second component the running [right]. *)
Fixpoint helper_loop (visit : node -> Z -> option (list node * Z))
  (cs : list node) (right : Z) : option (list node * Z) :=
  match cs with
  | [] => Some ([], right)
  | c :: cs' =>
      match visit c right with
      | None => None
      | Some (us, right') =>
          match helper_loop visit cs' right' with
          | None => None
          | Some (us', right'') => Some (us ++ us', right'')
          end
      end
  end.

(** Returns what the call appended to [nodes_to_update] and its return
    value; [None] when the recursion is deeper than [fuel]. *)
Fixpoint _rebuild_helper (fuel : nat) (children : dict) (nd : node)
  (left tid lvl : Z) : option (list node * Z) :=
  match fuel with
  | O => None
  | S fuel' =>
      match helper_loop
              (fun child right => _rebuild_helper fuel' children child right tid (lvl + 1))
              (dict_get children (pk nd)) (left + 1) with
      | None => None
      | Some (us, r) =>
          Some (us ++ [set_tree_id tid (set_level lvl (set_rght r (set_lft left nd)))],
                r + 1)
      end
  end.

(** [bulk_update(nodes_to_update, rebuild fields)]: each row takes the four
    fields of the object carrying its primary key; [batch_size] only cuts
    the write into statements. *)
Definition write_fields (objs : list node) (r : node) : node :=
  match find (fun u => opt_eqb (pk u) (pk r)) objs with
  | Some u => mkNode (pk r) (parent r) (lft u) (rght u) (level u) (tree_id u) (okey r)
  | None => r
  end.

Definition bulk_update (objs : list node) : M unit :=
  modify (fun st => with_rows (map (write_fields objs) (rows st)) st).

Definition bulk_create (objs : list node) : M unit :=
  modify (fun st => with_rows (rows st ++ objs) st).

(** The loop over [enumerate(parents)] inside [rebuild]. *)
Fixpoint rebuild_roots (fuel : nat) (children : dict) (tid : Z) (index : Z)
  (parents : list node) : M (list node) :=
  match parents with
  | [] => ret []
  | p :: parents' =>
      root_tid <- (if root_node_ordering opts
                   then ret (tid + index)
                   else fun st => (with_draws (S (uuid_draws st)) st,
                                   Ok (uuid4 (uuid_draws st)))) ;;
      match _rebuild_helper fuel children p 1 root_tid 0 with
      | None => raise RecursionError
      | Some (us, _) =>
          us' <- rebuild_roots fuel children tid (index + 1) parents' ;;
          ret (us ++ us')
      end
  end.

Definition log (e : event) : M unit :=
  modify (fun st => with_journal (journal st ++ [e]) st).

Definition rebuild (filters : option Z) : M unit :=
  log (EvRebuild filters) ;;;
  st <- get ;;
  let parents := _get_parents filters (rows st) in
  let children := _get_children filters (rows st) in
  let tid := match filters with
             | Some t => t
             | None => 1
             end in
  nodes_to_update <- rebuild_roots (S (List.length (rows st))) children tid 0 parents ;;
  bulk_update nodes_to_update.

Definition partial_rebuild (tid : Z) : M unit :=
  log (EvPartialRebuild tid) ;;;
  st <- get ;;
  let count := List.length (filter (fun r => is_root_node r && (tree_id r =? tid)) (rows st)) in
  if (count =? 0)%nat then ret tt
  else if (count =? 1)%nat then rebuild (Some tid)
  else raise (RuntimeError
                "More than one root node with tree_id %d. That's invalid, do a full rebuild."
                tid).

(** ** Building a tree from a nested description *)

(** A nested dictionary: the fields the model is constructed from (its
    key, parent key and ordering value) and the list under [children]. *)
#[warnings="-register-all"]
Inductive tree_data : Type :=
| Data (d : node) (children : list tree_data).

(** The loop [for child in children: cursor = treeify(child, cursor + 1,
    level + 1)]; [visit] is the recursive call. *)
Fixpoint treeify_children (visit : tree_data -> Z -> list node * Z)
  (children : list tree_data) (cursor : Z) : list node * Z :=
  match children with
  | [] => ([], cursor)
  | child :: rest =>
      let '(s1, c1) := visit child (cursor + 1) in
      let '(s2, c2) := treeify_children visit rest c1 in
      (s1 ++ s2, c2)
  end.

(** Returns the nodes pushed on [stack], in the order pushed and with the
    right each of them ends up with, and the returned cursor. *)
Fixpoint treeify (tid : Z) (data : tree_data) (cursor lvl : Z) : list node * Z :=
  match data with
  | Data d children =>
      let nd := set_lft cursor (set_level lvl (set_tree_id tid d)) in
      let '(sub, cursor1) :=
        treeify_children (fun child c => treeify tid child c (lvl + 1)) children cursor in
      let cursor2 := cursor1 + 1 in
      (set_rght cursor2 nd :: sub, cursor2)
  end.

Definition build_tree_nodes (data : tree_data) (target : option node)
  (position : string) : M (list node) :=
  '(tid, cursor, lvl) <-
    match target with
    | Some t =>
        ret (tree_id t,
             (if is_sibling_position position
              then if eqs position "left" then lft t else rght t + 1
              else if eqs position "first-child" then lft t + 1 else rght t),
             (if is_sibling_position position then level t else level t + 1))
    | None =>
        tid <- _get_next_tree_id ;;
        ret (tid, 1, 0)
    end ;;
  let stack := fst (treeify tid data cursor lvl) in
  match target with
  | Some _ => _create_space (2 * Z.of_nat (List.length stack)) (cursor - 1) tid
  | None => ret tt
  end ;;;
  ret stack.

(** ** Suspending and delaying updates *)

Definition disable_mptt_updates {A : Type} (body : M A) : M A :=
  if meta_abstract opts
  then raise (CantDisableUpdates "it's an abstract model")
  else if meta_proxy opts
  then raise (CantDisableUpdates "it's a proxy model")
  else if negb (owns_tree_fields opts)
  then raise (CantDisableUpdates "it doesn't contain the mptt fields")
  else
    st <- get ;;
    if negb (mptt_updates_enabled st)
    then body
    else
      _set_mptt_updates_enabled false ;;;
      try_finally body (_set_mptt_updates_enabled true).

Definition delay_mptt_updates (body : M unit) : M unit :=
  disable_mptt_updates
    (st <- get ;;
     if mptt_is_tracking st
     then body
     else
       _mptt_start_tracking ;;;
       try_except body (fun e => _mptt_stop_tracking ;;; raise e) ;;;
       results <- _mptt_stop_tracking ;;
       for_each results partial_rebuild).

End Manager.

Arguments disable_mptt_updates opts {A} body.

(** ** Sample data and specification predicates *)

Definition sequential_opts : mptt_meta :=
  mkMeta true false false false true (fun n => 900 + Z.of_nat n).

Definition generator_opts : mptt_meta :=
  mkMeta false false false false true (fun n => 900 + Z.of_nat n).

Definition sample_uuid4 (n : nat) : Z := 5000 + Z.of_nat n.

(** A tree [A(B, C)] with tree id 1 and a single-node tree [D] with tree
    id 2. *)
Definition node_A : node := mkNode (Some 1) None 1 6 0 1 0.
Definition node_B : node := mkNode (Some 2) (Some 1) 2 3 1 1 0.
Definition node_C : node := mkNode (Some 3) (Some 1) 4 5 1 1 0.
Definition node_D : node := mkNode (Some 4) None 1 2 0 2 0.

Definition scenario_store : store :=
  mkStore [node_A; node_B; node_C; node_D] true false [] 0 [].

(** The same table inside a delayed-update scope. *)
Definition tracking_store : store :=
  mkStore [node_A; node_B; node_C; node_D] false true [] 0 [].

(** What [create_space size target tid] does to one row. *)
Definition shifted_by (size target tid : Z) (r r' : node) : Prop :=
  pk r' = pk r /\ parent r' = parent r /\ level r' = level r /\
  tree_id r' = tree_id r /\ okey r' = okey r /\
  (tree_id r = tid ->
     (lft r > target -> lft r' = lft r + size) /\
     (lft r <= target -> lft r' = lft r) /\
     (rght r > target -> rght r' = rght r + size) /\
     (rght r <= target -> rght r' = rght r)) /\
  (tree_id r <> tid -> r' = r).

(** Number of roots carrying a tree id. *)
Definition roots_of_tree (tid : Z) (st : store) : nat :=
  List.length (filter (fun r => is_root_node r && (tree_id r =? tid)) (rows st)).

(** The four position tokens. *)
Definition valid_position (position : string) : bool :=
  is_child_position position || is_sibling_position position.

(** The target is a descendant of the node: a child node of the node's
    tree whose left lies strictly inside the node's interval. *)
Definition onto_descendant (nd : node) (target : inst) : Prop :=
  is_child_node (fields target) = true /\
  tree_id (fields target) = tree_id nd /\
  lft nd < lft (fields target) < rght nd.

(** Outside a tracking scope the procedure a move is handed to compares
    the node with its target: always for a root target taken as a sibling
    and for a root node, and for a child node when the target carries the
    node's tree id. *)
Definition self_checked (nd : node) (target : inst) (position : string) : Prop :=
  (is_root_node (fields target) = true /\ is_sibling_position position = true) \/
  is_root_node nd = true \/
  tree_id nd = tree_id (fields target).

(** [getattr(target, parent_attr)] finds the object its foreign key names. *)
Definition parent_resolves (st : store) (t : inst) : Prop :=
  match cached_chain t with
  | c :: _ => pk c = parent (fields t)
  | [] => pk_exists (parent (fields t)) (rows st) = true
  end.

(** [target] and [position] name the place [nd] already occupies: last or
    first child of its own parent, left of its right neighbour, right of
    its left neighbour (among children, or among roots ordered by tree
    id), or no target for a node that is a root. *)
Inductive current_position (st : store) (nd : node) : option inst -> string -> Prop :=
| at_last_child (t : inst) :
    parent nd = pk (fields t) -> parent nd <> None -> pk nd <> pk (fields t) ->
    tree_id nd = tree_id (fields t) -> level nd = level (fields t) + 1 ->
    lft (fields t) < lft nd -> lft nd < rght nd -> rght nd + 1 = rght (fields t) ->
    current_position st nd (Some t) "last-child"
| at_first_child (t : inst) :
    parent nd = pk (fields t) -> parent nd <> None -> pk nd <> pk (fields t) ->
    tree_id nd = tree_id (fields t) -> level nd = level (fields t) + 1 ->
    lft (fields t) + 1 = lft nd -> lft nd < rght nd -> rght nd < rght (fields t) ->
    current_position st nd (Some t) "first-child"
| at_left_of_right_sibling (t : inst) :
    parent nd = parent (fields t) -> parent nd <> None -> pk nd <> pk (fields t) ->
    parent_resolves st t ->
    tree_id nd = tree_id (fields t) -> level nd = level (fields t) ->
    lft nd < rght nd -> rght nd + 1 = lft (fields t) ->
    current_position st nd (Some t) "left"
| at_right_of_left_sibling (t : inst) :
    parent nd = parent (fields t) -> parent nd <> None -> pk nd <> pk (fields t) ->
    parent_resolves st t ->
    tree_id nd = tree_id (fields t) -> level nd = level (fields t) ->
    lft (fields t) < rght (fields t) -> rght (fields t) + 1 = lft nd -> lft nd < rght nd ->
    current_position st nd (Some t) "right"
| at_left_of_next_root (t : inst) (s : node) :
    is_root_node nd = true -> is_root_node (fields t) = true ->
    pk nd <> pk (fields t) -> tree_id nd < tree_id (fields t) ->
    snd (get_previous_sibling (fields t) st) = Ok (Some s) -> pk s = pk nd ->
    current_position st nd (Some t) "left"
| at_right_of_previous_root (t : inst) (s : node) :
    is_root_node nd = true -> is_root_node (fields t) = true ->
    pk nd <> pk (fields t) -> tree_id (fields t) < tree_id nd ->
    snd (get_next_sibling (fields t) st) = Ok (Some s) -> pk s = pk nd ->
    current_position st nd (Some t) "right"
| at_root_without_target (position : string) :
    is_root_node nd = true ->
    current_position st nd None position.

(** [_mptt_refresh] finds the target's row (or the target has no key to
    look up). *)
Definition target_refreshable (st : store) (t : inst) : Prop :=
  truthy_pk (pk (fields t)) = false \/ pk_exists (pk (fields t)) (rows st) = true.

(** No check of [move_node] fires before the position is looked at:
    outside a tracking scope a root node is tested against its target
    first; inside one the target is refreshed first. *)
Definition move_reaches_position (st : store) (nd : node) (t : inst) : Prop :=
  if mptt_is_tracking st
  then target_refreshable st t
  else is_root_node nd = false \/
       (node_eqb nd (fields t) = false /\ tree_id nd <> tree_id (fields t)).

(** No check of [insert_node] fires before the position is looked at. *)
Definition insert_reaches_position (st : store) (nd : node) (t : inst)
  (allow_existing_pk refresh_target : bool) : Prop :=
  truthy_pk (pk nd) && negb allow_existing_pk && pk_exists (pk nd) (rows st) = false /\
  (refresh_target = true -> target_refreshable st t).

(** A table whose only row has primary key 0, and an instance carrying
    that key. *)
Definition zero_root : node := mkNode (Some 0) None 1 2 0 1 0.
Definition zero_store : store := mkStore [zero_root] true false [] 0 [].
Definition zero_node : node := mkNode (Some 0) None 0 0 0 0 7.

(** The tree ids [partial_rebuild] was called with, in call order. *)
Definition partial_rebuild_calls (j : list event) : list Z :=
  flat_map (fun e => match e with
                     | EvPartialRebuild t => [t]
                     | EvRebuild _ => []
                     end) j.

(** The store with which the body of a delayed-update scope starts. *)
Definition entered_scope (st : store) : store :=
  with_tracked [] (with_flags false true st).

(** A body that records tree 1 by asking for space in it. *)
Definition sample_body : M unit := _create_space 2 1 1.

(** A body that records tree 1 and then fails. *)
Definition failing_body : M unit :=
  _create_space 2 1 1 ;;; raise (ValueError "stop").

(** Stores that differ in rows, identifier draws and journal only. *)
Definition same_switches (st st' : store) : Prop :=
  mptt_updates_enabled st' = mptt_updates_enabled st /\
  mptt_is_tracking st' = mptt_is_tracking st /\
  mptt_delayed_tree_changes st' = mptt_delayed_tree_changes st.

(** [above rs n k a]: following parent links [n] times from the row with
    key [k] leads to key [a]. *)
Inductive above (rs : list node) : nat -> option Z -> option Z -> Prop :=
| above_O (k : option Z) : above rs 0 k k
| above_S (n : nat) (r : node) (p : Z) (a : option Z) :
    In r rs -> parent r = Some p -> above rs n (Some p) a ->
    above rs (S n) (pk r) a.

(** What [bulk_update] reads of an object: its key and the four fields. *)
Definition entry (u : node) : option Z * Z * Z * Z * Z :=
  (pk u, lft u, rght u, level u, tree_id u).

(** A node without its tree id. *)
Definition shape (u : node) : option Z * option Z * Z * Z * Z * Z :=
  (pk u, parent u, lft u, rght u, level u, okey u).

(** The emitted nodes, as the call at a root returns them. *)
Definition emitted (fuel : nat) (ch : dict) (p : node) (tid : Z) : list node :=
  match _rebuild_helper fuel ch p 1 tid 0 with
  | Some (us, _) => us
  | None => []
  end.

(** What [bulk_update] reads of an object besides its tree id. *)
Definition geometry (u : node) : option Z * Z * Z * Z :=
  (pk u, lft u, rght u, level u).

(** The tree ids [rebuild] hands to the [n] roots it walks, starting at
    index [idx] with [draws] identifiers already drawn. *)
Definition root_tids (opts : mptt_meta) (uuid4 : nat -> Z) (tid idx : Z)
  (draws n : nat) : list Z :=
  map (fun i => if root_node_ordering opts
                then tid + idx + Z.of_nat i
                else uuid4 (draws + i)%nat) (seq 0 n).

(** The nodes [rebuild] collects when every walk returns. *)
Definition collected (fuel : nat) (ch : dict) (parents : list node)
  (tids : list Z) : list node :=
  flat_map (fun pt => emitted fuel ch (fst pt) (snd pt)) (combine parents tids).

(** Every node of [ps] is a root row of the table [rs]. *)
Definition all_roots (rs ps : list node) : Prop :=
  forall p, In p ps -> In p rs /\ parent p = None.

(** Strictly earlier in the manager's default ordering. *)
Definition tree_before (a b : node) : Prop :=
  tree_order a b = true /\ tree_order b a = false.

(** The store a full rebuild leaves, given the objects it wrote. *)
Definition rebuilt (opts : mptt_meta) (objs : list node) (roots : nat) (st : store) : store :=
  mkStore (map (write_fields objs) (rows st))
          (mptt_updates_enabled st) (mptt_is_tracking st)
          (mptt_delayed_tree_changes st)
          (if root_node_ordering opts then uuid_draws st else (uuid_draws st + roots)%nat)
          (journal st ++ [EvRebuild None]).

(** The objects a full rebuild of the table of [st] writes. *)
Definition rebuild_objects (opts : mptt_meta) (uuid4 : nat -> Z) (st : store) : list node :=
  collected (S (List.length (rows st))) (_get_children opts None (rows st))
    (_get_parents opts None (rows st))
    (root_tids opts uuid4 1 0 (uuid_draws st)
       (List.length (_get_parents opts None (rows st)))).

(** A table of two single-node trees, for the generator mode. *)
Definition lone_roots : store :=
  mkStore [mkNode (Some 1) None 1 2 0 7 0; mkNode (Some 2) None 1 2 0 3 0]
          true false [] 0 [].

(** ** Nested descriptions *)

Definition top (data : tree_data) : node :=
  match data with Data d _ => d end.

Definition subtrees (data : tree_data) : list tree_data :=
  match data with Data _ cs => cs end.

(** The dictionaries of a description, parents before children. *)
Fixpoint data_nodes (data : tree_data) : list node :=
  match data with
  | Data d cs => d :: flat_map data_nodes cs
  end.

Definition data_keys (data : tree_data) : list (option Z) :=
  map pk (data_nodes data).

(** Every dictionary has a key, and its parent key is the key of the
    dictionary it is nested in ([par] for the outermost one). *)
Fixpoint linked (par : option Z) (data : tree_data) : Prop :=
  match data with
  | Data d cs =>
      parent d = par /\ pk d <> None /\
      fold_right (fun c acc => linked (pk d) c /\ acc) True cs
  end.

(** Children are listed in the declared order. *)
Fixpoint ordered (data : tree_data) : Prop :=
  match data with
  | Data d cs =>
      StronglySorted (fun a b => okey a <= okey b) (map top cs) /\
      fold_right (fun c acc => ordered c /\ acc) True cs
  end.

(** Each dictionary with the children listed under it. *)
Fixpoint families (data : tree_data) : list (node * list node) :=
  match data with
  | Data d cs => (d, map top cs) :: flat_map families cs
  end.

(** Key, parent and ordering value, which the builder leaves alone. *)
Definition same_identity (v d : node) : Prop :=
  pk v = pk d /\ parent v = parent d /\ okey v = okey d.

(** None of the keys of the description is in use in the table, as a key
    or as a parent. *)
Definition fresh_keys (data : tree_data) (rs : list node) : Prop :=
  forall k, In k (data_keys data) ->
            ~ In k (map pk rs) /\ ~ In k (map parent rs).

(** Build the records of a description, create their rows, rebuild. *)
Definition build_then_rebuild (opts : mptt_meta) (uuid4 : nat -> Z)
  (data : tree_data) (target : option node) (position : string) : M (list node) :=
  records <- build_tree_nodes opts data target position ;;
  bulk_create records ;;;
  rebuild opts uuid4 None ;;;
  ret records.

(** A description [7(8(9))] as in the docstring of [build_tree_nodes], and
    the same without the parent keys. *)
Definition sample_data : tree_data :=
  Data (mkNode (Some 7) None 0 0 0 0 0)
    [Data (mkNode (Some 8) (Some 7) 0 0 0 0 0)
       [Data (mkNode (Some 9) (Some 8) 0 0 0 0 0) []]].

Definition unlinked_data : tree_data :=
  Data (mkNode (Some 7) None 0 0 0 0 0)
    [Data (mkNode (Some 8) None 0 0 0 0 0) []].

Definition empty_store : store := mkStore [] true false [] 0 [].

(** What one call of [treeify] pushes: the description's dictionaries in
    order, with the call's tree id and strictly increasing lefts that
    start at the cursor and stay below the returned cursor. *)
Definition pushed (tid : Z) (data : list node) (cursor ret : Z) (stack : list node) : Prop :=
  Forall2 same_identity stack data /\
  StronglySorted (fun a b => lft a < lft b) stack /\
  Forall (fun v => cursor <= lft v /\ lft v < ret /\ tree_id v = tid) stack.

(** ** Positions and tree ids under a shift *)

(** Where the space query sends a left or right value, and
    [_create_tree_space] a tree id: values above [target] move by
    [size]. *)
Definition shift_above (size target x : Z) : Z :=
  if x >? target then x + size else x.

(** A value the rows of tree [tid] do not use as a left or a right. *)
Definition unused_position (tid x : Z) (rs : list node) : Prop :=
  Forall (fun r => tree_id r = tid -> lft r <> x /\ rght r <> x) rs.

(** The position at which a node placed at [position] relative to [t]
    starts: [t]'s right for a last child, just after [t]'s left for a
    first child, [t]'s left for a left sibling, just after [t]'s right
    for a right sibling. *)
Definition insertion_point (t : node) (position : string) : Z :=
  if eqs position "last-child" then rght t
  else if eqs position "first-child" then lft t + 1
  else if eqs position "left" then lft t
  else rght t + 1.

(** ** Building at an anchor *)

(** The row [_create_space size target tid] leaves of [r] outside a
    tracking scope, and what it leaves of it in either case. *)
Definition opened (size target tid : Z) (r : node) : node :=
  if tree_id r =? tid
  then set_rght (shift_above size target (rght r))
         (set_lft (shift_above size target (lft r)) r)
  else r.

Definition spaced (tracking : bool) (size target tid : Z) (r : node) : node :=
  if tracking then r else opened size target tid r.

(** The key the outermost dictionary of a description built at [t] has to
    carry as its parent key: that of [t] for a child position, that of
    [t]'s parent for a sibling position. *)
Definition link_key (t : node) (position : string) : option Z :=
  if is_sibling_position position then parent t else pk t.

(** The order rebuild reads children in puts [v] among [kids] where
    [position] puts it relative to the row of key [k]: before all of them
    as first child, after all of them as last child (or with an unknown
    token), just before that row as its left sibling, just after it as
    its right sibling. *)
Definition placed (opts : mptt_meta) (position : string) (k : option Z) (v : node)
  (kids : list node) : Prop :=
  if is_sibling_position position
  then exists pre x post,
         kids = pre ++ x :: post /\ pk x = k /\
         if eqs position "left"
         then Forall (fun s => rebuild_order opts s v = true) pre /\
              rebuild_order opts x v = false
         else rebuild_order opts x v = true /\
              Forall (fun s => rebuild_order opts s v = false) post
  else if eqs position "first-child"
       then Forall (fun s => rebuild_order opts s v = false) kids
       else Forall (fun s => rebuild_order opts s v = true) kids.

(** What building [data] at the anchor [t] needs for a rebuild to agree
    with it.  The outermost dictionary carries the parent key the
    position stands for, and the nested ones the key of the dictionary
    they are nested in.  Where that parent key is a row's (the records go
    under a row of the table): the anchor is a row of the table, a
    rebuild of the table as it stands would hand the anchor the left,
    right and level it has, and the order rebuild reads children in puts
    the first record, among the rows already under that key in the table
    the builder leaves, where the position says.  Where there is none (a
    root taken as sibling): the first record starts at 1 on level 0, as
    roots do. *)
Definition anchored (opts : mptt_meta) (uuid4 : nat -> Z) (st : store) (t : node)
  (position : string) (data : tree_data) : Prop :=
  linked (link_key t position) data /\
  match build_tree_nodes opts data (Some t) position st with
  | (st0, Ok (v :: _)) =>
      match link_key t position with
      | None => lft v = 1 /\ level v = 0
      | Some _ =>
          In t (rows st) /\
          (exists e, In e (rebuild_objects opts uuid4 st) /\ pk e = pk t /\
                     lft e = lft t /\ rght e = rght t /\ level e = level t) /\
          placed opts position (pk t) v
            (dict_get (_get_children opts None (rows st0)) (link_key t position))
      end
  | _ => False
  end.

(** Key, left, right and level of the records a run returned, and of
    the rows the table then holds for them (its last rows). *)
Definition built_and_stored (run : store * result (list node))
  : option (list (option Z * Z * Z * Z) * list (option Z * Z * Z * Z)) :=
  match run with
  | (st', Ok records) =>
      Some (map geometry records,
            map geometry
              (skipn (List.length (rows st') - List.length records) (rows st')))
  | (_, Raise _) => None
  end.

(** A description [7(8)] to hang under the row of key 1; the scenario
    with a right of [A] that its two children do not account for; options
    that declare an insertion order. *)
Definition anchored_data : tree_data :=
  Data (mkNode (Some 7) (Some 1) 0 0 0 0 0)
    [Data (mkNode (Some 8) (Some 7) 0 0 0 0 0) []].

Definition stale_store : store :=
  mkStore [mkNode (Some 1) None 1 8 0 1 0; node_B; node_C; node_D] true false [] 0 [].

Definition ordering_opts : mptt_meta :=
  mkMeta true true false false true (fun n => 900 + Z.of_nat n).

(** ** Numbering *)

(** The [n] consecutive positions from [a] on. *)
Fixpoint positions_from (a : Z) (n : nat) : list Z :=
  match n with
  | O => []
  | S n' => a :: positions_from (a + 1) n'
  end.

(** The lefts and rights of a list of nodes. *)
Definition boundaries (vs : list node) : list Z :=
  flat_map (fun v => [lft v; rght v]) vs.

(** [stack] is numbered from [cursor] up to [ret]: its lefts and rights
    are the positions [cursor .. ret], each used once, and every node's
    left is below its right. *)
Definition numbered (cursor : Z) (stack : list node) (ret : Z) : Prop :=
  ret = cursor + 2 * Z.of_nat (List.length stack) - 1 /\
  Permutation (boundaries stack) (positions_from cursor (2 * List.length stack)) /\
  Forall (fun v => lft v < rght v) stack.

(** ** What a rebuild establishes *)

(** Every row of [rs] leads to a parentless row by following parent
    links: no dangling parent key, no cycle. *)
Definition forest (rs : list node) : Prop :=
  forall r, In r rs ->
    exists d root, In root rs /\ parent root = None /\ above rs d (pk r) (pk root).

(** Among [us], whoever is listed under the key of [u] has an entry
    strictly inside [u]'s interval, one level below, in [u]'s tree. *)
Definition nests (ch : dict) (us : list node) : Prop :=
  forall u x, In u us -> In x (dict_get ch (pk u)) ->
    exists e, In e us /\ pk e = pk x /\
              lft u < lft e /\ rght e < rght u /\
              level e = level u + 1 /\ tree_id e = tree_id u.

(** The nested-set conditions on a table: lefts below rights, roots
    starting at 1 on level 0, every child strictly inside its parent, one
    level below it and in its tree. *)
Definition nested_set (rs : list node) : Prop :=
  (forall r, In r rs -> lft r < rght r) /\
  (forall r, In r rs -> parent r = None -> lft r = 1 /\ level r = 0) /\
  (forall p c, In p rs -> In c rs -> pk p <> None -> parent c = pk p ->
     lft p < lft c /\ rght c < rght p /\
     level c = level p + 1 /\ tree_id c = tree_id p).

(** A table with a root and two rows whose parent links form a cycle. *)
Definition cyclic_store : store :=
  mkStore [mkNode (Some 1) None 0 0 0 0 0;
           mkNode (Some 2) (Some 3) 5 6 7 8 0;
           mkNode (Some 3) (Some 2) 9 10 11 12 0] true false [] 0 [].

(** ** Moves inside a tree *)

(** Where the subtree query of [_move_child_within_tree] sends a left or
    right value when the interval [left .. right] moves to start at
    [new_left]: the interval moves as a block, the positions between its
    old and its new place make way for it by its width, all others
    stay. *)
Definition rotate (left right new_left x : Z) : Z :=
  let width := right - left + 1 in
  let new_right := new_left + width - 1 in
  if between left right x then x + (new_left - left)
  else if between (Z.min left new_left) (Z.max right new_right) x
       then x + (if new_left - left >? 0 then - width else width)
       else x.

(** ** The instance and its row *)

(** The rows of [st'] are those of [st] rewritten one by one, keys kept,
    and what the rewriting makes of [nd] has the left, right, level and
    tree id of [n], which carries [nd]'s key. *)
Definition reflects (nd n : node) (st st' : store) : Prop :=
  exists f : node -> node,
    rows st' = map f (rows st) /\
    (forall r, pk (f r) = pk r) /\
    pk n = pk nd /\
    lft (f nd) = lft n /\ rght (f nd) = rght n /\
    level (f nd) = level n /\ tree_id (f nd) = tree_id n.

(** ** Querying the relatives of a queryset *)

Inductive direction : Type := Asc | Desc.

(** Strictly before, in [ORDER BY parent]: keys by value; [nulls_first]
    tells where the database puts rows without a parent. *)
Definition parent_before (nulls_first : bool) (a b : option Z) : bool :=
  match a, b with
  | None, None => false
  | None, Some _ => nulls_first
  | Some _, None => negb nulls_first
  | Some x, Some y => x <? y
  end.

(** [order_by(tree_id, parent, left)]. *)
Definition relatives_order (nulls_first : bool) (a b : node) : bool :=
  (tree_id a <? tree_id b) ||
  ((tree_id a =? tree_id b) &&
   (parent_before nulls_first (parent a) (parent b) ||
    (opt_eqb (parent a) (parent b) && (lft a <=? lft b)))).

(** The key [groupby] compares: tree id and raw parent key. *)
Definition same_group (a b : node) : bool :=
  (tree_id a =? tree_id b) && opt_eqb (parent a) (parent b).

(** [itertools.groupby]: the runs of consecutive elements with equal
    keys. *)
Fixpoint groupby (l : list node) : list (list node) :=
  match l with
  | [] => []
  | x :: l' =>
      match groupby l' with
      | (y :: g) :: gs =>
          if same_group x y then (x :: y :: g) :: gs else [x] :: (y :: g) :: gs
      | gs => [x] :: gs
      end
  end.

(** One [Q(tree_id=tree, min_attr__gt(e)=min, max_attr__lt(e)=max)]. *)
Record clause : Type := mkClause {
  c_tree : Z;
  c_min : Z;
  c_max : Z
}.

(** The attribute bounded from below and the one bounded from above. *)
Definition min_attr (dir : direction) (r : node) : Z :=
  match dir with Asc => rght r | Desc => lft r end.
Definition max_attr (dir : direction) (r : node) : Z :=
  match dir with Asc => lft r | Desc => rght r end.

(** The loop over one group: contiguous siblings (each starting where
    the one before ended) widen the current range, a sibling that is not
    contiguous closes it and opens a new one; the range open at the end
    of the group is closed after the loop. *)
Definition group_step (dir : direction)
  (state : list clause * Z * Z * Z * Z) (nd : node)
  : list clause * Z * Z * Z * Z :=
  let '(filters, tree, mn, mx, next_lft) := state in
  if lft nd =? next_lft
  then (filters, tree_id nd,
        (if min_attr dir nd <? mn then min_attr dir nd else mn),
        (if max_attr dir nd >? mx then max_attr dir nd else mx),
        rght nd + 1)
  else (filters ++ [mkClause (tree_id nd) mn mx], tree_id nd,
        min_attr dir nd, max_attr dir nd, rght nd + 1).

Definition group_clauses (dir : direction) (group : list node) : list clause :=
  match group with
  | [] => []
  | first :: rest =>
      let '(filters, tree, mn, mx, _) :=
        fold_left (group_step dir) rest
          ([], tree_id first, min_attr dir first, max_attr dir first, rght first + 1) in
      filters ++ [mkClause tree mn mx]
  end.

Definition clause_matches (dir : direction) (include_self : bool) (c : clause)
  (r : node) : bool :=
  (tree_id r =? c_tree c) &&
  (if include_self then min_attr dir r >=? c_min c else min_attr dir r >? c_min c) &&
  (if include_self then max_attr dir r <=? c_max c else max_attr dir r <? c_max c).

(** [_get_queryset_relatives]: [queryset] is the rows the given queryset
    yields; the result is read from the table through the manager, hence
    in tree order. *)
Definition _get_queryset_relatives (nulls_first : bool) (queryset : list node)
  (dir : direction) (include_self : bool) : M (list node) :=
  let q := order_by (relatives_order nulls_first) queryset in
  match q with
  | [] => ret []
  | _ :: _ =>
      let filters := flat_map (group_clauses dir) (groupby q) in
      st <- get ;;
      ret (order_by tree_order
             (filter (fun r => existsb (fun c => clause_matches dir include_self c r)
                                       filters) (rows st)))
  end.

Definition get_queryset_descendants (nulls_first : bool) (queryset : list node)
  (include_self : bool) : M (list node) :=
  _get_queryset_relatives nulls_first queryset Desc include_self.

Definition get_queryset_ancestors (nulls_first : bool) (queryset : list node)
  (include_self : bool) : M (list node) :=
  _get_queryset_relatives nulls_first queryset Asc include_self.

(** [r] is a descendant of [n] by intervals: in [n]'s tree, strictly
    inside [n]'s interval ([n] itself counts when [include_self]). *)
Definition descends (include_self : bool) (n r : node) : Prop :=
  tree_id r = tree_id n /\
  if include_self then lft n <= lft r /\ rght r <= rght n
  else lft n < lft r /\ rght r < rght n.

(** The rows carrying tree id [t]. *)
Definition tree_rows (t : Z) (rs : list node) : list node :=
  filter (fun r => tree_id r =? t) rs.

(** The objects a rebuild filtered to [tid] writes: those of a full
    rebuild of the rows of tree [tid] alone, with the tree ids counted
    from [tid]. *)
Definition tree_objects (opts : mptt_meta) (uuid4 : nat -> Z) (tid : Z) (st : store)
  : list node :=
  collected (S (List.length (tree_rows tid (rows st))))
    (_get_children opts None (tree_rows tid (rows st)))
    (_get_parents opts None (tree_rows tid (rows st)))
    (root_tids opts uuid4 tid 0 (uuid_draws st)
       (List.length (_get_parents opts None (tree_rows tid (rows st))))).

(** ** Moves out of a tree *)

(** Where [_inter_tree_move_and_close_gap] sends a position of the tree
    of a node with the interval [left .. right]: positions of the interval
    go down by [change], positions after it close the gap. *)
Definition lifted (left right change x : Z) : Z :=
  if between left right x then x - change
  else if x >? left - 1 then x - (right - left + 1)
  else x.

(** ** Reordering root nodes *)

(** How [_make_sibling_of_root_node] renumbers tree ids when it moves the
    root of tree [tid] to the id [new_tid]: the ids between the two give
    way by one, towards the id the node leaves. *)
Definition renumber (tid new_tid x : Z) : Z :=
  if between (Z.min tid new_tid) (Z.max tid new_tid) x
  then if x =? tid then new_tid
       else if tid <? new_tid then x - 1 else x + 1
  else x.

(** * Properties *)

Lemma node_eta (r : node) :
  mkNode (pk r) (parent r) (lft r) (rght r) (level r) (tree_id r) (okey r) = r.
Proof. destruct r; reflexivity. Qed.

Lemma store_eta (st : store) : with_rows (rows st) st = st.
Proof. destruct st; reflexivity. Qed.

Lemma space_set_shifted (size target tid : Z) (r : node) :
  shifted_by size target tid r
    (if space_where target tid r then space_set size target r else r).
Proof.
  unfold shifted_by, space_where, space_set, clean_tree_ids.
  destruct (tree_id r =? tid) eqn:Et; cbn [andb].
  - apply Z.eqb_eq in Et.
    destruct (lft r >? target) eqn:El, (rght r >? target) eqn:Er; cbn;
      rewrite ?Z.gtb_ltb in El, Er;
      try apply Z.ltb_lt in El; try apply Z.ltb_ge in El;
      try apply Z.ltb_lt in Er; try apply Z.ltb_ge in Er;
      repeat split; intros; try lia; try congruence.
  - apply Z.eqb_neq in Et. repeat split; intros; try congruence; contradiction.
Qed.

(** C2. Outside a tracking scope [_create_space size target tree_id]
    succeeds, touches nothing but the rows, and maps every row as
    [shifted_by] says: in tree [tree_id] a left (right) above [target]
    grows by [size], every other left and right and every row of another
    tree stays as it was; [_close_gap] is the same update with [- size]. *)
Theorem manage_space_outside_tracking (size target tid : Z) (st : store) :
  mptt_is_tracking st = false ->
  (exists rs,
      _create_space size target tid st = (with_rows rs st, Ok tt) /\
      Forall2 (shifted_by size target tid) (rows st) rs) /\
  (exists rs,
      _close_gap size target tid st = (with_rows rs st, Ok tt) /\
      Forall2 (shifted_by (- size) target tid) (rows st) rs).
Proof.
  intros Htr.
  assert (H : forall sz, exists rs,
             _manage_space sz target tid st = (with_rows rs st, Ok tt) /\
             Forall2 (shifted_by sz target tid) (rows st) rs).
  { intros sz.
    exists (sql_update (space_where target tid) (space_set sz target) (rows st)).
    split.
    - unfold _manage_space, bind, get, execute, modify. rewrite Htr. reflexivity.
    - unfold sql_update. induction (rows st) as [|r rs IH]; cbn.
      + constructor.
      + constructor; [apply space_set_shifted | exact IH]. }
  split; [apply (H size) | apply (H (- size))].
Qed.

Lemma manage_space_outside_tracking_witness :
  (exists rs,
      _create_space 2 1 2 scenario_store = (with_rows rs scenario_store, Ok tt) /\
      Forall2 (shifted_by 2 1 2) (rows scenario_store) rs) /\
  (exists rs,
      _close_gap 2 1 2 scenario_store = (with_rows rs scenario_store, Ok tt) /\
      Forall2 (shifted_by (- 2) 1 2) (rows scenario_store) rs).
Proof.
  apply (manage_space_outside_tracking 2 1 2 scenario_store).
  reflexivity.
Defined.

(** C1. Outside a tracking scope, moving [C] (left 4, right 5, level 1) out
    of tree 1 to be the first child of the root [D] of tree 2 opens two
    places after position 1 in tree 2 ([D] becomes 1..4), puts [C] at 2..3
    on level 1 of tree 2 under [D], and closes the gap in tree 1 ([A]
    becomes 1..4, [B] stays).  The first equation is the table and the
    instance after [_move_child_to_new_tree], the second after the whole
    [move_node], which also saves the instance's new parent. *)
Theorem move_child_to_new_tree_scenario (opts : mptt_meta) :
  _move_child_to_new_tree node_C (Inst node_D []) "first-child" scenario_store
  = (with_rows [mkNode (Some 1) None 1 4 0 1 0;
                mkNode (Some 2) (Some 1) 2 3 1 1 0;
                mkNode (Some 3) (Some 1) 2 3 1 2 0;
                mkNode (Some 4) None 1 4 0 2 0] scenario_store,
     Ok (mkNode (Some 3) (Some 4) 2 3 1 2 0))
  /\
  move_node opts node_C (Some (Inst node_D [])) "first-child" scenario_store
  = (with_rows [mkNode (Some 1) None 1 4 0 1 0;
                mkNode (Some 2) (Some 1) 2 3 1 1 0;
                mkNode (Some 3) (Some 4) 2 3 1 2 0;
                mkNode (Some 4) None 1 4 0 2 0] scenario_store,
     Ok (mkNode (Some 3) (Some 4) 2 3 1 2 0)).
Proof. split; reflexivity. Qed.

Lemma node_eqb_refl (n : node) : pk n <> None -> node_eqb n n = true.
Proof.
  unfold node_eqb. destruct (pk n); [intros _; apply Z.eqb_refl | congruence].
Qed.

(** Outside a tracking scope.  With any of the four positions, a move
    whose target carries the node's key (where the procedure compares the
    two, [self_checked]) or is one of the node's descendants raises
    InvalidMove and leaves the store, hence every stored left, right,
    level and tree id, as it was. *)
Lemma invalid_move_rejected (opts : mptt_meta) (nd : node) (target : inst)
  (position : string) (st : store) :
  mptt_is_tracking st = false ->
  valid_position position = true ->
  (node_eqb nd (fields target) = true /\ self_checked nd target position) \/
  onto_descendant nd target ->
  exists msg,
    move_node opts nd (Some target) position st = (st, Raise (InvalidMove msg)).
Proof.
  intros Htr Hpos H.
  unfold move_node, _move_node, bind, get. rewrite Htr.
  unfold valid_position in Hpos.
  destruct H as [[Heq Hchk] | (Hchild & Htid & Hlr)].
  - destruct (is_root_node (fields target) && is_sibling_position position) eqn:Ed.
    + unfold _make_sibling_of_root_node. rewrite Heq. eexists; reflexivity.
    + destruct (is_root_node nd) eqn:Er.
      * unfold _move_root_node. rewrite Heq. eexists; reflexivity.
      * assert (Ht : tree_id nd = tree_id (fields target)).
        { destruct Hchk as [[H1 H2] | [H | H]];
            [rewrite H1, H2 in Ed; discriminate | congruence | exact H]. }
        unfold _move_child_node. rewrite Ht, Z.eqb_refl.
        unfold _move_child_within_tree, bind. rewrite Heq.
        destruct (is_child_position position); [eexists; reflexivity|].
        cbn in Hpos. rewrite Hpos. eexists; reflexivity.
  - unfold is_child_node in Hchild. apply negb_true_iff in Hchild.
    rewrite Hchild. cbn [andb].
    assert (Hin : (lft nd <? lft (fields target)) && (lft (fields target) <? rght nd) = true).
    { apply andb_true_iff; split; apply Z.ltb_lt; lia. }
    destruct (is_root_node nd).
    + unfold _move_root_node. rewrite Htid, Z.eqb_refl.
      destruct (node_eqb nd (fields target)); eexists; reflexivity.
    + unfold _move_child_node. rewrite Htid, Z.eqb_refl.
      unfold _move_child_within_tree, bind. rewrite Hin.
      destruct (is_child_position position).
      * destruct (node_eqb nd (fields target)); eexists; reflexivity.
      * cbn in Hpos. rewrite Hpos.
        destruct (node_eqb nd (fields target)); eexists; reflexivity.
Qed.

(** Outside a tracking scope too, a child node is not compared with a
    target of another tree: [_move_child_to_new_tree] has no such test,
    so a target instance that carries the node's own key but another tree
    id is taken as a new parent. *)
Lemma move_onto_other_tree_unchecked (opts : mptt_meta) (nd : node) (target : inst)
  (position : string) (save refresh_target : bool) (st : store) :
  mptt_is_tracking st = false ->
  is_root_node nd = false ->
  is_child_position position = true ->
  tree_id nd <> tree_id (fields target) ->
  exists st' n,
    _move_node opts nd (Some target) position save refresh_target st
    = (st', Ok (n, [])) /\
    parent n = pk (fields target) /\ tree_id n = tree_id (fields target).
Proof.
  intros Htr Hroot Hpos Hne.
  assert (Hs : is_sibling_position position = false).
  { unfold is_child_position, is_sibling_position, eqs in *.
    apply orb_true_iff in Hpos.
    destruct Hpos as [H | H]; apply String.eqb_eq in H; subst position; reflexivity. }
  unfold _move_node, bind at 1, get. rewrite Htr, Hs, andb_false_r, Hroot.
  unfold _move_child_node.
  replace (tree_id nd =? tree_id (fields target)) with false
    by (symmetry; apply Z.eqb_neq; exact Hne).
  unfold _move_child_to_new_tree, _calculate_inter_tree_move_values.
  rewrite Hpos. unfold _create_space, _manage_space, _inter_tree_move_and_close_gap,
    parent_pk, execute, modify, bind, get, ret. cbn beta iota. rewrite Htr.
  eexists _, _. split; [reflexivity|]. split; reflexivity.
Qed.

Lemma find_stored (k : option Z) (rs : list node) :
  pk_exists k rs = true ->
  exists r, find (fun r => opt_eqb (pk r) k) rs = Some r /\ pk r = k.
Proof.
  unfold pk_exists. intros H.
  destruct (find (fun r => opt_eqb (pk r) k) rs) as [r|] eqn:E.
  - exists r. split; [reflexivity|]. apply find_some in E. destruct E as [_ E].
    unfold opt_eqb in E. destruct (pk r) as [a|], k as [b|]; try discriminate;
      [apply Z.eqb_eq in E; congruence | reflexivity].
  - exfalso. apply existsb_exists in H. destruct H as (x & Hx & Hk).
    apply (find_none _ _ E) in Hx. cbn in Hx. congruence.
Qed.

(** C5 does not hold inside a tracking scope.  There [_move_node] hands
    every move to [insert_node] with [allow_existing_pk], and
    [insert_node] compares the node neither with the target nor with the
    target's interval.  For a target that is not a root taken as a
    sibling, whose parent is not cached and, for a sibling position, is
    stored, the call returns whatever the node is (the target itself and
    the target's ancestors included): it writes no row and hands back the
    node placed at the insertion point in the target's tree, with the
    target (for a sibling position, the target's parent) as its
    parent. *)
Theorem invalid_move_accepted_while_tracking (opts : mptt_meta) (nd : node)
  (target : inst) (position : string) (st : store) :
  mptt_is_tracking st = true ->
  valid_position position = true ->
  is_root_node (fields target) && is_sibling_position position = false ->
  cached_chain target = [] ->
  (is_sibling_position position = true ->
   pk_exists (parent (fields target)) (rows st) = true) ->
  exists st' n ups,
    _move_node opts nd (Some target) position false false st = (st', Ok (n, ups)) /\
    rows st' = rows st /\
    pk n = pk nd /\
    tree_id n = tree_id (fields target) /\
    lft n = insertion_point (fields target) position /\
    rght n = lft n + 1 /\
    parent n = (if is_child_position position
                then pk (fields target) else parent (fields target)).
Proof.
  intros Htr Hpos Hbranch Hchain Hpar.
  unfold _move_node, bind at 1, get. rewrite Htr.
  unfold insert_node, bind at 1, get.
  rewrite andb_false_r. cbn [negb andb]. rewrite Hbranch.
  unfold bind at 1 2. unfold ret at 1.
  unfold _calculate_inter_tree_move_values, insertion_point.
  unfold valid_position in Hpos.
  destruct (is_child_position position) eqn:Ec.
  - unfold _create_space, _manage_space, _mptt_track_tree_modified, modify, bind, get, ret.
    cbn beta iota. rewrite Htr. cbn beta iota. rewrite Htr, Hchain.
    cbn [_post_insert_update_cached_parent_right]. unfold ret.
    eexists _, _, _. split; [reflexivity|].
    cbn [rows with_tracked pk tree_id lft rght parent fields
         set_parent set_tree_id set_level set_rght set_lft].
    unfold is_child_position in Ec.
    destruct (eqs position "last-child") eqn:E1.
    + repeat split; lia.
    + cbn [orb] in Ec. rewrite Ec. repeat split; lia.
  - cbn [orb] in Hpos. rewrite Hpos.
    rewrite Hpos, andb_true_r in Hbranch. specialize (Hpar Hpos).
    unfold get_parent. unfold is_root_node in Hbranch.
    destruct (parent (fields target)) as [p|] eqn:Ep; [|discriminate].
    rewrite Hchain.
    destruct (find_stored (Some p) (rows st) Hpar) as (r & Hfind & Hpk).
    unfold _create_space, _manage_space, _mptt_track_tree_modified, modify, bind, get, ret.
    rewrite Hfind. cbn beta iota. rewrite Htr. cbn beta iota. rewrite Htr.
    cbn [cached_chain fields _post_insert_update_cached_parent_right]. unfold ret.
    eexists _, _, _. split; [reflexivity|].
    cbn [rows with_tracked pk tree_id lft rght parent fields
         set_parent set_tree_id set_level set_rght set_lft].
    unfold is_child_position in Ec. apply orb_false_iff in Ec. destruct Ec as [E1 E2].
    rewrite E1, E2.
    destruct (eqs position "left") eqn:E3; repeat split; try lia; exact Hpk.
Qed.

Lemma invalid_move_accepted_while_tracking_witness :
  onto_descendant node_A (Inst node_C []) /\
  exists st' n ups,
    _move_node sequential_opts node_A (Some (Inst node_C [])) "last-child" false false
      tracking_store
    = (st', Ok (n, ups)) /\
    rows st' = rows tracking_store /\
    pk n = pk node_A /\
    tree_id n = tree_id node_C /\
    lft n = insertion_point node_C "last-child" /\
    rght n = lft n + 1 /\
    parent n = pk node_C.
Proof.
  split; [cbn; repeat split; lia|].
  apply (invalid_move_accepted_while_tracking sequential_opts node_A (Inst node_C [])
           "last-child" tracking_store).
  - reflexivity.
  - reflexivity.
  - reflexivity.
  - reflexivity.
  - intros H. discriminate H.
Defined.

(** ** Saving a stored instance and no-op statements *)

Lemma opt_eqb_eq (a b : option Z) : opt_eqb a b = true <-> a = b.
Proof.
  destruct a, b; cbn; split; intros H; try congruence; try discriminate.
  - apply Z.eqb_eq in H. congruence.
  - inversion H. apply Z.eqb_refl.
Qed.

Lemma NoDup_pk_inj (rs : list node) (a b : node) :
  NoDup (map pk rs) -> In a rs -> In b rs -> pk a = pk b -> a = b.
Proof.
  induction rs as [|r rs IH]; cbn; intros Hnd Ha Hb Hpk; [contradiction|].
  inversion Hnd as [|? ? Hnotin Hnd']; subst.
  destruct Ha as [Ha | Ha], Hb as [Hb | Hb]; subst.
  - reflexivity.
  - exfalso. apply Hnotin. rewrite Hpk. apply in_map. exact Hb.
  - exfalso. apply Hnotin. rewrite <- Hpk. apply in_map. exact Ha.
  - apply IH; assumption.
Qed.

Lemma sql_update_id (w : node -> bool) (f : node -> node) (rs : list node) :
  (forall r, In r rs -> w r = true -> f r = r) -> sql_update w f rs = rs.
Proof.
  unfold sql_update. induction rs as [|r rs IH]; cbn; intros H; [reflexivity|].
  rewrite IH by (intros; apply H; auto).
  destruct (w r) eqn:E; [rewrite H by auto|]; reflexivity.
Qed.

Lemma pk_exists_In (nd : node) (rs : list node) :
  In nd rs -> pk_exists (pk nd) rs = true.
Proof.
  intros H. unfold pk_exists. apply existsb_exists.
  exists nd. split; [exact H | apply opt_eqb_eq; reflexivity].
Qed.

Lemma node_save_stored (nd : node) (st : store) :
  mptt_is_tracking st = false -> pk nd <> None ->
  In nd (rows st) -> NoDup (map pk (rows st)) ->
  node_save nd st = (st, Ok nd).
Proof.
  intros Htr Hpk Hin Hnd.
  assert (Hsame : forall alt : node,
             match pk nd with Some _ => nd | None => alt end = nd).
  { intros alt. destruct (pk nd); congruence. }
  unfold node_save, bind, get, modify, _mptt_track_tree_modified, ret.
  rewrite Hsame, (pk_exists_In nd _ Hin).
  replace (map (fun r => if opt_eqb (pk r) (pk nd) then nd else r) (rows st))
    with (rows st).
  - rewrite store_eta. unfold modify. rewrite Htr. reflexivity.
  - symmetry. rewrite <- (map_id (rows st)) at 2.
    apply map_ext_in. intros r Hr.
    destruct (opt_eqb (pk r) (pk nd)) eqn:E; [|reflexivity].
    apply opt_eqb_eq in E. symmetry. eapply NoDup_pk_inj; eauto.
Qed.

Lemma node_eqb_neq (a b : node) : pk a <> pk b -> node_eqb a b = false.
Proof.
  unfold node_eqb. destruct (pk a), (pk b); intros H; try reflexivity.
  apply Z.eqb_neq. congruence.
Qed.

Lemma node_eqb_pk (a b : node) : pk a = pk b -> pk a <> None -> node_eqb a b = true.
Proof.
  unfold node_eqb. intros <-. destruct (pk a); [intros _; apply Z.eqb_refl | congruence].
Qed.

Lemma get_parent_resolves (st : store) (t : inst) :
  parent (fields t) <> None -> parent_resolves st t ->
  exists q, get_parent t st = (st, Ok (Some q)) /\ pk (fields q) = parent (fields t).
Proof.
  unfold get_parent, parent_resolves, bind, get, ret.
  destruct (parent (fields t)) as [p|] eqn:Ep; [intros _|congruence].
  destruct (cached_chain t) as [|c rest].
  - intros Hex. unfold pk_exists in Hex. apply existsb_exists in Hex.
    destruct Hex as (x & Hin & Hx).
    destruct (find (fun r => opt_eqb (pk r) (Some p)) (rows st)) as [r|] eqn:Ef.
    + apply find_some in Ef. destruct Ef as [_ Ef]. apply opt_eqb_eq in Ef.
      exists (Inst r []). split; [reflexivity | exact Ef].
    + exfalso. eapply find_none in Ef; eauto. cbn in Ef. congruence.
  - intros Hc. exists (Inst c rest). split; [reflexivity | exact Hc].
Qed.

(** Comparisons decided by linear arithmetic. *)
Ltac zcmp :=
  repeat match goal with
    | |- context [?a >? ?b] => rewrite (Z.gtb_ltb a b)
    | |- context [?a <? ?b] =>
        first [ replace (a <? b) with true by (symmetry; apply Z.ltb_lt; lia)
              | replace (a <? b) with false by (symmetry; apply Z.ltb_ge; lia) ]
    | |- context [?a <=? ?b] =>
        first [ replace (a <=? b) with true by (symmetry; apply Z.leb_le; lia)
              | replace (a <=? b) with false by (symmetry; apply Z.leb_gt; lia) ]
    | |- context [?a =? ?b] =>
        first [ replace (a =? b) with true by (symmetry; apply Z.eqb_eq; lia)
              | replace (a =? b) with false by (symmetry; apply Z.eqb_neq; lia) ]
    end.

(** The within-tree statement of a node moved onto its own interval
    rewrites every row to itself. *)
Lemma move_subtree_query_noop (left right width : Z) (r : node) :
  mkNode (pk r) (parent r)
    (if between left right (lft r) then lft r + (left - left)
     else if between (Z.min left left) (Z.max right right) (lft r) then lft r + width
     else lft r)
    (if between left right (rght r) then rght r + (left - left)
     else if between (Z.min left left) (Z.max right right) (rght r) then rght r + width
     else rght r)
    (if between left right (lft r) then level r - 0 else level r)
    (tree_id r) (okey r) = r.
Proof.
  rewrite Z.min_id, Z.max_id, Z.sub_diag, Z.sub_0_r, !Z.add_0_r.
  destruct (between left right (lft r)), (between left right (rght r));
    apply node_eta.
Qed.

Lemma is_child_of_parent (nd : node) : parent nd <> None -> is_root_node nd = false.
Proof. unfold is_root_node. destruct (parent nd); congruence. Qed.

Lemma execute_noop (w : node -> bool) (f : node -> node) (st : store) :
  (forall r, f r = r) -> execute w f st = (st, Ok tt).
Proof.
  intros H. unfold execute, modify.
  rewrite sql_update_id by (intros; apply H). rewrite store_eta. reflexivity.
Qed.

Lemma move_in_place_child (nd : node) (t : inst) (position : string) (st : store) :
  current_position st nd (Some t) position ->
  is_root_node nd = false ->
  _move_child_within_tree nd t position st = (st, Ok nd).
Proof.
  intros Hcp Hroot. unfold _move_child_within_tree.
  inversion Hcp as [t0 Hpar Hpn Hpk Htid Hlvl H1 H2 H3
                   |t0 Hpar Hpn Hpk Htid Hlvl H1 H2 H3
                   |t0 Hpar Hpn Hpk Hres Htid Hlvl H1 H2
                   |t0 Hpar Hpn Hpk Hres Htid Hlvl H1 H2 H3
                   |t0 s Hr | t0 s Hr |]; subst; try congruence.
  - unfold bind at 1. cbn [is_child_position eqs String.eqb Ascii.eqb Bool.eqb orb].
    rewrite (node_eqb_neq _ _ Hpk). zcmp. cbn [andb ret].
    replace (rght (fields t) - (rght nd - lft nd + 1)) with (lft nd) by lia.
    replace (rght (fields t) - 1) with (rght nd) by lia.
    replace (level nd - level (fields t) - 1) with 0 by lia.
    unfold bind. rewrite execute_noop.
    + cbn. rewrite Z.sub_0_r, <- Hpar. f_equal. f_equal. destruct nd; reflexivity.
    + intros r. replace (lft nd - lft nd >? 0) with false by (symmetry; zcmp; reflexivity).
      apply move_subtree_query_noop.
  - unfold bind at 1. cbn [is_child_position eqs String.eqb Ascii.eqb Bool.eqb orb].
    rewrite (node_eqb_neq _ _ Hpk). zcmp. cbn [andb ret].
    replace (lft (fields t) + 1) with (lft nd) by lia.
    replace (lft (fields t) + (rght nd - lft nd + 1)) with (rght nd) by lia.
    replace (level nd - level (fields t) - 1) with 0 by lia.
    unfold bind. rewrite execute_noop.
    + cbn. rewrite Z.sub_0_r, <- Hpar. f_equal. f_equal. destruct nd; reflexivity.
    + intros r. replace (lft nd - lft nd >? 0) with false by (symmetry; zcmp; reflexivity).
      apply move_subtree_query_noop.
  - assert (Hpt : parent (fields t) <> None) by congruence.
    destruct (get_parent_resolves st t Hpt Hres) as (q & Hq & Hqpk).
    unfold bind at 1. cbn [is_child_position is_sibling_position eqs String.eqb Ascii.eqb Bool.eqb orb].
    rewrite (node_eqb_neq _ _ Hpk). zcmp. cbn [andb].
    unfold bind at 1. rewrite Hq. cbn [ret].
    replace (lft (fields t) - (rght nd - lft nd + 1)) with (lft nd) by lia.
    replace (lft (fields t) - 1) with (rght nd) by lia.
    replace (level nd - level (fields t)) with 0 by lia.
    unfold bind. rewrite execute_noop.
    + cbn. rewrite Z.sub_0_r, Hqpk, <- Hpar. f_equal. f_equal. destruct nd; reflexivity.
    + intros r. replace (lft nd - lft nd >? 0) with false by (symmetry; zcmp; reflexivity).
      apply move_subtree_query_noop.
  - assert (Hpt : parent (fields t) <> None) by congruence.
    destruct (get_parent_resolves st t Hpt Hres) as (q & Hq & Hqpk).
    unfold bind at 1. cbn [is_child_position is_sibling_position eqs String.eqb Ascii.eqb Bool.eqb orb].
    rewrite (node_eqb_neq _ _ Hpk). zcmp. cbn [andb].
    unfold bind at 1. rewrite Hq. cbn [ret].
    replace (rght (fields t) + 1) with (lft nd) by lia.
    replace (rght (fields t) + (rght nd - lft nd + 1)) with (rght nd) by lia.
    replace (level nd - level (fields t)) with 0 by lia.
    unfold bind. rewrite execute_noop.
    + cbn. rewrite Z.sub_0_r, Hqpk, <- Hpar. f_equal. f_equal. destruct nd; reflexivity.
    + intros r. replace (lft nd - lft nd >? 0) with false by (symmetry; zcmp; reflexivity).
      apply move_subtree_query_noop.
Qed.

Lemma get_sibling_keeps_store (f : node -> M (option node)) (t : node) (st : store)
  (s : node) :
  (f = get_previous_sibling \/ f = get_next_sibling) ->
  snd (f t st) = Ok (Some s) -> f t st = (st, Ok (Some s)).
Proof.
  intros [-> | ->]; unfold get_previous_sibling, get_next_sibling, bind, get, ret;
    cbn; intros ->; reflexivity.
Qed.

(** C6, outside a tracking scope.  A move of a stored node to the place it
    already occupies returns normally and leaves the store and the node's
    own left, right, level and tree id (and parent) as they were. *)
Theorem move_to_current_position_is_noop (opts : mptt_meta) (nd : node)
  (target : option inst) (position : string) (st : store) :
  mptt_is_tracking st = false ->
  pk nd <> None ->
  In nd (rows st) ->
  NoDup (map pk (rows st)) ->
  current_position st nd target position ->
  move_node opts nd target position st = (st, Ok nd).
Proof.
  intros Htr Hpk Hin Hnd Hcp.
  assert (Hmove : _move_node opts nd target position true true st = (st, Ok (nd, []))).
  { unfold _move_node, bind at 1, get. rewrite Htr.
    inversion Hcp as [t0 Hpar Hpn Hpk2 Htid Hlvl H1 H2 H3
                     |t0 Hpar Hpn Hpk2 Htid Hlvl H1 H2 H3
                     |t0 Hpar Hpn Hpk2 Hres Htid Hlvl H1 H2
                     |t0 Hpar Hpn Hpk2 Hres Htid Hlvl H1 H2 H3
                     |t0 s Hr Hrt Hpk2 Hlt Hsib Hs
                     |t0 s Hr Hrt Hpk2 Hlt Hsib Hs
                     |p Hr]; subst.
    - rewrite andb_false_r, (is_child_of_parent _ Hpn).
      unfold _move_child_node, bind. rewrite Htid, Z.eqb_refl.
      rewrite (move_in_place_child nd t0 _ st Hcp (is_child_of_parent _ Hpn)).
      reflexivity.
    - rewrite andb_false_r, (is_child_of_parent _ Hpn).
      unfold _move_child_node, bind. rewrite Htid, Z.eqb_refl.
      rewrite (move_in_place_child nd t0 _ st Hcp (is_child_of_parent _ Hpn)).
      reflexivity.
    - assert (Hpt : parent (fields t0) <> None) by congruence.
      rewrite (is_child_of_parent _ Hpt), (is_child_of_parent _ Hpn). cbn [andb].
      unfold _move_child_node, bind. rewrite Htid, Z.eqb_refl.
      rewrite (move_in_place_child nd t0 _ st Hcp (is_child_of_parent _ Hpn)).
      reflexivity.
    - assert (Hpt : parent (fields t0) <> None) by congruence.
      rewrite (is_child_of_parent _ Hpt), (is_child_of_parent _ Hpn). cbn [andb].
      unfold _move_child_node, bind. rewrite Htid, Z.eqb_refl.
      rewrite (move_in_place_child nd t0 _ st Hcp (is_child_of_parent _ Hpn)).
      reflexivity.
    - rewrite Hrt. cbn [andb is_sibling_position eqs String.eqb Ascii.eqb Bool.eqb orb].
      unfold _make_sibling_of_root_node, is_child_node.
      rewrite (node_eqb_neq _ _ Hpk2), Hr.
      cbn [negb eqs String.eqb Ascii.eqb Bool.eqb]. zcmp.
      unfold bind.
      rewrite (get_sibling_keeps_store get_previous_sibling _ _ s (or_introl eq_refl) Hsib).
      rewrite (node_eqb_pk nd s (eq_sym Hs) Hpk). reflexivity.
    - rewrite Hrt. cbn [andb is_sibling_position eqs String.eqb Ascii.eqb Bool.eqb orb].
      unfold _make_sibling_of_root_node, is_child_node.
      rewrite (node_eqb_neq _ _ Hpk2), Hr.
      cbn [negb eqs String.eqb Ascii.eqb Bool.eqb]. zcmp.
      unfold bind.
      rewrite (get_sibling_keeps_store get_next_sibling _ _ s (or_intror eq_refl) Hsib).
      rewrite (node_eqb_pk nd s (eq_sym Hs) Hpk). reflexivity.
    - unfold is_child_node. rewrite Hr. reflexivity. }
  unfold move_node, bind. rewrite Hmove.
  apply node_save_stored; assumption.
Qed.

Lemma move_to_current_position_is_noop_witness :
  move_node sequential_opts node_C (Some (Inst node_A [])) "last-child" scenario_store
  = (scenario_store, Ok node_C).
Proof.
  apply (move_to_current_position_is_noop sequential_opts node_C
           (Some (Inst node_A [])) "last-child" scenario_store).
  - reflexivity.
  - discriminate.
  - cbn. auto.
  - cbn. repeat constructor; cbn; intuition discriminate.
  - apply at_last_child; cbn; try reflexivity; try lia; discriminate.
Defined.

(** C6 as stated fails inside a tracking scope: moving [C], already the
    last child of [A], to be the last child of [A] goes through
    [insert_node] and leaves [C] at 6..7 instead of 4..5. *)
Lemma move_to_current_position_changes_when_tracking :
  current_position tracking_store node_C (Some (Inst node_A [])) "last-child" /\
  move_node sequential_opts node_C (Some (Inst node_A [])) "last-child" tracking_store
  = (with_tracked [1]
       (with_rows [node_A; node_B; mkNode (Some 3) (Some 1) 6 7 1 1 0; node_D]
          tracking_store),
     Ok (mkNode (Some 3) (Some 1) 6 7 1 1 0)).
Proof.
  split.
  - apply at_last_child; cbn; try reflexivity; try lia; discriminate.
  - reflexivity.
Qed.

(** ** Unknown position tokens *)

Lemma calculate_invalid_position (nd : node) (t : inst) (position : string)
  (st : store) :
  valid_position position = false ->
  _calculate_inter_tree_move_values nd t position st
  = (st, Raise (invalid_position position)).
Proof.
  unfold valid_position. intros H. apply orb_false_iff in H. destruct H as [Hc Hs].
  unfold _calculate_inter_tree_move_values, bind. rewrite Hc, Hs. reflexivity.
Qed.

Lemma refresh_keeps_store (t : inst) (st : store) :
  (exists t', _mptt_refresh t st = (st, Ok t')) \/
  (_mptt_refresh t st = (st, Raise DoesNotExist) /\ ~ target_refreshable st t).
Proof.
  unfold _mptt_refresh, bind, get, ret, raise, target_refreshable.
  destruct (truthy_pk (pk (fields t))) eqn:Et.
  - destruct (find _ (rows st)) as [r|] eqn:Ef.
    + left. eexists; reflexivity.
    + right. split; [reflexivity|]. intros [H | H]; [discriminate|].
      unfold pk_exists in H. apply existsb_exists in H. destruct H as (x & Hin & Hx).
      eapply find_none in Ef; eauto. cbn in Ef. congruence.
  - left. eexists; reflexivity.
Qed.

Lemma insert_invalid_position (opts : mptt_meta) (nd : node) (target : inst)
  (position : string) (save allow_existing_pk refresh_target : bool) (st : store) :
  valid_position position = false ->
  exists e,
    insert_node opts nd (Some target) position save allow_existing_pk refresh_target st
    = (st, Raise e) /\
    (insert_reaches_position st nd target allow_existing_pk refresh_target ->
     e = invalid_position position).
Proof.
  intros Hpos. unfold insert_node, bind at 1, get.
  destruct (truthy_pk (pk nd) && negb allow_existing_pk && pk_exists (pk nd) (rows st))
    eqn:Echeck.
  - exists already_saved. split; [reflexivity|].
    unfold insert_reaches_position. intros [H _]. congruence.
  - assert (Hs : is_sibling_position position = false).
    { unfold valid_position in Hpos. apply orb_false_iff in Hpos. apply Hpos. }
    rewrite Hs, andb_false_r.
    destruct refresh_target.
    + destruct (refresh_keeps_store target st) as [[t' Ht'] | [Hraise Hnot]].
      * exists (invalid_position position). split; [|reflexivity].
        unfold bind. rewrite Ht'.
        rewrite (calculate_invalid_position _ t' position st Hpos). reflexivity.
      * exists DoesNotExist. split.
        -- unfold bind. rewrite Hraise. reflexivity.
        -- unfold insert_reaches_position. intros [_ H]. exfalso. apply Hnot, H. reflexivity.
    + exists (invalid_position position). split; [|reflexivity].
      unfold bind, ret.
      rewrite (calculate_invalid_position _ target position st Hpos). reflexivity.
Qed.

(** ** The instance [insert_node] was handed *)

Ltac split_on_scrutinee :=
  match goal with
  | |- context [match ?x with _ => _ end] =>
      lazymatch x with
      | context [match _ with _ => _ end] => fail
      | _ => destruct x eqn:?
      end
  end.

(** Followed through the instance, [insert_node] leaves the store it
    leaves and ends the way it ends; when it returns, the instance is the
    node it returns. *)
Lemma insert_node_instance_outcome (opts : mptt_meta) (nd : node)
  (target : option inst) (position : string)
  (save allow_existing_pk refresh_target : bool) (st : store) :
  snd (insert_node_instance opts target position save allow_existing_pk refresh_target
         nd st)
  = (let (st', r) := insert_node opts nd target position save allow_existing_pk
                       refresh_target st in
     (st', match r with
           | Ok res => Ok (snd res)
           | Raise e => Raise e
           end)) /\
  (forall st' res,
      insert_node opts nd target position save allow_existing_pk refresh_target st
      = (st', Ok res) ->
      fst (insert_node_instance opts target position save allow_existing_pk
             refresh_target nd st) = fst res).
Proof.
  unfold insert_node_instance, insert_node, bindI, liftI, self, setattr, retI,
    bind, get, ret, raise.
  repeat (cbn beta iota zeta; split_on_scrutinee);
    cbn beta iota zeta; (split; [|intros ? ? H; inversion H; subst]);
    cbn [fst snd] in *; congruence.
Qed.

(** Inside a tracking scope a move is the insertion of the moved
    instance, allowed to carry a key already in the table. *)
Lemma move_node_inserts_while_tracking (opts : mptt_meta) (nd : node)
  (target : option inst) (position : string) (save refresh_target : bool) (st : store) :
  mptt_is_tracking st = true ->
  _move_node opts nd target position save refresh_target st
  = insert_node opts nd target position save true refresh_target st.
Proof. intros Htr. unfold _move_node, bind at 1, get. rewrite Htr. reflexivity. Qed.

(** With a position token outside the four and a target that is not
    null, the instance [insert_node] was handed ends as it was when the
    already-saved guard fires, and otherwise with its left and its level
    set to 0 and nothing else changed. *)
Lemma insert_instance_invalid_position (opts : mptt_meta) (nd : node) (target : inst)
  (position : string) (save allow_existing_pk refresh_target : bool) (st : store) :
  valid_position position = false ->
  exists e,
    insert_node_instance opts (Some target) position save allow_existing_pk
      refresh_target nd st
    = ((if truthy_pk (pk nd) && negb allow_existing_pk && pk_exists (pk nd) (rows st)
        then nd else set_level 0 (set_lft 0 nd)),
       (st, Raise e)).
Proof.
  intros Hpos. unfold insert_node_instance, bindI, liftI, self, setattr, retI, get.
  cbn beta iota.
  destruct (truthy_pk (pk nd) && negb allow_existing_pk && pk_exists (pk nd) (rows st)).
  - eexists. reflexivity.
  - assert (Hs : is_sibling_position position = false).
    { unfold valid_position in Hpos. apply orb_false_iff in Hpos. apply Hpos. }
    rewrite Hs, andb_false_r. cbn beta iota.
    destruct refresh_target.
    + destruct (refresh_keeps_store target st) as [[t' Ht'] | [Hraise _]].
      * rewrite Ht'. cbn beta iota.
        rewrite (calculate_invalid_position _ t' position st Hpos).
        eexists. reflexivity.
      * rewrite Hraise. eexists. reflexivity.
    + unfold ret at 1. cbn beta iota.
      rewrite (calculate_invalid_position _ target position st Hpos).
      eexists. reflexivity.
Qed.




(** ** The guard of [insert_node] *)

Lemma insert_existing_pk_rejected (opts : mptt_meta) (nd : node)
  (target : option inst) (position : string) (save refresh_target : bool)
  (st : store) :
  truthy_pk (pk nd) = true ->
  pk_exists (pk nd) (rows st) = true ->
  insert_node opts nd target position save false refresh_target st
  = (st, Raise already_saved).
Proof.
  intros Ht He. unfold insert_node, bind, get. rewrite Ht, He. reflexivity.
Qed.

Lemma insert_existing_pk_allowed (opts : mptt_meta) (nd : node)
  (position : string) (st : store) :
  exists tid st',
    insert_node opts nd None position false true true st
    = (st', Ok (as_new_root tid nd, [])) /\ rows st' = rows st.
Proof.
  unfold insert_node, bind at 1, get. rewrite andb_false_r. cbn [andb].
  unfold _get_next_tree_id, bind, get, ret.
  destruct (root_node_ordering opts); cbn; eexists; eexists; split; reflexivity.
Qed.

(** C10 at a stored primary key of 0: [node.pk] is falsy, the guard is
    skipped, and the call opens space in the stored tree (the root goes
    from 1..2 to 1..4) and returns a positioned node instead of raising. *)
Theorem insert_node_zero_pk_not_rejected :
  pk_exists (pk zero_node) (rows zero_store) = true /\
  fst (insert_node sequential_opts zero_node (Some (Inst zero_root [])) "last-child"
         false false true zero_store)
  = with_rows [mkNode (Some 0) None 1 4 0 1 0] zero_store /\
  exists ups,
    snd (insert_node sequential_opts zero_node (Some (Inst zero_root [])) "last-child"
           false false true zero_store)
    = Ok (mkNode (Some 0) (Some 0) 2 3 1 1 7, ups).
Proof.
  split; [reflexivity|]. split; [reflexivity|]. eexists. reflexivity.
Qed.

(** ** Delayed-update scopes *)

Section Scopes.

Variable opts : mptt_meta.
Variable uuid4 : nat -> Z.

Lemma rebuild_roots_store (fuel : nat) (children : dict) (tid : Z)
  (parents : list node) :
  forall index st st' r,
    rebuild_roots opts uuid4 fuel children tid index parents st = (st', r) ->
    rows st' = rows st /\ journal st' = journal st /\ same_switches st st'.
Proof.
  induction parents as [|p ps IH]; intros index st st' r H.
  - cbn in H. inversion H; subst. repeat split.
  - cbn [rebuild_roots] in H. unfold bind at 1 in H.
    destruct (root_node_ordering opts).
    + unfold ret at 1 in H.
      destruct (_rebuild_helper fuel children p 1 (tid + index) 0) as [[us ?]|].
      * unfold bind in H.
        destruct (rebuild_roots opts uuid4 fuel children tid (index + 1) ps st)
          as [st1 [a|e]] eqn:E; inversion H; subst; eapply IH; eauto.
      * inversion H; subst. repeat split.
    + destruct (_rebuild_helper fuel children p 1 (uuid4 (uuid_draws st)) 0) as [[us ?]|].
      * unfold bind in H.
        destruct (rebuild_roots opts uuid4 fuel children tid (index + 1) ps
                    (with_draws (S (uuid_draws st)) st)) as [st1 [a|e]] eqn:E;
          inversion H; subst; apply IH in E; cbn in E; exact E.
      * inversion H; subst. repeat split.
Qed.

Lemma rebuild_journal (filters : option Z) (st st' : store) (r : result unit) :
  rebuild opts uuid4 filters st = (st', r) ->
  journal st' = journal st ++ [EvRebuild filters] /\ same_switches st st'.
Proof.
  unfold rebuild, bind at 1, log, modify. unfold bind at 1, get. unfold bind.
  cbn [rows with_journal].
  match goal with
  | |- context [rebuild_roots opts uuid4 ?f ?c ?t ?i ?ps ?s] =>
      pose proof (rebuild_roots_store f c t ps i s) as H;
      destruct (rebuild_roots opts uuid4 f c t i ps s) as [st1 [us|e]]
  end; specialize (H _ _ eq_refl); cbn in H; destruct H as (_ & Hj & Hs);
    intros Heq; inversion Heq; subst; cbn; rewrite ?Hj; split; auto.
Qed.

Lemma partial_rebuild_journal (tid : Z) (st st' : store) (r : result unit) :
  partial_rebuild opts uuid4 tid st = (st', r) ->
  partial_rebuild_calls (journal st')
  = partial_rebuild_calls (journal st) ++ [tid] /\
  same_switches st st'.
Proof.
  unfold partial_rebuild, bind, log, modify, get. cbn [rows with_journal].
  destruct (List.length _ =? 0)%nat.
  - intros H; inversion H; subst. cbn.
    unfold partial_rebuild_calls. rewrite flat_map_app. cbn. repeat split.
  - destruct (List.length _ =? 1)%nat.
    + intros H. apply rebuild_journal in H. destruct H as [Hj Hs].
      rewrite Hj. cbn [journal with_journal] in *.
      unfold partial_rebuild_calls. rewrite !flat_map_app. cbn.
      rewrite app_nil_r. split; [reflexivity | exact Hs].
    + intros H; inversion H; subst. cbn.
      unfold partial_rebuild_calls. rewrite flat_map_app. cbn. repeat split.
Qed.

Lemma for_each_partial_rebuild (ts : list Z) :
  forall st st' r,
    for_each ts (partial_rebuild opts uuid4) st = (st', r) ->
    exists done rest,
      ts = done ++ rest /\
      partial_rebuild_calls (journal st') = partial_rebuild_calls (journal st) ++ done /\
      (r = Ok tt -> rest = []) /\
      same_switches st st'.
Proof.
  induction ts as [|t ts IH]; intros st st' r H.
  - cbn in H. inversion H; subst. exists [], [].
    repeat split; rewrite ?app_nil_r; auto.
  - cbn [for_each] in H. unfold bind in H.
    destruct (partial_rebuild opts uuid4 t st) as [st1 [[]|e]] eqn:E;
      apply partial_rebuild_journal in E; destruct E as [Hj Hs].
    + destruct (IH _ _ _ H) as (done & rest & Hsplit & Hcalls & Hok & Hsw).
      exists (t :: done), rest. split; [cbn; congruence|]. split; [|split].
      * rewrite Hcalls, Hj, <- app_assoc. reflexivity.
      * exact Hok.
      * unfold same_switches in *. intuition congruence.
    + inversion H; subst. exists [t], ts. split; [reflexivity|]. split; [exact Hj|].
      split; [discriminate | exact Hs].
Qed.

Lemma scope_tail (T : list Z) (st st' : store) (r : result unit) :
  for_each T (partial_rebuild opts uuid4) st = (st', r) ->
  NoDup T ->
  exists done rest,
    T = done ++ rest /\ NoDup done /\
    partial_rebuild_calls (journal st') = partial_rebuild_calls (journal st) ++ done /\
    (r = Ok tt -> done = T) /\
    same_switches st st'.
Proof.
  intros H Hnd. apply for_each_partial_rebuild in H.
  destruct H as (done & rest & Hsplit & Hcalls & Hok & Hsw).
  exists done, rest. repeat split; auto.
  - rewrite Hsplit in Hnd. apply NoDup_app_remove_r in Hnd. exact Hnd.
  - intros Hr. rewrite Hsplit, (Hok Hr), app_nil_r. reflexivity.
  - apply Hsw.
  - apply Hsw.
  - apply Hsw.
Qed.


End Scopes.



(** ** The ordering of query results *)

Section Ordering.

Variable le : node -> node -> bool.
Hypothesis le_total : forall a b, le a b = true \/ le b a = true.
Hypothesis le_trans : forall a b c, le a b = true -> le b c = true -> le a c = true.

Let R (a b : node) : Prop := le a b = true.

Lemma insert_by_perm (x : node) (l : list node) :
  Permutation (insert_by le x l) (x :: l).
Proof.
  induction l as [|y l IH]; cbn.
  - apply Permutation_refl.
  - destruct (le x y).
    + apply Permutation_refl.
    + eapply perm_trans; [apply perm_skip, IH | apply perm_swap].
Qed.

Lemma order_by_perm (l : list node) : Permutation (order_by le l) l.
Proof.
  induction l as [|x l IH]; cbn.
  - apply perm_nil.
  - eapply perm_trans; [apply insert_by_perm | apply perm_skip, IH].
Qed.

Lemma insert_by_sorted (x : node) (l : list node) :
  StronglySorted R l -> StronglySorted R (insert_by le x l).
Proof.
  induction l as [|y l IH]; cbn; intros Hs.
  - constructor; constructor.
  - inversion Hs as [|? ? Hl Hy]; subst.
    destruct (le x y) eqn:E.
    + constructor; [exact Hs|]. constructor; [exact E|].
      eapply Forall_impl; [|exact Hy]. intros a Ha. eapply le_trans; eauto.
    + constructor; [apply IH; exact Hl|].
      assert (Hyx : R y x) by (destruct (le_total x y); [congruence | assumption]).
      eapply Permutation_Forall; [apply Permutation_sym, insert_by_perm|].
      constructor; assumption.
Qed.

Lemma order_by_sorted (l : list node) : StronglySorted R (order_by le l).
Proof.
  induction l as [|x l IH]; cbn; [constructor | apply insert_by_sorted, IH].
Qed.

Lemma insert_by_least (x : node) (l : list node) :
  Forall (R x) l -> insert_by le x l = x :: l.
Proof.
  destruct l as [|y l]; cbn; intros H; [reflexivity|].
  inversion H; subst. unfold R in *. now rewrite H2.
Qed.

Lemma filter_insert_by (p : node -> bool) (x : node) (l : list node) :
  StronglySorted R l ->
  filter p (insert_by le x l)
  = if p x then insert_by le x (filter p l) else filter p l.
Proof.
  induction l as [|y l IH]; cbn; intros Hs.
  - destruct (p x); reflexivity.
  - inversion Hs as [|? ? Hl Hy]; subst.
    destruct (le x y) eqn:E; cbn.
    + destruct (p x) eqn:Ex, (p y) eqn:Ey; cbn; rewrite ?E; try reflexivity.
      symmetry. apply insert_by_least.
      apply Forall_forall. intros a Ha. apply filter_In in Ha.
      rewrite Forall_forall in Hy. eapply le_trans; [exact E | apply Hy, Ha].
    + rewrite (IH Hl).
      destruct (p x) eqn:Ex, (p y) eqn:Ey; cbn; rewrite ?E; reflexivity.
Qed.

(** Filtering commutes with the stable sort. *)
Lemma filter_order_by (p : node -> bool) (l : list node) :
  filter p (order_by le l) = order_by le (filter p l).
Proof.
  induction l as [|x l IH]; cbn; [reflexivity|].
  rewrite filter_insert_by by apply order_by_sorted.
  destruct (p x); cbn; rewrite IH; reflexivity.
Qed.

Lemma order_by_sorted_id (l : list node) :
  StronglySorted R l -> order_by le l = l.
Proof.
  induction l as [|x l IH]; cbn; intros Hs; [reflexivity|].
  inversion Hs; subst. rewrite IH by assumption.
  apply insert_by_least. assumption.
Qed.

Lemma sorted_perm_eq (l1 : list node) :
  forall l2,
    StronglySorted R l1 -> StronglySorted R l2 -> Permutation l1 l2 ->
    (forall a b, In a l1 -> In b l1 -> R a b -> R b a -> a = b) ->
    l1 = l2.
Proof.
  induction l1 as [|a t1 IH]; intros l2 H1 H2 Hp Hanti.
  - apply Permutation_nil in Hp. congruence.
  - destruct l2 as [|b t2].
    + apply Permutation_sym, Permutation_nil in Hp. discriminate.
    + inversion H1 as [|? ? Ht1 Ha]; inversion H2 as [|? ? Ht2 Hb]; subst.
      assert (Hab : a = b).
      { assert (Hina : In a (b :: t2)) by (eapply Permutation_in; [exact Hp | left; reflexivity]).
        assert (Hinb : In b (a :: t1))
          by (eapply Permutation_in; [apply Permutation_sym, Hp | left; reflexivity]).
        destruct Hina as [-> | Hina]; [reflexivity|].
        destruct Hinb as [-> | Hinb]; [reflexivity|].
        rewrite Forall_forall in Ha, Hb.
        apply Hanti; [left; reflexivity | right; exact Hinb | apply Ha, Hinb | apply Hb, Hina]. }
      subst b. f_equal. apply IH; auto.
      * eapply Permutation_cons_inv, Hp.
      * intros x y Hx Hy. apply Hanti; right; assumption.
Qed.

(** A strictly increasing list is the sort of each of its permutations. *)
Lemma order_by_unique (l s : list node) :
  StronglySorted (fun a b => le a b = true /\ le b a = false) s ->
  Permutation l s ->
  order_by le l = s.
Proof.
  intros Hs Hp. symmetry. apply sorted_perm_eq.
  - eapply StronglySorted_ind with (P := fun s => StronglySorted R s);
      [constructor | | exact Hs].
    intros a t _ IH Ha. constructor; [exact IH|].
    eapply Forall_impl; [|exact Ha]. intros b [H _]. exact H.
  - apply order_by_sorted.
  - eapply perm_trans; [apply Permutation_sym, Hp | apply Permutation_sym, order_by_perm].
  - clear Hp. induction Hs as [|a t Ht IH Ha]; intros x y Hx Hy Hxy Hyx; [contradiction|].
    rewrite Forall_forall in Ha.
    destruct Hx as [<- | Hx], Hy as [<- | Hy]; auto.
    + destruct (Ha _ Hy) as [_ Hf]. unfold R in Hyx. congruence.
    + destruct (Ha _ Hx) as [_ Hf]. unfold R in Hxy. congruence.
Qed.

(** Sorting sees the rows only through the comparison. *)
Lemma order_by_map (g : node -> node) (l : list node) :
  (forall a b, le (g a) (g b) = le a b) ->
  order_by le (map g l) = map g (order_by le l).
Proof.
  intros Hg. induction l as [|x l IH]; cbn; [reflexivity|].
  rewrite IH. generalize (order_by le l). intros m.
  induction m as [|y m IHm]; cbn; [reflexivity|].
  rewrite Hg. destruct (le x y); cbn; [reflexivity | rewrite IHm; reflexivity].
Qed.

End Ordering.

Lemma tree_order_total (a b : node) : tree_order a b = true \/ tree_order b a = true.
Proof.
  unfold tree_order.
  destruct (Z.lt_trichotomy (tree_id a) (tree_id b)) as [H | [H | H]].
  - left. apply orb_true_iff. left. apply Z.ltb_lt. exact H.
  - destruct (Z.le_ge_cases (lft a) (lft b)).
    + left. apply orb_true_iff. right. apply andb_true_iff.
      split; [apply Z.eqb_eq | apply Z.leb_le]; lia.
    + right. apply orb_true_iff. right. apply andb_true_iff.
      split; [apply Z.eqb_eq | apply Z.leb_le]; lia.
  - right. apply orb_true_iff. left. apply Z.ltb_lt. exact H.
Qed.

Lemma tree_order_spec (a b : node) :
  tree_order a b = true <->
  tree_id a < tree_id b \/ (tree_id a = tree_id b /\ lft a <= lft b).
Proof.
  unfold tree_order.
  rewrite orb_true_iff, andb_true_iff, Z.ltb_lt, Z.eqb_eq, Z.leb_le. reflexivity.
Qed.

Lemma tree_order_trans (a b c : node) :
  tree_order a b = true -> tree_order b c = true -> tree_order a c = true.
Proof. rewrite !tree_order_spec. lia. Qed.

Lemma insertion_order_total (a b : node) :
  insertion_order a b = true \/ insertion_order b a = true.
Proof.
  unfold insertion_order. destruct (Z.le_ge_cases (okey a) (okey b)).
  - left. apply Z.leb_le. lia.
  - right. apply Z.leb_le. lia.
Qed.

Lemma insertion_order_trans (a b c : node) :
  insertion_order a b = true -> insertion_order b c = true -> insertion_order a c = true.
Proof. unfold insertion_order. rewrite !Z.leb_le. lia. Qed.

Lemma rebuild_order_total (opts : mptt_meta) (a b : node) :
  rebuild_order opts a b = true \/ rebuild_order opts b a = true.
Proof.
  unfold rebuild_order. destruct (order_insertion_by opts);
    [apply insertion_order_total | apply tree_order_total].
Qed.

Lemma rebuild_order_trans (opts : mptt_meta) (a b c : node) :
  rebuild_order opts a b = true -> rebuild_order opts b c = true ->
  rebuild_order opts a c = true.
Proof.
  unfold rebuild_order. destruct (order_insertion_by opts);
    [apply insertion_order_trans | apply tree_order_trans].
Qed.

(** ** The children dictionary *)

Lemma get_children_fold (l : list node) :
  forall (d : dict) (k : Z),
    fold_left (fun d c => match parent c with
                          | Some p => dict_append d p c
                          | None => d
                          end) l d k
    = d k ++ filter (fun c => opt_eqb (parent c) (Some k)) l.
Proof.
  induction l as [|c l IH]; intros d k; cbn.
  - rewrite app_nil_r. reflexivity.
  - rewrite IH. destruct (parent c) as [p|]; cbn.
    + unfold dict_append. rewrite (Z.eqb_sym p k).
      destruct (k =? p); [rewrite <- app_assoc|]; reflexivity.
    + reflexivity.
Qed.

Lemma filter_filter_implied (p q : node -> bool) (l : list node) :
  (forall x, q x = true -> p x = true) ->
  filter q (filter p l) = filter q l.
Proof.
  intros H. induction l as [|x l IH]; cbn; [reflexivity|].
  destruct (p x) eqn:Ep; cbn; rewrite IH; [reflexivity|].
  destruct (q x) eqn:Eq; [|reflexivity].
  apply H in Eq. congruence.
Qed.

(** Without filters, [children[k]] is the rows whose parent is [k], in
    query order. *)
Lemma get_children_lookup (opts : mptt_meta) (rs : list node) (k : option Z) :
  dict_get (_get_children opts None rs) k
  = match k with
    | Some _ => order_by (rebuild_order opts)
                  (filter (fun c => opt_eqb (parent c) k) rs)
    | None => []
    end.
Proof.
  destruct k as [k|]; [|reflexivity].
  unfold dict_get, _get_children. rewrite get_children_fold. cbn [app].
  rewrite filter_order_by
    by first [apply rebuild_order_total | apply rebuild_order_trans].
  f_equal. apply filter_filter_implied.
  intros x Hx. unfold is_child_node, is_root_node.
  destruct (parent x); [reflexivity | discriminate].
Qed.

Lemma get_parents_lookup (opts : mptt_meta) (rs : list node) :
  _get_parents opts None rs = order_by (rebuild_order opts) (filter is_root_node rs).
Proof.
  unfold _get_parents. f_equal. apply filter_ext. intros r. cbn. apply andb_true_r.
Qed.

(** ** The loop over children *)

Lemma helper_loop_in (visit : node -> Z -> option (list node * Z)) (cs : list node) :
  forall right us r' u,
    helper_loop visit cs right = Some (us, r') -> In u us ->
    exists c right0 us0 r0,
      In c cs /\ visit c right0 = Some (us0, r0) /\ In u us0 /\ incl us0 us.
Proof.
  induction cs as [|c cs IH]; cbn; intros right us r' u H Hu.
  - inversion H; subst. contradiction.
  - destruct (visit c right) as [[us0 r0]|] eqn:Ev; [|discriminate].
    destruct (helper_loop visit cs r0) as [[us1 r1]|] eqn:El; [|discriminate].
    inversion H; subst. apply in_app_or in Hu. destruct Hu as [Hu | Hu].
    + exists c, right, us0, r0. repeat split; auto.
      intros x Hx. apply in_or_app. left. exact Hx.
    + destruct (IH _ _ _ _ El Hu) as (c' & a & b & d & Hc & Hv & Hin & Hsub).
      exists c', a, b, d. repeat split; auto.
      intros x Hx. apply in_or_app. right. apply Hsub, Hx.
Qed.

Lemma helper_loop_none (visit : node -> Z -> option (list node * Z)) (cs : list node)
  (c : node) :
  In c cs -> (forall right, visit c right = None) ->
  forall right, helper_loop visit cs right = None.
Proof.
  induction cs as [|c0 cs IH]; cbn; intros Hin Hnone right; [contradiction|].
  destruct Hin as [-> | Hin].
  - rewrite Hnone. reflexivity.
  - destruct (visit c0 right) as [[us0 r0]|]; [|reflexivity].
    rewrite (IH Hin Hnone). reflexivity.
Qed.

Lemma helper_loop_stuck (visit : node -> Z -> option (list node * Z)) (cs : list node) :
  forall right,
    helper_loop visit cs right = None ->
    exists c right0, In c cs /\ visit c right0 = None.
Proof.
  induction cs as [|c cs IH]; cbn; intros right H; [discriminate|].
  destruct (visit c right) as [[us0 r0]|] eqn:Ev.
  - destruct (helper_loop visit cs r0) as [[us1 r1]|] eqn:El; [discriminate|].
    destruct (IH _ El) as (c' & a & Hc & Hv). exists c', a. auto.
  - exists c, right. auto.
Qed.

Lemma helper_loop_nodup (visit : node -> Z -> option (list node * Z)) (cs : list node) :
  NoDup (map pk cs) ->
  (forall c right0 us0 r0,
      In c cs -> visit c right0 = Some (us0, r0) -> NoDup (map pk us0)) ->
  (forall c c' a b us0 us0' r0 r0' x x',
      In c cs -> In c' cs ->
      visit c a = Some (us0, r0) -> visit c' b = Some (us0', r0') ->
      In x us0 -> In x' us0' -> pk x = pk x' -> pk c = pk c') ->
  forall right us r',
    helper_loop visit cs right = Some (us, r') -> NoDup (map pk us).
Proof.
  induction cs as [|c cs IH]; cbn; intros Hnd Hone Hcross right us r' H.
  - inversion H; subst. constructor.
  - destruct (visit c right) as [[us0 r0]|] eqn:Ev; [|discriminate].
    destruct (helper_loop visit cs r0) as [[us1 r1]|] eqn:El; [|discriminate].
    inversion H; subst. inversion Hnd as [|? ? Hnotin Hnd']; subst.
    rewrite map_app. apply NoDup_app.
    + eapply Hone; [left; reflexivity | exact Ev].
    + eapply IH; eauto.
    + intros k Hk Hk'. apply in_map_iff in Hk, Hk'.
      destruct Hk as (x & Hx & Hxin), Hk' as (x' & Hx' & Hxin').
      destruct (helper_loop_in _ _ _ _ _ _ El Hxin') as (c' & b & us0' & r0' & Hc' & Hv' & Hin' & _).
      apply Hnotin.
      rewrite (Hcross c c' right b us0 us0' r0 r0' x x'); auto; [|congruence].
      apply in_map. exact Hc'.
Qed.

(** ** Walking a table along its parent links *)

Section Walk.

Variable rs : list node.
Hypothesis rs_nodup : NoDup (map pk rs).

Variable ch : dict.
Hypothesis ch_sound :
  forall k x, In x (dict_get ch k) -> In x rs /\ parent x = k.
Hypothesis ch_complete :
  forall x p, In x rs -> parent x = Some p -> In x (dict_get ch (Some p)).
Hypothesis ch_nodup : forall k, NoDup (map pk (dict_get ch k)).

Lemma above_step_inv (n : nat) (k a : option Z) :
  above rs (S n) k a ->
  exists r p, In r rs /\ pk r = k /\ parent r = Some p /\ above rs n (Some p) a.
Proof.
  intros H. inversion H as [|? r p ? Hr Hp Ha]; subst.
  exists r, p. repeat split; assumption.
Qed.

Lemma above_O_inv (k a : option Z) : above rs 0 k a -> k = a.
Proof. intros H. inversion H; reflexivity. Qed.

Lemma above_det (n : nat) : forall k a b, above rs n k a -> above rs n k b -> a = b.
Proof.
  induction n as [|n IH]; intros k a b Ha Hb.
  - inversion Ha; inversion Hb; subst. congruence.
  - apply above_step_inv in Ha, Hb.
    destruct Ha as (r & p & Hr & Hk & Hp & Ha), Hb as (r' & p' & Hr' & Hk' & Hp' & Hb).
    assert (r = r') by (eapply NoDup_pk_inj; eauto; congruence). subst r'.
    assert (p = p') by congruence. subst p'. eapply IH; eauto.
Qed.

Lemma above_app (n m : nat) : forall k a b,
  above rs n k a -> above rs m a b -> above rs (n + m) k b.
Proof.
  induction n as [|n IH]; intros k a b Ha Hb.
  - inversion Ha; subst. exact Hb.
  - inversion Ha; subst. cbn. econstructor; eauto.
Qed.

Lemma above_split (n m : nat) : forall k b,
  above rs (n + m) k b -> exists a, above rs n k a /\ above rs m a b.
Proof.
  induction n as [|n IH]; intros k b H.
  - exists k. split; [constructor | exact H].
  - cbn in H. apply above_step_inv in H.
    destruct H as (r & p & Hr & Hk & Hp & Hup). subst k.
    destruct (IH _ _ Hup) as (a & Ha & Hb).
    exists a. split; [econstructor; eauto | exact Hb].
Qed.

Lemma above_child (c : node) (p : Z) :
  In c rs -> parent c = Some p -> above rs 1 (pk c) (Some p).
Proof. intros. econstructor; eauto. constructor. Qed.

Lemma above_root (n : nat) (r : node) (a : option Z) :
  In r rs -> parent r = None -> above rs n (pk r) a -> n = O.
Proof.
  intros Hr Hp H. destruct n as [|n]; [reflexivity|].
  apply above_step_inv in H. destruct H as (r' & p & Hr' & Hk & Hp' & _).
  assert (r' = r) by (eapply NoDup_pk_inj; eauto). subst. congruence.
Qed.

(** A row on a cycle of parent links makes the recursion run out of any
    fuel. *)
Lemma cycle_exhausts (fuel : nat) : forall m nd left tid lvl,
  above rs (S m) (pk nd) (pk nd) ->
  _rebuild_helper fuel ch nd left tid lvl = None.
Proof.
  induction fuel as [|fuel IH]; intros m nd left tid lvl Hcyc; [reflexivity|].
  cbn [_rebuild_helper].
  replace (S m) with (m + 1)%nat in Hcyc by lia.
  destruct (above_split _ _ _ _ Hcyc) as (a & Hma & Hlast).
  apply above_step_inv in Hlast.
  destruct Hlast as (c & p & Hc & Hkc & Hpc & Hend).
  apply above_O_inv in Hend. rename Hend into Hk1. subst a.
  assert (Hcyc' : above rs (S m) (pk c) (pk c)).
  { change (S m) with (1 + m)%nat. eapply above_app; [|exact Hma].
    rewrite <- Hk1. apply above_child; assumption. }
  rewrite (helper_loop_none _ _ c); [reflexivity | |].
  - rewrite <- Hk1. apply ch_complete; assumption.
  - intros right. eapply IH. exact Hcyc'.
Qed.

(** Whatever the recursion emits lies below the node it started from. *)
Lemma emitted_above (fuel : nat) : forall nd left tid lvl us ret,
  _rebuild_helper fuel ch nd left tid lvl = Some (us, ret) ->
  forall u, In u us -> exists d, above rs d (pk u) (pk nd).
Proof.
  induction fuel as [|fuel IH]; intros nd left tid lvl us ret H u Hu; [discriminate|].
  cbn [_rebuild_helper] in H.
  destruct (helper_loop _ _ _) as [[us0 r0]|] eqn:El; [|discriminate].
  inversion H; subst. apply in_app_or in Hu. destruct Hu as [Hu | [<- | []]].
  - destruct (helper_loop_in _ _ _ _ _ _ El Hu) as (c & a & us1 & r1 & Hc & Hv & Hin & Hsub).
    destruct (IH _ _ _ _ _ _ Hv _ Hin) as (d & Hd).
    destruct (ch_sound _ _ Hc) as [Hcrs Hcp].
    destruct (pk nd) as [k|] eqn:Ek; [|cbn in Hc; contradiction].
    exists (d + 1)%nat. eapply above_app; [exact Hd | apply above_child; assumption].
  - exists O. cbn. constructor.
Qed.

Lemma emitted_nodup (fuel : nat) : forall nd left tid lvl us ret,
  _rebuild_helper fuel ch nd left tid lvl = Some (us, ret) ->
  NoDup (map pk us).
Proof.
  induction fuel as [|fuel IH]; intros nd left tid lvl us ret H; [discriminate|].
  pose proof H as Hsome.
  cbn [_rebuild_helper] in H.
  destruct (helper_loop _ _ _) as [[us0 r0]|] eqn:El; [|discriminate].
  inversion H; subst. clear H.
  assert (Hno : forall m, ~ above rs (S m) (pk nd) (pk nd)).
  { intros m Hc. rewrite (cycle_exhausts _ _ _ _ _ _ Hc) in Hsome. discriminate. }
  rewrite map_app. apply NoDup_app.
  - eapply helper_loop_nodup; [apply ch_nodup | | | exact El].
    + intros c a us1 r1 Hc Hv. exact (IH _ _ _ _ _ _ Hv).
    + intros c c' a b us1 us1' r1 r1' x x' Hc Hc' Hv Hv' Hx Hx' Hpk.
      destruct (emitted_above _ _ _ _ _ _ _ Hv _ Hx) as (d & Hd).
      destruct (emitted_above _ _ _ _ _ _ _ Hv' _ Hx') as (d' & Hd').
      rewrite Hpk in Hd.
      destruct (ch_sound _ _ Hc) as [Hcrs Hcp], (ch_sound _ _ Hc') as [Hcrs' Hcp'].
      destruct (pk nd) as [k|] eqn:Ek; [|cbn in Hc; contradiction].
      destruct (Nat.lt_trichotomy d d') as [Hlt | [-> | Hlt]].
      * exfalso. replace d' with (d + S (d' - d - 1))%nat in Hd' by lia.
        destruct (above_split _ _ _ _ Hd') as (a0 & Ha0 & Hrest).
        rewrite (above_det _ _ _ _ Ha0 Hd) in Hrest.
        apply above_step_inv in Hrest.
        destruct Hrest as (r & p & Hr & Hkr & Hpr & Hup).
        assert (r = c) by (eapply NoDup_pk_inj; eauto). subst r.
        assert (p = k) by congruence. subst p.
        apply (Hno (d' - d - 1)%nat).
        replace (S (d' - d - 1)) with ((d' - d - 1) + 1)%nat by lia.
        eapply above_app; [exact Hup | apply above_child; assumption].
      * eapply above_det; eauto.
      * exfalso. replace d with (d' + S (d - d' - 1))%nat in Hd by lia.
        destruct (above_split _ _ _ _ Hd) as (a0 & Ha0 & Hrest).
        rewrite (above_det _ _ _ _ Ha0 Hd') in Hrest.
        apply above_step_inv in Hrest.
        destruct Hrest as (r & p & Hr & Hkr & Hpr & Hup).
        assert (r = c') by (eapply NoDup_pk_inj; eauto). subst r.
        assert (p = k) by congruence. subst p.
        apply (Hno (d - d' - 1)%nat).
        replace (S (d - d' - 1)) with ((d - d' - 1) + 1)%nat by lia.
        eapply above_app; [exact Hup | apply above_child; assumption].
  - cbn. constructor; [intros [] | constructor].
  - intros k Hk Hk'. cbn in Hk'. destruct Hk' as [Hk' | []]. subst k.
    apply in_map_iff in Hk. destruct Hk as (x & Hx & Hxin).
    destruct (helper_loop_in _ _ _ _ _ _ El Hxin) as (c & a & us1 & r1 & Hc & Hv & Hin & Hsub).
    destruct (emitted_above _ _ _ _ _ _ _ Hv _ Hin) as (d & Hd).
    destruct (ch_sound _ _ Hc) as [Hcrs Hcp].
    destruct (pk nd) as [k|] eqn:Ek; [|cbn in Hc; contradiction].
    apply (Hno d). replace (S d) with (d + 1)%nat by lia.
    cbn in Hx. rewrite Hx in Hd.
    eapply above_app; [exact Hd | apply above_child; assumption].
Qed.

Lemma exhausted_deep (fuel : nat) : forall nd left tid lvl,
  _rebuild_helper fuel ch nd left tid lvl = None ->
  exists k, above rs fuel k (pk nd).
Proof.
  induction fuel as [|fuel IH]; intros nd left tid lvl H.
  - exists (pk nd). constructor.
  - cbn [_rebuild_helper] in H.
    destruct (helper_loop _ _ _) as [[us0 r0]|] eqn:El; [discriminate|].
    destruct (helper_loop_stuck _ _ _ El) as (c & a & Hc & Hv).
    destruct (IH _ _ _ _ Hv) as (k & Hk).
    destruct (ch_sound _ _ Hc) as [Hcrs Hcp].
    destruct (pk nd) as [q|] eqn:Eq; [|cbn in Hc; contradiction].
    exists k. replace (S fuel) with (fuel + 1)%nat by lia.
    eapply above_app; [exact Hk | apply above_child; assumption].
Qed.

Lemma cycle_iter (m : nat) (k : option Z) :
  above rs (S m) k k -> forall j, above rs (j * S m) k k.
Proof.
  intros Hc. induction j as [|j IH]; cbn [Nat.mul].
  - constructor.
  - eapply above_app; eauto.
Qed.

Lemma cycle_misses_roots (m n : nat) (k : option Z) (r : node) :
  above rs (S m) k k -> above rs n k (pk r) -> In r rs -> parent r = None -> False.
Proof.
  intros Hc Hn Hr Hp.
  pose proof (cycle_iter _ _ Hc (S n)) as Hbig.
  replace (S n * S m)%nat with (n + S (m + n * m))%nat in Hbig by nia.
  destruct (above_split _ _ _ _ Hbig) as (a & Ha & Hrest).
  rewrite (above_det _ _ _ _ Ha Hn) in Hrest.
  apply (above_root _ _ _ Hr Hp) in Hrest. discriminate.
Qed.

(** The keys met on the way up to a root are distinct rows of the table. *)
Lemma chain_keys (n : nat) : forall k (r : node),
  above rs n k (pk r) -> In r rs -> parent r = None ->
  exists ks,
    List.length ks = S n /\ NoDup ks /\ incl ks (map pk rs) /\
    forall x, In x ks -> exists i, above rs i k x.
Proof.
  induction n as [|n IH]; intros k r H Hr Hp.
  - apply above_O_inv in H. subst k. exists [pk r]. repeat split.
    + constructor; [intros [] | constructor].
    + intros x [<- | []]. apply in_map. exact Hr.
    + intros x [<- | []]. exists O. constructor.
  - pose proof H as Hfull. apply above_step_inv in H.
    destruct H as (c & p & Hc & Hk & Hpc & Hup). subst k.
    destruct (IH _ _ Hup Hr Hp) as (ks & Hlen & Hnd & Hincl & Hreach).
    exists (pk c :: ks). repeat split.
    + cbn. congruence.
    + constructor; [|exact Hnd]. intros Hin.
      destruct (Hreach _ Hin) as (i & Hi).
      eapply (cycle_misses_roots i (S n) (pk c) r); eauto.
      change (S i) with (1 + i)%nat.
      eapply above_app; [apply above_child; eassumption | exact Hi].
    + intros x [<- | Hx]; [apply in_map; exact Hc | apply Hincl, Hx].
    + intros x [<- | Hx]; [exists O; constructor|].
      destruct (Hreach _ Hx) as (i & Hi). exists (S i).
      change (S i) with (1 + i)%nat.
      eapply above_app; [apply above_child; eassumption | exact Hi].
Qed.

Lemma above_bound (n : nat) (k : option Z) (r : node) :
  above rs n k (pk r) -> In r rs -> parent r = None -> (n < List.length rs)%nat.
Proof.
  intros H Hr Hp.
  destruct (chain_keys _ _ _ H Hr Hp) as (ks & Hlen & Hnd & Hincl & _).
  pose proof (NoDup_incl_length Hnd Hincl) as Hle.
  rewrite length_map in Hle. lia.
Qed.

(** Started at a root with one unit of fuel more than the table has rows,
    the recursion returns. *)
Lemma helper_total (r : node) (left tid lvl : Z) :
  In r rs -> parent r = None ->
  exists us ret,
    _rebuild_helper (S (List.length rs)) ch r left tid lvl = Some (us, ret).
Proof.
  intros Hr Hp.
  destruct (_rebuild_helper (S (List.length rs)) ch r left tid lvl) as [[us ret]|] eqn:E.
  - eauto.
  - exfalso. destruct (exhausted_deep _ _ _ _ _ E) as (k & Hk).
    pose proof (above_bound _ _ _ Hk Hr Hp). lia.
Qed.

End Walk.

(** ** What the recursion assigns *)

Lemma helper_loop_retag (visit visit' : node -> Z -> option (list node * Z))
  (f : node -> node) (cs : list node) :
  (forall c a, visit' c a = match visit c a with
                            | Some (us, r) => Some (map f us, r)
                            | None => None
                            end) ->
  forall right,
    helper_loop visit' cs right
    = match helper_loop visit cs right with
      | Some (us, r) => Some (map f us, r)
      | None => None
      end.
Proof.
  intros Hv. induction cs as [|c cs IH]; intros right; cbn; [reflexivity|].
  rewrite Hv. destruct (visit c right) as [[us r]|]; [|reflexivity].
  rewrite IH. destruct (helper_loop visit cs r) as [[us' r']|]; [|reflexivity].
  rewrite map_app. reflexivity.
Qed.

(** The tree id is only stamped on the emitted nodes. *)
Lemma helper_retag (tid tid' : Z) (ch : dict) (fuel : nat) : forall nd left lvl,
  _rebuild_helper fuel ch nd left tid' lvl
  = match _rebuild_helper fuel ch nd left tid lvl with
    | Some (us, r) => Some (map (set_tree_id tid') us, r)
    | None => None
    end.
Proof.
  induction fuel as [|fuel IH]; intros nd left lvl; [reflexivity|].
  cbn [_rebuild_helper].
  rewrite (helper_loop_retag
             (fun child right => _rebuild_helper fuel ch child right tid (lvl + 1))
             _ (set_tree_id tid')) by (intros; apply IH).
  destruct (helper_loop _ _ _) as [[us r]|]; [|reflexivity].
  rewrite map_app. reflexivity.
Qed.

Lemma helper_loop_transfer (visit visit' : node -> Z -> option (list node * Z))
  (Good : node -> Prop) (cs : list node) :
  forall cs' right us r,
    map pk cs' = map pk cs ->
    (forall c c' a us0 r0,
        In c cs -> pk c' = pk c -> visit c a = Some (us0, r0) -> Forall Good us0 ->
        exists us0', visit' c' a = Some (us0', r0) /\ map entry us0' = map entry us0) ->
    helper_loop visit cs right = Some (us, r) ->
    Forall Good us ->
    exists us', helper_loop visit' cs' right = Some (us', r) /\
                map entry us' = map entry us.
Proof.
  induction cs as [|c cs IH]; intros cs' right us r Hpk Hv H Hgood.
  - destruct cs'; [|discriminate]. cbn in *. inversion H; subst.
    exists []. split; reflexivity.
  - destruct cs' as [|c' cs']; [discriminate|]. cbn in Hpk. inversion Hpk.
    cbn in H |- *.
    destruct (visit c right) as [[us0 r0]|] eqn:Ev; [|discriminate].
    destruct (helper_loop visit cs r0) as [[us1 r1]|] eqn:El; [|discriminate].
    inversion H; subst. apply Forall_app in Hgood. destruct Hgood as [Hg0 Hg1].
    destruct (Hv c c' right us0 r0) as (us0' & Hv' & He0);
      [left; reflexivity | assumption | assumption | assumption |].
    destruct (IH cs' r0 us1 r) as (us1' & Hl' & He1);
      [assumption | | assumption | assumption |].
    { intros c0 c0' a us2 r2 Hc0. apply Hv. right. exact Hc0. }
    rewrite Hv', Hl'. exists (us0' ++ us1'). split; [reflexivity|].
    rewrite !map_app. congruence.
Qed.

(** The recursion reads the table only through the keys of the children
    lists of the nodes it visits. *)
Lemma helper_transfer (ch ch' : dict) (fuel : nat) :
  forall nd nd' left tid lvl us ret,
    pk nd' = pk nd ->
    _rebuild_helper fuel ch nd left tid lvl = Some (us, ret) ->
    Forall (fun u => map pk (dict_get ch' (pk u)) = map pk (dict_get ch (pk u))) us ->
    exists us',
      _rebuild_helper fuel ch' nd' left tid lvl = Some (us', ret) /\
      map entry us' = map entry us.
Proof.
  induction fuel as [|fuel IH]; intros nd nd' left tid lvl us ret Hpk H Hgood;
    [discriminate|].
  cbn [_rebuild_helper] in H |- *.
  destruct (helper_loop _ (dict_get ch (pk nd)) _) as [[us0 r0]|] eqn:El; [|discriminate].
  inversion H; subst. clear H.
  apply Forall_app in Hgood. destruct Hgood as [Hg0 Hg1].
  inversion Hg1 as [|? ? Hnd _]; subst. cbn in Hnd.
  destruct (helper_loop_transfer
              (fun child right => _rebuild_helper fuel ch child right tid (lvl + 1))
              (fun child right => _rebuild_helper fuel ch' child right tid (lvl + 1))
              (fun u => map pk (dict_get ch' (pk u)) = map pk (dict_get ch (pk u)))
              (dict_get ch (pk nd)) (dict_get ch' (pk nd')) (left + 1) us0 r0)
    as (us0' & Hl' & He0); [| | exact El | exact Hg0 |].
  - rewrite Hpk. exact Hnd.
  - intros c c' a us1 r1 Hc Hpkc Hv Hg. eapply IH; eauto.
  - rewrite Hl'. eexists. split; [reflexivity|].
    rewrite !map_app, He0. cbn [map]. f_equal. f_equal.
    unfold entry. cbn. rewrite Hpk. reflexivity.
Qed.

Lemma helper_loop_heads (visit : node -> Z -> option (list node * Z)) (cs : list node) :
  (forall c a usc rc,
      In c cs -> visit c a = Some (usc, rc) ->
      a < rc /\ exists e, In e usc /\ pk e = pk c /\ lft e = a) ->
  forall right us r',
    helper_loop visit cs right = Some (us, r') ->
    right <= r' /\
    exists es,
      map pk es = map pk cs /\ incl es us /\
      StronglySorted (fun a b => lft a < lft b) es /\
      Forall (fun e => right <= lft e) es.
Proof.
  induction cs as [|c cs IH]; intros Hv right us r' H; cbn in H.
  - inversion H; subst. split; [lia|]. exists []. repeat split; try constructor.
    intros x [].
  - destruct (visit c right) as [[us0 r0]|] eqn:Ev; [|discriminate].
    destruct (helper_loop visit cs r0) as [[us1 r1]|] eqn:El; [|discriminate].
    inversion H; subst.
    destruct (Hv c right us0 r0 (or_introl eq_refl) Ev) as (Hlt & e & He & Hpk & Hl).
    destruct (IH (fun c0 a usc rc Hc0 => Hv c0 a usc rc (or_intror Hc0)) r0 us1 r' El)
      as (Hle & es & Hpks & Hincl & Hsorted & Hlow).
    split; [lia|]. exists (e :: es). repeat split.
    + cbn. congruence.
    + intros x [<- | Hx]; apply in_or_app; [left; exact He | right; apply Hincl, Hx].
    + constructor; [exact Hsorted|].
      eapply Forall_impl; [|exact Hlow]. intros a Ha. cbn in Ha. lia.
    + constructor; [lia|]. eapply Forall_impl; [|exact Hlow]. intros a Ha. cbn in Ha. lia.
Qed.

(** Every emitted node carries the tree id of the call; the node the call
    started from is emitted with the given left; and the children of every
    emitted node are emitted with strictly increasing lefts, in the order
    of the children list. *)
Lemma helper_values (ch : dict) (fuel : nat) : forall nd left tid lvl us ret,
  _rebuild_helper fuel ch nd left tid lvl = Some (us, ret) ->
  left < ret /\
  (exists e, In e us /\ pk e = pk nd /\ lft e = left) /\
  Forall (fun u => tree_id u = tid) us /\
  Forall (fun u =>
            exists es,
              map pk es = map pk (dict_get ch (pk u)) /\ incl es us /\
              StronglySorted (fun a b => lft a < lft b) es) us.
Proof.
  induction fuel as [|fuel IH]; intros nd left tid lvl us ret H; [discriminate|].
  cbn [_rebuild_helper] in H.
  destruct (helper_loop _ _ _) as [[us0 r0]|] eqn:El; [|discriminate].
  inversion H; subst. clear H.
  destruct (helper_loop_heads _ _
              (fun c a usc rc _ Hv =>
                 let '(conj Hlt (conj He _)) := IH c a tid (lvl + 1) usc rc Hv in
                 conj Hlt He) _ _ _ El)
    as (Hle & es & Hpks & Hincl & Hsorted & _).
  split; [lia|]. split; [|split].
  - eexists. split; [apply in_or_app; right; left; reflexivity|]. cbn. auto.
  - apply Forall_app. split; [|repeat constructor].
    apply Forall_forall. intros u Hu.
    destruct (helper_loop_in _ _ _ _ _ _ El Hu) as (c & a & us1 & r1 & Hc & Hv & Hin & Hsub).
    destruct (IH _ _ _ _ _ _ Hv) as (_ & _ & Htid & _).
    rewrite Forall_forall in Htid. apply Htid, Hin.
  - apply Forall_app. split.
    + apply Forall_forall. intros u Hu.
      destruct (helper_loop_in _ _ _ _ _ _ El Hu) as (c & a & us1 & r1 & Hc & Hv & Hin & Hsub).
      destruct (IH _ _ _ _ _ _ Hv) as (_ & _ & _ & Hkids).
      rewrite Forall_forall in Hkids. destruct (Hkids _ Hin) as (es' & Hp' & Hi' & Hs').
      exists es'. repeat split; auto.
      intros x Hx. apply in_or_app. left. apply Hsub, Hi', Hx.
    + constructor; [|constructor]. exists es. cbn. repeat split; auto.
      intros x Hx. apply in_or_app. left. apply Hincl, Hx.
Qed.

(** ** The loop over the roots *)

Lemma root_tids_cons (opts : mptt_meta) (uuid4 : nat -> Z) (tid idx : Z)
  (draws n : nat) :
  root_tids opts uuid4 tid idx draws (S n)
  = (if root_node_ordering opts then tid + idx else uuid4 draws)
    :: root_tids opts uuid4 tid (idx + 1)
         (if root_node_ordering opts then draws else S draws) n.
Proof.
  unfold root_tids. cbn [seq map]. f_equal.
  - destruct (root_node_ordering opts); [cbn; lia | f_equal; lia].
  - rewrite <- seq_shift, map_map. apply map_ext. intros i.
    destruct (root_node_ordering opts); [lia | f_equal; lia].
Qed.

Lemma rebuild_roots_run (opts : mptt_meta) (uuid4 : nat -> Z) (fuel : nat)
  (ch : dict) (tid : Z) (parents : list node) :
  (forall p t, In p parents -> _rebuild_helper fuel ch p 1 t 0 <> None) ->
  forall idx st,
    rebuild_roots opts uuid4 fuel ch tid idx parents st
    = (with_draws (if root_node_ordering opts
                   then uuid_draws st
                   else (uuid_draws st + List.length parents)%nat) st,
       Ok (collected fuel ch parents
             (root_tids opts uuid4 tid idx (uuid_draws st) (List.length parents)))).
Proof.
  induction parents as [|p ps IH]; intros Hsome idx st.
  - cbn. unfold ret. destruct (root_node_ordering opts); rewrite ?Nat.add_0_r;
      destruct st; reflexivity.
  - cbn [rebuild_roots List.length]. rewrite root_tids_cons.
    unfold collected. cbn [combine flat_map fst snd]. unfold emitted at 1.
    unfold bind at 1. destruct (root_node_ordering opts) eqn:Ern.
    + unfold ret at 1.
      destruct (_rebuild_helper fuel ch p 1 (tid + idx) 0) as [[us r]|] eqn:E;
        [|exfalso; eapply Hsome; [left; reflexivity | exact E]].
      unfold bind. rewrite IH by (intros; apply Hsome; right; assumption).
      reflexivity.
    + destruct (_rebuild_helper fuel ch p 1 (uuid4 (uuid_draws st)) 0) as [[us r]|] eqn:E;
        [|exfalso; eapply Hsome; [left; reflexivity | exact E]].
      unfold bind. rewrite IH by (intros; apply Hsome; right; assumption).
      unfold ret, with_draws. cbn [rows mptt_updates_enabled mptt_is_tracking
        mptt_delayed_tree_changes uuid_draws journal].
      replace (S (uuid_draws st) + Datatypes.length ps)%nat
        with (uuid_draws st + S (Datatypes.length ps))%nat by lia.
      reflexivity.
Qed.

(** ** One full rebuild of a table with distinct keys *)

Lemma filter_keys_nodup (q : node -> bool) (rs : list node) :
  NoDup (map pk rs) -> NoDup (map pk (filter q rs)).
Proof.
  intros Hnd. induction rs as [|r rs IH]; [exact Hnd|].
  cbn [map] in Hnd. apply NoDup_cons_iff in Hnd. destruct Hnd as [Hr Hrs].
  cbn [filter]. destruct (q r); [|exact (IH Hrs)].
  cbn [map]. constructor; [|exact (IH Hrs)].
  contradict Hr. apply in_map_iff in Hr. destruct Hr as (y & Hy & Hyin).
  apply in_map_iff. exists y. split; [exact Hy|].
  apply filter_In in Hyin. exact (proj1 Hyin).
Qed.

Lemma is_root_node_spec (r : node) : is_root_node r = true <-> parent r = None.
Proof. unfold is_root_node. destruct (parent r); split; congruence. Qed.

Section Forest.

Variable opts : mptt_meta.
Variable rs : list node.
Hypothesis rs_nodup : NoDup (map pk rs).

Let ch : dict := _get_children opts None rs.
Let parents : list node := _get_parents opts None rs.
Let fuel : nat := S (List.length rs).

Lemma children_perm (k : Z) :
  Permutation (dict_get ch (Some k))
              (filter (fun c => opt_eqb (parent c) (Some k)) rs).
Proof.
  unfold ch. rewrite get_children_lookup. apply order_by_perm.
Qed.

Lemma children_sound (k : option Z) (x : node) :
  In x (dict_get ch k) -> In x rs /\ parent x = k.
Proof.
  destruct k as [k|]; [|intros []].
  intros H. eapply Permutation_in in H; [|apply children_perm].
  apply filter_In in H. destruct H as [Hin Hp].
  split; [exact Hin | apply opt_eqb_eq; exact Hp].
Qed.

Lemma children_complete (x : node) (p : Z) :
  In x rs -> parent x = Some p -> In x (dict_get ch (Some p)).
Proof.
  intros Hin Hp. eapply Permutation_in; [apply Permutation_sym, children_perm|].
  apply filter_In. split; [exact Hin | apply opt_eqb_eq; exact Hp].
Qed.

Lemma children_nodup (k : option Z) : NoDup (map pk (dict_get ch k)).
Proof.
  destruct k as [k|]; [|constructor].
  eapply Permutation_NoDup.
  - apply Permutation_map, Permutation_sym, children_perm.
  - apply filter_keys_nodup. exact rs_nodup.
Qed.

Lemma parents_perm : Permutation parents (filter is_root_node rs).
Proof.
  unfold parents. rewrite get_parents_lookup. apply order_by_perm.
Qed.

Lemma parents_spec (p : node) : In p parents -> In p rs /\ parent p = None.
Proof.
  intros H. eapply Permutation_in in H; [|apply parents_perm].
  apply filter_In in H. destruct H as [Hin Hr].
  split; [exact Hin | apply is_root_node_spec; exact Hr].
Qed.

Lemma parents_nodup : NoDup (map pk parents).
Proof.
  eapply Permutation_NoDup.
  - apply Permutation_map, Permutation_sym, parents_perm.
  - apply filter_keys_nodup. exact rs_nodup.
Qed.

Lemma walk_returns (p : node) (t : Z) :
  In p rs -> parent p = None ->
  exists ret, _rebuild_helper fuel ch p 1 t 0 = Some (emitted fuel ch p t, ret).
Proof.
  intros Hin Hp.
  destruct (helper_total rs rs_nodup ch children_sound p 1 t 0 Hin Hp) as (us & ret & H).
  exists ret. unfold emitted, fuel. rewrite H. reflexivity.
Qed.

Lemma roots_apart (p p' : node) (d d' : nat) (k : option Z) :
  In p rs -> parent p = None -> In p' rs -> parent p' = None ->
  above rs d k (pk p) -> above rs d' k (pk p') -> pk p = pk p'.
Proof.
  intros Hp Hpr Hp' Hpr' Hd Hd'.
  destruct (Nat.le_ge_cases d d') as [Hle | Hle].
  - replace d' with (d + (d' - d))%nat in Hd' by lia.
    destruct (above_split rs _ _ _ _ Hd') as (a & Ha & Hrest).
    rewrite (above_det rs rs_nodup _ _ _ _ Ha Hd) in Hrest.
    pose proof (above_root rs rs_nodup _ _ _ Hp Hpr Hrest) as Hz.
    rewrite Hz in Hrest. apply above_O_inv in Hrest. exact Hrest.
  - replace d with (d' + (d - d'))%nat in Hd by lia.
    destruct (above_split rs _ _ _ _ Hd) as (a & Ha & Hrest).
    rewrite (above_det rs rs_nodup _ _ _ _ Ha Hd') in Hrest.
    pose proof (above_root rs rs_nodup _ _ _ Hp' Hpr' Hrest) as Hz.
    rewrite Hz in Hrest. apply above_O_inv in Hrest. symmetry. exact Hrest.
Qed.

End Forest.

Section Collected.

Variable opts : mptt_meta.
Variable rs : list node.
Hypothesis rs_nodup : NoDup (map pk rs).

Let ch : dict := _get_children opts None rs.
Let fuel : nat := S (List.length rs).

Lemma collected_in (ps : list node) : forall ts u,
  In u (collected fuel ch ps ts) ->
  exists p t, In p ps /\ In u (emitted fuel ch p t) /\
              incl (emitted fuel ch p t) (collected fuel ch ps ts).
Proof.
  induction ps as [|p ps IH]; intros ts u H; [contradiction|].
  destruct ts as [|t ts]; [contradiction|].
  unfold collected in H. cbn [combine flat_map fst snd] in H.
  apply in_app_or in H. destruct H as [H | H].
  - exists p, t. repeat split; [left; reflexivity | exact H |].
    intros x Hx. unfold collected. cbn [combine flat_map fst snd].
    apply in_or_app. left. exact Hx.
  - destruct (IH ts u H) as (p' & t' & Hp' & Hu & Hsub).
    exists p', t'. repeat split; [right; exact Hp' | exact Hu |].
    intros x Hx. unfold collected. cbn [combine flat_map fst snd].
    apply in_or_app. right. apply Hsub, Hx.
Qed.

Lemma emitted_below (p : node) (t : Z) (u : node) :
  In p rs -> parent p = None -> In u (emitted fuel ch p t) ->
  exists d, above rs d (pk u) (pk p).
Proof.
  intros Hp Hpr Hu.
  destruct (walk_returns opts rs rs_nodup p t Hp Hpr) as (ret & Hret).
  eapply emitted_above; [apply children_sound; exact rs_nodup | exact Hret | exact Hu].
Qed.

Lemma collected_nodup (ps : list node) : forall ts,
  all_roots rs ps -> NoDup (map pk ps) ->
  NoDup (map pk (collected fuel ch ps ts)).
Proof.
  induction ps as [|p ps IH]; intros ts Hroots Hnd; [constructor|].
  destruct ts as [|t ts]; [constructor|].
  unfold collected. cbn [combine flat_map fst snd]. rewrite map_app.
  destruct (Hroots p (or_introl eq_refl)) as [Hp Hpr].
  inversion Hnd as [|? ? Hnotin Hnd']; subst.
  apply NoDup_app.
  - destruct (walk_returns opts rs rs_nodup p t Hp Hpr) as (ret & Hret).
    eapply emitted_nodup; [exact rs_nodup | apply children_sound; exact rs_nodup
                          | apply children_complete | apply children_nodup; exact rs_nodup
                          | exact Hret].
  - apply IH; [intros q Hq; apply Hroots; right; exact Hq | exact Hnd'].
  - intros k Hk Hk'. apply in_map_iff in Hk, Hk'.
    destruct Hk as (x & Hx & Hxin), Hk' as (x' & Hx' & Hxin').
    destruct (collected_in _ _ _ Hxin') as (p' & t' & Hp' & Hu' & _).
    destruct (Hroots p' (or_intror Hp')) as [Hp'rs Hp'r].
    destruct (emitted_below _ _ _ Hp Hpr Hxin) as (d & Hd).
    destruct (emitted_below _ _ _ Hp'rs Hp'r Hu') as (d' & Hd').
    rewrite Hx in Hd. rewrite Hx' in Hd'.
    apply Hnotin.
    rewrite (roots_apart rs rs_nodup p p' d d' k Hp Hpr Hp'rs Hp'r Hd Hd').
    apply in_map. exact Hp'.
Qed.

Lemma collected_kids (ps : list node) (ts : list Z) (u : node) :
  all_roots rs ps -> In u (collected fuel ch ps ts) ->
  exists es t,
    map pk es = map pk (dict_get ch (pk u)) /\
    incl es (collected fuel ch ps ts) /\
    StronglySorted (fun a b => lft a < lft b) es /\
    Forall (fun e => tree_id e = t) es.
Proof.
  intros Hroots Hu.
  destruct (collected_in _ _ _ Hu) as (p & t & Hp & Hup & Hsub).
  destruct (Hroots p Hp) as [Hprs Hpr].
  destruct (walk_returns opts rs rs_nodup p t Hprs Hpr) as (ret & Hret).
  destruct (helper_values _ _ _ _ _ _ _ _ Hret) as (_ & _ & Htid & Hkids).
  rewrite Forall_forall in Htid, Hkids.
  destruct (Hkids _ Hup) as (es & Hpks & Hincl & Hsorted).
  exists es, t. repeat split; auto.
  - intros x Hx. apply Hsub, Hincl, Hx.
  - apply Forall_forall. intros e He. apply Htid, Hincl, He.
Qed.

Lemma collected_roots (ps : list node) : forall ts,
  List.length ts = List.length ps -> all_roots rs ps ->
  exists es,
    map pk es = map pk ps /\ incl es (collected fuel ch ps ts) /\
    map tree_id es = ts.
Proof.
  induction ps as [|p ps IH]; intros ts Hlen Hroots.
  - destruct ts; [|discriminate]. exists []. repeat split. intros x [].
  - destruct ts as [|t ts]; [discriminate|]. cbn in Hlen.
    destruct (Hroots p (or_introl eq_refl)) as [Hp Hpr].
    destruct (walk_returns opts rs rs_nodup p t Hp Hpr) as (ret & Hret).
    destruct (helper_values _ _ _ _ _ _ _ _ Hret) as (_ & (e & He & Hpk & _) & Htid & _).
    rewrite Forall_forall in Htid.
    destruct (IH ts) as (es & Hpks & Hincl & Htids);
      [lia | intros q Hq; apply Hroots; right; exact Hq |].
    exists (e :: es). unfold collected. cbn [combine flat_map fst snd map]. repeat split.
    + congruence.
    + intros x [<- | Hx]; apply in_or_app; [left; exact He | right; apply Hincl, Hx].
    + rewrite (Htid _ He), Htids. reflexivity.
Qed.

End Collected.

(** ** The table after the write *)

Lemma write_fields_pk (U : list node) (r : node) : pk (write_fields U r) = pk r.
Proof. unfold write_fields. destruct (find _ U); reflexivity. Qed.

Lemma write_fields_parent (U : list node) (r : node) :
  parent (write_fields U r) = parent r.
Proof. unfold write_fields. destruct (find _ U); reflexivity. Qed.

Lemma write_fields_okey (U : list node) (r : node) : okey (write_fields U r) = okey r.
Proof. unfold write_fields. destruct (find _ U); reflexivity. Qed.

Lemma write_fields_found (U : list node) (e c : node) :
  NoDup (map pk U) -> In e U -> pk e = pk c ->
  write_fields U c
  = mkNode (pk c) (parent c) (lft e) (rght e) (level e) (tree_id e) (okey c).
Proof.
  intros Hnd He Hpk. unfold write_fields.
  destruct (find (fun u => opt_eqb (pk u) (pk c)) U) as [e'|] eqn:Ef.
  - apply find_some in Ef. destruct Ef as [He' Hpk']. apply opt_eqb_eq in Hpk'.
    assert (e' = e) by (eapply NoDup_pk_inj; eauto; congruence). subst. reflexivity.
  - eapply find_none in Ef; [|exact He]. cbn in Ef.
    rewrite Hpk in Ef. destruct (pk c); cbn in Ef; [rewrite Z.eqb_refl in Ef|]; discriminate.
Qed.

Lemma write_fields_entries (U U' : list node) :
  map entry U' = map entry U -> forall r, write_fields U' r = write_fields U r.
Proof.
  intros H r. unfold write_fields.
  assert (Hfind : forall k,
             option_map entry (find (fun u => opt_eqb (pk u) k) U')
             = option_map entry (find (fun u => opt_eqb (pk u) k) U)).
  { intros k. revert U' H. induction U as [|u U IH]; intros [|u' U'] H; try discriminate.
    - reflexivity.
    - cbn in H. inversion H as [[Hpk Hl Hr Hlv Ht Hrest]]. cbn.
      rewrite Hpk. destruct (opt_eqb (pk u) k).
      + cbn. unfold entry. congruence.
      + apply IH. exact Hrest. }
  specialize (Hfind (pk r)).
  destruct (find _ U') as [u'|], (find _ U) as [u|]; cbn in Hfind; try discriminate;
    [|reflexivity].
  unfold entry in Hfind. inversion Hfind. reflexivity.
Qed.

Lemma write_fields_twice (U : list node) (r : node) :
  write_fields U (write_fields U r) = write_fields U r.
Proof.
  unfold write_fields at 1. rewrite write_fields_pk.
  unfold write_fields. destruct (find _ U) as [u|]; reflexivity.
Qed.

Lemma filter_map_invariant (g : node -> node) (q : node -> bool) (l : list node) :
  (forall r, q (g r) = q r) -> filter q (map g l) = map g (filter q l).
Proof.
  intros H. induction l as [|x l IH]; cbn; [reflexivity|].
  rewrite H. destruct (q x); cbn; rewrite IH; reflexivity.
Qed.

Lemma tree_before_of_lft (t : Z) (l : list node) :
  Forall (fun x => tree_id x = t) l ->
  StronglySorted Z.lt (map lft l) ->
  StronglySorted tree_before l.
Proof.
  induction l as [|a l IH]; cbn; intros Ht Hs; [constructor|].
  inversion Ht as [|? ? Hta Htl]; inversion Hs as [|? ? Hsl Hal]; subst.
  constructor; [apply IH; assumption|].
  rewrite Forall_map in Hal. rewrite Forall_forall in Hal, Htl.
  apply Forall_forall. intros b Hb. specialize (Hal _ Hb). specialize (Htl _ Hb).
  unfold tree_before. split.
  - apply tree_order_spec. lia.
  - destruct (tree_order b a) eqn:E; [|reflexivity].
    apply tree_order_spec in E. lia.
Qed.

Lemma tree_before_of_tree_id (l : list node) :
  StronglySorted Z.lt (map tree_id l) ->
  StronglySorted tree_before l.
Proof.
  induction l as [|a l IH]; cbn; intros Hs; [constructor|].
  inversion Hs as [|? ? Hsl Hal]; subst.
  constructor; [apply IH; assumption|].
  rewrite Forall_map in Hal. rewrite Forall_forall in Hal.
  apply Forall_forall. intros b Hb. specialize (Hal _ Hb).
  unfold tree_before. split.
  - apply tree_order_spec. lia.
  - destruct (tree_order b a) eqn:E; [|reflexivity].
    apply tree_order_spec in E. lia.
Qed.

Lemma sorted_map_lft (es : list node) :
  StronglySorted (fun a b => lft a < lft b) es -> StronglySorted Z.lt (map lft es).
Proof.
  induction 1 as [|a l Hl IH Ha]; cbn; constructor; [exact IH|].
  rewrite Forall_map. exact Ha.
Qed.

Lemma root_tids_increasing (opts : mptt_meta) (uuid4 : nat -> Z) (tid : Z)
  (draws n : nat) :
  root_node_ordering opts = true ->
  forall idx, StronglySorted Z.lt (root_tids opts uuid4 tid idx draws n).
Proof.
  intros Hrn. induction n as [|n IH]; intros idx.
  - constructor.
  - rewrite root_tids_cons, Hrn. constructor; [apply IH|].
    unfold root_tids. rewrite Hrn, Forall_map. apply Forall_forall.
    intros i _. lia.
Qed.

Lemma root_tids_length (opts : mptt_meta) (uuid4 : nat -> Z) (tid idx : Z)
  (draws n : nat) :
  List.length (root_tids opts uuid4 tid idx draws n) = n.
Proof. unfold root_tids. rewrite length_map, length_seq. reflexivity. Qed.

Lemma emitted_retag (fuel : nat) (ch : dict) (p : node) (t t' : Z) :
  emitted fuel ch p t' = map (set_tree_id t') (emitted fuel ch p t).
Proof.
  unfold emitted. rewrite (helper_retag t t').
  destruct (_rebuild_helper fuel ch p 1 t 0) as [[us r]|]; reflexivity.
Qed.

Lemma in_combine_exists {A B : Type} (ps : list A) : forall (ts : list B) p,
  In p ps -> List.length ts = List.length ps -> exists t, In (p, t) (combine ps ts).
Proof.
  induction ps as [|q ps IH]; intros ts p Hin Hlen; [contradiction|].
  destruct ts as [|t ts]; [discriminate|]. cbn in Hlen.
  destruct Hin as [-> | Hin].
  - exists t. left. reflexivity.
  - destruct (IH ts p Hin) as (t' & Ht'); [lia|]. exists t'. right. exact Ht'.
Qed.

Lemma emitted_in_collected (fuel : nat) (ch : dict) (ps : list node) (ts : list Z)
  (p : node) (t : Z) :
  In (p, t) (combine ps ts) -> incl (emitted fuel ch p t) (collected fuel ch ps ts).
Proof.
  intros H x Hx. unfold collected. apply in_flat_map. exists (p, t). auto.
Qed.

Section Again.

Variable opts : mptt_meta.
Variable rs : list node.
Hypothesis rs_nodup : NoDup (map pk rs).

Let ch : dict := _get_children opts None rs.
Let parents : list node := _get_parents opts None rs.
Let fuel : nat := S (List.length rs).

Variable ts : list Z.
Hypothesis ts_length : List.length ts = List.length parents.

Let U : list node := collected fuel ch parents ts.
Let g : node -> node := write_fields U.
Let ch1 : dict := _get_children opts None (map g rs).

Lemma parents_all_roots : all_roots rs parents.
Proof. intros p Hp. apply (parents_spec opts rs p Hp). Qed.

Lemma U_nodup : NoDup (map pk U).
Proof.
  apply collected_nodup; [exact rs_nodup | apply parents_all_roots | ].
  apply parents_nodup. exact rs_nodup.
Qed.

Lemma written_nodup : NoDup (map pk (map g rs)).
Proof.
  rewrite map_map. erewrite map_ext; [exact rs_nodup|].
  intros r. apply write_fields_pk.
Qed.

Lemma written_by (es : list node) : forall cs,
  map pk es = map pk cs -> incl es U ->
  map lft (map g cs) = map lft es /\ map tree_id (map g cs) = map tree_id es.
Proof.
  induction es as [|e es IH]; intros [|c cs] Hpk Hincl; try discriminate.
  - split; reflexivity.
  - cbn in Hpk. inversion Hpk as [[Hpk0 Hpks]].
    destruct (IH cs Hpks) as [Hl Ht]; [intros x Hx; apply Hincl; right; exact Hx|].
    cbn. unfold g at 1 3.
    rewrite (write_fields_found U e c U_nodup (Hincl e (or_introl eq_refl)) Hpk0).
    cbn. split; congruence.
Qed.

Lemma written_kids_sorted (u : node) :
  In u U -> StronglySorted tree_before (map g (dict_get ch (pk u))).
Proof.
  intros Hu.
  destruct (collected_kids opts rs rs_nodup parents ts u parents_all_roots Hu)
    as (es & t & Hpks & Hincl & Hsorted & Htid).
  destruct (written_by es _ Hpks Hincl) as [Hl Ht].
  apply (tree_before_of_lft t).
  - assert (H : Forall (fun v => v = t) (map tree_id es))
      by (rewrite Forall_map; exact Htid).
    rewrite <- Ht, Forall_map in H. exact H.
  - replace (map lft (map g (dict_get ch (pk u)))) with (map lft es)
      by (symmetry; exact Hl).
    apply sorted_map_lft. exact Hsorted.
Qed.

(** Sorting the written rows: the old order survives whenever it is the
    declared ordering, or the written rows are strictly increasing. *)
Lemma resorted (q : node -> bool) :
  (forall r, q (g r) = q r) ->
  (order_insertion_by opts = false ->
   StronglySorted tree_before (map g (order_by (rebuild_order opts) (filter q rs)))) ->
  order_by (rebuild_order opts) (filter q (map g rs))
  = map g (order_by (rebuild_order opts) (filter q rs)).
Proof.
  intros Hq Hsorted. rewrite (filter_map_invariant g q rs Hq).
  unfold rebuild_order in *. destruct (order_insertion_by opts).
  - apply order_by_map. intros a b. unfold insertion_order, g.
    rewrite !write_fields_okey. reflexivity.
  - apply order_by_unique;
      [apply tree_order_total | apply tree_order_trans | apply Hsorted; reflexivity |].
    apply Permutation_map, Permutation_sym, order_by_perm.
Qed.

Lemma kids_again (u : node) :
  In u U -> dict_get ch1 (pk u) = map g (dict_get ch (pk u)).
Proof.
  intros Hu. pose proof (written_kids_sorted u Hu) as Hsorted.
  unfold ch1, ch in *. rewrite !get_children_lookup in *.
  destruct (pk u) as [k|]; [|reflexivity].
  apply resorted.
  - intros r. unfold g. rewrite write_fields_parent. reflexivity.
  - intros _. exact Hsorted.
Qed.

Lemma parents_again_perm :
  Permutation (_get_parents opts None (map g rs)) (map g parents).
Proof.
  unfold parents. rewrite !get_parents_lookup.
  eapply perm_trans; [apply order_by_perm|].
  rewrite filter_map_invariant
    by (intros r; unfold is_root_node, g; rewrite write_fields_parent; reflexivity).
  apply Permutation_map, Permutation_sym, order_by_perm.
Qed.

Lemma parents_again :
  StronglySorted Z.lt ts ->
  _get_parents opts None (map g rs) = map g parents.
Proof.
  intros Hts. unfold parents. rewrite !get_parents_lookup.
  apply resorted.
  - intros r. unfold is_root_node, g. rewrite write_fields_parent. reflexivity.
  - intros _.
    destruct (collected_roots opts rs rs_nodup parents ts ts_length parents_all_roots)
      as (es & Hpks & Hincl & Htids).
    destruct (written_by es _ Hpks Hincl) as [_ Ht].
    apply tree_before_of_tree_id.
    unfold parents in Ht. rewrite get_parents_lookup in Ht.
    rewrite Ht, Htids. exact Hts.
Qed.

End Again.

Section Twice.

Variable opts : mptt_meta.
Variable rs : list node.
Hypothesis rs_nodup : NoDup (map pk rs).

Let ch : dict := _get_children opts None rs.
Let parents : list node := _get_parents opts None rs.
Let fuel : nat := S (List.length rs).

Variable ts : list Z.
Hypothesis ts_length : List.length ts = List.length parents.

Let U : list node := collected fuel ch parents ts.
Let g : node -> node := write_fields U.
Let ch1 : dict := _get_children opts None (map g rs).

(** The second walk from a root emits what the first one emitted. *)
Lemma block_again (p : node) (t : Z) :
  In p parents ->
  map entry (emitted fuel ch1 (g p) t) = map entry (emitted fuel ch p t).
Proof.
  intros Hp. destruct (parents_spec opts rs p Hp) as [Hprs Hpr].
  destruct (walk_returns opts rs rs_nodup p t Hprs Hpr) as (ret & Hret).
  destruct (in_combine_exists parents ts p Hp ts_length) as (t0 & Ht0).
  destruct (helper_transfer ch ch1 fuel p (g p) 1 t 0 (emitted fuel ch p t) ret)
    as (us' & Hus' & Hentries); [apply write_fields_pk | exact Hret | |].
  - apply Forall_forall. intros u Hu.
    rewrite (emitted_retag fuel ch p t0 t) in Hu. apply in_map_iff in Hu.
    destruct Hu as (u0 & <- & Hu0).
    apply (emitted_in_collected fuel ch parents ts p t0 Ht0) in Hu0.
    change (pk (set_tree_id t u0)) with (pk u0).
    transitivity (map pk (map g (dict_get ch (pk u0)))).
    + f_equal. exact (kids_again opts rs rs_nodup ts u0 Hu0).
    + rewrite map_map. apply map_ext. intros r. apply write_fields_pk.
  - unfold emitted at 1. rewrite Hus'. exact Hentries.
Qed.

Lemma collected_again (ps : list node) : forall ts',
  incl ps parents ->
  map entry (collected fuel ch1 (map g ps) ts') = map entry (collected fuel ch ps ts').
Proof.
  induction ps as [|p ps IH]; intros ts' Hincl; [reflexivity|].
  destruct ts' as [|t ts']; [reflexivity|].
  unfold collected. cbn [map combine flat_map fst snd]. rewrite !map_app.
  f_equal.
  - apply block_again. apply Hincl. left. reflexivity.
  - apply IH. intros x Hx. apply Hincl. right. exact Hx.
Qed.

Lemma collected_geometry (c : dict) (ps : list node) : forall ts',
  List.length ts' = List.length ps ->
  map geometry (collected fuel c ps ts')
  = flat_map (fun p => map geometry (emitted fuel c p 0)) ps.
Proof.
  induction ps as [|p ps IH]; intros ts' Hlen.
  - destruct ts'; reflexivity.
  - destruct ts' as [|t ts']; [discriminate|]. cbn in Hlen.
    unfold collected. cbn [combine flat_map fst snd]. rewrite map_app.
    f_equal; [|apply IH; lia].
    rewrite (emitted_retag fuel c p 0 t), map_map. apply map_ext. reflexivity.
Qed.

Lemma geometry_of_entry (l l' : list node) :
  map entry l = map entry l' -> map geometry l = map geometry l'.
Proof.
  revert l'. induction l as [|x l IH]; intros [|y l'] H; try discriminate; [reflexivity|].
  cbn in H. inversion H as [[H1 H2 H3 H4 H5 Hrest]]. cbn.
  unfold geometry at 1 3. rewrite H1, H2, H3, H4, (IH _ Hrest). reflexivity.
Qed.

(** Walking the written table from its roots, in whatever order, collects
    the same keys with the same left, right and level. *)
Lemma collected_again_perm (ps2 : list node) (ts2 : list Z) :
  Permutation ps2 (map g parents) ->
  List.length ts2 = List.length ps2 ->
  Permutation (map geometry (collected fuel ch1 ps2 ts2)) (map geometry U).
Proof.
  intros Hperm Hlen.
  rewrite (collected_geometry ch1 ps2 ts2 Hlen).
  eapply perm_trans; [apply Permutation_flat_map, Hperm|].
  unfold U. rewrite (collected_geometry ch parents ts ts_length).
  assert (Heach : forall ps, incl ps parents ->
            flat_map (fun p => map geometry (emitted fuel ch1 p 0)) (map g ps)
            = flat_map (fun p => map geometry (emitted fuel ch p 0)) ps).
  { induction ps as [|p ps IH]; intros Hincl; [reflexivity|]. cbn.
    rewrite IH by (intros x Hx; apply Hincl; right; exact Hx).
    f_equal. apply geometry_of_entry, block_again. apply Hincl. left. reflexivity. }
  rewrite Heach by apply incl_refl. apply Permutation_refl.
Qed.

End Twice.

(** ** Rebuilding twice *)

Lemma rebuild_run (opts : mptt_meta) (uuid4 : nat -> Z) (st : store) :
  NoDup (map pk (rows st)) ->
  rebuild opts uuid4 None st
  = (rebuilt opts (rebuild_objects opts uuid4 st)
       (List.length (_get_parents opts None (rows st))) st,
     Ok tt).
Proof.
  intros Hnd. unfold rebuild, bind at 1, log, modify. unfold bind at 1, get.
  cbn [rows with_journal]. unfold bind.
  rewrite rebuild_roots_run.
  - reflexivity.
  - intros p t Hp.
    destruct (parents_spec opts (rows st) p Hp) as [Hprs Hpr].
    destruct (walk_returns opts (rows st) Hnd p t Hprs Hpr) as (ret & Hret).
    rewrite Hret. discriminate.
Qed.

Lemma write_fields_geometry (U U2 : list node) (r : node) :
  NoDup (map pk U) ->
  Permutation (map geometry U2) (map geometry U) ->
  shape (write_fields U2 r) = shape (write_fields U r).
Proof.
  intros Hnd Hperm.
  assert (Hpks : Permutation (map pk U2) (map pk U)).
  { replace (map pk U2) with (map (fun x => fst (fst (fst x))) (map geometry U2))
      by (rewrite map_map; reflexivity).
    replace (map pk U) with (map (fun x => fst (fst (fst x))) (map geometry U))
      by (rewrite map_map; reflexivity).
    apply Permutation_map, Hperm. }
  assert (Hnd2 : NoDup (map pk U2))
    by (eapply Permutation_NoDup; [apply Permutation_sym, Hpks | exact Hnd]).
  unfold write_fields at 1.
  destruct (find (fun u => opt_eqb (pk u) (pk r)) U2) as [u2|] eqn:E2.
  - apply find_some in E2. destruct E2 as [Hin2 Hpk2]. apply opt_eqb_eq in Hpk2.
    assert (Hg : In (geometry u2) (map geometry U))
      by (eapply Permutation_in; [exact Hperm | apply in_map; exact Hin2]).
    apply in_map_iff in Hg. destruct Hg as (u & Hgeo & Hin).
    unfold geometry in Hgeo. inversion Hgeo as [[H1 H2 H3 H4]].
    rewrite (write_fields_found U u r Hnd Hin) by congruence.
    unfold shape. cbn. congruence.
  - unfold write_fields.
    destruct (find (fun u => opt_eqb (pk u) (pk r)) U) as [u|] eqn:E; [|reflexivity].
    exfalso. apply find_some in E. destruct E as [Hin Hpk]. apply opt_eqb_eq in Hpk.
    assert (Hg : In (pk u) (map pk U2))
      by (eapply Permutation_in; [apply Permutation_sym, Hpks | apply in_map; exact Hin]).
    apply in_map_iff in Hg. destruct Hg as (u2 & Hpk2 & Hin2).
    eapply find_none in E2; [|exact Hin2]. cbn in E2.
    assert (Heq : opt_eqb (pk u2) (pk r) = true) by (apply opt_eqb_eq; congruence).
    congruence.
Qed.

(** C4, as the code has it.  On a table with distinct primary keys a full
    rebuild returns, and a second full rebuild right after it returns too
    and leaves every row with the left, right and level (and key, parent
    and ordering value) the first one gave it; with root ordering on, the
    tree ids are the same as well, so the whole table is. *)
Theorem rebuild_twice (opts : mptt_meta) (uuid4 : nat -> Z) (st : store) :
  NoDup (map pk (rows st)) ->
  exists st1 st2,
    rebuild opts uuid4 None st = (st1, Ok tt) /\
    rebuild opts uuid4 None st1 = (st2, Ok tt) /\
    map shape (rows st2) = map shape (rows st1) /\
    (root_node_ordering opts = true -> rows st2 = rows st1).
Proof.
  intros Hnd.
  pose (parents := _get_parents opts None (rows st)).
  pose (ts := root_tids opts uuid4 1 0 (uuid_draws st) (List.length parents)).
  assert (Hlen : List.length ts = List.length parents) by apply root_tids_length.
  pose (U := collected (S (List.length (rows st))) (_get_children opts None (rows st))
               parents ts).
  pose (rs1 := map (write_fields U) (rows st)).
  assert (Hnd1 : NoDup (map pk rs1)) by apply (written_nodup opts (rows st) Hnd ts).
  pose proof (U_nodup opts (rows st) Hnd ts) as HUnd.
  pose proof (parents_again_perm opts (rows st) ts) as Hpp.
  eexists. eexists.
  split; [apply rebuild_run; exact Hnd|].
  split; [apply rebuild_run; exact Hnd1|].
  cbn [rows rebuilt].
  change (rebuild_objects opts uuid4 st) with U.
  change (map (write_fields U) (rows st)) with rs1.
  set (st1 := rebuilt opts U (List.length (_get_parents opts None (rows st))) st).
  assert (Hobjs1 : rebuild_objects opts uuid4 st1
                   = collected (S (List.length (rows st)))
                       (_get_children opts None rs1) (_get_parents opts None rs1)
                       (root_tids opts uuid4 1 0 (uuid_draws st1)
                          (List.length (_get_parents opts None rs1)))).
  { unfold rebuild_objects, st1. cbn [rows rebuilt]. fold rs1.
    unfold rs1 at 1. rewrite length_map. reflexivity. }
  split.
  - unfold rs1. rewrite !map_map. apply map_ext. intros r.
    rewrite (write_fields_geometry U (rebuild_objects opts uuid4 st1)); [| exact HUnd |].
    + rewrite write_fields_twice. reflexivity.
    + rewrite Hobjs1.
      apply (collected_again_perm opts (rows st) Hnd ts Hlen).
      * exact Hpp.
      * apply root_tids_length.
  - intros Hrn. unfold rs1. rewrite map_map. apply map_ext. intros r.
    assert (Hts : StronglySorted Z.lt ts) by (apply root_tids_increasing; exact Hrn).
    pose proof (parents_again opts (rows st) Hnd ts Hlen Hts) as Hpa.
    assert (Hobjs : map entry (rebuild_objects opts uuid4 st1) = map entry U).
    { rewrite Hobjs1.
      change (_get_parents opts None rs1 = map (write_fields U) parents) in Hpa.
      rewrite Hpa, length_map.
      replace (root_tids opts uuid4 1 0 (uuid_draws st1) (List.length parents)) with ts
        by (unfold ts, root_tids; rewrite Hrn; reflexivity).
      apply (collected_again opts (rows st) Hnd ts Hlen). apply incl_refl. }
    rewrite (write_fields_entries _ _ Hobjs). apply write_fields_twice.
Qed.

Lemma rebuild_twice_witness :
  exists st1 st2,
    rebuild sequential_opts sample_uuid4 None scenario_store = (st1, Ok tt) /\
    rebuild sequential_opts sample_uuid4 None st1 = (st2, Ok tt) /\
    map shape (rows st2) = map shape (rows st1) /\
    (root_node_ordering sequential_opts = true -> rows st2 = rows st1).
Proof.
  apply (rebuild_twice sequential_opts sample_uuid4 scenario_store).
  cbn. repeat constructor; cbn; intuition discriminate.
Defined.

(** C4 as stated fails with root ordering off: every rebuild draws a fresh
    identifier for every root, so the second rebuild leaves other tree ids
    than the first. *)
Lemma rebuild_twice_redraws_tree_ids :
  let st1 := mkStore [mkNode (Some 1) None 1 2 0 5001 0; mkNode (Some 2) None 1 2 0 5000 0]
               true false [] 2 [EvRebuild None] in
  let st2 := mkStore [mkNode (Some 1) None 1 2 0 5003 0; mkNode (Some 2) None 1 2 0 5002 0]
               true false [] 4 [EvRebuild None; EvRebuild None] in
  rebuild generator_opts sample_uuid4 None lone_roots = (st1, Ok tt) /\
  rebuild generator_opts sample_uuid4 None st1 = (st2, Ok tt) /\
  map tree_id (rows st2) <> map tree_id (rows st1).
Proof.
  cbv zeta. split; [vm_compute; reflexivity|]. split; [vm_compute; reflexivity|].
  cbn. discriminate.
Qed.

(** ** What the builder computes *)

Lemma tree_data_induction (P : tree_data -> Prop) :
  (forall d cs, Forall P cs -> P (Data d cs)) -> forall data, P data.
Proof.
  intros H. fix IH 1. intros [d cs]. apply H.
  induction cs as [|c cs IHcs]; constructor; [apply IH | exact IHcs].
Qed.

Lemma same_identity_setters (tid lvl l r : Z) (d : node) :
  same_identity (set_rght r (set_lft l (set_level lvl (set_tree_id tid d)))) d.
Proof. repeat split. Qed.

Lemma treeify_children_pushed (tid lvl : Z) (cs : list tree_data) :
  Forall (fun c => forall cursor lvl,
              pushed tid (data_nodes c) cursor (snd (treeify tid c cursor lvl))
                     (fst (treeify tid c cursor lvl))) cs ->
  forall cursor,
    let res := treeify_children (fun child c => treeify tid child c (lvl + 1)) cs cursor in
    cursor <= snd res /\
    pushed tid (flat_map data_nodes cs) (cursor + 1) (snd res + 1) (fst res).
Proof.
  induction 1 as [|c cs Hc Hcs IH]; intros cursor; cbn zeta.
  - cbn. split; [lia|]. repeat split; constructor.
  - cbn [treeify_children flat_map].
    specialize (Hc (cursor + 1) (lvl + 1)).
    destruct (treeify tid c (cursor + 1) (lvl + 1)) as [s1 c1] eqn:E1.
    specialize (IH c1). cbn zeta in IH.
    destruct (treeify_children _ cs c1) as [s2 c2] eqn:E2.
    cbn [fst snd] in *. destruct Hc as (Hid1 & Hs1 & Hb1), IH as (Hle & Hid2 & Hs2 & Hb2).
    assert (Hc1 : cursor + 1 <= c1 \/ s1 = []).
    { destruct s1 as [|v s1]; [right; reflexivity|]. left.
      inversion Hb1; subst. lia. }
    assert (Hlt : cursor < c1).
    { destruct c as [d cs0]. cbn in E1.
      destruct (treeify_children _ cs0 (cursor + 1)) as [s0 c0]. inversion E1; subst.
      inversion Hb1; subst. cbn in *. lia. }
    split; [lia|]. repeat split.
    + apply Forall2_app; assumption.
    + clear - Hs1 Hs2 Hb1 Hb2. induction s1 as [|v s1 IHs]; cbn; [exact Hs2|].
      inversion Hs1; inversion Hb1; subst. constructor; [apply IHs; assumption|].
      apply Forall_app. split; [assumption|].
      eapply Forall_impl; [|exact Hb2]. intros a Ha. cbn in Ha. lia.
    + apply Forall_app. split.
      * eapply Forall_impl; [|exact Hb1]. intros a Ha. cbn in Ha. lia.
      * eapply Forall_impl; [|exact Hb2]. intros a Ha. cbn in Ha. lia.
Qed.

Lemma treeify_pushed (tid : Z) (data : tree_data) :
  forall cursor lvl,
    pushed tid (data_nodes data) cursor (snd (treeify tid data cursor lvl))
           (fst (treeify tid data cursor lvl)).
Proof.
  induction data as [d cs IH] using tree_data_induction. intros cursor lvl.
  pose proof (treeify_children_pushed tid lvl cs IH cursor) as H. cbn zeta in H.
  cbn [treeify data_nodes].
  destruct (treeify_children _ cs cursor) as [sub c1]. cbn [fst snd] in *.
  destruct H as (Hle & Hid & Hs & Hb). repeat split.
  - constructor; [apply same_identity_setters | exact Hid].
  - constructor; [exact Hs|].
    eapply Forall_impl; [|exact Hb]. intros a Ha. cbn in *. lia.
  - constructor; [cbn; repeat split; lia|].
    eapply Forall_impl; [|exact Hb]. intros a Ha. cbn in Ha. lia.
Qed.

(** ** Parent keys inside a description *)

Lemma NoDup_app_apart {A : Type} (l1 l2 : list A) (a : A) :
  NoDup (l1 ++ l2) -> In a l1 -> In a l2 -> False.
Proof.
  induction l1 as [|x l1 IH]; cbn; intros Hnd H1 H2; [contradiction|].
  inversion Hnd as [|? ? Hx Hnd']; subst. destruct H1 as [-> | H1].
  - apply Hx. apply in_or_app. right. exact H2.
  - apply IH; assumption.
Qed.

Lemma linked_children (p : option Z) (cs : list tree_data) :
  fold_right (fun c acc => linked p c /\ acc) True cs <-> Forall (linked p) cs.
Proof.
  induction cs as [|c cs IH]; cbn; split; intros H.
  - constructor.
  - exact I.
  - destruct H as [Hc Hcs]. constructor; [exact Hc | apply IH, Hcs].
  - inversion H; subst. split; [assumption | apply IH; assumption].
Qed.

Lemma ordered_children (cs : list tree_data) :
  fold_right (fun c acc => ordered c /\ acc) True cs <-> Forall ordered cs.
Proof.
  induction cs as [|c cs IH]; cbn; split; intros H.
  - constructor.
  - exact I.
  - destruct H as [Hc Hcs]. constructor; [exact Hc | apply IH, Hcs].
  - inversion H; subst. split; [assumption | apply IH; assumption].
Qed.

Lemma filter_flat_map_nil {A : Type} (q : node -> bool) (f : A -> list node) (l : list A) :
  (forall x, In x l -> filter q (f x) = []) -> filter q (flat_map f l) = [].
Proof.
  induction l as [|x l IH]; cbn; intros H; [reflexivity|].
  rewrite filter_app, H by (left; reflexivity).
  apply IH. intros y Hy. apply H. right. exact Hy.
Qed.

Lemma top_in_nodes (c : tree_data) : In (top c) (data_nodes c).
Proof. destruct c. left. reflexivity. Qed.

Lemma child_keys_in (d : node) (cs : list tree_data) (c : tree_data) (k : option Z) :
  In c cs -> In k (data_keys c) -> In k (map pk (flat_map data_nodes cs)).
Proof.
  intros Hc Hk. unfold data_keys in Hk. apply in_map_iff in Hk.
  destruct Hk as (x & Hx & Hin). rewrite <- Hx. apply in_map.
  apply in_flat_map. exists c. auto.
Qed.

(** Below a dictionary, only the dictionary itself can have a parent key
    that is not a key of the description. *)
Lemma outside_parent (K : option Z) (data : tree_data) :
  forall par,
    linked par data -> ~ In K (data_keys data) ->
    filter (fun x => opt_eqb (parent x) K) (data_nodes data)
    = if opt_eqb par K then [top data] else [].
Proof.
  induction data as [d cs IH] using tree_data_induction. intros par Hl Hk.
  cbn [linked] in Hl. destruct Hl as (Hp & Hpk & Hcs). apply linked_children in Hcs.
  cbn [data_nodes filter top]. rewrite Hp.
  rewrite filter_flat_map_nil.
  - destruct (opt_eqb par K); reflexivity.
  - intros c Hc. rewrite Forall_forall in IH, Hcs.
    rewrite (IH c Hc (pk d) (Hcs c Hc)).
    + destruct (opt_eqb (pk d) K) eqn:E; [|reflexivity].
      exfalso. apply Hk. apply opt_eqb_eq in E. rewrite <- E. left. reflexivity.
    + intros Hin. apply Hk. cbn. right. eapply child_keys_in; eauto.
Qed.

Lemma siblings_filter (P K : option Z) (cs : list tree_data) :
  NoDup (map pk (flat_map data_nodes cs)) ->
  Forall (linked P) cs -> P <> K ->
  forall c, In c cs -> In K (data_keys c) ->
    filter (fun x => opt_eqb (parent x) K) (flat_map data_nodes cs)
    = filter (fun x => opt_eqb (parent x) K) (data_nodes c).
Proof.
  assert (Hneq : opt_eqb P K = false -> forall c,
             linked P c -> ~ In K (data_keys c) ->
             filter (fun x => opt_eqb (parent x) K) (data_nodes c) = []).
  { intros E c Hl Hk. rewrite (outside_parent K c P Hl Hk), E. reflexivity. }
  induction cs as [|c0 cs IH]; intros Hnd Hl HPK c Hc Hk; [contradiction|].
  assert (E : opt_eqb P K = false).
  { destruct (opt_eqb P K) eqn:E; [|reflexivity]. apply opt_eqb_eq in E. contradiction. }
  cbn [flat_map] in *. rewrite map_app in Hnd. rewrite filter_app.
  inversion Hl as [|? ? Hl0 Hls]; subst.
  destruct Hc as [-> | Hc].
  - rewrite filter_flat_map_nil; [apply app_nil_r|].
    intros c' Hc'. rewrite Forall_forall in Hls. apply (Hneq E c' (Hls c' Hc')).
    intros Hin. eapply NoDup_app_apart; [exact Hnd | exact Hk |].
    eapply child_keys_in; eauto. exact (top c').
  - rewrite (Hneq E c0 Hl0).
    + cbn [app]. apply IH; auto. eapply NoDup_app_remove_l; eauto.
    + intros Hin. eapply NoDup_app_apart; [exact Hnd | exact Hin |].
      eapply child_keys_in; eauto. exact (top c).
Qed.

Lemma family_in_nodes (data : tree_data) (fam : node * list node) :
  In fam (families data) -> In (fst fam) (data_nodes data).
Proof.
  revert fam. induction data as [d cs IH] using tree_data_induction. intros fam H.
  cbn [families data_nodes] in *. destruct H as [<- | H]; [left; reflexivity|].
  right. apply in_flat_map in H. destruct H as (c & Hc & Hf).
  apply in_flat_map. exists c. split; [exact Hc|].
  rewrite Forall_forall in IH. apply (IH c Hc fam Hf).
Qed.

(** In a well-linked description with distinct keys, the dictionaries
    whose parent key is that of [d] are the children listed under [d]. *)
Lemma families_filter (data : tree_data) :
  forall par,
    linked par data -> NoDup (data_keys data) -> ~ In par (data_keys data) ->
    Forall (fun fam =>
              filter (fun x => opt_eqb (parent x) (pk (fst fam))) (data_nodes data)
              = snd fam) (families data).
Proof.
  induction data as [d cs IH] using tree_data_induction. intros par Hl Hnd Hpar.
  pose proof Hl as Hl'. cbn [linked] in Hl'. destruct Hl' as (Hp & Hpk & Hcs).
  apply linked_children in Hcs.
  unfold data_keys in Hnd, Hpar. cbn [data_nodes map] in Hnd, Hpar.
  inversion Hnd as [|? ? Hd Hnd']; subst.
  assert (Hself : forall K, In K (pk d :: map pk (flat_map data_nodes cs)) ->
                            opt_eqb (parent d) K = false).
  { intros K HK. destruct (opt_eqb (parent d) K) eqn:E; [|reflexivity].
    apply opt_eqb_eq in E. exfalso. apply Hpar. congruence. }
  cbn [families]. constructor.
  - cbn [fst snd data_nodes filter]. rewrite Hself by (left; reflexivity).
    clear IH Hl Hnd Hpar Hself. induction cs as [|c cs IHcs]; [reflexivity|].
    cbn [flat_map map] in *. rewrite filter_app. rewrite map_app in Hnd', Hd.
    inversion Hcs as [|? ? Hc Hcs']; subst.
    rewrite (outside_parent (pk d) c (pk d) Hc).
    + assert (Er : opt_eqb (pk d) (pk d) = true) by (apply opt_eqb_eq; reflexivity).
      rewrite Er. cbn [app]. f_equal. apply IHcs.
      * exact Hcs'.
      * intros Hin. apply Hd. apply in_or_app. right. exact Hin.
      * eapply NoDup_app_remove_l; eauto.
    + intros Hin. apply Hd. apply in_or_app. left. exact Hin.
  - apply Forall_forall. intros fam Hfam. apply in_flat_map in Hfam.
    destruct Hfam as (c & Hc & Hf).
    assert (Hkey : In (pk (fst fam)) (data_keys c))
      by (apply in_map, family_in_nodes; exact Hf).
    cbn [data_nodes filter].
    rewrite Hself by (right; eapply child_keys_in; eauto).
    rewrite (siblings_filter (pk d) (pk (fst fam)) cs Hnd' Hcs) with (c := c); auto.
    + rewrite Forall_forall in IH, Hcs.
      pose proof (IH c Hc (pk d) (Hcs c Hc)) as Hc'.
      rewrite Forall_forall in Hc'. apply Hc'; [| |exact Hf].
      * unfold data_keys. clear - Hnd' Hc.
        induction cs as [|c0 cs IHcs]; [contradiction|].
        cbn [flat_map] in Hnd'. rewrite map_app in Hnd'. destruct Hc as [-> | Hc].
        -- eapply NoDup_app_remove_r; eauto.
        -- apply IHcs; [eapply NoDup_app_remove_l; eauto | exact Hc].
      * intros Hin. apply Hd. eapply child_keys_in; eauto.
    + intros E. apply Hd. rewrite E. eapply child_keys_in; eauto.
Qed.

(** ** The children dictionary of a freshly built tree *)

Lemma linked_keys (data : tree_data) :
  forall par, linked par data -> Forall (fun d => pk d <> None) (data_nodes data).
Proof.
  induction data as [d cs IH] using tree_data_induction. intros par Hl.
  cbn [linked] in Hl. destruct Hl as (_ & Hpk & Hcs). apply linked_children in Hcs.
  cbn [data_nodes]. constructor; [exact Hpk|].
  apply Forall_forall. intros x Hx. apply in_flat_map in Hx.
  destruct Hx as (c & Hc & Hx). rewrite Forall_forall in IH, Hcs.
  pose proof (IH c Hc (pk d) (Hcs c Hc)) as Hall.
  rewrite Forall_forall in Hall. apply Hall, Hx.
Qed.

Lemma families_ordered (data : tree_data) :
  ordered data ->
  Forall (fun fam => StronglySorted (fun a b => okey a <= okey b) (snd fam))
         (families data).
Proof.
  induction data as [d cs IH] using tree_data_induction. intros Ho.
  cbn [ordered] in Ho. destruct Ho as (Hs & Hcs). apply ordered_children in Hcs.
  cbn [families]. constructor; [exact Hs|].
  apply Forall_forall. intros fam Hfam. apply in_flat_map in Hfam.
  destruct Hfam as (c & Hc & Hfam). rewrite Forall_forall in IH, Hcs.
  pose proof (IH c Hc (Hcs c Hc)) as Hall.
  rewrite Forall_forall in Hall. apply Hall, Hfam.
Qed.

Lemma same_identity_filter (K : option Z) (l1 l2 : list node) :
  Forall2 same_identity l1 l2 ->
  Forall2 same_identity (filter (fun x => opt_eqb (parent x) K) l1)
                        (filter (fun x => opt_eqb (parent x) K) l2).
Proof.
  induction 1 as [|v d l1 l2 Hvd _ IH]; cbn; [constructor|].
  destruct Hvd as (Hpk & Hpar & Hok). rewrite Hpar.
  destruct (opt_eqb (parent d) K); [constructor; [repeat split; assumption | exact IH] | exact IH].
Qed.

Lemma same_identity_keys (l1 l2 : list node) :
  Forall2 same_identity l1 l2 -> map pk l1 = map pk l2.
Proof.
  induction 1 as [|v d l1 l2 Hvd _ IH]; cbn; [reflexivity|].
  destruct Hvd as (Hpk & _). rewrite Hpk, IH. reflexivity.
Qed.

Lemma same_identity_sorted (l1 l2 : list node) :
  Forall2 same_identity l1 l2 ->
  StronglySorted (fun a b => okey a <= okey b) l2 ->
  StronglySorted (fun a b => okey a <= okey b) l1.
Proof.
  induction 1 as [|v d l1 l2 Hvd Hall IH]; intros Hs; [constructor|].
  inversion Hs as [|? ? Hs' Hd]; subst. constructor; [apply IH, Hs'|].
  destruct Hvd as (_ & _ & Hok). rewrite Hok. clear - Hall Hd.
  induction Hall as [|v' d' l1 l2 Hvd' _ IH]; [constructor|].
  inversion Hd; subst. destruct Hvd' as (_ & _ & Hok').
  constructor; [rewrite Hok'; assumption | apply IH; assumption].
Qed.

Lemma sorted_filter {A : Type} (R : A -> A -> Prop) (q : A -> bool) (l : list A) :
  StronglySorted R l -> StronglySorted R (filter q l).
Proof.
  induction 1 as [|x l _ IH Hx]; cbn; [constructor|].
  destruct (q x); [|exact IH]. constructor; [exact IH|].
  apply Forall_forall. intros y Hy. apply filter_In in Hy.
  rewrite Forall_forall in Hx. apply Hx, Hy.
Qed.

Lemma sorted_tree_order (tid : Z) (l : list node) :
  StronglySorted (fun a b => lft a < lft b) l ->
  Forall (fun v => tree_id v = tid) l ->
  StronglySorted (fun a b => tree_order a b = true) l.
Proof.
  induction 1 as [|x l _ IH Hx]; intros Ht; [constructor|].
  inversion Ht as [|? ? Hxt Hlt]; subst. constructor; [apply IH, Hlt|].
  rewrite Forall_forall in *. intros y Hy. unfold tree_order.
  rewrite (Hlt y Hy), Z.eqb_refl. cbn [andb].
  apply orb_true_iff. right. apply Z.leb_le. specialize (Hx y Hy). lia.
Qed.

Lemma filter_parent_outside (K : option Z) (rs : list node) :
  ~ In K (map parent rs) ->
  filter (fun x => opt_eqb (parent x) K) rs = [].
Proof.
  induction rs as [|r rs IH]; cbn; intros H; [reflexivity|].
  destruct (opt_eqb (parent r) K) eqn:E.
  - exfalso. apply H. left. apply opt_eqb_eq. exact E.
  - apply IH. intros Hin. apply H. right. exact Hin.
Qed.

(** Once the records are in the table, the children dictionary of
    [rebuild] lists under each key of the description the children the
    description nests there, in the same order. *)
Lemma built_children (opts : mptt_meta) (tid cursor lvl : Z) (data : tree_data)
  (rs : list node) :
  linked None data -> NoDup (data_keys data) -> fresh_keys data rs ->
  (order_insertion_by opts = true -> ordered data) ->
  forall fam, In fam (families data) ->
    map pk (dict_get (_get_children opts None (rs ++ fst (treeify tid data cursor lvl)))
                     (pk (fst fam)))
    = map pk (snd fam).
Proof.
  intros Hl Hnd Hfresh Hord fam Hfam.
  pose proof (linked_keys data None Hl) as Hkeys. rewrite Forall_forall in Hkeys.
  pose proof (family_in_nodes data fam Hfam) as Hin.
  assert (Hnone : ~ In None (data_keys data)).
  { intros H. apply in_map_iff in H. destruct H as (x & Hx & Hxin).
    exact (Hkeys x Hxin Hx). }
  pose proof (families_filter data None Hl Hnd Hnone) as Hff.
  rewrite Forall_forall in Hff. specialize (Hff fam Hfam).
  rewrite get_children_lookup.
  destruct (pk (fst fam)) as [k|] eqn:Ek; [|exfalso; exact (Hkeys _ Hin Ek)].
  rewrite filter_app, filter_parent_outside, app_nil_l.
  2:{ apply Hfresh. rewrite <- Ek. apply in_map. exact Hin. }
  destruct (treeify_pushed tid data cursor lvl) as (Hid & Hsort & Hall).
  pose proof (same_identity_filter (Some k) _ _ Hid) as Hidf.
  rewrite Hff in Hidf.
  rewrite order_by_sorted_id; [apply same_identity_keys; exact Hidf|].
  unfold rebuild_order. destruct (order_insertion_by opts) eqn:Eo.
  - pose proof (families_ordered data (Hord eq_refl)) as Hfo.
    rewrite Forall_forall in Hfo. specialize (Hfo fam Hfam).
    pose proof (same_identity_sorted _ _ Hidf Hfo) as Hs.
    eapply StronglySorted_ind with (P := fun l => StronglySorted _ l); [| |exact Hs].
    + constructor.
    + intros a l _ IH Ha. constructor; [exact IH|].
      eapply Forall_impl; [|exact Ha]. intros b Hb. apply Z.leb_le. exact Hb.
  - apply sorted_tree_order with (tid := tid).
    + apply sorted_filter. exact Hsort.
    + apply Forall_forall. intros v Hv. apply filter_In in Hv.
      rewrite Forall_forall in Hall. apply (Hall v), Hv.
Qed.

(** ** The walk of [rebuild] over a freshly built tree *)

Lemma loop_follows_children (tid t : Z) (ch : dict) (fuel : nat) (lvl : Z)
  (cs : list tree_data) :
  Forall (fun c => forall nd left us ret,
            pk nd = pk (top c) ->
            _rebuild_helper fuel ch nd left t lvl = Some (us, ret) ->
            ret = snd (treeify tid c left lvl) + 1 /\
            Forall (fun v => exists e, In e us /\ geometry e = geometry v)
                   (fst (treeify tid c left lvl))) cs ->
  forall kids a us r,
    map pk kids = map pk (map top cs) ->
    helper_loop (fun child right => _rebuild_helper fuel ch child right t lvl) kids a
    = Some (us, r) ->
    r = snd (treeify_children (fun c a => treeify tid c a lvl) cs (a - 1)) + 1 /\
    Forall (fun v => exists e, In e us /\ geometry e = geometry v)
           (fst (treeify_children (fun c a => treeify tid c a lvl) cs (a - 1))).
Proof.
  induction 1 as [|c cs Hc _ IH]; intros kids a us r Hk Hloop.
  - destruct kids; [|discriminate]. cbn in Hloop. inversion Hloop; subst.
    cbn. split; [lia | constructor].
  - destruct kids as [|k kids]; [discriminate|]. cbn [map] in Hk.
    injection Hk as Hk1 Hk2. cbn [helper_loop] in Hloop.
    destruct (_rebuild_helper fuel ch k a t lvl) as [[us1 r1]|] eqn:Ek; [|discriminate].
    destruct (helper_loop _ kids r1) as [[us2 r2]|] eqn:Er; [|discriminate].
    inversion Hloop; subst. clear Hloop.
    destruct (Hc k a us1 r1 Hk1 Ek) as (Hr1 & Hcov1).
    destruct (IH kids r1 us2 r Hk2 Er) as (Hr2 & Hcov2).
    cbn [treeify_children]. replace (a - 1 + 1) with a by lia.
    destruct (treeify tid c a lvl) as [s1 c1] eqn:E1. cbn [snd fst] in Hr1, Hcov1.
    replace (r1 - 1) with c1 in Hr2, Hcov2 by lia.
    destruct (treeify_children _ cs c1) as [s2 c2] eqn:E2. cbn [snd fst] in *.
    split; [exact Hr2|]. apply Forall_app. split.
    + eapply Forall_impl; [|exact Hcov1]. intros v (e & He & Hg).
      exists e. split; [apply in_or_app; left; exact He | exact Hg].
    + eapply Forall_impl; [|exact Hcov2]. intros v (e & He & Hg).
      exists e. split; [apply in_or_app; right; exact He | exact Hg].
Qed.

(** Where the children dictionary mirrors the nesting of the description,
    the walk from its outermost node hands out the left, right and level
    the builder computed. *)
Lemma helper_follows_treeify (tid t : Z) (ch : dict) (data : tree_data) :
  forall fuel nd left lvl us ret,
    (forall fam, In fam (families data) ->
       map pk (dict_get ch (pk (fst fam))) = map pk (snd fam)) ->
    pk nd = pk (top data) ->
    _rebuild_helper fuel ch nd left t lvl = Some (us, ret) ->
    ret = snd (treeify tid data left lvl) + 1 /\
    Forall (fun v => exists e, In e us /\ geometry e = geometry v)
           (fst (treeify tid data left lvl)).
Proof.
  induction data as [d cs IH] using tree_data_induction.
  intros fuel nd left lvl us ret Hch Hpk Hrun.
  destruct fuel as [|fuel]; [discriminate|]. cbn [_rebuild_helper] in Hrun.
  destruct (helper_loop _ (dict_get ch (pk nd)) (left + 1)) as [[us0 r]|] eqn:Eloop;
    [|discriminate].
  inversion Hrun; subst. clear Hrun. cbn [top] in Hpk.
  assert (Hsub : Forall (fun c => forall nd left us ret,
            pk nd = pk (top c) ->
            _rebuild_helper fuel ch nd left t (lvl + 1) = Some (us, ret) ->
            ret = snd (treeify tid c left (lvl + 1)) + 1 /\
            Forall (fun v => exists e, In e us /\ geometry e = geometry v)
                   (fst (treeify tid c left (lvl + 1)))) cs).
  { apply Forall_forall. intros c Hc nd' left' us' ret' Hpk' Hrun'.
    rewrite Forall_forall in IH. apply (IH c Hc fuel nd' left' (lvl + 1) us' ret'); auto.
    intros fam Hfam. apply Hch. cbn [families]. right.
    apply in_flat_map. exists c. auto. }
  assert (Hkids : map pk (dict_get ch (pk nd)) = map pk (map top cs)).
  { rewrite Hpk. apply (Hch (d, map top cs)). cbn [families]. left. reflexivity. }
  destruct (loop_follows_children tid t ch fuel (lvl + 1) cs Hsub _ _ _ _ Hkids Eloop)
    as (Hr & Hcov).
  replace (left + 1 - 1) with left in Hr, Hcov by lia.
  cbn [treeify].
  destruct (treeify_children _ cs left) as [sub c1] eqn:E. cbn [fst snd] in *.
  split; [lia|]. constructor.
  - eexists. split; [apply in_or_app; right; left; reflexivity|].
    unfold geometry. cbn. rewrite Hpk. repeat f_equal. lia.
  - eapply Forall_impl; [|exact Hcov]. intros v (e & He & Hg).
    exists e. split; [apply in_or_app; left; exact He | exact Hg].
Qed.

Lemma build_tree_nodes_run (opts : mptt_meta) (data : tree_data) (position : string)
  (st : store) :
  exists tid st0,
    build_tree_nodes opts data None position st
    = (st0, Ok (fst (treeify tid data 1 0))) /\
    rows st0 = rows st.
Proof.
  unfold build_tree_nodes, _get_next_tree_id, bind, ret, get.
  destruct (negb (root_node_ordering opts)); cbn; eexists _, _; split; reflexivity.
Qed.

Lemma built_keys_nodup (tid cursor lvl : Z) (data : tree_data) (rs : list node) :
  NoDup (map pk rs) -> NoDup (data_keys data) -> fresh_keys data rs ->
  NoDup (map pk (rs ++ fst (treeify tid data cursor lvl))).
Proof.
  intros Hrs Hnd Hfresh.
  destruct (treeify_pushed tid data cursor lvl) as (Hid & _ & _).
  apply same_identity_keys in Hid. rewrite map_app, Hid.
  apply NoDup_app; [exact Hrs | exact Hnd |].
  intros k Hk Hk'. exact (proj1 (Hfresh k Hk') Hk).
Qed.

(** Every record of a freshly built tree is among the objects the next
    full rebuild writes, with the left, right and level it was built
    with. *)
Lemma built_records_rewritten (opts : mptt_meta) (uuid4 : nat -> Z) (tid : Z)
  (data : tree_data) (st1 : store) (rs : list node) :
  rows st1 = rs ++ fst (treeify tid data 1 0) ->
  NoDup (map pk rs) -> linked None data -> NoDup (data_keys data) ->
  fresh_keys data rs ->
  (order_insertion_by opts = true -> ordered data) ->
  Forall (fun v => exists e, In e (rebuild_objects opts uuid4 st1) /\
                             geometry e = geometry v)
         (fst (treeify tid data 1 0)).
Proof.
  intros Hrows Hrs Hl Hnd Hfresh Hord.
  pose proof (built_keys_nodup tid 1 0 data rs Hrs Hnd Hfresh) as Hnd1.
  rewrite <- Hrows in Hnd1.
  unfold rebuild_objects.
  set (fuel := S (List.length (rows st1))).
  set (ch := _get_children opts None (rows st1)).
  set (ps := _get_parents opts None (rows st1)).
  set (ts := root_tids opts uuid4 1 0 (uuid_draws st1) (List.length ps)).
  destruct data as [d cs] eqn:Edata.
  assert (Hhead : exists v0 sub, fst (treeify tid (Data d cs) 1 0) = v0 :: sub /\
                                 pk v0 = pk d /\ parent v0 = None).
  { cbn [treeify]. destruct (treeify_children _ cs 1) as [sub c1].
    eexists _, sub. split; [reflexivity|]. cbn [linked] in Hl. cbn. tauto. }
  destruct Hhead as (v0 & sub & Hst & Hpk0 & Hpar0).
  assert (Hv0 : In v0 (rows st1)).
  { rewrite Hrows, Hst. apply in_or_app. right. left. reflexivity. }
  assert (Hps : In v0 ps).
  { unfold ps. rewrite get_parents_lookup.
    eapply Permutation_in; [apply Permutation_sym, order_by_perm|].
    apply filter_In. split; [exact Hv0 | apply is_root_node_spec, Hpar0]. }
  destruct (in_combine_exists ps ts v0 Hps) as (t & Ht).
  { unfold ts. apply root_tids_length. }
  pose proof (emitted_in_collected fuel ch ps ts v0 t Ht) as Hincl.
  destruct (walk_returns opts (rows st1) Hnd1 v0 t Hv0 Hpar0) as (ret & Hrun).
  fold fuel ch in Hrun.
  assert (Hch : forall fam, In fam (families (Data d cs)) ->
                 map pk (dict_get ch (pk (fst fam))) = map pk (snd fam)).
  { intros fam Hfam. unfold ch. rewrite Hrows. apply built_children; assumption. }
  destruct (helper_follows_treeify tid t ch (Data d cs) fuel v0 1 0 _ ret Hch Hpk0 Hrun)
    as (_ & Hcov).
  eapply Forall_impl; [|exact Hcov]. intros v (e & He & Hg).
  exists e. split; [apply Hincl, He | exact Hg].
Qed.

(** For a description built as a new tree whose dictionaries carry
    distinct keys not in use in the table, each child's parent key being
    the key of the dictionary it is nested in and, where an insertion
    order is declared, children listed in that order: after the records
    are created and a full rebuild has run, every record's row has the
    left, right and level (and the key, parent and ordering value) the
    builder returned; the rows that were there before keep their keys. *)
Lemma build_new_tree_then_rebuild (opts : mptt_meta) (uuid4 : nat -> Z)
  (data : tree_data) (position : string) (st : store) :
  NoDup (map pk (rows st)) ->
  linked None data ->
  NoDup (data_keys data) ->
  fresh_keys data (rows st) ->
  (order_insertion_by opts = true -> ordered data) ->
  exists st0 records st' old new,
    build_tree_nodes opts data None position st = (st0, Ok records) /\
    map pk records = data_keys data /\
    build_then_rebuild opts uuid4 data None position st = (st', Ok records) /\
    rows st' = old ++ new /\
    map pk old = map pk (rows st) /\
    map shape new = map shape records.
Proof.
  intros Hrs Hl Hnd Hfresh Hord.
  destruct (build_tree_nodes_run opts data position st) as (tid & st0 & Hb & Hr0).
  pose (records := fst (treeify tid data 1 0)).
  pose (st1 := with_rows (rows st0 ++ records) st0).
  assert (Hrows1 : rows st1 = rows st ++ records) by (cbn; rewrite Hr0; reflexivity).
  assert (Hnd1 : NoDup (map pk (rows st1))).
  { rewrite Hrows1. apply built_keys_nodup; assumption. }
  pose (U := rebuild_objects opts uuid4 st1).
  exists st0, records,
    (rebuilt opts U (List.length (_get_parents opts None (rows st1))) st1),
    (map (write_fields U) (rows st)), (map (write_fields U) records).
  split; [exact Hb|]. split.
  { apply same_identity_keys. apply (treeify_pushed tid data 1 0). }
  split.
  { unfold build_then_rebuild, bind. rewrite Hb. unfold bulk_create, modify.
    fold records. fold st1. rewrite (rebuild_run opts uuid4 st1 Hnd1). reflexivity. }
  split.
  { cbn [rebuilt rows]. rewrite Hrows1, map_app. reflexivity. }
  split.
  { rewrite map_map. apply map_ext. intros r. apply write_fields_pk. }
  rewrite map_map. apply map_ext_in. intros v Hv.
  pose proof (built_records_rewritten opts uuid4 tid data st1 (rows st)
                Hrows1 Hrs Hl Hnd Hfresh Hord) as Hcov.
  rewrite Forall_forall in Hcov. destruct (Hcov v Hv) as (e & He & Hg).
  assert (HU : NoDup (map pk U)) by (apply U_nodup; exact Hnd1).
  unfold geometry in Hg. injection Hg as Hpk Hlft Hrght Hlevel.
  rewrite (write_fields_found U e v HU He Hpk).
  unfold shape. cbn. congruence.
Qed.

(** ** A filtered rebuild stays inside its tree *)

Lemma helper_keys (P : option Z -> Prop) (ch : dict) :
  (forall k x, In x (dict_get ch k) -> P (pk x)) ->
  forall fuel nd left tid lvl us ret,
    P (pk nd) ->
    _rebuild_helper fuel ch nd left tid lvl = Some (us, ret) ->
    forall u, In u us -> P (pk u).
Proof.
  intros Hch. induction fuel as [|fuel IH]; intros nd left tid lvl us ret Hnd Hrun u Hu;
    [discriminate|].
  cbn [_rebuild_helper] in Hrun.
  destruct (helper_loop _ (dict_get ch (pk nd)) (left + 1)) as [[us0 r]|] eqn:Eloop;
    [|discriminate].
  inversion Hrun; subst. clear Hrun. apply in_app_or in Hu. destruct Hu as [Hu | Hu].
  - destruct (helper_loop_in _ _ _ _ _ _ Eloop Hu) as (c & a & us1 & r1 & Hc & Hv & Hin & _).
    exact (IH c a tid (lvl + 1) us1 r1 (Hch _ _ Hc) Hv u Hin).
  - destruct Hu as [<- | []]. exact Hnd.
Qed.

Lemma rebuild_roots_keys (P : option Z -> Prop) (opts : mptt_meta) (uuid4 : nat -> Z)
  (fuel : nat) (ch : dict) (tid : Z) (parents : list node) :
  (forall k x, In x (dict_get ch k) -> P (pk x)) ->
  (forall p, In p parents -> P (pk p)) ->
  forall index st st' U,
    rebuild_roots opts uuid4 fuel ch tid index parents st = (st', Ok U) ->
    forall u, In u U -> P (pk u).
Proof.
  intros Hch. induction parents as [|p ps IH]; intros Hps index st st' U H u Hu.
  - cbn in H. inversion H; subst. contradiction.
  - cbn [rebuild_roots] in H. unfold bind at 1 in H.
    assert (Hstep : forall t st1,
               match _rebuild_helper fuel ch p 1 t 0 with
               | Some (us, _) =>
                   us' <- rebuild_roots opts uuid4 fuel ch tid (index + 1) ps ;;
                   ret (us ++ us')
               | None => raise RecursionError
               end st1 = (st', Ok U) -> P (pk u)).
    { intros t st1 Hrun.
      destruct (_rebuild_helper fuel ch p 1 t 0) as [[us r]|] eqn:Ep; [|discriminate].
      unfold bind in Hrun.
      destruct (rebuild_roots opts uuid4 fuel ch tid (index + 1) ps st1)
        as [st2 [us'|e]] eqn:E; [|discriminate].
      inversion Hrun; subst. apply in_app_or in Hu. destruct Hu as [Hu | Hu].
      - apply (helper_keys P ch Hch fuel p 1 t 0 us r); auto.
        apply Hps. left. reflexivity.
      - apply (IH (fun q Hq => Hps q (or_intror Hq)) _ _ _ _ E u Hu). }
    destruct (root_node_ordering opts); [unfold ret at 1 in H|]; eapply Hstep; exact H.
Qed.

Lemma filtered_children_sound (opts : mptt_meta) (tid : Z) (rs : list node)
  (k : option Z) (x : node) :
  In x (dict_get (_get_children opts (Some tid) rs) k) -> In x rs /\ tree_id x = tid.
Proof.
  destruct k as [k|]; [|contradiction].
  unfold dict_get, _get_children. rewrite get_children_fold. cbn [app].
  intros H. apply filter_In in H. destruct H as [H _].
  apply (Permutation_in _ (order_by_perm _ _)) in H.
  apply filter_In in H. destruct H as [Hin Hm]. split; [exact Hin|].
  apply andb_true_iff in Hm. apply Z.eqb_eq. exact (proj2 Hm).
Qed.

Lemma filtered_parents_sound (opts : mptt_meta) (tid : Z) (rs : list node) (p : node) :
  In p (_get_parents opts (Some tid) rs) -> In p rs /\ tree_id p = tid.
Proof.
  unfold _get_parents. intros H.
  apply (Permutation_in _ (order_by_perm _ _)) in H.
  apply filter_In in H. destruct H as [Hin Hm]. split; [exact Hin|].
  apply andb_true_iff in Hm. apply Z.eqb_eq. exact (proj2 Hm).
Qed.

Lemma write_fields_other (tid : Z) (U rs : list node) (r : node) :
  NoDup (map pk rs) -> In r rs ->
  (forall u, In u U -> exists x, In x rs /\ tree_id x = tid /\ pk x = pk u) ->
  tree_id r <> tid -> write_fields U r = r.
Proof.
  intros Hnd Hr HU Hne. unfold write_fields.
  destruct (find _ U) as [u|] eqn:E; [|reflexivity].
  apply find_some in E. destruct E as [Hu Heq]. apply opt_eqb_eq in Heq.
  destruct (HU u Hu) as (x & Hx & Ht & Hpk). exfalso. apply Hne.
  rewrite <- (NoDup_pk_inj rs x r Hnd Hx Hr); [exact Ht | congruence].
Qed.

(** A rebuild filtered to one tree keeps every row's key, parent and
    ordering value, and leaves the rows of the other trees alone, whether
    it returns or raises. *)
Lemma filtered_rebuild_frame (opts : mptt_meta) (uuid4 : nat -> Z) (tid : Z)
  (st st' : store) (res : result unit) :
  NoDup (map pk (rows st)) ->
  rebuild opts uuid4 (Some tid) st = (st', res) ->
  Forall2 (fun r r' => pk r' = pk r /\ parent r' = parent r /\ okey r' = okey r /\
                       (tree_id r <> tid -> r' = r))
          (rows st) (rows st').
Proof.
  intros Hnd. unfold rebuild, bind at 1, log, modify. unfold bind at 1, get. unfold bind.
  cbn [rows with_journal].
  assert (Hrefl : forall l : list node,
             Forall2 (fun r r' => pk r' = pk r /\ parent r' = parent r /\
                                  okey r' = okey r /\ (tree_id r <> tid -> r' = r)) l l).
  { induction l; constructor; auto. }
  match goal with
  | |- context [rebuild_roots opts uuid4 ?f ?c ?t ?i ?ps ?s] =>
      pose proof (rebuild_roots_store opts uuid4 f c t ps i s) as Hst;
      pose proof (rebuild_roots_keys
                    (fun k => exists x, In x (rows st) /\ tree_id x = tid /\ pk x = k)
                    opts uuid4 f c t ps) as Hkeys;
      destruct (rebuild_roots opts uuid4 f c t i ps s) as [st1 [U|e]] eqn:E
  end; specialize (Hst _ _ eq_refl); cbn in Hst; destruct Hst as (Hrows & _);
    intros Heq; inversion Heq; subst; [|rewrite Hrows; apply Hrefl].
  unfold bulk_update, modify in *. cbn [rows with_rows]. rewrite Hrows.
  assert (HU : forall u, In u U -> exists x, In x (rows st) /\ tree_id x = tid /\ pk x = pk u).
  { eapply Hkeys; [| |exact E].
    - intros k x Hx. apply filtered_children_sound in Hx. exists x. tauto.
    - intros p Hp. apply filtered_parents_sound in Hp. exists p. tauto. }
  clear - Hnd HU.
  assert (Hall : forall r, In r (rows st) ->
             pk (write_fields U r) = pk r /\ parent (write_fields U r) = parent r /\
             okey (write_fields U r) = okey r /\
             (tree_id r <> tid -> write_fields U r = r)).
  { intros r Hr. rewrite write_fields_pk, write_fields_parent, write_fields_okey.
    repeat split. intros Hne. apply (write_fields_other tid U (rows st)); auto. }
  clear Hnd HU. induction (rows st) as [|r rs IH]; cbn; constructor.
  - apply Hall. left. reflexivity.
  - apply IH. intros r0 Hr0. apply Hall. right. exact Hr0.
Qed.

(** * Further properties of the manager *)

(** ** Opening and closing space *)

Lemma shift_above_increasing (size target x y : Z) :
  0 <= size -> x < y -> shift_above size target x < shift_above size target y.
Proof.
  intros Hs Hxy. unfold shift_above.
  destruct (x >? target) eqn:Ex, (y >? target) eqn:Ey;
    rewrite ?Z.gtb_ltb in Ex, Ey;
    try apply Z.ltb_lt in Ex; try apply Z.ltb_ge in Ex;
    try apply Z.ltb_lt in Ey; try apply Z.ltb_ge in Ey; lia.
Qed.

Lemma shift_above_skips (size target x : Z) :
  0 <= size -> ~ (target < shift_above size target x <= target + size).
Proof.
  intros Hs. unfold shift_above. destruct (x >? target) eqn:Ex;
    rewrite Z.gtb_ltb in Ex; [apply Z.ltb_lt in Ex | apply Z.ltb_ge in Ex]; lia.
Qed.

Lemma shift_above_back (size target x : Z) :
  0 <= size -> shift_above (- size) target (shift_above size target x) = x.
Proof.
  intros Hs. unfold shift_above. destruct (x >? target) eqn:Ex.
  - rewrite Z.gtb_ltb in Ex. apply Z.ltb_lt in Ex.
    replace (x + size >? target) with true by (symmetry; rewrite Z.gtb_ltb; apply Z.ltb_lt; lia).
    lia.
  - rewrite Ex. reflexivity.
Qed.

(** The space query, row by row, in terms of [shift_above]. *)
Lemma space_query_row (size target tid : Z) (r : node) :
  (if space_where target tid r then space_set size target r else r)
  = if tree_id r =? tid
    then set_rght (shift_above size target (rght r))
           (set_lft (shift_above size target (lft r)) r)
    else r.
Proof.
  unfold space_where, space_set, clean_tree_ids, shift_above.
  destruct (tree_id r =? tid); cbn [andb]; [|reflexivity].
  destruct (lft r >? target), (rght r >? target); cbn [orb]; try reflexivity.
  destruct r; reflexivity.
Qed.

Lemma manage_space_run (size target tid : Z) (st : store) :
  mptt_is_tracking st = false ->
  _manage_space size target tid st
  = (with_rows (map (fun r => if tree_id r =? tid
                              then set_rght (shift_above size target (rght r))
                                     (set_lft (shift_above size target (lft r)) r)
                              else r) (rows st)) st, Ok tt).
Proof.
  intros Htr. unfold _manage_space, bind, get, execute, modify. rewrite Htr.
  unfold sql_update. do 2 f_equal. apply map_ext. intros r. apply space_query_row.
Qed.

(** X1. Outside a tracking scope, opening a space of a non-negative size
    and closing a gap of the same size at the same point of the same tree
    gives back the store as it was. *)
Theorem create_space_then_close_gap (size target tid : Z) (st : store) :
  mptt_is_tracking st = false ->
  0 <= size ->
  (_create_space size target tid ;;; _close_gap size target tid) st = (st, Ok tt).
Proof.
  intros Htr Hs. unfold bind, _create_space, _close_gap.
  rewrite (manage_space_run size target tid st Htr).
  rewrite manage_space_run by exact Htr.
  cbn [rows with_rows]. rewrite map_map.
  assert (Hid : map (fun r =>
             (fun r0 => if tree_id r0 =? tid
                        then set_rght (shift_above (- size) target (rght r0))
                               (set_lft (shift_above (- size) target (lft r0)) r0)
                        else r0)
               (if tree_id r =? tid
                then set_rght (shift_above size target (rght r))
                       (set_lft (shift_above size target (lft r)) r)
                else r)) (rows st) = rows st).
  { transitivity (map (fun r => r) (rows st)); [|apply map_id].
    apply map_ext. intros r.
    destruct (tree_id r =? tid) eqn:Et; cbn; rewrite Et; [|reflexivity].
    unfold set_rght, set_lft. cbn.
    rewrite !shift_above_back by exact Hs. destruct r; reflexivity. }
  rewrite Hid. destruct st; reflexivity.
Qed.

Lemma create_space_then_close_gap_witness :
  (_create_space 2 1 1 ;;; _close_gap 2 1 1) scenario_store = (scenario_store, Ok tt).
Proof.
  apply (create_space_then_close_gap 2 1 1 scenario_store); [reflexivity | lia].
Defined.

(** ** The recorded tree ids *)

Lemma set_add_spec (t x : Z) (s : list Z) :
  In x (set_add t s) <-> x = t \/ In x s.
Proof.
  induction s as [|y s IH]; cbn.
  - intuition.
  - destruct (y =? t) eqn:E.
    + apply Z.eqb_eq in E. subst. cbn. intuition.
    + cbn. rewrite IH. intuition.
Qed.

Lemma set_add_nodup (t : Z) (s : list Z) : NoDup s -> NoDup (set_add t s).
Proof.
  induction s as [|y s IH]; cbn; intros H.
  - constructor; [intros [] | constructor].
  - destruct (y =? t) eqn:E; [exact H|].
    inversion H as [|? ? Hy Hs]; subst. constructor; [|apply IH, Hs].
    rewrite set_add_spec. intros [-> | Hin]; [|contradiction].
    rewrite Z.eqb_refl in E. discriminate.
Qed.

(** X2. Inside a tracking scope [_create_space] and [_close_gap] write no
    row and touch no switch: they only record the tree id, which joins
    the ids recorded so far without a duplicate. *)
Theorem manage_space_while_tracking (size target tid : Z) (st : store) :
  mptt_is_tracking st = true ->
  exists ts,
    _create_space size target tid st = (with_tracked ts st, Ok tt) /\
    _close_gap size target tid st = (with_tracked ts st, Ok tt) /\
    (forall t, In t ts <-> t = tid \/ In t (mptt_delayed_tree_changes st)) /\
    (NoDup (mptt_delayed_tree_changes st) -> NoDup ts).
Proof.
  intros Htr. exists (set_add tid (mptt_delayed_tree_changes st)).
  unfold _create_space, _close_gap, _manage_space, bind, get,
    _mptt_track_tree_modified, modify.
  rewrite Htr. cbn beta. rewrite Htr. split; [reflexivity|]. split; [reflexivity|].
  split; [intros t; apply set_add_spec | apply set_add_nodup].
Qed.

Lemma manage_space_while_tracking_witness :
  exists ts,
    _create_space 2 1 1 tracking_store = (with_tracked ts tracking_store, Ok tt) /\
    _close_gap 2 1 1 tracking_store = (with_tracked ts tracking_store, Ok tt) /\
    (forall t, In t ts <-> t = 1 \/ In t (mptt_delayed_tree_changes tracking_store)) /\
    (NoDup (mptt_delayed_tree_changes tracking_store) -> NoDup ts).
Proof.
  apply (manage_space_while_tracking 2 1 1 tracking_store). reflexivity.
Defined.

Lemma space_query_gap (size target tid x : Z) (rs : list node) :
  0 <= size -> target < x <= target + size ->
  unused_position tid x
    (map (fun r => if tree_id r =? tid
                   then set_rght (shift_above size target (rght r))
                          (set_lft (shift_above size target (lft r)) r)
                   else r) rs).
Proof.
  intros Hs Hx. unfold unused_position. apply Forall_forall. intros r' Hr' Ht.
  apply in_map_iff in Hr'. destruct Hr' as (r & <- & _).
  destruct (tree_id r =? tid) eqn:Et.
  - cbn. pose proof (shift_above_skips size target (lft r) Hs).
    pose proof (shift_above_skips size target (rght r) Hs). lia.
  - apply Z.eqb_neq in Et. contradiction.
Qed.

(** X3. Outside a tracking scope, opening a space of a non-negative size
    keeps the key, parent, level, tree id and ordering value of every
    row, leaves the rows of other trees alone, sends the lefts and rights
    of the tree through one strictly increasing map, and leaves the
    positions [target + 1 .. target + size] of the tree unused. *)
Theorem create_space_opens_gap (size target tid : Z) (st : store) :
  mptt_is_tracking st = false ->
  0 <= size ->
  exists rs,
    _create_space size target tid st = (with_rows rs st, Ok tt) /\
    Forall2 (fun r r' =>
               r' = if tree_id r =? tid
                    then set_rght (shift_above size target (rght r))
                           (set_lft (shift_above size target (lft r)) r)
                    else r) (rows st) rs /\
    (forall x y, x < y -> shift_above size target x < shift_above size target y) /\
    (forall x, target < x <= target + size -> unused_position tid x rs).
Proof.
  intros Htr Hs. eexists. split; [apply manage_space_run; exact Htr|].
  split; [|split].
  - induction (rows st) as [|r rs IH]; cbn; constructor; [reflexivity | exact IH].
  - intros x y. apply shift_above_increasing. exact Hs.
  - intros x Hx. apply space_query_gap; assumption.
Qed.

Lemma create_space_opens_gap_witness :
  exists rs,
    _create_space 2 1 1 scenario_store = (with_rows rs scenario_store, Ok tt) /\
    Forall2 (fun r r' =>
               r' = if tree_id r =? 1
                    then set_rght (shift_above 2 1 (rght r))
                           (set_lft (shift_above 2 1 (lft r)) r)
                    else r) (rows scenario_store) rs /\
    (forall x y, x < y -> shift_above 2 1 x < shift_above 2 1 y) /\
    (forall x, 1 < x <= 1 + 2 -> unused_position 1 x rs).
Proof.
  apply (create_space_opens_gap 2 1 1 scenario_store); [reflexivity | lia].
Defined.

(** ** Making room among tree ids *)

(** X4. [_create_tree_space t n] with a non-negative [n] changes nothing
    but tree ids, in or out of a tracking scope: every tree id goes
    through one strictly increasing map, so rows share a tree afterwards
    exactly when they did before, and no row is left with a tree id in
    [t + 1 .. t + n]. *)
Theorem create_tree_space_frees_ids (t n : Z) (st : store) :
  0 <= n ->
  exists st',
    _create_tree_space t n st = (st', Ok tt) /\
    Forall2 (fun r r' => r' = set_tree_id (shift_above n t (tree_id r)) r)
            (rows st) (rows st') /\
    (forall x y, x < y -> shift_above n t x < shift_above n t y) /\
    Forall (fun r' => ~ (t < tree_id r' <= t + n)) (rows st').
Proof.
  intros Hn. unfold _create_tree_space, bind, execute, modify,
    _mptt_track_tree_insertions.
  eexists. split; [reflexivity|].
  assert (Hrows : forall s : store,
             rows (if mptt_is_tracking s
                   then with_tracked
                          (fold_right set_add []
                             (map (fun u => if t + 1 <=? u then u + n else u)
                                  (mptt_delayed_tree_changes s))) s
                   else s) = rows s).
  { intros s. destruct (mptt_is_tracking s); reflexivity. }
  rewrite Hrows. cbn [rows with_rows]. unfold sql_update.
  split; [|split].
  - induction (rows st) as [|r rs IH]; cbn; constructor; [|exact IH].
    unfold shift_above. destruct (tree_id r >? t); [reflexivity|].
    destruct r; reflexivity.
  - intros x y. apply shift_above_increasing. exact Hn.
  - apply Forall_forall. intros r' Hr'. apply in_map_iff in Hr'.
    destruct Hr' as (r & <- & _).
    pose proof (shift_above_skips n t (tree_id r) Hn) as Hskip.
    unfold shift_above in Hskip. destruct (tree_id r >? t); cbn; exact Hskip.
Qed.

Lemma create_tree_space_frees_ids_witness :
  exists st',
    _create_tree_space 1 1 scenario_store = (st', Ok tt) /\
    Forall2 (fun r r' => r' = set_tree_id (shift_above 1 1 (tree_id r)) r)
            (rows scenario_store) (rows st') /\
    (forall x y, x < y -> shift_above 1 1 x < shift_above 1 1 y) /\
    Forall (fun r' => ~ (1 < tree_id r' <= 1 + 1)) (rows st').
Proof.
  apply (create_tree_space_frees_ids 1 1 scenario_store). lia.
Defined.

(** ** Fresh tree ids *)

Lemma max_tree_id_from (rs : list node) :
  forall acc,
    exists m,
      fold_left (fun acc r => match acc with
                              | None => Some (tree_id r)
                              | Some m => Some (Z.max m (tree_id r))
                              end) rs (Some acc) = Some m /\
      acc <= m /\ Forall (fun r => tree_id r <= m) rs.
Proof.
  induction rs as [|r rs IH]; intros acc; cbn.
  - exists acc. repeat split; [lia | constructor].
  - destruct (IH (Z.max acc (tree_id r))) as (m & Hm & Hle & Hall).
    exists m. repeat split; [exact Hm | lia |]. constructor; [lia | exact Hall].
Qed.

Lemma max_tree_id_bound (rs : list node) :
  match max_tree_id rs with
  | Some m => Forall (fun r => tree_id r <= m) rs
  | None => rs = []
  end.
Proof.
  unfold max_tree_id. destruct rs as [|r rs]; [reflexivity|]. cbn.
  destruct (max_tree_id_from rs (tree_id r)) as (m & Hm & Hle & Hall).
  rewrite Hm. constructor; assumption.
Qed.

Lemma get_next_tree_id_run (opts : mptt_meta) (st : store) :
  root_node_ordering opts = true ->
  exists t,
    _get_next_tree_id opts st = (st, Ok t) /\
    Forall (fun r => tree_id r < t) (rows st).
Proof.
  intros Hro. unfold _get_next_tree_id, bind, get, ret. rewrite Hro. cbn [negb].
  eexists. split; [reflexivity|].
  pose proof (max_tree_id_bound (rows st)) as Hb.
  destruct (max_tree_id (rows st)) as [m|] eqn:Em; [|rewrite Hb; constructor].
  eapply Forall_impl; [|exact Hb]. intros r Hr. cbn beta in Hr.
  destruct (m =? 0) eqn:E0; [apply Z.eqb_eq in E0|]; lia.
Qed.

(** X5. With root ordering on, [_get_next_tree_id] reads the table
    without changing the store and returns a tree id above the tree id of
    every stored row; on an empty table it returns 1. *)
Theorem next_tree_id_unused (opts : mptt_meta) (st : store) :
  root_node_ordering opts = true ->
  exists t,
    _get_next_tree_id opts st = (st, Ok t) /\
    Forall (fun r => tree_id r < t) (rows st) /\
    (rows st = [] -> t = 1).
Proof.
  intros Hro. unfold _get_next_tree_id, bind, get, ret. rewrite Hro. cbn [negb].
  eexists. split; [reflexivity|].
  pose proof (max_tree_id_bound (rows st)) as Hb.
  destruct (max_tree_id (rows st)) as [m|] eqn:Em.
  - split.
    + eapply Forall_impl; [|exact Hb]. intros r Hr. cbn beta in Hr.
      destruct (m =? 0) eqn:E0; [apply Z.eqb_eq in E0|]; lia.
    + intros Hnil. rewrite Hnil in Em. discriminate.
  - rewrite Hb. split; [constructor | reflexivity].
Qed.

Lemma next_tree_id_unused_witness :
  exists t,
    _get_next_tree_id sequential_opts scenario_store = (scenario_store, Ok t) /\
    Forall (fun r => tree_id r < t) (rows scenario_store) /\
    (rows scenario_store = [] -> t = 1).
Proof. apply (next_tree_id_unused sequential_opts scenario_store). reflexivity. Defined.

(** ** Where [insert_node] puts a node *)

(** X6. With root ordering on and no target, [insert_node] without
    [save] leaves the store as it was, whatever the position token, and
    returns the node as the only node (left 1, right 2, level 0, no
    parent) of a tree whose id is above that of every stored row. *)
Theorem insert_node_without_target (opts : mptt_meta) (nd : node)
  (position : string) (allow_existing_pk refresh_target : bool) (st : store) :
  root_node_ordering opts = true ->
  truthy_pk (pk nd) && negb allow_existing_pk && pk_exists (pk nd) (rows st) = false ->
  exists t,
    insert_node opts nd None position false allow_existing_pk refresh_target st
    = (st, Ok (mkNode (pk nd) None 1 2 0 t (okey nd), [])) /\
    Forall (fun r => tree_id r < t) (rows st).
Proof.
  intros Hro Hguard.
  destruct (get_next_tree_id_run opts st Hro) as (t & Hrun & Hfresh).
  exists t. split; [|exact Hfresh].
  unfold insert_node, bind at 1, get. rewrite Hguard.
  unfold bind at 1. unfold bind at 1. rewrite Hrun. reflexivity.
Qed.

Lemma insert_node_without_target_witness :
  exists t,
    insert_node sequential_opts zero_node None "sideways" false false true scenario_store
    = (scenario_store, Ok (mkNode (pk zero_node) None 1 2 0 t (okey zero_node), [])) /\
    Forall (fun r => tree_id r < t) (rows scenario_store).
Proof.
  apply (insert_node_without_target sequential_opts zero_node "sideways" false true
           scenario_store); reflexivity.
Defined.

Lemma bind_ok {A B : Type} (m : M A) (k : A -> M B) (st st' : store) (b : B) :
  bind m k st = (st', Ok b) ->
  exists s1 a, m st = (s1, Ok a) /\ k a s1 = (st', Ok b).
Proof.
  unfold bind. destruct (m st) as [s1 [a|e]]; intros H; [|discriminate].
  exists s1, a. split; [reflexivity | exact H].
Qed.

Lemma refresh_ok (t t' : inst) (st st' : store) :
  _mptt_refresh t st = (st', Ok t') ->
  st' = st /\ pk (fields t') = pk (fields t) /\ parent (fields t') = parent (fields t) /\
  cached_chain t' = cached_chain t.
Proof.
  unfold _mptt_refresh, bind, get, ret, raise.
  destruct (truthy_pk (pk (fields t))).
  - destruct (find _ (rows st)) as [r|]; intros H; inversion H; subst; repeat split.
  - intros H; inversion H; subst; repeat split.
Qed.

Lemma get_parent_ok (t : inst) (st st' : store) (q : option inst) :
  get_parent t st = (st', Ok q) -> st' = st.
Proof.
  unfold get_parent, bind, get, ret, raise.
  destruct (parent (fields t)); [|intros H; inversion H; reflexivity].
  destruct (cached_chain t); [|intros H; inversion H; reflexivity].
  destruct (find _ (rows st)); intros H; inversion H; reflexivity.
Qed.

(** What [_calculate_inter_tree_move_values] hands back when it returns. *)
Lemma calculate_values_ok (nd : node) (t : inst) (position : string)
  (st st' : store) (space_target level_change left_right_change right_shift : Z)
  (par : option inst) :
  _calculate_inter_tree_move_values nd t position st
  = (st', Ok (space_target, level_change, left_right_change, par, right_shift)) ->
  st' = st /\ valid_position position = true /\
  space_target = insertion_point (fields t) position - 1 /\
  left_right_change = lft nd - space_target - 1 /\
  level_change = (if is_child_position position
                  then level nd - level (fields t) - 1
                  else level nd - level (fields t)) /\
  (if is_child_position position then par = Some t
   else get_parent t st = (st, Ok par)).
Proof.
  unfold _calculate_inter_tree_move_values, valid_position, insertion_point.
  intros H. apply bind_ok in H. destruct H as (s1 & [[sp lc] p] & H1 & H2).
  unfold ret in H2. inversion H2; subst. clear H2.
  unfold is_child_position, is_sibling_position in *.
  destruct (eqs position "last-child") eqn:E1.
  { cbn in H1. unfold ret in H1. inversion H1; subst. repeat split; lia. }
  destruct (eqs position "first-child") eqn:E2.
  { cbn in H1. unfold ret in H1. inversion H1; subst. repeat split; lia. }
  cbn [orb] in H1 |- *.
  destruct (eqs position "left") eqn:E3.
  { cbn in H1. apply bind_ok in H1. destruct H1 as (s2 & q & Hq & H1).
    pose proof (get_parent_ok _ _ _ _ Hq) as ->.
    unfold ret in H1. inversion H1; subst. repeat split; try lia. exact Hq. }
  destruct (eqs position "right") eqn:E4.
  { cbn in H1. apply bind_ok in H1. destruct H1 as (s2 & q & Hq & H1).
    pose proof (get_parent_ok _ _ _ _ Hq) as ->.
    unfold ret in H1. inversion H1; subst. repeat split; try lia. exact Hq. }
  cbn in H1. discriminate.
Qed.

Lemma post_insert_keeps_store (chain : list node) :
  forall instance right_shift seen st st' r,
    _post_insert_update_cached_parent_right chain instance right_shift seen st = (st', r) ->
    st' = st.
Proof.
  induction chain as [|p rest IH]; intros instance right_shift seen st st' r H;
    cbn [_post_insert_update_cached_parent_right] in H.
  - inversion H; reflexivity.
  - destruct (existsb _ _); [inversion H; reflexivity|].
    unfold bind in H.
    destruct (_post_insert_update_cached_parent_right rest p right_shift _ st)
      as [s1 [a|e]] eqn:E; apply IH in E; inversion H; subst; reflexivity.
Qed.

(** [insert_node] without [save], for a target that is not a root taken
    as a sibling, when it returns: the target as read, the point space is
    made after, the parent handed back, and the node and store that
    result. *)
Lemma insert_node_beside_ok (opts : mptt_meta) (nd : node) (target : inst)
  (position : string) (allow_existing_pk refresh_target : bool)
  (st st' : store) (n : node) (ups : list node) :
  is_root_node (fields target) && is_sibling_position position = false ->
  insert_node opts nd (Some target) position false allow_existing_pk refresh_target st
  = (st', Ok (n, ups)) ->
  exists t' par,
    (if refresh_target then _mptt_refresh target st = (st, Ok t') else t' = target) /\
    valid_position position = true /\
    (if is_child_position position then par = Some t'
     else get_parent t' st = (st, Ok par)) /\
    _create_space 2 (insertion_point (fields t') position - 1) (tree_id (fields t')) st
    = (st', Ok tt) /\
    n = mkNode (pk nd)
          (match par with Some q => pk (fields q) | None => None end)
          (insertion_point (fields t') position)
          (insertion_point (fields t') position + 1)
          (if is_child_position position
           then level (fields t') + 1 else level (fields t'))
          (tree_id (fields t')) (okey nd).
Proof.
  intros Hdispatch H. unfold insert_node in H.
  apply bind_ok in H. destruct H as (s0 & st0 & Hget & H).
  unfold get in Hget. inversion Hget; subst s0 st0. clear Hget.
  destruct (truthy_pk (pk nd) && negb allow_existing_pk && pk_exists (pk nd) (rows st));
    [discriminate|].
  apply bind_ok in H. destruct H as (s1 & [n1 ups1] & H & Hret).
  unfold ret in Hret. inversion Hret; subst s1 n1 ups1. clear Hret.
  rewrite Hdispatch in H.
  apply bind_ok in H. destruct H as (s1 & t' & Hrefresh & H).
  assert (Hs1 : s1 = st).
  { destruct refresh_target; [apply refresh_ok in Hrefresh; tauto|].
    unfold ret in Hrefresh. inversion Hrefresh; reflexivity. }
  subst s1.
  apply bind_ok in H. destruct H as (s2 & [[[[sp lc] lrc] par] rs] & Hcalc & H).
  apply calculate_values_ok in Hcalc.
  destruct Hcalc as (-> & Hvalid & Hsp & Hlrc & Hlc & Hpar).
  cbn [lft level set_level set_lft] in Hlrc, Hlc.
  exists t', par. split.
  { destruct refresh_target; [exact Hrefresh|].
    unfold ret in Hrefresh. inversion Hrefresh; reflexivity. }
  split; [exact Hvalid|]. split; [exact Hpar|].
  apply bind_ok in H. destruct H as (s3 & [] & Hspace & H).
  assert (Hn : n = set_parent (match par with Some q => pk (fields q) | None => None end)
                     (set_tree_id (tree_id (fields t'))
                        (set_level (- lc)
                           (set_rght (- lrc + 1)
                              (set_lft (- lrc) (set_level 0 (set_lft 0 nd)))))) /\ st' = s3).
  { destruct par as [q|].
    - apply bind_ok in H. destruct H as (s4 & ups' & Hpost & H).
      apply post_insert_keeps_store in Hpost. unfold ret in H.
      inversion H; subst. split; reflexivity.
    - unfold ret in H. inversion H; subst. split; reflexivity. }
  destruct Hn as [-> ->]. subst sp. split; [exact Hspace|].
  unfold set_parent, set_tree_id, set_level, set_rght, set_lft. cbn.
  f_equal; destruct (is_child_position position); lia.
Qed.

(** X7. When [insert_node] (without [save]) returns for a target that is
    not a root taken as a sibling, the position was one of the four
    tokens and the node keeps its key and ordering value, joins the tree
    of the target as the call read it, starts at the insertion point the
    position names, is one place wide, and sits one level below the
    target (as a child) or on its level (as a sibling), under the target
    (as a child) or under the parent the target gave (as a sibling).
    The store is the one [_create_space] leaves when asked for two places
    there; outside a tracking scope no stored row of the tree uses the
    node's left or right. *)
Theorem insert_node_beside_target (opts : mptt_meta) (nd : node) (target : inst)
  (position : string) (allow_existing_pk refresh_target : bool)
  (st st' : store) (n : node) (ups : list node) :
  is_root_node (fields target) && is_sibling_position position = false ->
  insert_node opts nd (Some target) position false allow_existing_pk refresh_target st
  = (st', Ok (n, ups)) ->
  exists t',
    (if refresh_target then _mptt_refresh target st = (st, Ok t') else t' = target) /\
    valid_position position = true /\
    pk n = pk nd /\ okey n = okey nd /\
    tree_id n = tree_id (fields t') /\
    lft n = insertion_point (fields t') position /\
    rght n = lft n + 1 /\
    level n = (if is_child_position position
               then level (fields t') + 1 else level (fields t')) /\
    (if is_child_position position then parent n = pk (fields t')
     else exists par, get_parent t' st = (st, Ok par) /\
                      parent n = match par with
                                 | Some q => pk (fields q)
                                 | None => None
                                 end) /\
    _create_space 2 (lft n - 1) (tree_id n) st = (st', Ok tt) /\
    (mptt_is_tracking st = false ->
     unused_position (tree_id n) (lft n) (rows st') /\
     unused_position (tree_id n) (rght n) (rows st')).
Proof.
  intros Hdispatch H.
  destruct (insert_node_beside_ok opts nd target position allow_existing_pk
              refresh_target st st' n ups Hdispatch H)
    as (t' & par & Hrefresh & Hvalid & Hpar & Hspace & ->).
  exists t'. cbn [pk parent lft rght level tree_id okey].
  split; [exact Hrefresh|]. split; [exact Hvalid|].
  do 6 (split; [reflexivity|]).
  split.
  { destruct (is_child_position position); [subst par; reflexivity|].
    exists par. split; [exact Hpar | reflexivity]. }
  split; [exact Hspace|].
  intros Htr. unfold _create_space in Hspace.
  rewrite (manage_space_run 2 _ (tree_id (fields t')) st Htr) in Hspace.
  inversion Hspace; subst st'. cbn [rows with_rows].
  split; apply space_query_gap; lia.
Qed.

Lemma insert_node_beside_target_witness :
  exists t',
    _mptt_refresh (Inst node_D []) scenario_store = (scenario_store, Ok t') /\
    valid_position "last-child" = true /\
    pk (mkNode None (Some 4) 2 3 1 2 7) = pk (mkNode None None 0 0 0 0 7) /\
    okey (mkNode None (Some 4) 2 3 1 2 7) = okey (mkNode None None 0 0 0 0 7) /\
    tree_id (mkNode None (Some 4) 2 3 1 2 7) = tree_id (fields t') /\
    lft (mkNode None (Some 4) 2 3 1 2 7) = insertion_point (fields t') "last-child" /\
    rght (mkNode None (Some 4) 2 3 1 2 7) = lft (mkNode None (Some 4) 2 3 1 2 7) + 1 /\
    level (mkNode None (Some 4) 2 3 1 2 7) = level (fields t') + 1 /\
    parent (mkNode None (Some 4) 2 3 1 2 7) = pk (fields t') /\
    _create_space 2 (2 - 1) 2 scenario_store
    = (with_rows [node_A; node_B; node_C; mkNode (Some 4) None 1 4 0 2 0] scenario_store,
       Ok tt) /\
    (mptt_is_tracking scenario_store = false ->
     unused_position 2 2 [node_A; node_B; node_C; mkNode (Some 4) None 1 4 0 2 0] /\
     unused_position 2 3 [node_A; node_B; node_C; mkNode (Some 4) None 1 4 0 2 0]).
Proof.
  apply (insert_node_beside_target sequential_opts (mkNode None None 0 0 0 0 7)
           (Inst node_D []) "last-child" false true scenario_store
           (with_rows [node_A; node_B; node_C; mkNode (Some 4) None 1 4 0 2 0]
              scenario_store)
           (mkNode None (Some 4) 2 3 1 2 7) [mkNode (Some 4) None 1 2 0 2 0]);
    reflexivity.
Defined.

(** ** The numbering the builder hands out *)

Lemma positions_from_app (n m : nat) :
  forall a,
    positions_from a (n + m)
    = positions_from a n ++ positions_from (a + Z.of_nat n) m.
Proof.
  induction n as [|n IH]; intros a; cbn [positions_from Nat.add app].
  - f_equal. cbn. lia.
  - rewrite IH. do 3 f_equal. lia.
Qed.

Lemma positions_from_in (n : nat) :
  forall a x, In x (positions_from a n) <-> a <= x < a + Z.of_nat n.
Proof.
  induction n as [|n IH]; intros a x; cbn [positions_from In].
  - split; [intros [] | lia].
  - rewrite IH. lia.
Qed.

Lemma boundaries_app (l1 l2 : list node) :
  boundaries (l1 ++ l2) = boundaries l1 ++ boundaries l2.
Proof. unfold boundaries. apply flat_map_app. Qed.

Lemma treeify_children_numbered (tid lvl : Z) (cs : list tree_data) :
  Forall (fun c => forall cursor lvl,
              numbered cursor (fst (treeify tid c cursor lvl))
                       (snd (treeify tid c cursor lvl))) cs ->
  forall cursor,
    let res := treeify_children (fun child c => treeify tid child c (lvl + 1)) cs cursor in
    numbered (cursor + 1) (fst res) (snd res).
Proof.
  induction 1 as [|c cs Hc _ IH]; intros cursor; cbn zeta.
  - unfold numbered. simpl. repeat split; [lia | constructor | constructor].
  - cbn [treeify_children].
    specialize (Hc (cursor + 1) (lvl + 1)).
    destruct (treeify tid c (cursor + 1) (lvl + 1)) as [s1 c1] eqn:E1.
    specialize (IH c1). cbn zeta in IH.
    destruct (treeify_children _ cs c1) as [s2 c2] eqn:E2.
    cbn [fst snd] in *.
    destruct Hc as (Hr1 & Hp1 & Hlt1), IH as (Hr2 & Hp2 & Hlt2).
    repeat split.
    + rewrite length_app, Nat2Z.inj_add. lia.
    + rewrite boundaries_app, length_app.
      replace (2 * (List.length s1 + List.length s2))%nat
        with (2 * List.length s1 + 2 * List.length s2)%nat by lia.
      rewrite positions_from_app. apply Permutation_app; [exact Hp1|].
      replace (cursor + 1 + Z.of_nat (2 * List.length s1)) with (c1 + 1) by lia.
      exact Hp2.
    + apply Forall_app. split; assumption.
Qed.

Lemma treeify_numbered (tid : Z) (data : tree_data) :
  forall cursor lvl,
    numbered cursor (fst (treeify tid data cursor lvl))
             (snd (treeify tid data cursor lvl)).
Proof.
  induction data as [d cs IH] using tree_data_induction. intros cursor lvl.
  pose proof (treeify_children_numbered tid lvl cs IH cursor) as H. cbn zeta in H.
  cbn [treeify].
  destruct (treeify_children _ cs cursor) as [sub c1]. cbn [fst snd] in *.
  destruct H as (Hr & Hp & Hlt). repeat split.
  - cbn [List.length]. lia.
  - cbn [List.length boundaries flat_map app]. fold (boundaries sub). cbn [lft rght set_rght set_lft].
    replace (2 * S (List.length sub))%nat with (S (2 * List.length sub + 1)) by lia.
    cbn [positions_from]. apply perm_skip.
    rewrite positions_from_app. cbn [positions_from].
    replace (cursor + 1 + Z.of_nat (2 * List.length sub)) with (c1 + 1) by lia.
    apply Permutation_cons_app. rewrite app_nil_r. exact Hp.
  - constructor; [cbn; lia | exact Hlt].
Qed.

Lemma treeify_length (tid : Z) (data : tree_data) (cursor lvl : Z) :
  List.length (fst (treeify tid data cursor lvl)) = List.length (data_nodes data).
Proof.
  destruct (treeify_pushed tid data cursor lvl) as (Hid & _).
  eapply Forall2_length. exact Hid.
Qed.

Lemma treeify_top (tid : Z) (data : tree_data) (cursor lvl : Z) :
  exists v sub,
    fst (treeify tid data cursor lvl) = v :: sub /\
    lft v = cursor /\ rght v = snd (treeify tid data cursor lvl) /\
    level v = lvl /\ tree_id v = tid /\ same_identity v (top data).
Proof.
  destruct data as [d cs]. cbn [treeify top].
  destruct (treeify_children _ cs cursor) as [sub c1].
  eexists _, sub. cbn. repeat split.
Qed.

(** What [build_tree_nodes] does, whatever it is given: it returns, the
    store is the one [_create_space] leaves (or the one
    [_get_next_tree_id] leaves when there is no target), and the records
    are those of [treeify] from the cursor, level and tree id it starts
    with. *)
Lemma build_tree_nodes_anchored (opts : mptt_meta) (data : tree_data) (t : node)
  (position : string) (st : store) :
  let cursor := if is_sibling_position position
                then if eqs position "left" then lft t else rght t + 1
                else if eqs position "first-child" then lft t + 1 else rght t in
  let lvl := if is_sibling_position position then level t else level t + 1 in
  let stack := fst (treeify (tree_id t) data cursor lvl) in
  build_tree_nodes opts data (Some t) position st
  = (fst (_create_space (2 * Z.of_nat (List.length stack)) (cursor - 1) (tree_id t) st),
     Ok stack).
Proof.
  cbn zeta. unfold build_tree_nodes, bind at 1, ret at 1. unfold bind, ret.
  destruct (_create_space _ _ _ st) as [s1 [[]|e]] eqn:E; [reflexivity|].
  exfalso. unfold _create_space, _manage_space, bind, get, execute, modify,
    _mptt_track_tree_modified in E.
  destruct (mptt_is_tracking st); discriminate.
Qed.

(** X8. [build_tree_nodes] always returns, with one record per dictionary
    of the description, in the order the dictionaries are met.  The
    records' lefts and rights are the consecutive positions from the
    first record's left on, each used exactly once; every record's left is
    below its right; the first record, built from the outermost
    dictionary, spans them all.  Without a target the numbering starts at
    1 on level 0. *)
Theorem build_tree_nodes_numbering (opts : mptt_meta) (data : tree_data)
  (target : option node) (position : string) (st : store) :
  exists st' v sub,
    build_tree_nodes opts data target position st = (st', Ok (v :: sub)) /\
    Forall2 same_identity (v :: sub) (data_nodes data) /\
    numbered (lft v) (v :: sub) (rght v) /\
    (target = None -> lft v = 1 /\ level v = 0 /\ rows st' = rows st).
Proof.
  destruct target as [t|].
  - pose proof (build_tree_nodes_anchored opts data t position st) as Hrun.
    cbn zeta in Hrun.
    match type of Hrun with
    | context [treeify ?tid data ?c ?l] =>
        destruct (treeify_top tid data c l) as (v & sub & Hst & Hl & Hr & _);
        pose proof (treeify_numbered tid data c l) as Hnum;
        pose proof (treeify_pushed tid data c l) as (Hid & _)
    end.
    rewrite Hst in Hrun, Hnum, Hid. rewrite <- Hr in Hnum. rewrite <- Hl in Hnum.
    eexists _, v, sub. split; [exact Hrun|]. split; [exact Hid|].
    split; [exact Hnum | discriminate].
  - destruct (build_tree_nodes_run opts data position st) as (tid & st0 & Hrun & Hrows).
    destruct (treeify_top tid data 1 0) as (v & sub & Hst & Hl & Hr & Hlv & _).
    pose proof (treeify_numbered tid data 1 0) as Hnum.
    pose proof (treeify_pushed tid data 1 0) as (Hid & _).
    rewrite Hst in Hrun, Hnum, Hid. rewrite <- Hr in Hnum. rewrite <- Hl in Hnum.
    exists st0, v, sub. split; [exact Hrun|]. split; [exact Hid|].
    split; [exact Hnum|]. intros _. repeat split; assumption.
Qed.

Lemma numbered_within (cursor ret : Z) (stack : list node) (x : Z) :
  numbered cursor stack ret -> In x (boundaries stack) -> cursor <= x <= ret.
Proof.
  intros (Hret & Hperm & _) Hx.
  apply (Permutation_in _ Hperm) in Hx. apply positions_from_in in Hx. lia.
Qed.

(** X9. Given a target, [build_tree_nodes] never raises: a token other
    than [left], [right] and [first-child] is taken as [last-child].  The first record starts at
    the insertion point, on the target's level for a sibling position and
    one below otherwise, and every record carries the target's tree id.
    The store is the one [_create_space] leaves when asked, just before
    the first record's left, for as many places as the records' lefts and
    rights take; outside a tracking scope no stored row of the tree then
    uses any of them. *)
Theorem build_tree_nodes_fills_gap (opts : mptt_meta) (data : tree_data) (t : node)
  (position : string) (st : store) :
  exists st' v sub,
    build_tree_nodes opts data (Some t) position st = (st', Ok (v :: sub)) /\
    lft v = insertion_point t (if valid_position position then position
                               else "last-child") /\
    level v = (if is_sibling_position position then level t else level t + 1) /\
    Forall (fun u => tree_id u = tree_id t) (v :: sub) /\
    _create_space (rght v - lft v + 1) (lft v - 1) (tree_id t) st = (st', Ok tt) /\
    (mptt_is_tracking st = false ->
     forall x, In x (boundaries (v :: sub)) -> unused_position (tree_id t) x (rows st')).
Proof.
  pose proof (build_tree_nodes_anchored opts data t position st) as Hrun.
  cbn zeta in Hrun.
  match type of Hrun with
  | context [treeify ?tid data ?c ?l] =>
      destruct (treeify_top tid data c l) as (v & sub & Hst & Hl & Hr & Hlv & _);
      pose proof (treeify_numbered tid data c l) as Hnum;
      pose proof (treeify_pushed tid data c l) as (_ & _ & Hall)
  end.
  rewrite Hst in Hrun, Hnum, Hall. rewrite <- Hr in Hnum, Hall.
  rewrite <- Hl in Hrun, Hnum, Hall.
  pose proof Hnum as (Hret & _).
  assert (Hsize : 2 * Z.of_nat (List.length (v :: sub)) = rght v - lft v + 1) by lia.
  rewrite Hsize in Hrun.
  assert (Hspace : _create_space (rght v - lft v + 1) (lft v - 1) (tree_id t) st
                   = (fst (_create_space (rght v - lft v + 1) (lft v - 1) (tree_id t) st),
                      Ok tt)).
  { unfold _create_space, _manage_space, bind, get, execute, modify,
      _mptt_track_tree_modified.
    destruct (mptt_is_tracking st); reflexivity. }
  eexists _, v, sub. split; [exact Hrun|]. split.
  { rewrite Hl. unfold insertion_point, valid_position, is_child_position,
      is_sibling_position.
    destruct (eqs position "last-child") eqn:E1.
    { apply String.eqb_eq in E1. subst position. reflexivity. }
    destruct (eqs position "first-child") eqn:E2.
    { apply String.eqb_eq in E2. subst position. reflexivity. }
    destruct (eqs position "left") eqn:E3.
    { apply String.eqb_eq in E3. subst position. reflexivity. }
    destruct (eqs position "right") eqn:E4.
    { apply String.eqb_eq in E4. subst position. reflexivity. }
    reflexivity. }
  split; [exact Hlv|]. split.
  { eapply Forall_impl; [|exact Hall]. intros u Hu. cbn beta in Hu. tauto. }
  split; [exact Hspace|].
  intros Htr x Hx. pose proof (numbered_within _ _ _ x Hnum Hx) as Hin.
  rewrite (manage_space_run _ _ (tree_id t) st Htr). cbn [fst rows with_rows].
  apply space_query_gap; lia.
Qed.

(** X10. Where [insert_node], without [save] and reading the target as
    given, returns for a target that is not a root taken as a sibling,
    [build_tree_nodes] given the same target and position and a
    description of that one node leaves the same store and returns one
    record with the same left, right, level and tree id; the record keeps
    the parent key of its dictionary, which [insert_node] replaces. *)
Theorem build_single_node_as_insert_node (opts : mptt_meta) (d : node)
  (target : inst) (position : string) (allow_existing_pk : bool)
  (st st' : store) (n : node) (ups : list node) :
  is_root_node (fields target) && is_sibling_position position = false ->
  insert_node opts d (Some target) position false allow_existing_pk false st
  = (st', Ok (n, ups)) ->
  exists v,
    build_tree_nodes opts (Data d []) (Some (fields target)) position st = (st', Ok [v]) /\
    lft v = lft n /\ rght v = rght n /\ level v = level n /\ tree_id v = tree_id n /\
    pk v = pk n /\ okey v = okey n /\ parent v = parent d.
Proof.
  intros Hdispatch H.
  destruct (insert_node_beside_ok opts d target position allow_existing_pk
              false st st' n ups Hdispatch H)
    as (t' & par & -> & Hvalid & Hpar & Hspace & ->).
  pose proof (build_tree_nodes_anchored opts (Data d []) (fields target) position st)
    as Hrun.
  cbn zeta in Hrun. cbn [treeify treeify_children fst List.length] in Hrun.
  assert (Hcursor :
            (if is_sibling_position position
             then if eqs position "left"
                  then lft (fields target) else rght (fields target) + 1
             else if eqs position "first-child"
                  then lft (fields target) + 1 else rght (fields target))
            = insertion_point (fields target) position).
  { unfold insertion_point. unfold valid_position, is_child_position,
      is_sibling_position in *.
    destruct (eqs position "last-child") eqn:E1.
    { apply String.eqb_eq in E1. subst position. reflexivity. }
    destruct (eqs position "first-child") eqn:E2.
    { apply String.eqb_eq in E2. subst position. reflexivity. }
    destruct (eqs position "left") eqn:E3.
    { apply String.eqb_eq in E3. subst position. reflexivity. }
    destruct (eqs position "right") eqn:E4.
    { apply String.eqb_eq in E4. subst position. reflexivity. }
    discriminate. }
  rewrite Hcursor in Hrun.
  change (2 * Z.of_nat 1) with 2 in Hrun. rewrite Hspace in Hrun. cbn [fst] in Hrun.
  eexists. split; [exact Hrun|]. cbn.
  assert (Hlv : (if is_sibling_position position
                 then level (fields target) else level (fields target) + 1)
                = (if is_child_position position
                   then level (fields target) + 1 else level (fields target))).
  { unfold valid_position, is_child_position, is_sibling_position in *.
    destruct (eqs position "last-child") eqn:E1.
    { apply String.eqb_eq in E1. subst position. reflexivity. }
    destruct (eqs position "first-child") eqn:E2.
    { apply String.eqb_eq in E2. subst position. reflexivity. }
    cbn [orb] in *. rewrite Hvalid. reflexivity. }
  repeat split; try reflexivity; try lia; exact Hlv.
Qed.

Lemma build_single_node_as_insert_node_witness :
  exists v,
    build_tree_nodes sequential_opts (Data (mkNode None None 0 0 0 0 7) [])
      (Some node_D) "last-child" scenario_store
    = (with_rows [node_A; node_B; node_C; mkNode (Some 4) None 1 4 0 2 0] scenario_store,
       Ok [v]) /\
    lft v = 2 /\ rght v = 3 /\ level v = 1 /\ tree_id v = 2 /\
    pk v = None /\ okey v = 7 /\ parent v = None.
Proof.
  apply (build_single_node_as_insert_node sequential_opts (mkNode None None 0 0 0 0 7)
           (Inst node_D []) "last-child" false scenario_store
           (with_rows [node_A; node_B; node_C; mkNode (Some 4) None 1 4 0 2 0]
              scenario_store)
           (mkNode None (Some 4) 2 3 1 2 7) [mkNode (Some 4) None 1 2 0 2 0]);
    reflexivity.
Defined.

(** ** The intervals a rebuild hands out *)

Lemma helper_loop_nested (ch : dict) (tid lvl : Z)
  (visit : node -> Z -> option (list node * Z)) (cs : list node) :
  (forall c a usc rc,
      In c cs -> visit c a = Some (usc, rc) ->
      a + 2 <= rc /\
      (exists e, In e usc /\ pk e = pk c /\ lft e = a /\ rght e = rc - 1 /\
                 level e = lvl /\ tree_id e = tid) /\
      Forall (fun u => lft u < rght u) usc /\ nests ch usc) ->
  forall right us r',
    helper_loop visit cs right = Some (us, r') ->
    right <= r' /\
    Forall (fun u => lft u < rght u) us /\ nests ch us /\
    forall c, In c cs ->
      exists e, In e us /\ pk e = pk c /\ right <= lft e /\ rght e < r' /\
                level e = lvl /\ tree_id e = tid.
Proof.
  induction cs as [|c cs IH]; intros Hv right us r' H; cbn [helper_loop] in H.
  - inversion H; subst. split; [lia|]. split; [constructor|].
    split; [intros u x []|]. intros c [].
  - destruct (visit c right) as [[us1 r1]|] eqn:E1; [|discriminate].
    destruct (helper_loop visit cs r1) as [[us2 r2]|] eqn:E2; [|discriminate].
    inversion H; subst. clear H.
    destruct (Hv c right us1 r1 (or_introl eq_refl) E1)
      as (Hr1 & (e1 & He1 & Hpk1 & Hl1 & Hg1 & Hlv1 & Ht1) & Hlt1 & Hn1).
    destruct (IH (fun c' a usc rc Hc' => Hv c' a usc rc (or_intror Hc')) r1 us2 r' E2)
      as (Hr2 & Hlt2 & Hn2 & Hcs).
    split; [lia|]. split; [apply Forall_app; split; assumption|]. split.
    + intros u x Hu Hx. apply in_app_or in Hu. destruct Hu as [Hu | Hu].
      * destruct (Hn1 u x Hu Hx) as (e & He & Hrest).
        exists e. split; [apply in_or_app; left; exact He | exact Hrest].
      * destruct (Hn2 u x Hu Hx) as (e & He & Hrest).
        exists e. split; [apply in_or_app; right; exact He | exact Hrest].
    + intros c' [<- | Hc'].
      * exists e1. split; [apply in_or_app; left; exact He1|]. repeat split; auto; lia.
      * destruct (Hcs c' Hc') as (e & He & Hpk & Hl & Hg & Hlv & Ht).
        exists e. split; [apply in_or_app; right; exact He|]. repeat split; auto; lia.
Qed.

Lemma helper_nested (ch : dict) (fuel : nat) :
  forall nd left tid lvl us ret,
    _rebuild_helper fuel ch nd left tid lvl = Some (us, ret) ->
    left + 2 <= ret /\
    (exists e, In e us /\ pk e = pk nd /\ lft e = left /\ rght e = ret - 1 /\
               level e = lvl /\ tree_id e = tid) /\
    Forall (fun u => lft u < rght u) us /\ nests ch us.
Proof.
  induction fuel as [|fuel IH]; intros nd left tid lvl us ret H; [discriminate|].
  cbn [_rebuild_helper] in H.
  destruct (helper_loop _ (dict_get ch (pk nd)) (left + 1)) as [[us0 r]|] eqn:Eloop;
    [|discriminate].
  inversion H; subst. clear H.
  destruct (helper_loop_nested ch tid (lvl + 1) _ (dict_get ch (pk nd))
              (fun c a usc rc _ Hrun => IH c a tid (lvl + 1) usc rc Hrun)
              (left + 1) us0 r Eloop) as (Hr & Hlt & Hn & Hcs).
  split; [lia|]. split.
  { eexists. split; [apply in_or_app; right; left; reflexivity|].
    cbn. repeat split; lia. }
  split.
  { apply Forall_app. split; [exact Hlt|]. constructor; [cbn; lia | constructor]. }
  intros u x Hu Hx. apply in_app_or in Hu. destruct Hu as [Hu | [<- | []]].
  - destruct (Hn u x Hu Hx) as (e & He & Hrest).
    exists e. split; [apply in_or_app; left; exact He | exact Hrest].
  - cbn [pk set_tree_id set_level set_rght set_lft] in Hx.
    destruct (Hcs x Hx) as (e & He & Hpk & Hl & Hg & Hlv & Ht).
    exists e. split; [apply in_or_app; left; exact He|]. cbn. repeat split; auto; lia.
Qed.

Section Established.

Variable opts : mptt_meta.
Variable rs : list node.
Hypothesis rs_nodup : NoDup (map pk rs).

Let ch : dict := _get_children opts None rs.
Let parents : list node := _get_parents opts None rs.
Let fuel : nat := S (List.length rs).

Variable ts : list Z.
Hypothesis ts_length : List.length ts = List.length parents.

Let U : list node := collected fuel ch parents ts.

Lemma collected_walk (u : node) :
  In u U ->
  exists p t ret,
    In p parents /\
    _rebuild_helper fuel ch p 1 t 0 = Some (emitted fuel ch p t, ret) /\
    In u (emitted fuel ch p t) /\ incl (emitted fuel ch p t) U.
Proof.
  intros Hu. destruct (collected_in opts rs parents ts u Hu) as (p & t & Hp & Hin & Hsub).
  destruct (parents_spec opts rs p Hp) as [Hprs Hroot].
  destruct (walk_returns opts rs rs_nodup p t Hprs Hroot) as (ret & Hrun).
  exists p, t, ret. repeat split; assumption.
Qed.

Lemma collected_nests : nests ch U.
Proof.
  intros u x Hu Hx.
  destruct (collected_walk u Hu) as (p & t & ret & _ & Hrun & Hin & Hsub).
  destruct (helper_nested ch fuel p 1 t 0 _ ret Hrun) as (_ & _ & _ & Hn).
  destruct (Hn u x Hin Hx) as (e & He & Hrest).
  exists e. split; [apply Hsub, He | exact Hrest].
Qed.

Lemma collected_proper : Forall (fun u => lft u < rght u) U.
Proof.
  apply Forall_forall. intros u Hu.
  destruct (collected_walk u Hu) as (p & t & ret & _ & Hrun & Hin & _).
  destruct (helper_nested ch fuel p 1 t 0 _ ret Hrun) as (_ & _ & Hlt & _).
  rewrite Forall_forall in Hlt. apply Hlt, Hin.
Qed.

Lemma collected_root_entry (p : node) :
  In p rs -> parent p = None ->
  exists e, In e U /\ pk e = pk p /\ lft e = 1 /\ level e = 0.
Proof.
  intros Hp Hroot.
  assert (Hps : In p parents).
  { unfold parents. rewrite get_parents_lookup.
    eapply Permutation_in; [apply Permutation_sym, order_by_perm|].
    apply filter_In. split; [exact Hp | apply is_root_node_spec, Hroot]. }
  destruct (in_combine_exists parents ts p Hps ts_length) as (t & Ht).
  pose proof (emitted_in_collected fuel ch parents ts p t Ht) as Hsub.
  destruct (walk_returns opts rs rs_nodup p t Hp Hroot) as (ret & Hrun).
  destruct (helper_nested ch fuel p 1 t 0 _ ret Hrun)
    as (_ & (e & He & Hpk & Hl & _ & Hlv & _) & _).
  exists e. repeat split; try assumption. apply Hsub, He.
Qed.

Lemma collected_reaches (d : nat) (k a : option Z) :
  above rs d k a ->
  forall root, In root rs -> parent root = None -> a = pk root ->
    exists u, In u U /\ pk u = k.
Proof.
  induction 1 as [k | n r p a Hr Hpar _ IH]; intros root Hroot Hnone Ha.
  - subst k. destruct (collected_root_entry root Hroot Hnone) as (e & He & Hpk & _).
    exists e. split; assumption.
  - destruct (IH root Hroot Hnone Ha) as (u & Hu & Hpk).
    pose proof (children_complete opts rs r p Hr Hpar) as Hin.
    fold ch in Hin. rewrite <- Hpk in Hin.
    destruct (collected_nests u r Hu Hin) as (e & He & Hpke & _).
    exists e. split; assumption.
Qed.

Lemma written_nested_set : forest rs -> nested_set (map (write_fields U) rs).
Proof.
  intros Hforest.
  assert (HU : NoDup (map pk U)) by (apply U_nodup; exact rs_nodup).
  assert (Hentry : forall r, In r rs ->
             exists u, In u U /\ pk u = pk r /\
                       write_fields U r
                       = mkNode (pk r) (parent r) (lft u) (rght u) (level u)
                                (tree_id u) (okey r)).
  { intros r Hr. destruct (Hforest r Hr) as (d & root & Hroot & Hnone & Habove).
    destruct (collected_reaches d _ _ Habove root Hroot Hnone eq_refl) as (u & Hu & Hpk).
    exists u. split; [exact Hu|]. split; [exact Hpk|].
    apply write_fields_found; assumption. }
  unfold nested_set. split; [|split].
  - intros r' Hr'. apply in_map_iff in Hr'. destruct Hr' as (r & <- & Hr).
    destruct (Hentry r Hr) as (u & Hu & _ & ->). cbn.
    pose proof collected_proper as Hlt. rewrite Forall_forall in Hlt. apply Hlt, Hu.
  - intros r' Hr' Hnone. apply in_map_iff in Hr'. destruct Hr' as (r & <- & Hr).
    rewrite write_fields_parent in Hnone.
    destruct (collected_root_entry r Hr Hnone) as (e & He & Hpk & Hl & Hlv).
    rewrite (write_fields_found U e r HU He Hpk). split; assumption.
  - intros p c Hp Hc Hkey Hlink. apply in_map_iff in Hp, Hc.
    destruct Hp as (p0 & <- & Hp0), Hc as (c0 & <- & Hc0).
    rewrite write_fields_pk in Hkey, Hlink. rewrite write_fields_parent in Hlink.
    destruct (Hentry p0 Hp0) as (u & Hu & Hpku & ->).
    destruct (pk p0) as [k|] eqn:Ek; [|congruence].
    pose proof (children_complete opts rs c0 k Hc0 Hlink) as Hin.
    fold ch in Hin. rewrite <- Hpku in Hin.
    destruct (collected_nests u c0 Hu Hin) as (e & He & Hpke & Hnested).
    rewrite (write_fields_found U e c0 HU He Hpke). exact Hnested.
Qed.

End Established.

(** X11. On a table with distinct keys whose parent links lead every row
    to a parentless row, a full rebuild returns, keeps every row's key
    and parent, and leaves a nested set: every left below its right,
    every root starting at 1 on level 0, every child strictly inside its
    parent's interval, one level below it, with its tree id. *)
Theorem rebuild_establishes_nested_set (opts : mptt_meta) (uuid4 : nat -> Z)
  (st : store) :
  NoDup (map pk (rows st)) ->
  forest (rows st) ->
  exists st',
    rebuild opts uuid4 None st = (st', Ok tt) /\
    map pk (rows st') = map pk (rows st) /\
    map parent (rows st') = map parent (rows st) /\
    nested_set (rows st').
Proof.
  intros Hnd Hforest. eexists. split; [apply rebuild_run; exact Hnd|].
  cbn [rows rebuilt]. rewrite !map_map. split; [|split].
  - apply map_ext. intros r. apply write_fields_pk.
  - apply map_ext. intros r. apply write_fields_parent.
  - unfold rebuild_objects. apply written_nested_set; [exact Hnd | | exact Hforest].
    apply root_tids_length.
Qed.

Lemma rebuild_establishes_nested_set_witness :
  exists st',
    rebuild sequential_opts sample_uuid4 None scenario_store = (st', Ok tt) /\
    map pk (rows st') = map pk (rows scenario_store) /\
    map parent (rows st') = map parent (rows scenario_store) /\
    nested_set (rows st').
Proof.
  apply (rebuild_establishes_nested_set sequential_opts sample_uuid4 scenario_store).
  - cbn. repeat constructor; cbn; intuition discriminate.
  - intros r [<- | [<- | [<- | [<- | []]]]].
    + exists 0%nat, node_A. repeat split; [left; reflexivity | apply above_O].
    + exists 1%nat, node_A. repeat split; [left; reflexivity|].
      apply (above_S _ 0 node_B 1 (Some 1));
        [right; left; reflexivity | reflexivity | apply above_O].
    + exists 1%nat, node_A. repeat split; [left; reflexivity|].
      apply (above_S _ 0 node_C 1 (Some 1));
        [right; right; left; reflexivity | reflexivity | apply above_O].
    + exists 0%nat, node_D. repeat split;
        [right; right; right; left; reflexivity | apply above_O].
Defined.

Lemma Forall2_mapped {A B : Type} (R : A -> B -> Prop) (f : A -> B) (l : list A) :
  (forall x, In x l -> R x (f x)) -> Forall2 R l (map f l).
Proof.
  induction l as [|x l IH]; intros H; cbn; constructor.
  - apply H. left. reflexivity.
  - apply IH. intros y Hy. apply H. right. exact Hy.
Qed.

(** X12. A full rebuild of a table with distinct keys returns even when
    parent links dangle or run in a cycle, and rewrites only what it
    reaches from a parentless row: every row either leads to a parentless
    row by its parent links or is left exactly as it was. *)
Theorem rebuild_leaves_unreachable_rows (opts : mptt_meta) (uuid4 : nat -> Z)
  (st : store) :
  NoDup (map pk (rows st)) ->
  exists st',
    rebuild opts uuid4 None st = (st', Ok tt) /\
    Forall2 (fun r r' =>
               (exists d root, In root (rows st) /\ parent root = None /\
                               above (rows st) d (pk r) (pk root)) \/
               r' = r) (rows st) (rows st').
Proof.
  intros Hnd. eexists. split; [apply rebuild_run; exact Hnd|].
  cbn [rows rebuilt]. unfold rebuild_objects.
  set (U := collected _ _ _ _).
  assert (Hrow : forall r,
             (exists d root, In root (rows st) /\ parent root = None /\
                             above (rows st) d (pk r) (pk root)) \/
             write_fields U r = r).
  { intros r. unfold write_fields.
    destruct (find (fun u => opt_eqb (pk u) (pk r)) U) as [u|] eqn:E;
      [left | right; reflexivity].
    apply find_some in E. destruct E as [Hu Hpk]. apply opt_eqb_eq in Hpk.
    destruct (collected_in opts (rows st) _ _ u Hu) as (p & t & Hp & Hin & _).
    destruct (parents_spec opts (rows st) p Hp) as [Hprs Hroot].
    destruct (emitted_below opts (rows st) Hnd p t u Hprs Hroot Hin) as (d & Habove).
    exists d, p. rewrite <- Hpk. repeat split; assumption. }
  apply Forall2_mapped. intros r _. apply Hrow.
Qed.

Lemma rebuild_leaves_unreachable_rows_witness :
  exists st',
    rebuild sequential_opts sample_uuid4 None cyclic_store = (st', Ok tt) /\
    Forall2 (fun r r' =>
               (exists d root, In root (rows cyclic_store) /\ parent root = None /\
                               above (rows cyclic_store) d (pk r) (pk root)) \/
               r' = r) (rows cyclic_store) (rows st').
Proof.
  apply (rebuild_leaves_unreachable_rows sequential_opts sample_uuid4 cyclic_store).
  cbn. repeat constructor; cbn; intuition discriminate.
Defined.

(** ** Rebuilding one tree *)

Lemma filtered_children_keyed (opts : mptt_meta) (tid : Z) (rs : list node)
  (k : option Z) (x : node) :
  In x (dict_get (_get_children opts (Some tid) rs) k) -> In x rs /\ parent x = k.
Proof.
  destruct k as [k|]; [|contradiction].
  unfold dict_get, _get_children. rewrite get_children_fold. cbn [app].
  intros H. apply filter_In in H. destruct H as [H Hpar].
  apply (Permutation_in _ (order_by_perm _ _)) in H.
  apply filter_In in H. split; [exact (proj1 H) | apply opt_eqb_eq, Hpar].
Qed.

Lemma filtered_parents_roots (opts : mptt_meta) (tid : Z) (rs : list node) (p : node) :
  In p (_get_parents opts (Some tid) rs) -> In p rs /\ parent p = None.
Proof.
  unfold _get_parents. intros H.
  apply (Permutation_in _ (order_by_perm _ _)) in H.
  apply filter_In in H. destruct H as [Hin Hm]. split; [exact Hin|].
  apply andb_true_iff in Hm. apply is_root_node_spec. exact (proj1 Hm).
Qed.

(** On a table with distinct keys, a rebuild filtered to one tree id
    returns. *)
Lemma filtered_rebuild_returns (opts : mptt_meta) (uuid4 : nat -> Z) (tid : Z)
  (st : store) :
  NoDup (map pk (rows st)) ->
  exists st', rebuild opts uuid4 (Some tid) st = (st', Ok tt).
Proof.
  intros Hnd. unfold rebuild, bind at 1, log, modify. unfold bind at 1, get.
  cbn [rows with_journal]. unfold bind.
  rewrite rebuild_roots_run.
  - eexists. reflexivity.
  - intros p t Hp. apply filtered_parents_roots in Hp. destruct Hp as [Hprs Hroot].
    destruct (helper_total (rows st) Hnd (_get_children opts (Some tid) (rows st))
                (filtered_children_keyed opts tid (rows st)) p 1 t 0 Hprs Hroot)
      as (us & ret & Hrun).
    rewrite Hrun. discriminate.
Qed.

Lemma count_in_run (a tid : Z) (n : nat) :
  forall s,
    List.length (filter (fun x => x =? tid)
                   (map (fun i => a + Z.of_nat i) (seq s n)))
    = if (a + Z.of_nat s <=? tid) && (tid <? a + Z.of_nat s + Z.of_nat n)
      then 1%nat else 0%nat.
Proof.
  induction n as [|n IH]; intros s; cbn [seq map filter].
  - destruct (a + Z.of_nat s <=? tid) eqn:E1; cbn [andb]; [|reflexivity].
    replace (tid <? a + Z.of_nat s + Z.of_nat 0) with false; [reflexivity|].
    symmetry. apply Z.ltb_ge. apply Z.leb_le in E1. lia.
  - destruct (a + Z.of_nat s =? tid) eqn:E.
    + apply Z.eqb_eq in E. cbn [List.length]. rewrite IH.
      replace (a + Z.of_nat (S s) <=? tid) with false
        by (symmetry; apply Z.leb_gt; lia).
      replace (a + Z.of_nat s <=? tid) with true by (symmetry; apply Z.leb_le; lia).
      replace (tid <? a + Z.of_nat s + Z.of_nat (S n)) with true
        by (symmetry; apply Z.ltb_lt; lia).
      reflexivity.
    + apply Z.eqb_neq in E. rewrite IH.
      destruct (a + Z.of_nat s <=? tid) eqn:E1, (a + Z.of_nat (S s) <=? tid) eqn:E2;
        cbn [andb];
        try apply Z.leb_le in E1; try apply Z.leb_gt in E1;
        try apply Z.leb_le in E2; try apply Z.leb_gt in E2; try lia; try reflexivity.
      replace (tid <? a + Z.of_nat (S s) + Z.of_nat n)
        with (tid <? a + Z.of_nat s + Z.of_nat (S n)) by (f_equal; lia).
      reflexivity.
Qed.

Lemma filter_length_perm {A : Type} (q : A -> bool) (l1 l2 : list A) :
  Permutation l1 l2 -> List.length (filter q l1) = List.length (filter q l2).
Proof.
  induction 1 as [|x l1 l2 _ IH|x y l|l1 l2 l3 _ IH1 _ IH2]; cbn.
  - reflexivity.
  - destruct (q x); cbn; rewrite IH; reflexivity.
  - destruct (q x), (q y); reflexivity.
  - rewrite IH1. exact IH2.
Qed.

Lemma filter_roots_mapped (f : node -> node) (q : node -> bool) (l : list node) :
  (forall r, parent (f r) = parent r) ->
  List.length (filter (fun r => is_root_node r && q r) (map f l))
  = List.length (filter (fun r => q (f r)) (filter is_root_node l)).
Proof.
  intros Hf. induction l as [|r l IH]; [reflexivity|]. cbn [map filter].
  unfold is_root_node at 1. rewrite Hf. fold (is_root_node r).
  destruct (is_root_node r); cbn [andb filter]; [|exact IH].
  destruct (q (f r)); cbn [List.length]; rewrite IH; reflexivity.
Qed.

Lemma filter_length_map {A B : Type} (f : A -> B) (q : B -> bool) (l : list A) :
  List.length (filter (fun x => q (f x)) l) = List.length (filter q (map f l)).
Proof.
  induction l as [|x l IH]; [reflexivity|]. cbn [map filter].
  destruct (q (f x)); cbn [List.length]; rewrite IH; reflexivity.
Qed.

(** After a full rebuild with root ordering on, the roots carry the tree
    ids 1, 2, ... in query order. *)
Lemma rebuilt_root_count (opts : mptt_meta) (uuid4 : nat -> Z) (st : store) (tid : Z) :
  root_node_ordering opts = true ->
  NoDup (map pk (rows st)) ->
  let U := rebuild_objects opts uuid4 st in
  List.length (filter (fun r => is_root_node r && (tree_id r =? tid))
                 (map (write_fields U) (rows st)))
  = if (1 <=? tid) && (tid <=? Z.of_nat (List.length (filter is_root_node (rows st))))
    then 1%nat else 0%nat.
Proof.
  intros Hro Hnd U.
  set (ps := _get_parents opts None (rows st)).
  set (ts := root_tids opts uuid4 1 0 (uuid_draws st) (List.length ps)).
  assert (Hlen : List.length ts = List.length ps) by apply root_tids_length.
  transitivity (List.length (filter (fun r => tree_id (write_fields U r) =? tid)
                               (filter is_root_node (rows st)))).
  { apply (filter_roots_mapped (write_fields U) (fun r => tree_id r =? tid)).
    intros r. apply write_fields_parent. }
  rewrite (filter_length_perm _ _ ps)
    by (apply Permutation_sym, parents_perm).
  rewrite <- (Permutation_length (parents_perm opts (rows st))). fold ps.
  transitivity (List.length (filter (fun x => x =? tid)
                               (map tree_id (map (write_fields U) ps)))).
  { rewrite map_map.
    apply (filter_length_map (fun x => tree_id (write_fields U x)) (fun x => x =? tid)). }
  destruct (collected_roots opts (rows st) Hnd ps ts Hlen
              (parents_all_roots opts (rows st)))
    as (es & Hpk & Hincl & Htid).
  destruct (written_by opts (rows st) Hnd ts es ps Hpk Hincl) as [_ Hw].
  fold ps in Hw. unfold U, rebuild_objects. fold ps ts. rewrite Hw, Htid.
  unfold ts, root_tids. rewrite Hro.
  rewrite (map_ext _ (fun i => 1 + Z.of_nat i)) by (intros i; lia).
  rewrite count_in_run. cbn [Z.of_nat].
  replace (1 + 0 <=? tid) with (1 <=? tid) by reflexivity.
  replace (tid <? 1 + 0 + Z.of_nat (List.length ps))
    with (tid <=? Z.of_nat (List.length ps)); [reflexivity|].
  destruct (tid <=? Z.of_nat (List.length ps)) eqn:E; symmetry;
    [apply Z.leb_le in E; apply Z.ltb_lt | apply Z.leb_gt in E; apply Z.ltb_ge]; lia.
Qed.

(** X13. With root ordering on, a full rebuild of a table with distinct
    keys leaves exactly one root on each of the tree ids 1 .. n, where n
    is the number of parentless rows, and none on any other; whatever
    tree id [partial_rebuild] is then given, it returns without
    raising. *)
Theorem rebuild_numbers_roots (opts : mptt_meta) (uuid4 : nat -> Z) (st : store) :
  root_node_ordering opts = true ->
  NoDup (map pk (rows st)) ->
  exists st',
    rebuild opts uuid4 None st = (st', Ok tt) /\
    (forall tid,
        roots_of_tree tid st'
        = if (1 <=? tid) &&
             (tid <=? Z.of_nat (List.length (filter is_root_node (rows st))))
          then 1%nat else 0%nat) /\
    (forall tid, exists st2, partial_rebuild opts uuid4 tid st' = (st2, Ok tt)).
Proof.
  intros Hro Hnd. eexists. split; [apply rebuild_run; exact Hnd|].
  assert (Hcount : forall tid,
             roots_of_tree tid
               (rebuilt opts (rebuild_objects opts uuid4 st)
                  (List.length (_get_parents opts None (rows st))) st)
             = if (1 <=? tid) &&
                  (tid <=? Z.of_nat (List.length (filter is_root_node (rows st))))
               then 1%nat else 0%nat).
  { intros tid. unfold roots_of_tree. cbn [rows rebuilt].
    apply rebuilt_root_count; assumption. }
  split; [exact Hcount|].
  intros tid. specialize (Hcount tid).
  unfold partial_rebuild, bind, log, modify, get. cbn [rows with_journal rebuilt].
  unfold roots_of_tree in Hcount. cbn [rows rebuilt] in Hcount. rewrite Hcount.
  destruct ((1 <=? tid) && _); cbn [Nat.eqb].
  - apply filtered_rebuild_returns. cbn [rows with_journal rebuilt].
    rewrite map_map. rewrite (map_ext _ pk) by (intros r; apply write_fields_pk).
    exact Hnd.
  - eexists. reflexivity.
Qed.

Lemma rebuild_numbers_roots_witness :
  exists st',
    rebuild sequential_opts sample_uuid4 None scenario_store = (st', Ok tt) /\
    (forall tid,
        roots_of_tree tid st'
        = if (1 <=? tid) &&
             (tid <=? Z.of_nat (List.length (filter is_root_node (rows scenario_store))))
          then 1%nat else 0%nat) /\
    (forall tid, exists st2,
        partial_rebuild sequential_opts sample_uuid4 tid st' = (st2, Ok tt)).
Proof.
  apply (rebuild_numbers_roots sequential_opts sample_uuid4 scenario_store).
  - reflexivity.
  - cbn. repeat constructor; cbn; intuition discriminate.
Defined.

(** ** Moving a subtree inside its tree *)

Lemma rotate_injective (left right new_left x y : Z) :
  left <= right ->
  rotate left right new_left x = rotate left right new_left y -> x = y.
Proof.
  intros Hlr. unfold rotate, between.
  destruct (new_left - left >? 0) eqn:Ec; rewrite Z.gtb_ltb in Ec;
    [apply Z.ltb_lt in Ec | apply Z.ltb_ge in Ec];
    repeat match goal with
           | |- context [?a <=? ?b] =>
               let E := fresh "E" in
               destruct (a <=? b) eqn:E;
               [apply Z.leb_le in E | apply Z.leb_gt in E]
           end; cbn [andb]; lia.
Qed.

Lemma rotate_outside (left right new_left x : Z) :
  left <= right ->
  x < Z.min left new_left \/ Z.max right (new_left + (right - left + 1) - 1) < x ->
  rotate left right new_left x = x.
Proof.
  intros Hlr Hx. unfold rotate, between.
  repeat match goal with
         | |- context [?a <=? ?b] =>
             let E := fresh "E" in
             destruct (a <=? b) eqn:E;
             [apply Z.leb_le in E | apply Z.leb_gt in E]
         end; cbn [andb]; lia.
Qed.

Lemma rotate_block (left right new_left x : Z) :
  left <= x <= right -> rotate left right new_left x = x + (new_left - left).
Proof.
  intros Hx. unfold rotate, between.
  replace (left <=? x) with true by (symmetry; apply Z.leb_le; lia).
  replace (x <=? right) with true by (symmetry; apply Z.leb_le; lia).
  reflexivity.
Qed.

Lemma rotate_stays_inside (left right new_left x : Z) :
  left <= right ->
  Z.min left new_left <= x <= Z.max right (new_left + (right - left + 1) - 1) ->
  Z.min left new_left <= rotate left right new_left x
  <= Z.max right (new_left + (right - left + 1) - 1).
Proof.
  intros Hlr Hx. unfold rotate, between.
  destruct (new_left - left >? 0) eqn:Ec; rewrite Z.gtb_ltb in Ec;
    [apply Z.ltb_lt in Ec | apply Z.ltb_ge in Ec];
    repeat match goal with
           | |- context [?a <=? ?b] =>
               let E := fresh "E" in
               destruct (a <=? b) eqn:E;
               [apply Z.leb_le in E | apply Z.leb_gt in E]
           end; cbn [andb]; lia.
Qed.

(** [_move_child_within_tree], when it returns: one subtree query through
    [rotate], and the node at its new place. *)
Lemma move_child_within_tree_ok (nd : node) (target : inst) (position : string)
  (st st' : store) (n : node) :
  _move_child_within_tree nd target position st = (st', Ok n) ->
  exists new_left level_change,
    lft n = new_left /\ rght n = new_left + (rght nd - lft nd + 1) - 1 /\
    level n = level nd - level_change /\
    pk n = pk nd /\ tree_id n = tree_id nd /\ okey n = okey nd /\
    st' = with_rows
            (map (fun r =>
                    if tree_id r =? tree_id nd
                    then mkNode (pk r) (parent r)
                           (rotate (lft nd) (rght nd) new_left (lft r))
                           (rotate (lft nd) (rght nd) new_left (rght r))
                           (if between (lft nd) (rght nd) (lft r)
                            then level r - level_change else level r)
                           (tree_id r) (okey r)
                    else r) (rows st)) st.
Proof.
  unfold _move_child_within_tree. intros H.
  apply bind_ok in H. destruct H as (s1 & [[[nl nr] lc] par] & Hvals & H).
  assert (Hv : s1 = st /\ nr = nl + (rght nd - lft nd + 1) - 1).
  { clear H. unfold is_child_position, is_sibling_position in Hvals.
    destruct (eqs position "last-child" || eqs position "first-child").
    - destruct (node_eqb nd (fields target)); [discriminate|].
      destruct ((lft nd <? lft (fields target)) && (lft (fields target) <? rght nd));
        [discriminate|].
      destruct (eqs position "last-child");
        [destruct (rght (fields target) >? rght nd)
        |destruct (lft (fields target) >? lft nd)];
        unfold ret in Hvals; inversion Hvals; subst; split; try reflexivity; lia.
    - destruct (eqs position "left" || eqs position "right"); [|discriminate].
      destruct (node_eqb nd (fields target)); [discriminate|].
      destruct ((lft nd <? lft (fields target)) && (lft (fields target) <? rght nd));
        [discriminate|].
      destruct (eqs position "left");
        [destruct (lft (fields target) >? lft nd)
        |destruct (rght (fields target) >? rght nd)];
        apply bind_ok in Hvals; destruct Hvals as (s2 & q & Hq & Hvals);
        apply get_parent_ok in Hq; subst s2;
        unfold ret in Hvals; inversion Hvals; subst; split; try reflexivity; lia. }
  destruct Hv as [-> ->].
  apply bind_ok in H. destruct H as (s2 & [] & Hexec & H).
  apply bind_ok in H. destruct H as (s3 & ppk & Hppk & H).
  assert (s3 = s2) by (destruct par; cbn in Hppk; inversion Hppk; reflexivity).
  subst s3. unfold ret in H. inversion H; subst st' n. clear H.
  exists nl, lc. cbn [lft rght level pk tree_id okey set_parent set_level set_rght set_lft].
  repeat split; try reflexivity.
  unfold execute, modify in Hexec. inversion Hexec; subst s2. clear Hexec.
  reflexivity.
Qed.

(** X14. When [_move_child_within_tree] returns for a node whose left is
    not above its right, it has sent every left and right of the node's
    tree through one map that never brings two positions together,
    carries the node's interval as a block to the node's new place, and
    leaves every position outside the span of the old and the new place
    alone.  Rows whose left was in the node's interval change level with
    the node; keys, parents, tree ids and ordering values stay, and so
    does every row of another tree.  The node returned has its old width
    and sits where the map sends its old left and right. *)
Theorem move_child_within_tree_rotates (nd : node) (target : inst)
  (position : string) (st st' : store) (n : node) :
  lft nd <= rght nd ->
  _move_child_within_tree nd target position st = (st', Ok n) ->
  let pi := rotate (lft nd) (rght nd) (lft n) in
  (forall x y, pi x = pi y -> x = y) /\
  (forall x, lft nd <= x <= rght nd -> pi x = x + (lft n - lft nd)) /\
  (forall x, x < Z.min (lft nd) (lft n) \/ Z.max (rght nd) (rght n) < x -> pi x = x) /\
  lft n = pi (lft nd) /\ rght n = pi (rght nd) /\
  Forall2 (fun r r' =>
             pk r' = pk r /\ parent r' = parent r /\
             tree_id r' = tree_id r /\ okey r' = okey r /\
             if tree_id r =? tree_id nd
             then lft r' = pi (lft r) /\ rght r' = pi (rght r) /\
                  level r' = (if between (lft nd) (rght nd) (lft r)
                              then level r + (level n - level nd) else level r)
             else r' = r) (rows st) (rows st').
Proof.
  intros Hlr H. cbn zeta.
  destruct (move_child_within_tree_ok nd target position st st' n H)
    as (nl & lc & Hl & Hr & Hlv & _ & _ & _ & ->).
  subst nl. split; [|split; [|split; [|split; [|split]]]].
  - intros x y. apply rotate_injective. exact Hlr.
  - intros x Hx. apply rotate_block. exact Hx.
  - intros x Hx. apply rotate_outside; [exact Hlr|]. rewrite <- Hr. exact Hx.
  - rewrite rotate_block by lia. lia.
  - rewrite rotate_block by lia. lia.
  - cbn [rows with_rows]. apply Forall2_mapped. intros r _.
    destruct (tree_id r =? tree_id nd); cbn; repeat split.
    destruct (between (lft nd) (rght nd) (lft r)); lia.
Qed.

Lemma move_child_within_tree_rotates_witness :
  let pi := rotate 2 3 4 in
  (forall x y, pi x = pi y -> x = y) /\
  (forall x, 2 <= x <= 3 -> pi x = x + (4 - 2)) /\
  (forall x, x < Z.min 2 4 \/ Z.max 3 5 < x -> pi x = x) /\
  4 = pi 2 /\ 5 = pi 3 /\
  Forall2 (fun r r' =>
             pk r' = pk r /\ parent r' = parent r /\
             tree_id r' = tree_id r /\ okey r' = okey r /\
             if tree_id r =? 1
             then lft r' = pi (lft r) /\ rght r' = pi (rght r) /\
                  level r' = (if between 2 3 (lft r)
                              then level r + (1 - 1) else level r)
             else r' = r)
          (rows scenario_store)
          [node_A; mkNode (Some 2) (Some 1) 4 5 1 1 0;
           mkNode (Some 3) (Some 1) 2 3 1 1 0; node_D].
Proof.
  apply (move_child_within_tree_rotates node_B (Inst node_C []) "right" scenario_store
           (with_rows [node_A; mkNode (Some 2) (Some 1) 4 5 1 1 0;
                       mkNode (Some 3) (Some 1) 2 3 1 1 0; node_D] scenario_store)
           (mkNode (Some 2) (Some 1) 4 5 1 1 0)).
  - cbn. lia.
  - reflexivity.
Defined.

(** ** The moved instance and its row *)

Lemma between_true (lo hi x : Z) : lo <= x <= hi -> between lo hi x = true.
Proof.
  intros H. unfold between. apply andb_true_iff.
  split; apply Z.leb_le; lia.
Qed.

Lemma next_tree_id_rows (opts : mptt_meta) (st s1 : store) (r : result Z) :
  _get_next_tree_id opts st = (s1, r) -> rows s1 = rows st.
Proof.
  unfold _get_next_tree_id, bind, get, ret.
  destruct (negb (root_node_ordering opts)); intros H; inversion H; reflexivity.
Qed.

Lemma reflects_after (nd n : node) (st s1 st' : store) :
  rows s1 = rows st -> reflects nd n s1 st' -> reflects nd n st st'.
Proof.
  intros Hrows (f & Hf & Hrest). exists f. rewrite <- Hrows. split; assumption.
Qed.

Lemma make_child_root_reflects (opts : mptt_meta) (nd : node) (new_tree_id : option Z)
  (st st' : store) (n : node) :
  lft nd <= rght nd ->
  _make_child_root_node opts nd new_tree_id st = (st', Ok n) ->
  reflects nd n st st'.
Proof.
  intros Hlr H. unfold _make_child_root_node in H.
  apply bind_ok in H. destruct H as (s1 & t & Hid & H).
  assert (Hrows : rows s1 = rows st).
  { destruct new_tree_id as [t0|]; [destruct (t0 =? 0)|];
      try (eapply next_tree_id_rows; exact Hid);
      unfold ret in Hid; inversion Hid; reflexivity. }
  apply reflects_after with (s1 := s1); [exact Hrows|].
  apply bind_ok in H. destruct H as (s2 & [] & Hexec & H).
  unfold ret in H. inversion H; subst st' n. clear H.
  unfold _inter_tree_move_and_close_gap, execute, modify in Hexec.
  inversion Hexec; subst s2. clear Hexec.
  eexists. split; [reflexivity|]. unfold clean_tree_ids.
  split; [intros r; destruct (tree_id r =? tree_id nd); reflexivity|].
  rewrite Z.eqb_refl. rewrite !between_true by lia. cbn. repeat split; lia.
Qed.

Lemma move_child_within_tree_reflects (nd : node) (target : inst) (position : string)
  (st st' : store) (n : node) :
  lft nd <= rght nd ->
  _move_child_within_tree nd target position st = (st', Ok n) ->
  reflects nd n st st'.
Proof.
  intros Hlr H.
  destruct (move_child_within_tree_ok nd target position st st' n H)
    as (nl & lc & Hl & Hr & Hlv & Hpk & Ht & _ & ->).
  eexists. split; [reflexivity|].
  split; [intros r; destruct (tree_id r =? tree_id nd); reflexivity|].
  rewrite Z.eqb_refl. cbn. rewrite !rotate_block by lia.
  rewrite between_true by lia. repeat split; try assumption; lia.
Qed.

Lemma manage_space_rows (size target tid : Z) (st st' : store) (r : result unit) :
  mptt_is_tracking st = false ->
  _manage_space size target tid st = (st', r) ->
  mptt_is_tracking st' = false /\
  rows st' = map (fun r => if tree_id r =? tid
                           then set_rght (shift_above size target (rght r))
                                  (set_lft (shift_above size target (lft r)) r)
                           else r) (rows st).
Proof.
  intros Htr H. rewrite (manage_space_run size target tid st Htr) in H.
  inversion H; subst. split; [exact Htr | reflexivity].
Qed.

Lemma move_child_to_new_tree_reflects (nd : node) (target : inst) (position : string)
  (st st' : store) (n : node) :
  mptt_is_tracking st = false ->
  lft nd <= rght nd ->
  tree_id nd <> tree_id (fields target) ->
  _move_child_to_new_tree nd target position st = (st', Ok n) ->
  reflects nd n st st'.
Proof.
  intros Htr Hlr Hne H. unfold _move_child_to_new_tree in H.
  apply bind_ok in H. destruct H as (s1 & [[[[sp lc] lrc] par] nr] & Hcalc & H).
  apply calculate_values_ok in Hcalc. destruct Hcalc as (-> & _).
  apply bind_ok in H. destruct H as (s2 & [] & Hspace & H).
  apply (manage_space_rows _ _ _ _ _ _ Htr) in Hspace. destruct Hspace as [_ Hrows2].
  apply bind_ok in H. destruct H as (s3 & [] & Hexec & H).
  apply bind_ok in H. destruct H as (s4 & ppk & Hppk & H).
  assert (s4 = s3) by (destruct par; cbn in Hppk; inversion Hppk; reflexivity).
  subst s4. unfold ret in H. inversion H; subst st' n. clear H.
  unfold _inter_tree_move_and_close_gap, execute, modify in Hexec.
  inversion Hexec; subst s3. clear Hexec.
  cbn [rows with_rows]. unfold sql_update. rewrite Hrows2, map_map.
  eexists. split; [reflexivity|]. unfold clean_tree_ids. split.
  - intros r. destruct (tree_id r =? tree_id (fields target)); cbn;
      match goal with |- context [if ?b then _ else _] => destruct b end; reflexivity.
  - replace (tree_id nd =? tree_id (fields target)) with false
      by (symmetry; apply Z.eqb_neq; exact Hne).
    rewrite Z.eqb_refl. rewrite !between_true by lia. cbn. repeat split; lia.
Qed.

Lemma move_root_reflects (nd : node) (target : inst) (position : string)
  (st st' : store) (n : node) :
  mptt_is_tracking st = false ->
  lft nd <= rght nd ->
  _move_root_node nd target position st = (st', Ok n) ->
  reflects nd n st st'.
Proof.
  intros Htr Hlr H. unfold _move_root_node in H.
  destruct (node_eqb nd (fields target)); [discriminate|].
  destruct (tree_id nd =? tree_id (fields target)) eqn:Et; [discriminate|].
  apply bind_ok in H. destruct H as (s1 & [[[[sp lc] lrc] par] rsh] & Hcalc & H).
  apply calculate_values_ok in Hcalc. destruct Hcalc as (-> & _).
  apply bind_ok in H. destruct H as (s2 & [] & Hspace & H).
  apply (manage_space_rows _ _ _ _ _ _ Htr) in Hspace. destruct Hspace as [_ Hrows2].
  apply bind_ok in H. destruct H as (s3 & [] & Hexec & H).
  apply bind_ok in H. destruct H as (s4 & ppk & Hppk & H).
  assert (s4 = s3) by (destruct par; cbn in Hppk; inversion Hppk; reflexivity).
  subst s4. unfold ret in H. inversion H; subst st' n. clear H.
  unfold execute, modify in Hexec. inversion Hexec; subst s3. clear Hexec.
  cbn [rows with_rows]. unfold sql_update. rewrite Hrows2, map_map.
  eexists. split; [reflexivity|]. unfold clean_tree_ids. split.
  - intros r. destruct (tree_id r =? tree_id (fields target)); cbn;
      match goal with |- context [if ?b then _ else _] => destruct b end; reflexivity.
  - rewrite Et. rewrite Z.eqb_refl. rewrite between_true by lia. cbn.
    repeat split; lia.
Qed.

Lemma pick_max_from (key : node -> Z) (l : list node) :
  forall b s,
    fold_left (fun acc r => match acc with
                            | None => Some r
                            | Some b => if key r >? key b then Some r else Some b
                            end) l (Some b) = Some s ->
    key b <= key s /\ forall x, In x l -> key x <= key s.
Proof.
  induction l as [|r l IH]; intros b s H; cbn in H.
  - inversion H; subst. split; [lia | intros x []].
  - destruct (key r >? key b) eqn:E; rewrite Z.gtb_ltb in E;
      [apply Z.ltb_lt in E | apply Z.ltb_ge in E];
      apply IH in H; destruct H as [Hb Hall]; (split; [lia|]);
      intros x [<- | Hx]; try lia; apply Hall, Hx.
Qed.

Lemma pick_max_bound (key : node -> Z) (l : list node) (s : node) :
  pick_max key l = Some s -> forall x, In x l -> key x <= key s.
Proof.
  unfold pick_max. destruct l as [|r l]; [discriminate|]. cbn [fold_left].
  intros H. apply pick_max_from in H. destruct H as [Hb Hall].
  intros x [<- | Hx]; [exact Hb | apply Hall, Hx].
Qed.

Lemma pick_min_from (key : node -> Z) (l : list node) :
  forall b s,
    fold_left (fun acc r => match acc with
                            | None => Some r
                            | Some b => if key r <? key b then Some r else Some b
                            end) l (Some b) = Some s ->
    key s <= key b /\ forall x, In x l -> key s <= key x.
Proof.
  induction l as [|r l IH]; intros b s H; cbn in H.
  - inversion H; subst. split; [lia | intros x []].
  - destruct (key r <? key b) eqn:E;
      [apply Z.ltb_lt in E | apply Z.ltb_ge in E];
      apply IH in H; destruct H as [Hb Hall]; (split; [lia|]);
      intros x [<- | Hx]; try lia; apply Hall, Hx.
Qed.

Lemma pick_min_bound (key : node -> Z) (l : list node) (s : node) :
  pick_min key l = Some s -> forall x, In x l -> key s <= key x.
Proof.
  unfold pick_min. destruct l as [|r l]; [discriminate|]. cbn [fold_left].
  intros H. apply pick_min_from in H. destruct H as [Hb Hall].
  intros x [<- | Hx]; [exact Hb | apply Hall, Hx].
Qed.

Lemma create_tree_space_rows (t n : Z) (st st' : store) (r : result unit) :
  _create_tree_space t n st = (st', r) ->
  mptt_is_tracking st' = mptt_is_tracking st /\
  rows st' = map (fun r => if tree_id r >? t then set_tree_id (tree_id r + n) r else r)
                 (rows st).
Proof.
  unfold _create_tree_space, bind, execute, modify, _mptt_track_tree_insertions.
  cbn [mptt_is_tracking with_rows]. intros H. inversion H; subst. clear H.
  destruct (mptt_is_tracking st) eqn:E; cbn; rewrite ?E; split; reflexivity.
Qed.

Lemma reflects_same (nd : node) (st : store) : reflects nd nd st st.
Proof.
  exists (fun r => r). rewrite map_id. repeat split.
Qed.

Lemma make_sibling_of_root_reflects (opts : mptt_meta) (nd : node) (target : inst)
  (position : string) (st st' : store) (n : node) :
  lft nd <= rght nd ->
  In nd (rows st) ->
  (is_root_node nd = true -> tree_id nd <> tree_id (fields target)) ->
  _make_sibling_of_root_node opts nd target position st = (st', Ok n) ->
  reflects nd n st st'.
Proof.
  intros Hlr Hin Hne' H. unfold _make_sibling_of_root_node in H.
  destruct (node_eqb nd (fields target)); [discriminate|].
  destruct (is_child_node nd) eqn:Echild.
  - apply bind_ok in H. destruct H as (s1 & [sp new_tid] & Hsp & H).
    assert (s1 = st).
    { destruct (eqs position "left"); [|destruct (eqs position "right")];
        unfold ret in Hsp; inversion Hsp; reflexivity. }
    subst s1. clear Hsp.
    apply bind_ok in H. destruct H as (s2 & [] & Hspace & H).
    apply create_tree_space_rows in Hspace. destruct Hspace as [_ Hrows2].
    apply make_child_root_reflects in H;
      [|destruct (tree_id nd >? sp); cbn; exact Hlr].
    destruct H as (f & Hf & Hpk & Hpkn & Hl & Hr & Hlv & Ht).
    exists (fun r => f (if tree_id r >? sp then set_tree_id (tree_id r + 1) r else r)).
    rewrite Hf, Hrows2, map_map. split; [reflexivity|]. split.
    { intros r. rewrite Hpk. destruct (tree_id r >? sp); reflexivity. }
    split; [rewrite Hpkn; destruct (tree_id nd >? sp); reflexivity|].
    repeat split; assumption.
  - assert (Hroot : is_root_node nd = true).
    { unfold is_child_node in Echild. destruct (is_root_node nd); [reflexivity|discriminate]. }
    pose proof (Hne' Hroot) as Hne.
    apply bind_ok in H. destruct H as (s1 & plan & Hplan & H).
    assert (Hp : s1 = st /\
                 match plan with
                 | None => True
                 | Some (_, lower, upper, _) => lower <= tree_id nd <= upper
                 end).
    { clear H. unfold get_previous_sibling, get_next_sibling in Hplan.
      destruct (eqs position "left").
      - destruct (tree_id (fields target) >? tree_id nd) eqn:Eg;
          rewrite Z.gtb_ltb in Eg;
          [apply Z.ltb_lt in Eg | apply Z.ltb_ge in Eg].
        + apply bind_ok in Hplan. destruct Hplan as (s2 & sib & Hsib & Hplan).
          apply bind_ok in Hsib. destruct Hsib as (s3 & st0 & Hget & Hsib).
          unfold get in Hget. inversion Hget; subst s3 st0. clear Hget.
          unfold ret in Hsib. inversion Hsib; subst s2 sib. clear Hsib.
          destruct (pick_max tree_id _) as [s|] eqn:Epick; [|discriminate].
          destruct (node_eqb nd s); unfold ret in Hplan; inversion Hplan; subst;
            (split; [reflexivity|]); [exact I|].
          split; [lia|]. apply (pick_max_bound _ _ _ Epick nd).
          apply filter_In. split; [exact Hin|]. rewrite Hroot. cbn [andb].
          apply Z.ltb_lt. exact Eg.
        + unfold ret in Hplan. inversion Hplan; subst. split; [reflexivity | lia].
      - destruct (eqs position "right"); [|discriminate].
        destruct (tree_id (fields target) >? tree_id nd) eqn:Eg;
          rewrite Z.gtb_ltb in Eg;
          [apply Z.ltb_lt in Eg | apply Z.ltb_ge in Eg].
        + unfold ret in Hplan. inversion Hplan; subst. split; [reflexivity | lia].
        + apply bind_ok in Hplan. destruct Hplan as (s2 & sib & Hsib & Hplan).
          apply bind_ok in Hsib. destruct Hsib as (s3 & st0 & Hget & Hsib).
          unfold get in Hget. inversion Hget; subst s3 st0. clear Hget.
          unfold ret in Hsib. inversion Hsib; subst s2 sib. clear Hsib.
          destruct (pick_min tree_id _) as [s|] eqn:Epick; [|discriminate].
          destruct (node_eqb nd s); unfold ret in Hplan; inversion Hplan; subst;
            (split; [reflexivity|]); [exact I|].
          split; [|lia]. apply (pick_min_bound _ _ _ Epick nd).
          apply filter_In. split; [exact Hin|]. rewrite Hroot. cbn [andb].
          rewrite Z.gtb_ltb. apply Z.ltb_lt. lia. }
    destruct Hp as [-> Hbounds].
    destruct plan as [[[[new_tid lower] upper] shift]|].
    + apply bind_ok in H. destruct H as (s2 & [] & Hexec & H).
      unfold ret in H. inversion H; subst st' n. clear H.
      unfold execute, modify in Hexec. inversion Hexec; subst s2. clear Hexec.
      eexists. split; [reflexivity|]. unfold clean_tree_ids. split.
      { intros r. destruct (between lower upper (tree_id r)); reflexivity. }
      rewrite between_true by exact Hbounds. rewrite Z.eqb_refl. cbn. repeat split.
    + unfold ret in H. inversion H; subst st' n. apply reflects_same.
Qed.

(** X15. Outside a tracking scope, take a node that is in the table as
    the instance holds it, with its left not above its right, and that is
    not a root moved next to a root carrying its own tree id.  When
    [_move_node] returns, every row has kept its key, and the row of the
    node has the left, right, level and tree id the returned instance
    holds: the instance reflects its new state in the database, whichever
    of the five move procedures ran. *)
Theorem move_node_reflects_database (opts : mptt_meta) (nd : node)
  (target : option inst) (position : string) (save refresh_target : bool)
  (st st' : store) (n : node) (ups : list node) :
  mptt_is_tracking st = false ->
  lft nd <= rght nd ->
  In nd (rows st) ->
  (forall t, target = Some t -> is_root_node nd = true ->
             is_root_node (fields t) = true -> tree_id nd <> tree_id (fields t)) ->
  _move_node opts nd target position save refresh_target st = (st', Ok (n, ups)) ->
  pk n = pk nd /\
  map pk (rows st') = map pk (rows st) /\
  exists r, In r (rows st') /\ pk r = pk nd /\
            lft r = lft n /\ rght r = rght n /\
            level r = level n /\ tree_id r = tree_id n.
Proof.
  intros Htr Hlr Hin Hroots H.
  assert (Href : reflects nd n st st').
  { unfold _move_node in H. apply bind_ok in H. destruct H as (s0 & st0 & Hget & H).
    unfold get in Hget. inversion Hget; subst s0 st0. clear Hget. rewrite Htr in H.
    apply bind_ok in H. destruct H as (s1 & n1 & Hmove & H).
    unfold ret in H. inversion H; subst s1 n1 ups. clear H.
    destruct target as [t|].
    - destruct (is_root_node (fields t) && is_sibling_position position) eqn:Ed.
      + apply andb_true_iff in Ed. destruct Ed as [Ert _].
        eapply make_sibling_of_root_reflects; eauto.
      + destruct (is_root_node nd).
        * eapply move_root_reflects; eauto.
        * unfold _move_child_node in Hmove.
          destruct (tree_id nd =? tree_id (fields t)) eqn:Et.
          -- eapply move_child_within_tree_reflects; eauto.
          -- apply Z.eqb_neq in Et. eapply move_child_to_new_tree_reflects; eauto.
    - destruct (is_child_node nd).
      + eapply make_child_root_reflects; eauto.
      + unfold ret in Hmove. inversion Hmove; subst. apply reflects_same. }
  destruct Href as (f & Hf & Hpk & Hpkn & Hl & Hr & Hlv & Ht).
  split; [exact Hpkn|]. split.
  - rewrite Hf, map_map. apply map_ext. exact Hpk.
  - exists (f nd). rewrite Hf. split; [apply in_map; exact Hin|].
    repeat split; auto.
Qed.

Lemma move_node_reflects_database_witness :
  pk (mkNode (Some 3) (Some 4) 2 3 1 2 0) = pk node_C /\
  map pk [mkNode (Some 1) None 1 4 0 1 0; mkNode (Some 2) (Some 1) 2 3 1 1 0;
          mkNode (Some 3) (Some 1) 2 3 1 2 0; mkNode (Some 4) None 1 4 0 2 0]
  = map pk (rows scenario_store) /\
  exists r, In r [mkNode (Some 1) None 1 4 0 1 0; mkNode (Some 2) (Some 1) 2 3 1 1 0;
                  mkNode (Some 3) (Some 1) 2 3 1 2 0; mkNode (Some 4) None 1 4 0 2 0] /\
            pk r = pk node_C /\
            lft r = 2 /\ rght r = 3 /\ level r = 1 /\ tree_id r = 2.
Proof.
  apply (move_node_reflects_database sequential_opts node_C (Some (Inst node_D []))
           "first-child" true true scenario_store
           (with_rows [mkNode (Some 1) None 1 4 0 1 0; mkNode (Some 2) (Some 1) 2 3 1 1 0;
                       mkNode (Some 3) (Some 1) 2 3 1 2 0; mkNode (Some 4) None 1 4 0 2 0]
              scenario_store)
           (mkNode (Some 3) (Some 4) 2 3 1 2 0) []).
  - reflexivity.
  - cbn. lia.
  - right. right. left. reflexivity.
  - intros t Ht Hroot. discriminate.
  - reflexivity.
Defined.

(** * Relatives of a queryset *)

Lemma groupby_concat (l : list node) : List.concat (groupby l) = l.
Proof.
  induction l as [|x l IH]; [reflexivity|]. cbn [groupby].
  destruct (groupby l) as [|[|y g] gs] eqn:E;
    [| |destruct (same_group x y)]; cbn in IH |- *; rewrite <- IH; reflexivity.
Qed.

Lemma groupby_uniform (l : list node) :
  Forall (fun g => forall a b, In a g -> In b g -> same_group a b = true) (groupby l).
Proof.
  assert (Hrefl : forall a, same_group a a = true).
  { intros a. unfold same_group. rewrite Z.eqb_refl. cbn.
    apply opt_eqb_eq. reflexivity. }
  assert (Hsym : forall a b, same_group a b = true -> same_group b a = true).
  { intros a b H. unfold same_group in *. apply andb_true_iff in H.
    destruct H as [Ht Hp]. apply Z.eqb_eq in Ht. apply opt_eqb_eq in Hp.
    rewrite Ht, Hp, Z.eqb_refl. cbn. apply opt_eqb_eq. reflexivity. }
  assert (Htrans : forall a b c, same_group a b = true -> same_group b c = true ->
                                 same_group a c = true).
  { intros a b c H1 H2. unfold same_group in *.
    apply andb_true_iff in H1, H2. destruct H1 as [Ht1 Hp1], H2 as [Ht2 Hp2].
    apply Z.eqb_eq in Ht1, Ht2. apply opt_eqb_eq in Hp1, Hp2.
    rewrite Ht1, Ht2, Hp1, Hp2, Z.eqb_refl. cbn. apply opt_eqb_eq. reflexivity. }
  induction l as [|x l IH]; [constructor|]. cbn [groupby].
  destruct (groupby l) as [|[|y g] gs] eqn:E.
  - constructor; [|constructor]. intros a b [<- | []] [<- | []]. apply Hrefl.
  - constructor; [|exact IH]. intros a b [<- | []] [<- | []]. apply Hrefl.
  - inversion IH as [|? ? Hg Hgs]; subst.
    destruct (same_group x y) eqn:Exy.
    + constructor; [|exact Hgs].
      assert (Hx : forall b, In b (y :: g) -> same_group x b = true).
      { intros b Hb. apply (Htrans x y b Exy). apply Hg; [left; reflexivity | exact Hb]. }
      intros a b [<- | Ha] [<- | Hb].
      * apply Hrefl.
      * apply Hx, Hb.
      * apply Hsym, Hx, Ha.
      * apply Hg; assumption.
    + constructor; [|exact IH]. intros a b [<- | []] [<- | []]. apply Hrefl.
Qed.

(** What the loop over a group keeps: the open range covers every node
    met since it was opened, the closed ones every node before, and their
    bounds are bounds of nodes met. *)
Lemma group_fold (dir : direction) (rest : list node) :
  forall filters tree mn mx next seen,
    (forall n, In n seen ->
       (exists c, In c filters /\ c_tree c = tree_id n /\
                  c_min c <= min_attr dir n /\ max_attr dir n <= c_max c) \/
       (mn <= min_attr dir n /\ max_attr dir n <= mx)) ->
    (forall c, In c filters ->
       exists a b, In a seen /\ In b seen /\ c_tree c = tree_id a /\
                   c_min c = min_attr dir a /\ c_max c = max_attr dir b) ->
    (exists a b, In a seen /\ In b seen /\
                 mn = min_attr dir a /\ mx = max_attr dir b) ->
    (exists a, In a seen /\ tree = tree_id a) ->
    (forall a b, In a (seen ++ rest) -> In b (seen ++ rest) -> tree_id a = tree_id b) ->
    let '(filters', tree', mn', mx', _) :=
      fold_left (group_step dir) rest (filters, tree, mn, mx, next) in
    (forall n, In n (seen ++ rest) ->
       exists c, In c (filters' ++ [mkClause tree' mn' mx']) /\
                 c_tree c = tree_id n /\
                 c_min c <= min_attr dir n /\ max_attr dir n <= c_max c) /\
    (forall c, In c (filters' ++ [mkClause tree' mn' mx']) ->
       exists a b, In a (seen ++ rest) /\ In b (seen ++ rest) /\
                   c_tree c = tree_id a /\
                   c_min c = min_attr dir a /\ c_max c = max_attr dir b).
Proof.
  induction rest as [|x rest IH]; intros filters tree mn mx next seen Hcov Hcl Hopen Htree Hsame.
  - cbn [fold_left]. rewrite app_nil_r in *. split.
    + intros n Hn. destruct (Hcov n Hn) as [(c & Hc & Hrest) | Hin].
      * exists c. split; [apply in_or_app; left; exact Hc | exact Hrest].
      * exists (mkClause tree mn mx). split; [apply in_or_app; right; left; reflexivity|].
        cbn. destruct Htree as (a & Ha & ->). split; [apply Hsame; assumption | exact Hin].
    + intros c Hc. apply in_app_or in Hc. destruct Hc as [Hc | [<- | []]].
      * apply Hcl, Hc.
      * destruct Hopen as (a & b & Ha & Hb & -> & ->), Htree as (t & Ht & ->).
        exists a, b. cbn. repeat split; try assumption. apply Hsame; assumption.
  - cbn [fold_left]. unfold group_step at 2.
    assert (Hseen : forall n, In n seen -> In n (seen ++ x :: rest))
      by (intros n Hn; apply in_or_app; left; exact Hn).
    assert (Hx : In x (seen ++ x :: rest))
      by (apply in_or_app; right; left; reflexivity).
    assert (Hmove : forall n, In n ((seen ++ [x]) ++ rest) <-> In n (seen ++ x :: rest)).
    { intros n. rewrite <- app_assoc. reflexivity. }
    destruct (lft x =? next).
    + specialize (IH filters (tree_id x)
                     (if min_attr dir x <? mn then min_attr dir x else mn)
                     (if max_attr dir x >? mx then max_attr dir x else mx)
                     (rght x + 1) (seen ++ [x])).
      match type of IH with
      | ?A -> ?B -> ?C -> ?D -> ?E -> _ =>
          assert (HA : A); [|assert (HB : B); [|assert (HC : C); [|assert (HD : D);
            [|assert (HE : E)]]]]
      end.
      * intros n Hn. apply in_app_or in Hn. destruct Hn as [Hn | [<- | []]].
        -- destruct (Hcov n Hn) as [Hc | [H1 H2]]; [left; exact Hc | right].
           destruct (min_attr dir x <? mn) eqn:E1, (max_attr dir x >? mx) eqn:E2;
             rewrite ?Z.gtb_ltb in E2;
             try apply Z.ltb_lt in E1; try apply Z.ltb_ge in E1;
             try apply Z.ltb_lt in E2; try apply Z.ltb_ge in E2; lia.
        -- right.
           destruct (min_attr dir x <? mn) eqn:E1, (max_attr dir x >? mx) eqn:E2;
             rewrite ?Z.gtb_ltb in E2;
             try apply Z.ltb_lt in E1; try apply Z.ltb_ge in E1;
             try apply Z.ltb_lt in E2; try apply Z.ltb_ge in E2; lia.
      * intros c Hc. destruct (Hcl c Hc) as (a & b & Ha & Hb & Hrest).
        exists a, b. split; [apply in_or_app; left; exact Ha|].
        split; [apply in_or_app; left; exact Hb | exact Hrest].
      * destruct Hopen as (a & b & Ha & Hb & Hmn & Hmx).
        exists (if min_attr dir x <? mn then x else a),
               (if max_attr dir x >? mx then x else b).
        destruct (min_attr dir x <? mn), (max_attr dir x >? mx);
          repeat split; try assumption; try reflexivity;
          apply in_or_app; (left; assumption) || (right; left; reflexivity).
      * exists x. split; [apply in_or_app; right; left; reflexivity | reflexivity].
      * intros a b Ha Hb. apply Hsame; apply Hmove; assumption.
      * specialize (IH HA HB HC HD HE).
        destruct (fold_left (group_step dir) rest _) as [[[[f' t'] mn'] mx'] nx'].
        destruct IH as [IH1 IH2]. split.
        -- intros n Hn. apply IH1, Hmove, Hn.
        -- intros c Hc. destruct (IH2 c Hc) as (a & b & Ha & Hb & Hrest).
           exists a, b. split; [apply Hmove, Ha|]. split; [apply Hmove, Hb | exact Hrest].
    + specialize (IH (filters ++ [mkClause (tree_id x) mn mx]) (tree_id x)
                     (min_attr dir x) (max_attr dir x) (rght x + 1) (seen ++ [x])).
      match type of IH with
      | ?A -> ?B -> ?C -> ?D -> ?E -> _ =>
          assert (HA : A); [|assert (HB : B); [|assert (HC : C); [|assert (HD : D);
            [|assert (HE : E)]]]]
      end.
      * intros n Hn. apply in_app_or in Hn. destruct Hn as [Hn | [<- | []]].
        -- left. destruct (Hcov n Hn) as [(c & Hc & Hrest) | Hin].
           ++ exists c. split; [apply in_or_app; left; exact Hc | exact Hrest].
           ++ exists (mkClause (tree_id x) mn mx).
              split; [apply in_or_app; right; left; reflexivity|]. cbn.
              split; [apply Hsame; [exact Hx | apply Hseen, Hn] | exact Hin].
        -- right. lia.
      * intros c Hc. apply in_app_or in Hc. destruct Hc as [Hc | [<- | []]].
        -- destruct (Hcl c Hc) as (a & b & Ha & Hb & Hrest).
           exists a, b. split; [apply in_or_app; left; exact Ha|].
           split; [apply in_or_app; left; exact Hb | exact Hrest].
        -- destruct Hopen as (a & b & Ha & Hb & -> & ->).
           exists a, b. cbn. split; [apply in_or_app; left; exact Ha|].
           split; [apply in_or_app; left; exact Hb|].
           repeat split. apply Hsame; [exact Hx | apply Hseen, Ha].
      * exists x, x. repeat split; apply in_or_app; right; left; reflexivity.
      * exists x. split; [apply in_or_app; right; left; reflexivity | reflexivity].
      * intros a b Ha Hb. apply Hsame; apply Hmove; assumption.
      * specialize (IH HA HB HC HD HE).
        destruct (fold_left (group_step dir) rest _) as [[[[f' t'] mn'] mx'] nx'].
        destruct IH as [IH1 IH2]. split.
        -- intros n Hn. apply IH1, Hmove, Hn.
        -- intros c Hc. destruct (IH2 c Hc) as (a & b & Ha & Hb & Hrest).
           exists a, b. split; [apply Hmove, Ha|]. split; [apply Hmove, Hb | exact Hrest].
Qed.

Lemma group_clauses_spec (dir : direction) (g : list node) :
  (forall a b, In a g -> In b g -> same_group a b = true) ->
  (forall n, In n g ->
     exists c, In c (group_clauses dir g) /\ c_tree c = tree_id n /\
               c_min c <= min_attr dir n /\ max_attr dir n <= c_max c) /\
  (forall c, In c (group_clauses dir g) ->
     exists a b, In a g /\ In b g /\ c_tree c = tree_id a /\
                 c_min c = min_attr dir a /\ c_max c = max_attr dir b).
Proof.
  intros Hsame. destruct g as [|first rest]; [split; [intros n [] | intros c []]|].
  unfold group_clauses.
  pose proof (group_fold dir rest [] (tree_id first) (min_attr dir first)
                (max_attr dir first) (rght first + 1) [first]) as H.
  cbn [app] in H.
  destruct (fold_left (group_step dir) rest _) as [[[[f' t'] mn'] mx'] nx'].
  apply H.
  - intros n [<- | []]. right. lia.
  - intros c [].
  - exists first, first. repeat split; left; reflexivity.
  - exists first. split; [left; reflexivity | reflexivity].
  - intros a b Ha Hb. specialize (Hsame a b Ha Hb). unfold same_group in Hsame.
    apply andb_true_iff in Hsame. apply Z.eqb_eq. exact (proj1 Hsame).
Qed.

(** The clauses built from a queryset: every node of the queryset is
    covered by a clause of its tree, and every clause is bounded by two
    nodes of the queryset that share tree and parent. *)
Lemma relatives_clauses (nulls_first : bool) (queryset : list node) (dir : direction) :
  let filters := flat_map (group_clauses dir)
                   (groupby (order_by (relatives_order nulls_first) queryset)) in
  (forall n, In n queryset ->
     exists c, In c filters /\ c_tree c = tree_id n /\
               c_min c <= min_attr dir n /\ max_attr dir n <= c_max c) /\
  (forall c, In c filters ->
     exists a b, In a queryset /\ In b queryset /\ same_group a b = true /\
                 c_tree c = tree_id a /\
                 c_min c = min_attr dir a /\ c_max c = max_attr dir b).
Proof.
  cbn zeta. set (q := order_by (relatives_order nulls_first) queryset).
  assert (Hq : forall n, In n q <-> In n queryset).
  { intros n. split; apply Permutation_in;
      [apply order_by_perm | apply Permutation_sym, order_by_perm]. }
  pose proof (groupby_uniform q) as Hu. rewrite Forall_forall in Hu.
  assert (Hg : forall g n, In g (groupby q) -> In n g -> In n q).
  { intros g n Hgin Hn. rewrite <- (groupby_concat q). apply in_concat.
    exists g. split; assumption. }
  split.
  - intros n Hn. apply Hq in Hn. rewrite <- (groupby_concat q) in Hn.
    apply in_concat in Hn. destruct Hn as (g & Hgin & Hn).
    destruct (group_clauses_spec dir g (Hu g Hgin)) as [Hcov _].
    destruct (Hcov n Hn) as (c & Hc & Hrest).
    exists c. split; [|exact Hrest]. apply in_flat_map. exists g. split; assumption.
  - intros c Hc. apply in_flat_map in Hc. destruct Hc as (g & Hgin & Hc).
    destruct (group_clauses_spec dir g (Hu g Hgin)) as [_ Hb].
    destruct (Hb c Hc) as (a & b & Ha & Hbin & Hrest).
    exists a, b. split; [apply Hq, (Hg g), Ha; exact Hgin|].
    split; [apply Hq, (Hg g), Hbin; exact Hgin|].
    split; [apply Hu with (x := g); assumption | exact Hrest].
Qed.

Lemma relatives_run (nulls_first : bool) (queryset : list node) (dir : direction)
  (include_self : bool) (st : store) :
  queryset <> [] ->
  _get_queryset_relatives nulls_first queryset dir include_self st
  = (st, Ok (order_by tree_order
               (filter (fun r =>
                          existsb (fun c => clause_matches dir include_self c r)
                            (flat_map (group_clauses dir)
                               (groupby (order_by (relatives_order nulls_first)
                                           queryset)))) (rows st)))).
Proof.
  intros Hne. unfold _get_queryset_relatives.
  destruct (order_by (relatives_order nulls_first) queryset) as [|x q] eqn:E;
    [|reflexivity].
  exfalso. apply Hne. pose proof (order_by_perm (relatives_order nulls_first) queryset) as Hp.
  rewrite E in Hp. apply Permutation_nil in Hp. exact Hp.
Qed.

(** X16. [get_queryset_descendants] misses no descendant and
    [get_queryset_ancestors] no ancestor: whatever the queryset yields
    and however the database orders rows without a parent, every row of
    the table that lies, in the tree of a node of the queryset, strictly
    inside that node's interval (for ancestors: strictly around it) is in
    the result; with [include_self] the bounds themselves count, so the
    stored nodes of the queryset are in the result too. *)
Theorem relatives_complete (nulls_first : bool) (queryset : list node)
  (include_self : bool) (st : store) (n r : node) :
  In n queryset -> In r (rows st) ->
  (descends include_self n r ->
   exists res,
     get_queryset_descendants nulls_first queryset include_self st = (st, Ok res) /\
     In r res) /\
  (descends include_self r n ->
   exists res,
     get_queryset_ancestors nulls_first queryset include_self st = (st, Ok res) /\
     In r res).
Proof.
  intros Hn Hr.
  assert (Hne : queryset <> []) by (intros E; rewrite E in Hn; exact Hn).
  unfold get_queryset_descendants, get_queryset_ancestors.
  split; intros [Ht Hb]; eexists; (split; [apply relatives_run; exact Hne|]);
    (eapply Permutation_in; [apply Permutation_sym, order_by_perm|]);
    apply filter_In; (split; [exact Hr|]); apply existsb_exists.
  - destruct (relatives_clauses nulls_first queryset Desc) as [Hcov _].
    destruct (Hcov n Hn) as (c & Hc & Hct & Hmin & Hmax). cbn in Hmin, Hmax.
    exists c. split; [exact Hc|]. unfold clause_matches. cbn [min_attr max_attr].
    rewrite Hct, Ht, Z.eqb_refl. cbn [andb].
    destruct include_self; apply andb_true_iff; split;
      rewrite ?Z.geb_leb, ?Z.gtb_ltb;
      try (apply Z.leb_le; lia); apply Z.ltb_lt; lia.
  - destruct (relatives_clauses nulls_first queryset Asc) as [Hcov _].
    destruct (Hcov n Hn) as (c & Hc & Hct & Hmin & Hmax). cbn in Hmin, Hmax.
    exists c. split; [exact Hc|]. unfold clause_matches. cbn [min_attr max_attr].
    rewrite Hct, <- Ht, Z.eqb_refl. cbn [andb].
    destruct include_self; apply andb_true_iff; split;
      rewrite ?Z.geb_leb, ?Z.gtb_ltb;
      try (apply Z.leb_le; lia); apply Z.ltb_lt; lia.
Qed.

Lemma relatives_complete_witness :
  (descends false node_A node_B ->
   exists res,
     get_queryset_descendants true [node_A] false scenario_store
     = (scenario_store, Ok res) /\ In node_B res) /\
  (descends false node_B node_A ->
   exists res,
     get_queryset_ancestors true [node_A] false scenario_store
     = (scenario_store, Ok res) /\ In node_B res).
Proof.
  apply (relatives_complete true [node_A] false scenario_store node_A node_B).
  - left. reflexivity.
  - right. left. reflexivity.
Defined.

(** X17. What [_get_queryset_relatives] returns, in either direction: it
    never raises and leaves the store alone; an empty queryset gives an
    empty result; otherwise the result is made of rows of the table, in
    tree order, each lying in the tree of two nodes of the queryset that
    share tree and parent, above the bounded-below attribute of the one
    and below the bounded-above attribute of the other (strictly, unless
    [include_self]). *)
Theorem relatives_sound (nulls_first : bool) (queryset : list node)
  (dir : direction) (include_self : bool) (st : store) :
  exists res,
    _get_queryset_relatives nulls_first queryset dir include_self st = (st, Ok res) /\
    (queryset = [] -> res = []) /\
    StronglySorted (fun a b => tree_order a b = true) res /\
    forall r, In r res ->
      In r (rows st) /\
      exists a b,
        In a queryset /\ In b queryset /\ same_group a b = true /\
        tree_id r = tree_id a /\
        if include_self
        then min_attr dir a <= min_attr dir r /\ max_attr dir r <= max_attr dir b
        else min_attr dir a < min_attr dir r /\ max_attr dir r < max_attr dir b.
Proof.
  destruct queryset as [|x qs] eqn:Eq.
  - exists []. split; [reflexivity|]. split; [reflexivity|].
    split; [apply SSorted_nil | intros r []].
  - rewrite <- Eq. assert (Hne : queryset <> []) by (rewrite Eq; discriminate).
    eexists. split; [apply relatives_run; exact Hne|].
    split; [intros E; contradiction|]. split.
    + apply order_by_sorted; [apply tree_order_total | apply tree_order_trans].
    + intros r Hr. apply (Permutation_in _ (order_by_perm _ _)) in Hr.
      apply filter_In in Hr. destruct Hr as [Hin Hm]. split; [exact Hin|].
      apply existsb_exists in Hm. destruct Hm as (c & Hc & Hm).
      destruct (relatives_clauses nulls_first queryset dir) as [_ Hb].
      destruct (Hb c Hc) as (a & b & Ha & Hbin & Hsame & Hct & Hmin & Hmax).
      exists a, b. split; [exact Ha|]. split; [exact Hbin|]. split; [exact Hsame|].
      unfold clause_matches in Hm. apply andb_true_iff in Hm. destruct Hm as [Hm H3].
      apply andb_true_iff in Hm. destruct Hm as [H1 H2]. apply Z.eqb_eq in H1.
      split; [congruence|].
      destruct include_self; rewrite ?Z.geb_leb, ?Z.gtb_ltb in H2;
        [apply Z.leb_le in H2, H3 | apply Z.ltb_lt in H2, H3]; lia.
Qed.

(** * Suspending updates *)

(** X18. On a model that is abstract, a proxy, or does not hold the tree
    fields itself, [disable_mptt_updates] and [delay_mptt_updates] raise
    CantDisableUpdates without running the body and without touching the
    store.  On any other model, [disable_mptt_updates] entered with
    updates already disabled is the body and nothing else; entered with
    updates enabled it runs the body with updates disabled and enables
    them again afterwards, whether the body returned or raised, handing
    on the body's result or exception. *)
Theorem disable_mptt_updates_scope (opts : mptt_meta) (uuid4 : nat -> Z)
  {A : Type} (body : M A) (st : store) :
  (meta_abstract opts = true \/ meta_proxy opts = true \/ owns_tree_fields opts = false ->
   exists msg,
     disable_mptt_updates opts body st = (st, Raise (CantDisableUpdates msg)) /\
     forall b : M unit,
       delay_mptt_updates opts uuid4 b st = (st, Raise (CantDisableUpdates msg))) /\
  (meta_abstract opts = false -> meta_proxy opts = false ->
   owns_tree_fields opts = true ->
   (mptt_updates_enabled st = false -> disable_mptt_updates opts body st = body st) /\
   (mptt_updates_enabled st = true ->
    forall st1 r,
      body (with_flags false (mptt_is_tracking st) st) = (st1, r) ->
      disable_mptt_updates opts body st
      = (with_flags true (mptt_is_tracking st1) st1, r) /\
      mptt_updates_enabled (with_flags true (mptt_is_tracking st1) st1) = true)).
Proof.
  split.
  - intros H. unfold delay_mptt_updates, disable_mptt_updates, raise.
    destruct (meta_abstract opts); [eexists; split; [reflexivity | intros b; reflexivity]|].
    destruct (meta_proxy opts); [eexists; split; [reflexivity | intros b; reflexivity]|].
    destruct (owns_tree_fields opts);
      [|eexists; split; [reflexivity | intros b; reflexivity]].
    destruct H as [H | [H | H]]; discriminate.
  - intros Ha Hp Ho. unfold disable_mptt_updates. rewrite Ha, Hp, Ho. cbn [negb].
    split.
    + intros He. unfold bind, get. rewrite He. reflexivity.
    + intros He st1 r Hbody. unfold bind at 1, get. cbn beta iota. rewrite He.
      cbn [negb]. unfold bind, _set_mptt_updates_enabled, modify, try_finally.
      rewrite Hbody. split; reflexivity.
Qed.

(** * The numbering a rebuild hands out *)

Lemma helper_loop_numbered (visit : node -> Z -> option (list node * Z))
  (cs : list node) :
  (forall c a usc rc,
      In c cs -> visit c a = Some (usc, rc) -> numbered a usc (rc - 1)) ->
  forall right us r',
    helper_loop visit cs right = Some (us, r') -> numbered right us (r' - 1).
Proof.
  induction cs as [|c cs IH]; intros Hv right us r' H; cbn [helper_loop] in H.
  - inversion H; subst. unfold numbered. simpl. repeat split; [lia | constructor | constructor].
  - destruct (visit c right) as [[us1 r1]|] eqn:E1; [|discriminate].
    destruct (helper_loop visit cs r1) as [[us2 r2]|] eqn:E2; [|discriminate].
    inversion H; subst. clear H.
    destruct (Hv c right us1 r1 (or_introl eq_refl) E1) as (Hr1 & Hp1 & Hlt1).
    destruct (IH (fun c' a usc rc Hc' => Hv c' a usc rc (or_intror Hc')) r1 us2 r' E2)
      as (Hr2 & Hp2 & Hlt2).
    repeat split.
    + rewrite length_app, Nat2Z.inj_add. lia.
    + rewrite boundaries_app, length_app.
      replace (2 * (List.length us1 + List.length us2))%nat
        with (2 * List.length us1 + 2 * List.length us2)%nat by lia.
      rewrite positions_from_app. apply Permutation_app; [exact Hp1|].
      replace (right + Z.of_nat (2 * List.length us1)) with r1 by lia.
      exact Hp2.
    + apply Forall_app. split; assumption.
Qed.

Lemma helper_numbered (ch : dict) (fuel : nat) :
  forall nd left tid lvl us ret,
    _rebuild_helper fuel ch nd left tid lvl = Some (us, ret) ->
    numbered left us (ret - 1).
Proof.
  induction fuel as [|fuel IH]; intros nd left tid lvl us ret H; [discriminate|].
  cbn [_rebuild_helper] in H.
  destruct (helper_loop _ (dict_get ch (pk nd)) (left + 1)) as [[us0 r]|] eqn:Eloop;
    [|discriminate].
  inversion H; subst. clear H.
  destruct (helper_loop_numbered _ (dict_get ch (pk nd))
              (fun c a usc rc _ Hrun => IH c a tid (lvl + 1) usc rc Hrun)
              (left + 1) us0 r Eloop) as (Hr & Hp & Hlt).
  repeat split.
  - rewrite length_app, Nat2Z.inj_add. cbn [List.length]. lia.
  - rewrite boundaries_app, length_app. cbn [List.length boundaries flat_map app].
    cbn [lft rght set_tree_id set_level set_rght set_lft].
    replace (2 * (List.length us0 + 1))%nat with (S (2 * List.length us0 + 1)) by lia.
    cbn [positions_from]. rewrite positions_from_app. cbn [positions_from].
    replace (left + 1 + Z.of_nat (2 * List.length us0)) with r by lia.
    apply Permutation_sym, Permutation_cons_app.
    apply Permutation_app; [apply Permutation_sym; exact Hp | apply Permutation_refl].
  - apply Forall_app. split; [exact Hlt|]. constructor; [cbn; lia | constructor].
Qed.

Lemma above_key_in (rs : list node) (d : nat) (k a : option Z) :
  above rs d k a -> In a (map pk rs) -> In k (map pk rs).
Proof.
  induction 1 as [k | n r p a Hr _ _ _]; intros Ha; [exact Ha|].
  apply in_map. exact Hr.
Qed.

Lemma filter_block (s t : Z) (us : list node) :
  Forall (fun u => tree_id u = s) us ->
  filter (fun u => tree_id u =? t) us = if s =? t then us else [].
Proof.
  induction 1 as [|u us Hu _ IH]; [destruct (s =? t); reflexivity|].
  cbn [filter]. rewrite IH, Hu. destruct (s =? t); reflexivity.
Qed.

Lemma filter_absent_tag (block : node -> Z -> list node) (t : Z) (l : list (node * Z)) :
  (forall p s, In (p, s) l -> Forall (fun u => tree_id u = s) (block p s)) ->
  ~ In t (map snd l) ->
  filter (fun u => tree_id u =? t) (flat_map (fun pt => block (fst pt) (snd pt)) l) = [].
Proof.
  induction l as [|[q s] l IH]; intros Htag Hnot; [reflexivity|].
  cbn [flat_map fst snd]. rewrite filter_app.
  rewrite (filter_block s t) by (apply Htag; left; reflexivity).
  destruct (s =? t) eqn:E.
  - apply Z.eqb_eq in E. subst s. exfalso. apply Hnot. left. reflexivity.
  - cbn [app]. apply IH.
    + intros p s' Hp. apply Htag. right. exact Hp.
    + intros Hc. apply Hnot. right. exact Hc.
Qed.

(** Filtering a concatenation of blocks, each stamped with one of
    pairwise distinct tags, by one of the tags gives that block. *)
Lemma filter_tagged (block : node -> Z -> list node) (l : list (node * Z)) :
  (forall p t, In (p, t) l -> Forall (fun u => tree_id u = t) (block p t)) ->
  NoDup (map snd l) ->
  forall p t, In (p, t) l ->
    filter (fun u => tree_id u =? t) (flat_map (fun pt => block (fst pt) (snd pt)) l)
    = block p t.
Proof.
  induction l as [|[q s] l IH]; intros Htag Hnd p t Hin; [contradiction|].
  cbn [map snd] in Hnd. inversion Hnd as [|? ? Hs Hnd']; subst.
  cbn [flat_map fst snd]. rewrite filter_app.
  rewrite (filter_block s t) by (apply Htag; left; reflexivity).
  destruct Hin as [Heq | Hin].
  - inversion Heq; subst. rewrite Z.eqb_refl.
    rewrite filter_absent_tag; [apply app_nil_r | | exact Hs].
    intros a b Hab. apply Htag. right. exact Hab.
  - destruct (s =? t) eqn:E.
    + apply Z.eqb_eq in E. subst s. exfalso. apply Hs.
      change t with (snd (p, t)). apply in_map. exact Hin.
    + cbn [app]. apply IH; auto.
      intros a b Hab. apply Htag. right. exact Hab.
Qed.

Lemma filter_perm {A : Type} (q : A -> bool) (l1 l2 : list A) :
  Permutation l1 l2 -> Permutation (filter q l1) (filter q l2).
Proof.
  induction 1 as [|x l1 l2 _ IH|x y l|l1 l2 l3 _ IH1 _ IH2]; cbn.
  - constructor.
  - destruct (q x); [apply perm_skip|]; exact IH.
  - destruct (q x), (q y); try apply Permutation_refl. apply perm_swap.
  - eapply Permutation_trans; eassumption.
Qed.

Lemma combine_tags {A B : Type} (l1 : list A) :
  forall l2 : list B, List.length l2 = List.length l1 -> map snd (combine l1 l2) = l2.
Proof.
  induction l1 as [|a l1 IH]; intros [|b l2] H; try discriminate; [reflexivity|].
  cbn. f_equal. apply IH. cbn in H. lia.
Qed.

(** Left, right and tree id. *)
Lemma numbered_perm (cursor ret : Z) (us vs : list node) :
  Permutation (map (fun u => (lft u, rght u, tree_id u)) vs)
              (map (fun u => (lft u, rght u, tree_id u)) us) ->
  numbered cursor us ret -> numbered cursor vs ret.
Proof.
  intros Hperm (Hret & Hpos & Hlt).
  assert (Hlen : List.length vs = List.length us).
  { apply Permutation_length in Hperm. rewrite !length_map in Hperm. exact Hperm. }
  assert (Hb : forall l : list node,
             boundaries l
             = flat_map (fun x : Z * Z * Z => [fst (fst x); snd (fst x)])
                 (map (fun u => (lft u, rght u, tree_id u)) l)).
  { intros l. unfold boundaries. induction l as [|u l IH]; [reflexivity|].
    cbn [flat_map map fst snd]. rewrite IH. reflexivity. }
  repeat split.
  - rewrite Hlen. exact Hret.
  - rewrite Hlen, Hb. eapply Permutation_trans; [|exact Hpos]. rewrite (Hb us).
    apply Permutation_flat_map. exact Hperm.
  - assert (H : Forall (fun x : Z * Z * Z => fst (fst x) < snd (fst x))
                  (map (fun u => (lft u, rght u, tree_id u)) vs)).
    { eapply Permutation_Forall; [apply Permutation_sym; exact Hperm|].
      rewrite Forall_map. exact Hlt. }
    rewrite Forall_map in H. exact H.
Qed.

Section Numbered.

Variable opts : mptt_meta.
Variable rs : list node.
Hypothesis rs_nodup : NoDup (map pk rs).
Hypothesis rs_forest : forest rs.

Let ch : dict := _get_children opts None rs.
Let parents : list node := _get_parents opts None rs.
Let fuel : nat := S (List.length rs).

Variable ts : list Z.
Hypothesis ts_length : List.length ts = List.length parents.
Hypothesis ts_nodup : NoDup ts.

Let U : list node := collected fuel ch parents ts.

Lemma written_keys : Permutation (map pk rs) (map pk U).
Proof.
  apply NoDup_Permutation; [exact rs_nodup | apply U_nodup; exact rs_nodup|].
  intros k. split; intros Hk.
  - apply in_map_iff in Hk. destruct Hk as (r & <- & Hr).
    destruct (rs_forest r Hr) as (d & root & Hroot & Hnone & Habove).
    destruct (collected_reaches opts rs rs_nodup ts ts_length d _ _ Habove
                root Hroot Hnone eq_refl) as (u & Hu & Hpk).
    rewrite <- Hpk. apply in_map. exact Hu.
  - apply in_map_iff in Hk. destruct Hk as (u & <- & Hu).
    destruct (collected_in opts rs parents ts u Hu) as (p & t & Hp & Hin & _).
    destruct (parents_spec opts rs p Hp) as [Hprs Hroot].
    destruct (emitted_below opts rs rs_nodup p t u Hprs Hroot Hin) as (d & Habove).
    apply (above_key_in rs d _ _ Habove). apply in_map. exact Hprs.
Qed.

Lemma written_rows :
  Permutation (map (fun u => (lft u, rght u, tree_id u)) (map (write_fields U) rs))
              (map (fun u => (lft u, rght u, tree_id u)) U).
Proof.
  pose (G := fun k => match find (fun u => opt_eqb (pk u) k) U with
                      | Some u => (lft u, rght u, tree_id u)
                      | None => (0, 0, 0)
                      end).
  assert (HU : NoDup (map pk U)) by (apply U_nodup; exact rs_nodup).
  assert (H1 : map (fun u => (lft u, rght u, tree_id u)) (map (write_fields U) rs)
               = map G (map pk rs)).
  { rewrite !map_map. apply map_ext_in. intros r Hr. unfold G, write_fields.
    destruct (find (fun u => opt_eqb (pk u) (pk r)) U) as [u|] eqn:E; [reflexivity|].
    exfalso. assert (Hk : In (pk r) (map pk U)).
    { apply (Permutation_in _ written_keys). apply in_map. exact Hr. }
    apply in_map_iff in Hk. destruct Hk as (u & Hpk & Hu).
    apply (find_none _ _ E) in Hu. rewrite Hpk in Hu.
    assert (Ht : opt_eqb (pk r) (pk r) = true) by (apply opt_eqb_eq; reflexivity).
    congruence. }
  assert (H2 : map (fun u => (lft u, rght u, tree_id u)) U = map G (map pk U)).
  { rewrite map_map. apply map_ext_in. intros u Hu. unfold G.
    destruct (find (fun v => opt_eqb (pk v) (pk u)) U) as [v|] eqn:E.
    - apply find_some in E. destruct E as [Hv Hpk]. apply opt_eqb_eq in Hpk.
      rewrite (NoDup_pk_inj U v u HU Hv Hu Hpk). reflexivity.
    - exfalso. apply (find_none _ _ E) in Hu.
      assert (Ht : opt_eqb (pk u) (pk u) = true) by (apply opt_eqb_eq; reflexivity).
      congruence. }
  rewrite H1, H2. apply Permutation_map. exact written_keys.
Qed.

Lemma written_tree (p : node) (t : Z) :
  In (p, t) (combine parents ts) ->
  Permutation
    (map (fun u => (lft u, rght u, tree_id u))
       (tree_rows t (map (write_fields U) rs)))
    (map (fun u => (lft u, rght u, tree_id u)) (emitted fuel ch p t)).
Proof.
  intros Hpt.
  assert (Hf : forall l : list node,
             map (fun u => (lft u, rght u, tree_id u)) (tree_rows t l)
             = filter (fun x : Z * Z * Z => snd x =? t)
                 (map (fun u => (lft u, rght u, tree_id u)) l)).
  { intros l. unfold tree_rows. induction l as [|u l IH]; [reflexivity|].
    cbn [filter map snd]. destruct (tree_id u =? t); cbn [map]; rewrite IH; reflexivity. }
  rewrite Hf.
  replace (emitted fuel ch p t) with (tree_rows t U).
  - rewrite Hf. apply filter_perm. exact written_rows.
  - unfold tree_rows, U, collected.
    apply (filter_tagged (emitted fuel ch) (combine parents ts)).
    + intros q s Hqs. apply in_combine_l in Hqs.
      destruct (parents_spec opts rs q Hqs) as [Hq Hroot].
      destruct (walk_returns opts rs rs_nodup q s Hq Hroot) as (ret & Hrun).
      destruct (helper_values _ _ _ _ _ _ _ _ Hrun) as (_ & _ & Htid & _).
      exact Htid.
    + rewrite combine_tags by exact ts_length. exact ts_nodup.
    + exact Hpt.
Qed.

Lemma written_numbered (p' : node) :
  In p' (map (write_fields U) rs) -> parent p' = None ->
  numbered 1 (tree_rows (tree_id p') (map (write_fields U) rs)) (rght p').
Proof.
  intros Hp' Hnone. apply in_map_iff in Hp'. destruct Hp' as (p & <- & Hp).
  rewrite write_fields_parent in Hnone.
  assert (Hps : In p parents).
  { unfold parents. rewrite get_parents_lookup.
    eapply Permutation_in; [apply Permutation_sym, order_by_perm|].
    apply filter_In. split; [exact Hp | apply is_root_node_spec, Hnone]. }
  destruct (in_combine_exists parents ts p Hps ts_length) as (t & Ht).
  pose proof (emitted_in_collected fuel ch parents ts p t Ht) as Hsub.
  destruct (walk_returns opts rs rs_nodup p t Hp Hnone) as (ret & Hrun).
  destruct (helper_nested ch fuel p 1 t 0 _ ret Hrun)
    as (_ & (e & He & Hpk & _ & Hr & _ & Htid) & _).
  pose proof (helper_numbered ch fuel p 1 t 0 _ ret Hrun) as Hnum.
  assert (HU : NoDup (map pk U)) by (apply U_nodup; exact rs_nodup).
  rewrite (write_fields_found U e p HU (Hsub e He) Hpk).
  cbn [tree_id rght]. rewrite Htid, Hr.
  eapply numbered_perm; [apply written_tree; exact Ht | exact Hnum].
Qed.

End Numbered.

Lemma increasing_nodup (l : list Z) : StronglySorted Z.lt l -> NoDup l.
Proof.
  induction 1 as [|x l _ IH Hx]; constructor; [|exact IH].
  intros Hin. rewrite Forall_forall in Hx. specialize (Hx x Hin). lia.
Qed.

(** X19. With root ordering on, a full rebuild of a table with distinct
    keys whose parent links lead every row to a parentless row leaves, in
    the tree of every root, a gapless numbering: the lefts and rights of
    the rows carrying the root's tree id are the positions from 1 to the
    root's right, each used exactly once, so the root's right is twice
    the number of rows of its tree. *)
Theorem rebuild_numbers_trees (opts : mptt_meta) (uuid4 : nat -> Z) (st : store) :
  root_node_ordering opts = true ->
  NoDup (map pk (rows st)) ->
  forest (rows st) ->
  exists st',
    rebuild opts uuid4 None st = (st', Ok tt) /\
    forall p, In p (rows st') -> parent p = None ->
      numbered 1 (tree_rows (tree_id p) (rows st')) (rght p).
Proof.
  intros Hro Hnd Hforest. eexists. split; [apply rebuild_run; exact Hnd|].
  cbn [rows rebuilt]. unfold rebuild_objects. intros p Hp Hnone.
  apply written_numbered; try assumption.
  - apply root_tids_length.
  - apply increasing_nodup, root_tids_increasing. exact Hro.
Qed.

Lemma scenario_keys_distinct : NoDup (map pk (rows scenario_store)).
Proof. cbn. repeat constructor; cbn; intuition discriminate. Qed.

Lemma scenario_is_forest : forest (rows scenario_store).
Proof.
  intros r [<- | [<- | [<- | [<- | []]]]].
  - exists 0%nat, node_A. repeat split; [left; reflexivity | apply above_O].
  - exists 1%nat, node_A. repeat split; [left; reflexivity|].
    apply (above_S _ 0 node_B 1 (Some 1));
      [right; left; reflexivity | reflexivity | apply above_O].
  - exists 1%nat, node_A. repeat split; [left; reflexivity|].
    apply (above_S _ 0 node_C 1 (Some 1));
      [right; right; left; reflexivity | reflexivity | apply above_O].
  - exists 0%nat, node_D. repeat split;
      [right; right; right; left; reflexivity | apply above_O].
Qed.

Lemma rebuild_numbers_trees_witness :
  exists st',
    rebuild sequential_opts sample_uuid4 None scenario_store = (st', Ok tt) /\
    forall p, In p (rows st') -> parent p = None ->
      numbered 1 (tree_rows (tree_id p) (rows st')) (rght p).
Proof.
  apply (rebuild_numbers_trees sequential_opts sample_uuid4 scenario_store).
  - reflexivity.
  - exact scenario_keys_distinct.
  - exact scenario_is_forest.
Defined.

(** * Taking a subtree out of its tree *)

Lemma positions_nodup (n : nat) : forall a, NoDup (positions_from a n).
Proof.
  induction n as [|n IH]; intros a; cbn [positions_from]; constructor; [|apply IH].
  rewrite positions_from_in. lia.
Qed.

Lemma positions_length (n : nat) : forall a, List.length (positions_from a n) = n.
Proof.
  induction n as [|n IH]; intros a; cbn [positions_from List.length];
    [reflexivity | rewrite IH; reflexivity].
Qed.

Lemma nodup_image {A B : Type} (h : A -> B) (l : list A) :
  (forall x y, In x l -> In y l -> h x = h y -> x = y) ->
  NoDup l -> NoDup (map h l).
Proof.
  intros Hinj Hnd. induction Hnd as [|a l Ha _ IH]; cbn [map]; constructor.
  - intros Hin. apply in_map_iff in Hin. destruct Hin as (y & Hy & Hin).
    apply Ha. rewrite (Hinj a y); [exact Hin | left; reflexivity | right; exact Hin | ].
    symmetry. exact Hy.
  - apply IH. intros x y Hx Hy. apply Hinj; right; assumption.
Qed.

(** The image of the selected positions of a range is a range as soon as
    the map is one to one on them and hits exactly that range. *)
Lemma positions_image (h : Z -> Z) (q : Z -> bool) (c : Z) (n : nat) (c' : Z) (n' : nat) :
  (forall x y, c <= x < c + Z.of_nat n -> c <= y < c + Z.of_nat n ->
               q x = true -> q y = true -> h x = h y -> x = y) ->
  (forall x, c' <= x < c' + Z.of_nat n' <->
             exists y, c <= y < c + Z.of_nat n /\ q y = true /\ h y = x) ->
  Permutation (map h (filter q (positions_from c n))) (positions_from c' n').
Proof.
  intros Hinj Himg. apply NoDup_Permutation.
  - apply nodup_image; [|apply NoDup_filter, positions_nodup].
    intros x y Hx Hy. apply filter_In in Hx, Hy.
    destruct Hx as [Hx Hqx], Hy as [Hy Hqy]. apply positions_from_in in Hx, Hy.
    apply Hinj; assumption.
  - apply positions_nodup.
  - intros x. rewrite positions_from_in, Himg, in_map_iff. split.
    + intros (y & Hh & Hy). apply filter_In in Hy. destruct Hy as [Hy Hq].
      apply positions_from_in in Hy. exists y. auto.
    + intros (y & Hy & Hq & Hh). exists y. split; [exact Hh|].
      apply filter_In. split; [apply positions_from_in; exact Hy | exact Hq].
Qed.

Lemma boundaries_selected (q : Z -> bool) (l : list node) :
  (forall r, In r l -> q (rght r) = q (lft r)) ->
  boundaries (filter (fun r => q (lft r)) l) = filter q (boundaries l).
Proof.
  induction l as [|r l IH]; intros H; [reflexivity|].
  cbn [filter boundaries flat_map app]. rewrite (H r (or_introl eq_refl)).
  fold (boundaries l).
  rewrite <- IH by (intros x Hx; apply H; right; exact Hx).
  destruct (q (lft r)); reflexivity.
Qed.

Lemma filter_mapped {A : Type} (p : A -> bool) (F : A -> A) (l : list A) :
  filter p (map F l) = map F (filter (fun x => p (F x)) l).
Proof.
  induction l as [|x l IH]; [reflexivity|].
  cbn [map filter]. destruct (p (F x)); cbn [map]; rewrite IH; reflexivity.
Qed.

Lemma filter_both {A : Type} (p q : A -> bool) (l : list A) :
  filter (fun x => p x && q x) l = filter q (filter p l).
Proof.
  induction l as [|x l IH]; [reflexivity|].
  cbn [filter]. destruct (p x); cbn [andb filter]; [destruct (q x)|]; rewrite IH; reflexivity.
Qed.

Lemma boundaries_length (l : list node) :
  List.length (boundaries l) = (2 * List.length l)%nat.
Proof.
  induction l as [|r l IH]; [reflexivity|].
  cbn [boundaries flat_map app List.length]. fold (boundaries l). rewrite IH. lia.
Qed.

Section Split.

Variables left right change : Z.
Variables new_level new_tree : node -> Z.
Variable T : list node.
Variable R : Z.
Hypothesis bounds : 1 <= left <= right /\ right <= R.
Hypothesis T_numbered : numbered 1 T R.
Hypothesis T_whole : forall r, In r T ->
  between left right (rght r) = between left right (lft r).

Let width : Z := right - left + 1.
Let inside (r : node) : bool := between left right (lft r).
Let moved (r : node) : node :=
  mkNode (pk r) (parent r)
    (lifted left right change (lft r)) (lifted left right change (rght r))
    (new_level r) (new_tree r) (okey r).

Lemma moved_boundaries (l : list node) :
  boundaries (map moved l) = map (lifted left right change) (boundaries l).
Proof.
  induction l as [|r l IH]; [reflexivity|].
  cbn [map boundaries flat_map app]. fold (boundaries l) (boundaries (map moved l)).
  rewrite IH. reflexivity.
Qed.

Lemma taken_numbered :
  numbered (left - change) (map moved (filter inside T)) (right - change).
Proof.
  destruct T_numbered as (HR & Hperm & Hlt).
  assert (Hp : Permutation (boundaries (map moved (filter inside T)))
                 (positions_from (left - change) (Z.to_nat width))).
  { rewrite moved_boundaries. unfold inside.
    rewrite (boundaries_selected (between left right) T T_whole).
    eapply Permutation_trans;
      [apply Permutation_map, filter_perm; exact Hperm|].
    apply positions_image.
    - intros x y _ _ Hx Hy. unfold lifted. rewrite Hx, Hy. lia.
    - intros x. unfold width. split.
      + intros Hx. exists (x + change). unfold lifted, between.
        replace ((left <=? x + change) && (x + change <=? right)) with true
          by (symmetry; apply andb_true_iff; split; apply Z.leb_le; lia).
        repeat split; lia.
      + intros (y & Hy & Hq & <-). unfold lifted. rewrite Hq.
        unfold between in Hq. apply andb_true_iff in Hq.
        destruct Hq as [H1 H2]. apply Z.leb_le in H1, H2. lia. }
  assert (Hlen : (2 * List.length (map moved (filter inside T)))%nat = Z.to_nat width).
  { rewrite <- boundaries_length. rewrite (Permutation_length Hp).
    apply positions_length. }
  repeat split.
  - unfold width in *. lia.
  - rewrite Hlen. exact Hp.
  - rewrite Forall_map. rewrite Forall_forall. intros r Hr.
    apply filter_In in Hr. destruct Hr as [Hr Hin]. unfold inside in Hin.
    rewrite Forall_forall in Hlt. specialize (Hlt r Hr).
    cbn [lft rght moved]. unfold lifted. rewrite (T_whole r Hr), Hin. lia.
Qed.

Lemma left_numbered :
  numbered 1 (map moved (filter (fun r => negb (inside r)) T)) (R - width).
Proof.
  destruct T_numbered as (HR & Hperm & Hlt).
  assert (Hw : forall r, In r T ->
             negb (between left right (rght r)) = negb (between left right (lft r))).
  { intros r Hr. rewrite (T_whole r Hr). reflexivity. }
  assert (Hp : Permutation
                 (boundaries (map moved (filter (fun r => negb (inside r)) T)))
                 (positions_from 1 (Z.to_nat (R - width)))).
  { rewrite moved_boundaries. unfold inside.
    rewrite (boundaries_selected (fun x => negb (between left right x)) T Hw).
    eapply Permutation_trans;
      [apply Permutation_map, filter_perm; exact Hperm|].
    apply positions_image.
    - intros x y _ _ Hx Hy. unfold lifted.
      apply negb_true_iff in Hx, Hy. rewrite Hx, Hy.
      unfold between in Hx, Hy. apply andb_false_iff in Hx, Hy.
      rewrite !Z.leb_gt in Hx, Hy.
      destruct (x >? left - 1) eqn:Ex, (y >? left - 1) eqn:Ey; lia.
    - intros x. unfold width. split.
      + intros Hx. destruct (Z_lt_le_dec x left) as [Hlo | Hhi].
        * exists x. unfold lifted, between.
          replace (left <=? x) with false by (symmetry; apply Z.leb_gt; lia).
          cbn [andb negb].
          replace (x >? left - 1) with false by (symmetry; lia).
          repeat split; lia.
        * exists (x + (right - left + 1)). unfold lifted, between.
          replace (x + (right - left + 1) <=? right) with false
            by (symmetry; apply Z.leb_gt; lia).
          rewrite andb_false_r. cbn [negb].
          replace (x + (right - left + 1) >? left - 1) with true by (symmetry; lia).
          repeat split; lia.
      + intros (y & Hy & Hq & <-). unfold lifted.
        apply negb_true_iff in Hq. rewrite Hq.
        unfold between in Hq. apply andb_false_iff in Hq. rewrite !Z.leb_gt in Hq.
        destruct (y >? left - 1) eqn:Ey; lia. }
  assert (Hlen : (2 * List.length (map moved (filter (fun r => negb (inside r)) T)))%nat
                 = Z.to_nat (R - width)).
  { rewrite <- boundaries_length. rewrite (Permutation_length Hp).
    apply positions_length. }
  repeat split.
  - unfold width in *. lia.
  - rewrite Hlen. exact Hp.
  - rewrite Forall_map. rewrite Forall_forall. intros r Hr.
    apply filter_In in Hr. destruct Hr as [Hr Hin]. unfold inside in Hin.
    apply negb_true_iff in Hin.
    rewrite Forall_forall in Hlt. specialize (Hlt r Hr).
    cbn [lft rght moved]. unfold lifted. rewrite (T_whole r Hr), Hin.
    pose proof (T_whole r Hr) as Hq. rewrite Hin in Hq.
    unfold between in Hin, Hq. apply andb_false_iff in Hin, Hq.
    rewrite !Z.leb_gt in Hin, Hq.
    destruct (lft r >? left - 1) eqn:El, (rght r >? left - 1) eqn:Er; lia.
Qed.

End Split.

Lemma numbered_inhabited (T : list node) (R : Z) :
  numbered 1 T R -> 1 <= R -> exists r, In r T.
Proof.
  intros (HR & _) H1. destruct T as [|r T]; [cbn in HR; lia|].
  exists r. left. reflexivity.
Qed.

(** X20. [_make_child_root_node] splits a gapless tree into two gapless
    trees.  Let the rows of the node's tree use the positions from 1 to
    [R] exactly once each, let none of them lie across the node's
    interval, and let the tree id the node ends up with be carried by no
    row.  Then the returned node is a root spanning 1 to its old width,
    the rows now carrying its tree id use exactly the positions from 1 to
    that width, the rows left in the old tree use exactly the positions
    from 1 to [R] less that width, and every other tree has the rows it
    had. *)
Theorem make_child_root_node_splits (opts : mptt_meta) (nd : node)
  (new_tree_id : option Z) (st st' : store) (n : node) (R : Z) :
  _make_child_root_node opts nd new_tree_id st = (st', Ok n) ->
  1 <= lft nd <= rght nd /\ rght nd <= R ->
  numbered 1 (tree_rows (tree_id nd) (rows st)) R ->
  (forall r, In r (rows st) -> tree_id r = tree_id nd ->
     (lft nd <= lft r <= rght nd <-> lft nd <= rght r <= rght nd)) ->
  (forall r, In r (rows st) -> tree_id r <> tree_id n) ->
  lft n = 1 /\ rght n = rght nd - lft nd + 1 /\ level n = 0 /\ parent n = None /\
  numbered 1 (tree_rows (tree_id n) (rows st')) (rght n) /\
  numbered 1 (tree_rows (tree_id nd) (rows st')) (R - (rght nd - lft nd + 1)) /\
  (forall t, t <> tree_id nd -> t <> tree_id n ->
     tree_rows t (rows st') = tree_rows t (rows st)).
Proof.
  intros H Hb Hnum Hwhole Hfresh. unfold _make_child_root_node in H.
  apply bind_ok in H. destruct H as (s1 & t & Hid & H).
  assert (Hrows : rows s1 = rows st).
  { destruct new_tree_id as [t0|]; [destruct (t0 =? 0)|];
      try (eapply next_tree_id_rows; exact Hid);
      unfold ret in Hid; inversion Hid; reflexivity. }
  apply bind_ok in H. destruct H as (s2 & [] & Hexec & H).
  unfold ret in H. inversion H; subst st' n. clear H.
  unfold _inter_tree_move_and_close_gap, execute, modify in Hexec.
  inversion Hexec; subst s2. clear Hexec Hid.
  cbn [lft rght level parent tree_id set_parent set_tree_id set_level set_rght set_lft]
    in *.
  cbn [rows with_rows]. rewrite Hrows. unfold clean_tree_ids, sql_update.
  set (rs := rows st) in *. set (tid := tree_id nd) in *.
  set (q := between (lft nd) (rght nd)).
  set (f := fun r : node =>
              mkNode (pk r) (parent r)
                (lifted (lft nd) (rght nd) (lft nd - 1) (lft r))
                (lifted (lft nd) (rght nd) (lft nd - 1) (rght r))
                (if q (lft r) then level r - level nd else level r)
                (if q (lft r) then t else tree_id r) (okey r)).
  set (F := fun r : node => if tree_id r =? tid then f r else r).
  change (map _ rs) with (map F rs).
  assert (Hw : forall r, In r (tree_rows tid rs) -> q (rght r) = q (lft r)).
  { intros r Hr. apply filter_In in Hr. destruct Hr as [Hr Ht].
    apply Z.eqb_eq in Ht. specialize (Hwhole r Hr Ht).
    unfold q, between.
    destruct (lft nd <=? lft r) eqn:E1, (lft r <=? rght nd) eqn:E2,
             (lft nd <=? rght r) eqn:E3, (rght r <=? rght nd) eqn:E4;
      try reflexivity; exfalso;
      rewrite ?Z.leb_le, ?Z.leb_gt in E1, E2, E3, E4; lia. }
  assert (Hne : tid <> t).
  { destruct (numbered_inhabited _ _ Hnum ltac:(lia)) as (r & Hr).
    apply filter_In in Hr. destruct Hr as [Hr Ht]. apply Z.eqb_eq in Ht.
    rewrite <- Ht. apply Hfresh. exact Hr. }
  assert (Htaken : tree_rows t (map F rs)
                   = map f (filter (fun r => q (lft r)) (tree_rows tid rs))).
  { unfold tree_rows. rewrite filter_mapped. rewrite <- filter_both.
    rewrite (filter_ext_in (fun x => tree_id (F x) =? t)
               (fun x => (tree_id x =? tid) && q (lft x))).
    - apply map_ext_in. intros r Hr. apply filter_In in Hr.
      destruct Hr as [_ Hr]. apply andb_true_iff in Hr. destruct Hr as [Hr _].
      unfold F. rewrite Hr. reflexivity.
    - intros r Hr. unfold F. destruct (tree_id r =? tid) eqn:E; cbn [andb].
      + cbn [tree_id f]. destruct (q (lft r)); [apply Z.eqb_refl|].
        apply Z.eqb_eq in E. rewrite E. apply Z.eqb_neq. exact Hne.
      + apply Z.eqb_neq. apply Hfresh. exact Hr. }
  assert (Hleft : tree_rows tid (map F rs)
                  = map f (filter (fun r => negb (q (lft r))) (tree_rows tid rs))).
  { unfold tree_rows. rewrite filter_mapped. rewrite <- filter_both.
    rewrite (filter_ext (fun x => tree_id (F x) =? tid)
               (fun x => (tree_id x =? tid) && negb (q (lft x)))).
    - apply map_ext_in. intros r Hr. apply filter_In in Hr.
      destruct Hr as [_ Hr]. apply andb_true_iff in Hr. destruct Hr as [Hr _].
      unfold F. rewrite Hr. reflexivity.
    - intros r. unfold F. destruct (tree_id r =? tid) eqn:E; cbn [andb].
      + cbn [tree_id f]. destruct (q (lft r)); cbn [negb]; [|exact E].
        apply Z.eqb_neq. congruence.
      + exact E. }
  split; [lia|]. split; [lia|]. split; [reflexivity|]. split; [reflexivity|].
  split; [|split].
  - rewrite Htaken.
    replace 1 with (lft nd - (lft nd - 1)) at 1 by lia.
    apply (taken_numbered (lft nd) (rght nd) (lft nd - 1) _ _
             (tree_rows tid rs) R Hb Hnum Hw).
  - rewrite Hleft.
    apply (left_numbered (lft nd) (rght nd) (lft nd - 1) _ _
             (tree_rows tid rs) R Hb Hnum Hw).
  - intros t' H1 H2. unfold tree_rows. rewrite filter_mapped.
    rewrite (filter_ext (fun x => tree_id (F x) =? t') (fun x => tree_id x =? t')).
    + rewrite <- (map_id (filter _ rs)) at 2. apply map_ext_in.
      intros r Hr. apply filter_In in Hr. destruct Hr as [_ Hr].
      apply Z.eqb_eq in Hr. unfold F.
      replace (tree_id r =? tid) with false; [reflexivity|].
      symmetry. apply Z.eqb_neq. congruence.
    + intros r. unfold F. destruct (tree_id r =? tid) eqn:E; [|reflexivity].
      apply Z.eqb_eq in E. cbn [tree_id f].
      destruct (q (lft r)); rewrite ?E;
        transitivity false; try (apply Z.eqb_neq; congruence);
        symmetry; apply Z.eqb_neq; congruence.
Qed.

Lemma make_child_root_node_splits_witness :
  let n := mkNode (Some 2) None 1 2 0 3 0 in
  let st' := with_rows [mkNode (Some 1) None 1 4 0 1 0;
                        mkNode (Some 2) (Some 1) 1 2 0 3 0;
                        mkNode (Some 3) (Some 1) 2 3 1 1 0; node_D] scenario_store in
  lft n = 1 /\ rght n = 3 - 2 + 1 /\ level n = 0 /\ parent n = None /\
  numbered 1 (tree_rows 3 (rows st')) 2 /\
  numbered 1 (tree_rows 1 (rows st')) (6 - (3 - 2 + 1)) /\
  (forall t, t <> 1 -> t <> 3 -> tree_rows t (rows st') = tree_rows t (rows scenario_store)).
Proof.
  apply (make_child_root_node_splits sequential_opts node_B None scenario_store
           (with_rows [mkNode (Some 1) None 1 4 0 1 0;
                       mkNode (Some 2) (Some 1) 1 2 0 3 0;
                       mkNode (Some 3) (Some 1) 2 3 1 1 0; node_D] scenario_store)
           (mkNode (Some 2) None 1 2 0 3 0) 6).
  - reflexivity.
  - cbn. lia.
  - repeat split.
    + cbn. apply perm_skip. apply (Permutation_cons_append [2; 3; 4; 5] 6).
    + cbn. repeat constructor.
  - intros r [<- | [<- | [<- | [<- | []]]]]; cbn; lia.
  - intros r [<- | [<- | [<- | [<- | []]]]]; cbn; lia.
Defined.

(** * Bringing rows into a tree *)

Lemma positions_shift (d : Z) (n : nat) : forall a,
  map (fun x => x + d) (positions_from a n) = positions_from (a + d) n.
Proof.
  induction n as [|n IH]; intros a; cbn [positions_from map]; [reflexivity|].
  rewrite IH. do 2 f_equal. lia.
Qed.

Lemma numbered_in_range (c ret : Z) (l : list node) (r : node) :
  numbered c l ret -> In r l -> c <= lft r < rght r /\ rght r <= ret.
Proof.
  intros (Hret & Hperm & Hlt) Hr.
  assert (Hl : In (lft r) (boundaries l)).
  { apply in_flat_map. exists r. split; [exact Hr | left; reflexivity]. }
  assert (Hg : In (rght r) (boundaries l)).
  { apply in_flat_map. exists r. split; [exact Hr | right; left; reflexivity]. }
  apply (Permutation_in _ Hperm) in Hl, Hg. apply positions_from_in in Hl, Hg.
  rewrite Forall_forall in Hlt. specialize (Hlt r Hr). lia.
Qed.

Lemma numbered_shift (d : Z) (g : node -> node) (c ret : Z) (l : list node) :
  (forall x, lft (g x) = lft x + d /\ rght (g x) = rght x + d) ->
  numbered c l ret -> numbered (c + d) (map g l) (ret + d).
Proof.
  intros Hg (Hret & Hperm & Hlt).
  assert (Hb : boundaries (map g l) = map (fun x => x + d) (boundaries l)).
  { clear Hret Hperm Hlt. induction l as [|r l IH]; [reflexivity|].
    cbn [map boundaries flat_map app]. fold (boundaries l) (boundaries (map g l)).
    rewrite IH. destruct (Hg r) as [-> ->]. reflexivity. }
  repeat split.
  - rewrite length_map. lia.
  - rewrite Hb, length_map, <- positions_shift. apply Permutation_map. exact Hperm.
  - rewrite Forall_map. eapply Forall_impl; [|exact Hlt].
    intros r Hr. cbn beta in *. destruct (Hg r) as [-> ->]. lia.
Qed.

Lemma filter_either {A : Type} (p q : A -> bool) (l : list A) :
  (forall x, p x = true -> q x = false) ->
  Permutation (filter (fun x => p x || q x) l) (filter p l ++ filter q l).
Proof.
  intros Hpq. induction l as [|x l IH]; [apply perm_nil|].
  cbn [filter]. destruct (p x) eqn:Ep; cbn [orb].
  - rewrite (Hpq x Ep). cbn [app]. apply perm_skip. exact IH.
  - destruct (q x); [|exact IH]. apply Permutation_cons_app. exact IH.
Qed.

Section Gain.

Variables size target R : Z.
Variable shifted : node -> node.
Hypothesis shifted_spec : forall r,
  lft (shifted r) = shift_above size target (lft r) /\
  rght (shifted r) = shift_above size target (rght r).
Variables old new : list node.
Hypothesis old_numbered : numbered 1 old R.
Hypothesis new_numbered : numbered (target + 1) new (target + size).
Hypothesis target_inside : 0 <= target <= R.

Lemma shifted_boundaries (l : list node) :
  boundaries (map shifted l) = map (shift_above size target) (boundaries l).
Proof.
  induction l as [|r l IH]; [reflexivity|].
  cbn [map boundaries flat_map app]. fold (boundaries l) (boundaries (map shifted l)).
  rewrite IH. destruct (shifted_spec r) as [-> ->]. reflexivity.
Qed.

(** The shifted rows of the tree together with the rows brought into the
    opening use the positions from 1 on without a gap. *)
Lemma gain_numbered (l : list node) :
  Permutation l (map shifted old ++ new) -> numbered 1 l (R + size).
Proof.
  intros Hl. destruct old_numbered as (HR & Hperm & Hlt).
  destruct new_numbered as (Hsize & Hpnew & Hltnew).
  assert (Hlen : List.length l = (List.length old + List.length new)%nat).
  { rewrite (Permutation_length Hl), length_app, length_map. reflexivity. }
  pose (a := Z.to_nat target).
  pose (b := (2 * List.length old - a)%nat).
  pose (m := (2 * List.length new)%nat).
  assert (Hab : (2 * List.length old = a + b)%nat) by (unfold a, b; lia).
  assert (Hm : (2 * List.length l = a + (m + b))%nat) by (unfold m; lia).
  repeat split.
  - lia.
  - rewrite Hm. rewrite !positions_from_app.
    eapply Permutation_trans;
      [apply (Permutation_flat_map (fun v => [lft v; rght v])); exact Hl|].
    fold (boundaries (map shifted old ++ new)).
    rewrite boundaries_app, shifted_boundaries.
    eapply Permutation_trans;
      [apply Permutation_app;
       [apply Permutation_map; exact Hperm | exact Hpnew]|].
    rewrite Hab, positions_from_app, map_app.
    rewrite (map_ext_in (shift_above size target) (fun x => x) (positions_from 1 a)).
    2:{ intros x Hx. apply positions_from_in in Hx. unfold shift_above.
        replace (x >? target) with false; [reflexivity | unfold a in Hx; lia]. }
    rewrite map_id.
    rewrite (map_ext_in (shift_above size target) (fun x => x + size)
               (positions_from (1 + Z.of_nat a) b)).
    2:{ intros x Hx. apply positions_from_in in Hx. unfold shift_above.
        replace (x >? target) with true; [reflexivity | unfold a in Hx; lia]. }
    rewrite positions_shift, <- app_assoc. apply Permutation_app_head.
    fold m. replace (target + 1) with (1 + Z.of_nat a) by (unfold a; lia).
    replace (1 + Z.of_nat a + Z.of_nat m) with (1 + Z.of_nat a + size)
      by (unfold m; lia).
    apply Permutation_app_comm.
  - eapply Permutation_Forall; [apply Permutation_sym; exact Hl|].
    apply Forall_app. split; [|exact Hltnew].
    rewrite Forall_map. eapply Forall_impl; [|exact Hlt].
    intros r Hr. cbn beta in *. destruct (shifted_spec r) as [-> ->].
    unfold shift_above.
    destruct (lft r >? target) eqn:E1, (rght r >? target) eqn:E2; lia.
Qed.

End Gain.

Lemma insertion_point_inside (t : node) (position : string) (R : Z) :
  1 <= lft t < rght t /\ rght t <= R ->
  0 <= insertion_point t position - 1 <= R.
Proof.
  unfold insertion_point. intros H.
  destruct (eqs position "last-child"); [lia|].
  destruct (eqs position "first-child"); [lia|].
  destruct (eqs position "left"); lia.
Qed.

(** X21. [_move_root_node] merges two gapless trees.  Outside a delayed
    scope, let the node start at 1 and the rows of its tree use the
    positions from 1 to its right exactly once each, let the rows of the
    target's tree use the positions from 1 to [R] exactly once each, and
    let the target's left and right lie in that range.  Then no row keeps
    the node's old tree id, the rows of the target's tree use exactly the
    positions from 1 to [R] plus the node's right, the returned node sits
    in the target's tree at the insertion point with its old width, and
    every other tree has the rows it had. *)
Theorem move_root_node_merges (nd : node) (target : inst) (position : string)
  (st st' : store) (n : node) (R : Z) :
  _move_root_node nd target position st = (st', Ok n) ->
  mptt_is_tracking st = false ->
  lft nd = 1 ->
  numbered 1 (tree_rows (tree_id nd) (rows st)) (rght nd) ->
  numbered 1 (tree_rows (tree_id (fields target)) (rows st)) R ->
  1 <= lft (fields target) < rght (fields target) /\ rght (fields target) <= R ->
  (forall r, In r (rows st') -> tree_id r <> tree_id nd) /\
  numbered 1 (tree_rows (tree_id (fields target)) (rows st')) (R + rght nd) /\
  tree_id n = tree_id (fields target) /\
  lft n = insertion_point (fields target) position /\
  rght n = lft n + rght nd - 1 /\
  (forall t, t <> tree_id nd -> t <> tree_id (fields target) ->
     tree_rows t (rows st') = tree_rows t (rows st)).
Proof.
  intros H Htr Hleft Hsrc Htgt Hb. unfold _move_root_node in H.
  destruct (node_eqb nd (fields target)); [discriminate|].
  destruct (tree_id nd =? tree_id (fields target)) eqn:Et; [discriminate|].
  apply Z.eqb_neq in Et.
  apply bind_ok in H. destruct H as (s1 & [[[[sp lc] lrc] par] rsh] & Hcalc & H).
  apply calculate_values_ok in Hcalc.
  destruct Hcalc as (-> & _ & Hsp & Hlrc & _ & _).
  apply bind_ok in H. destruct H as (s2 & [] & Hspace & H).
  apply (manage_space_rows _ _ _ _ _ _ Htr) in Hspace. destruct Hspace as [_ Hrows2].
  apply bind_ok in H. destruct H as (s3 & [] & Hexec & H).
  apply bind_ok in H. destruct H as (s4 & ppk & Hppk & H).
  assert (s4 = s3) by (destruct par; cbn in Hppk; inversion Hppk; reflexivity).
  subst s4. unfold ret in H. inversion H; subst st' n. clear H Hppk.
  unfold execute, modify in Hexec. inversion Hexec; subst s3. clear Hexec.
  cbn [rows with_rows lft rght tree_id set_parent set_tree_id set_level set_rght set_lft].
  unfold clean_tree_ids, sql_update. rewrite Hrows2, map_map.
  pose proof (insertion_point_inside (fields target) position R Hb) as Hip.
  rewrite <- Hsp in Hip.
  set (rs := rows st) in *. set (tid := tree_id nd) in *.
  set (new := tree_id (fields target)) in *.
  set (w := rght nd - lft nd + 1).
  set (sh := fun r : node =>
               set_rght (shift_above w sp (rght r))
                 (set_lft (shift_above w sp (lft r)) r)).
  set (mv := fun r : node =>
               mkNode (pk r) (parent r) (lft r - lrc) (rght r - lrc)
                 (level r - lc) new (okey r)).
  set (H := fun r : node =>
              if between (lft nd) (rght nd)
                   (lft (if tree_id r =? new then sh r else r))
                 && (tree_id (if tree_id r =? new then sh r else r) =? tid)
              then mv (if tree_id r =? new then sh r else r)
              else if tree_id r =? new then sh r else r).
  change (map _ rs) with (map H rs).
  assert (Hin : forall r, In r rs -> tree_id r = tid ->
                          between (lft nd) (rght nd) (lft r) = true).
  { intros r Hr Ht. apply between_true.
    assert (Hr' : In r (tree_rows tid rs)).
    { apply filter_In. split; [exact Hr | apply Z.eqb_eq; exact Ht]. }
    pose proof (numbered_in_range _ _ _ _ Hsrc Hr'). lia. }
  assert (Hnew : forall r, tree_id r = new -> H r = sh r).
  { intros r Ht. unfold H. rewrite Ht, Z.eqb_refl. cbn [tree_id sh set_rght set_lft].
    rewrite Ht. replace (new =? tid) with false by (symmetry; apply Z.eqb_neq; congruence).
    rewrite andb_false_r. reflexivity. }
  assert (Hold : forall r, In r rs -> tree_id r = tid -> H r = mv r).
  { intros r Hr Ht. unfold H. rewrite Ht.
    replace (tid =? new) with false by (symmetry; apply Z.eqb_neq; exact Et).
    rewrite (Hin r Hr Ht), Ht, Z.eqb_refl. reflexivity. }
  assert (Hrest : forall r, tree_id r <> new -> tree_id r <> tid -> H r = r).
  { intros r H1 H2. unfold H.
    replace (tree_id r =? new) with false by (symmetry; apply Z.eqb_neq; exact H1).
    replace (tree_id r =? tid) with false by (symmetry; apply Z.eqb_neq; exact H2).
    rewrite andb_false_r. reflexivity. }
  assert (Htree : forall r, In r rs ->
            tree_id (H r) = if tree_id r =? tid then new else tree_id r).
  { intros r Hr. destruct (tree_id r =? tid) eqn:E.
    - apply Z.eqb_eq in E. rewrite (Hold r Hr E). reflexivity.
    - apply Z.eqb_neq in E. destruct (Z.eq_dec (tree_id r) new) as [E' | E'].
      + rewrite (Hnew r E'). reflexivity.
      + rewrite (Hrest r E' E). reflexivity. }
  split; [|split; [|split; [|split; [|split]]]].
  - intros r Hr. apply in_map_iff in Hr. destruct Hr as (r0 & <- & Hr0).
    rewrite (Htree r0 Hr0). destruct (tree_id r0 =? tid) eqn:E.
    + congruence.
    + apply Z.eqb_neq. exact E.
  - replace (R + rght nd) with (R + w) by (unfold w; lia).
    apply (gain_numbered w sp R sh) with (old := tree_rows new rs)
                                         (new := map mv (tree_rows tid rs)).
    + intros r. split; reflexivity.
    + exact Htgt.
    + replace (sp + w) with (rght nd + sp) by (unfold w; lia).
      replace (sp + 1) with (1 + sp) by lia.
      apply numbered_shift; [|exact Hsrc].
      intros x. cbn [lft rght mv]. lia.
    + exact Hip.
    + unfold tree_rows at 1. rewrite filter_mapped.
      rewrite (filter_ext_in (fun x => tree_id (H x) =? new)
                 (fun x => (tree_id x =? new) || (tree_id x =? tid))).
      2:{ intros r Hr. rewrite (Htree r Hr).
          destruct (tree_id r =? tid) eqn:E;
            [rewrite Z.eqb_refl, orb_true_r | rewrite orb_false_r]; reflexivity. }
      eapply Permutation_trans.
      { apply Permutation_map. apply filter_either.
        intros x Hx. apply Z.eqb_eq in Hx. apply Z.eqb_neq. congruence. }
      rewrite map_app. apply Permutation_app.
      * unfold tree_rows.
        rewrite (map_ext_in H sh); [apply Permutation_refl|].
        intros r Hr. apply filter_In in Hr. destruct Hr as [_ Hr].
        apply Hnew. apply Z.eqb_eq. exact Hr.
      * unfold tree_rows.
        rewrite (map_ext_in H mv); [apply Permutation_refl|].
        intros r Hr. apply filter_In in Hr. destruct Hr as [Hr Ht].
        apply Hold; [exact Hr | apply Z.eqb_eq; exact Ht].
  - reflexivity.
  - lia.
  - lia.
  - intros t' H1 H2. unfold tree_rows. rewrite filter_mapped.
    rewrite (filter_ext_in (fun x => tree_id (H x) =? t') (fun x => tree_id x =? t')).
    + rewrite <- (map_id (filter _ rs)) at 2. apply map_ext_in.
      intros r Hr. apply filter_In in Hr. destruct Hr as [_ Hr].
      apply Z.eqb_eq in Hr. apply Hrest; congruence.
    + intros r Hr. rewrite (Htree r Hr). destruct (tree_id r =? tid) eqn:E;
        [|reflexivity].
      apply Z.eqb_eq in E. rewrite E.
      transitivity false; [|symmetry]; apply Z.eqb_neq; congruence.
Qed.

Lemma move_root_node_merges_witness :
  let st' := with_rows [mkNode (Some 1) None 1 8 0 1 0; node_B; node_C;
                        mkNode (Some 4) None 6 7 1 1 0] scenario_store in
  let n := mkNode (Some 4) (Some 1) 6 7 1 1 0 in
  (forall r, In r (rows st') -> tree_id r <> 2) /\
  numbered 1 (tree_rows 1 (rows st')) (6 + 2) /\
  tree_id n = 1 /\
  lft n = insertion_point node_A "last-child" /\
  rght n = lft n + 2 - 1 /\
  (forall t, t <> 2 -> t <> 1 -> tree_rows t (rows st') = tree_rows t (rows scenario_store)).
Proof.
  apply (move_root_node_merges node_D (Inst node_A []) "last-child" scenario_store
           (with_rows [mkNode (Some 1) None 1 8 0 1 0; node_B; node_C;
                       mkNode (Some 4) None 6 7 1 1 0] scenario_store)
           (mkNode (Some 4) (Some 1) 6 7 1 1 0) 6).
  - reflexivity.
  - reflexivity.
  - reflexivity.
  - repeat split; cbn; [apply Permutation_refl | repeat constructor].
  - repeat split; cbn;
      [apply perm_skip; apply (Permutation_cons_append [2; 3; 4; 5] 6)
      | repeat constructor].
  - cbn. lia.
Defined.

(** X22. [_move_child_to_new_tree] keeps both trees gapless.  Outside a
    delayed scope, let the node and the target be in different trees,
    let the rows of the node's tree use the positions from 1 to [Rs]
    exactly once each with none of them lying across the node's interval,
    let the rows of the target's tree use the positions from 1 to [Rt]
    exactly once each, and let the target's left and right lie in that
    range.  Then the rows left in the node's tree use exactly the
    positions from 1 to [Rs] less the node's width, the rows of the
    target's tree use exactly the positions from 1 to [Rt] plus that
    width, the returned node sits in the target's tree at the insertion
    point with its old width, and every other tree has the rows it had. *)
Theorem move_child_to_new_tree_keeps_numbering (nd : node) (target : inst)
  (position : string) (st st' : store) (n : node) (Rs Rt : Z) :
  _move_child_to_new_tree nd target position st = (st', Ok n) ->
  mptt_is_tracking st = false ->
  tree_id nd <> tree_id (fields target) ->
  1 <= lft nd <= rght nd /\ rght nd <= Rs ->
  numbered 1 (tree_rows (tree_id nd) (rows st)) Rs ->
  (forall r, In r (rows st) -> tree_id r = tree_id nd ->
     (lft nd <= lft r <= rght nd <-> lft nd <= rght r <= rght nd)) ->
  numbered 1 (tree_rows (tree_id (fields target)) (rows st)) Rt ->
  1 <= lft (fields target) < rght (fields target) /\ rght (fields target) <= Rt ->
  numbered 1 (tree_rows (tree_id nd) (rows st')) (Rs - (rght nd - lft nd + 1)) /\
  numbered 1 (tree_rows (tree_id (fields target)) (rows st'))
    (Rt + (rght nd - lft nd + 1)) /\
  tree_id n = tree_id (fields target) /\
  lft n = insertion_point (fields target) position /\
  rght n = lft n + (rght nd - lft nd) /\
  (forall t, t <> tree_id nd -> t <> tree_id (fields target) ->
     tree_rows t (rows st') = tree_rows t (rows st)).
Proof.
  intros H Htr Et Hbs Hsrc Hwhole Htgt Hbt. unfold _move_child_to_new_tree in H.
  apply bind_ok in H. destruct H as (s1 & [[[[sp lc] lrc] par] nr] & Hcalc & H).
  apply calculate_values_ok in Hcalc.
  destruct Hcalc as (-> & _ & Hsp & Hlrc & _ & _).
  apply bind_ok in H. destruct H as (s2 & [] & Hspace & H).
  apply (manage_space_rows _ _ _ _ _ _ Htr) in Hspace. destruct Hspace as [_ Hrows2].
  apply bind_ok in H. destruct H as (s3 & [] & Hexec & H).
  apply bind_ok in H. destruct H as (s4 & ppk & Hppk & H).
  assert (s4 = s3) by (destruct par; cbn in Hppk; inversion Hppk; reflexivity).
  subst s4. unfold ret in H. inversion H; subst st' n. clear H Hppk.
  unfold _inter_tree_move_and_close_gap, execute, modify in Hexec.
  inversion Hexec; subst s3. clear Hexec.
  cbn [rows with_rows lft rght tree_id set_parent set_tree_id set_level set_rght set_lft].
  unfold clean_tree_ids, sql_update. rewrite Hrows2, map_map.
  pose proof (insertion_point_inside (fields target) position Rt Hbt) as Hip.
  rewrite <- Hsp in Hip.
  set (rs := rows st) in *. set (tid := tree_id nd) in *.
  set (new := tree_id (fields target)) in *.
  set (w := rght nd - lft nd + 1).
  set (q := between (lft nd) (rght nd)).
  set (sh := fun r : node =>
               set_rght (shift_above w sp (rght r))
                 (set_lft (shift_above w sp (lft r)) r)).
  set (f := fun r : node =>
              mkNode (pk r) (parent r)
                (lifted (lft nd) (rght nd) lrc (lft r))
                (lifted (lft nd) (rght nd) lrc (rght r))
                (if q (lft r) then level r - lc else level r)
                (if q (lft r) then new else tree_id r) (okey r)).
  set (H := fun r : node =>
              if tree_id (if tree_id r =? new then sh r else r) =? tid
              then f (if tree_id r =? new then sh r else r)
              else if tree_id r =? new then sh r else r).
  change (map _ rs) with (map H rs).
  assert (Hw : forall r, In r (tree_rows tid rs) -> q (rght r) = q (lft r)).
  { intros r Hr. apply filter_In in Hr. destruct Hr as [Hr Ht].
    apply Z.eqb_eq in Ht. specialize (Hwhole r Hr Ht).
    unfold q, between.
    destruct (lft nd <=? lft r) eqn:E1, (lft r <=? rght nd) eqn:E2,
             (lft nd <=? rght r) eqn:E3, (rght r <=? rght nd) eqn:E4;
      try reflexivity; exfalso;
      rewrite ?Z.leb_le, ?Z.leb_gt in E1, E2, E3, E4; lia. }
  assert (Hnew : forall r, tree_id r = new -> H r = sh r).
  { intros r Ht. unfold H. rewrite Ht, Z.eqb_refl. cbn [tree_id sh set_rght set_lft].
    rewrite Ht. replace (new =? tid) with false by (symmetry; apply Z.eqb_neq; congruence).
    reflexivity. }
  assert (Hold : forall r, tree_id r = tid -> H r = f r).
  { intros r Ht. unfold H. rewrite Ht.
    replace (tid =? new) with false by (symmetry; apply Z.eqb_neq; exact Et).
    rewrite Ht, Z.eqb_refl. reflexivity. }
  assert (Hrest : forall r, tree_id r <> new -> tree_id r <> tid -> H r = r).
  { intros r H1 H2. unfold H.
    replace (tree_id r =? new) with false by (symmetry; apply Z.eqb_neq; exact H1).
    replace (tree_id r =? tid) with false by (symmetry; apply Z.eqb_neq; exact H2).
    reflexivity. }
  assert (Htree : forall r,
            tree_id (H r) = if tree_id r =? tid
                            then (if q (lft r) then new else tid)
                            else tree_id r).
  { intros r. destruct (tree_id r =? tid) eqn:E.
    - apply Z.eqb_eq in E. rewrite (Hold r E). cbn [tree_id f]. rewrite E. reflexivity.
    - apply Z.eqb_neq in E. destruct (Z.eq_dec (tree_id r) new) as [E' | E'].
      + rewrite (Hnew r E'). reflexivity.
      + rewrite (Hrest r E' E). reflexivity. }
  split; [|split; [|split; [|split; [|split]]]].
  - unfold tree_rows at 1. rewrite filter_mapped.
    rewrite (filter_ext (fun x => tree_id (H x) =? tid)
               (fun x => (tree_id x =? tid) && negb (q (lft x)))).
    2:{ intros r. rewrite (Htree r). destruct (tree_id r =? tid) eqn:E; cbn [andb].
        - destruct (q (lft r)); cbn [negb]; [|apply Z.eqb_refl].
          apply Z.eqb_neq. congruence.
        - exact E. }
    rewrite filter_both. fold (tree_rows tid rs).
    rewrite (map_ext_in H f).
    2:{ intros r Hr. apply filter_In in Hr. destruct Hr as [Hr _].
        apply filter_In in Hr. destruct Hr as [_ Hr]. apply Hold.
        apply Z.eqb_eq. exact Hr. }
    apply (left_numbered (lft nd) (rght nd) lrc _ _ (tree_rows tid rs) Rs Hbs Hsrc Hw).
  - apply (gain_numbered w sp Rt sh) with
      (old := tree_rows new rs)
      (new := map f (filter (fun r => q (lft r)) (tree_rows tid rs))).
    + intros r. split; reflexivity.
    + exact Htgt.
    + replace (sp + 1) with (lft nd - lrc) by lia.
      replace (sp + w) with (rght nd - lrc) by (unfold w; lia).
      apply (taken_numbered (lft nd) (rght nd) lrc _ _ (tree_rows tid rs) Rs
               Hbs Hsrc Hw).
    + exact Hip.
    + unfold tree_rows at 1. rewrite filter_mapped.
      rewrite (filter_ext (fun x => tree_id (H x) =? new)
                 (fun x => (tree_id x =? new) || ((tree_id x =? tid) && q (lft x)))).
      2:{ intros r. rewrite (Htree r). destruct (tree_id r =? tid) eqn:E; cbn [andb].
          - apply Z.eqb_eq in E.
            replace (tree_id r =? new) with false
              by (symmetry; apply Z.eqb_neq; congruence).
            cbn [orb]. destruct (q (lft r)); [apply Z.eqb_refl|].
            apply Z.eqb_neq. exact Et.
          - rewrite orb_false_r. reflexivity. }
      eapply Permutation_trans.
      { apply Permutation_map.
        apply (filter_either (fun x => tree_id x =? new)
                 (fun x => (tree_id x =? tid) && q (lft x))).
        intros x Hx. apply Z.eqb_eq in Hx.
        replace (tree_id x =? tid) with false; [reflexivity|].
        symmetry. apply Z.eqb_neq. congruence. }
      rewrite map_app. apply Permutation_app.
      * unfold tree_rows.
        rewrite (map_ext_in H sh); [apply Permutation_refl|].
        intros r Hr. apply filter_In in Hr. destruct Hr as [_ Hr].
        apply Hnew. apply Z.eqb_eq. exact Hr.
      * rewrite filter_both. fold (tree_rows tid rs).
        rewrite (map_ext_in H f); [apply Permutation_refl|].
        intros r Hr. apply filter_In in Hr. destruct Hr as [Hr _].
        apply filter_In in Hr. destruct Hr as [_ Hr]. apply Hold.
        apply Z.eqb_eq. exact Hr.
  - reflexivity.
  - lia.
  - lia.
  - intros t' H1 H2. unfold tree_rows. rewrite filter_mapped.
    rewrite (filter_ext (fun x => tree_id (H x) =? t') (fun x => tree_id x =? t')).
    + rewrite <- (map_id (filter _ rs)) at 2. apply map_ext_in.
      intros r Hr. apply filter_In in Hr. destruct Hr as [_ Hr].
      apply Z.eqb_eq in Hr. apply Hrest; congruence.
    + intros r. rewrite (Htree r). destruct (tree_id r =? tid) eqn:E; [|reflexivity].
      apply Z.eqb_eq in E. rewrite E.
      destruct (q (lft r)); (transitivity false; [|symmetry]);
        apply Z.eqb_neq; congruence.
Qed.

Lemma move_child_to_new_tree_keeps_numbering_witness :
  let st' := with_rows [mkNode (Some 1) None 1 4 0 1 0;
                        mkNode (Some 2) (Some 1) 2 3 1 2 0;
                        mkNode (Some 3) (Some 1) 2 3 1 1 0;
                        mkNode (Some 4) None 1 4 0 2 0] scenario_store in
  let n := mkNode (Some 2) (Some 4) 2 3 1 2 0 in
  numbered 1 (tree_rows 1 (rows st')) (6 - (3 - 2 + 1)) /\
  numbered 1 (tree_rows 2 (rows st')) (2 + (3 - 2 + 1)) /\
  tree_id n = 2 /\
  lft n = insertion_point node_D "first-child" /\
  rght n = lft n + (3 - 2) /\
  (forall t, t <> 1 -> t <> 2 -> tree_rows t (rows st') = tree_rows t (rows scenario_store)).
Proof.
  apply (move_child_to_new_tree_keeps_numbering node_B (Inst node_D []) "first-child"
           scenario_store
           (with_rows [mkNode (Some 1) None 1 4 0 1 0;
                       mkNode (Some 2) (Some 1) 2 3 1 2 0;
                       mkNode (Some 3) (Some 1) 2 3 1 1 0;
                       mkNode (Some 4) None 1 4 0 2 0] scenario_store)
           (mkNode (Some 2) (Some 4) 2 3 1 2 0) 6 2).
  - reflexivity.
  - reflexivity.
  - cbn. lia.
  - cbn. lia.
  - repeat split; cbn;
      [apply perm_skip; apply (Permutation_cons_append [2; 3; 4; 5] 6)
      | repeat constructor].
  - intros r [<- | [<- | [<- | [<- | []]]]]; cbn; lia.
  - repeat split; cbn; [apply Permutation_refl | repeat constructor].
  - cbn. lia.
Defined.

(** * Moves inside a gapless tree *)

(** Where [_move_child_within_tree] puts the node when the target is
    outside the node's interval. *)
Lemma move_child_within_tree_place (nd : node) (target : inst) (position : string)
  (st st' : store) (n : node) (R : Z) :
  _move_child_within_tree nd target position st = (st', Ok n) ->
  1 <= lft nd <= rght nd /\ rght nd <= R ->
  1 <= lft (fields target) < rght (fields target) /\ rght (fields target) <= R ->
  lft (fields target) < lft nd \/ rght nd < lft (fields target) ->
  rght (fields target) < lft nd \/ rght nd < rght (fields target) ->
  1 <= lft n /\ lft n + (rght nd - lft nd) <= R.
Proof.
  unfold _move_child_within_tree. intros H Hb Ht Hl Hr.
  apply bind_ok in H. destruct H as (s1 & [[[nl nr] lc] par] & Hvals & H).
  assert (Hv : 1 <= nl /\ nl + (rght nd - lft nd) <= R).
  { clear H. unfold is_child_position, is_sibling_position in Hvals.
    destruct (eqs position "last-child" || eqs position "first-child").
    - destruct (node_eqb nd (fields target)); [discriminate|].
      destruct ((lft nd <? lft (fields target)) && (lft (fields target) <? rght nd));
        [discriminate|].
      destruct (eqs position "last-child");
        [destruct (rght (fields target) >? rght nd) eqn:E
        |destruct (lft (fields target) >? lft nd) eqn:E];
        unfold ret in Hvals; inversion Hvals; subst; lia.
    - destruct (eqs position "left" || eqs position "right"); [|discriminate].
      destruct (node_eqb nd (fields target)); [discriminate|].
      destruct ((lft nd <? lft (fields target)) && (lft (fields target) <? rght nd));
        [discriminate|].
      destruct (eqs position "left");
        [destruct (lft (fields target) >? lft nd) eqn:E
        |destruct (rght (fields target) >? rght nd) eqn:E];
        apply bind_ok in Hvals; destruct Hvals as (s2 & q & Hq & Hvals);
        unfold ret in Hvals; inversion Hvals; subst; lia. }
  apply bind_ok in H. destruct H as (s2 & [] & Hexec & H).
  apply bind_ok in H. destruct H as (s3 & ppk & Hppk & H).
  unfold ret in H. inversion H; subst st' n.
  cbn [lft set_parent set_level set_rght set_lft]. exact Hv.
Qed.

Lemma rotate_in_range (left right new_left R x : Z) :
  1 <= left <= right /\ right <= R ->
  1 <= new_left /\ new_left + (right - left) <= R ->
  1 <= x <= R -> 1 <= rotate left right new_left x <= R.
Proof.
  intros Hb Hn Hx. unfold rotate, between.
  destruct (new_left - left >? 0) eqn:Ec;
    repeat match goal with
           | |- context [?a <=? ?b] =>
               let E := fresh "E" in
               destruct (a <=? b) eqn:E
           end; cbn [andb]; lia.
Qed.

Lemma rotate_keeps_order (left right new_left x y : Z) :
  left <= right ->
  (left <= x <= right <-> left <= y <= right) ->
  x < y -> rotate left right new_left x < rotate left right new_left y.
Proof.
  intros Hlr Hxy Hlt. unfold rotate, between.
  destruct (new_left - left >? 0) eqn:Ec;
    repeat match goal with
           | |- context [?a <=? ?b] =>
               let E := fresh "E" in
               destruct (a <=? b) eqn:E
           end; cbn [andb]; lia.
Qed.

(** X23. [_move_child_within_tree] keeps a gapless tree gapless.  Let the
    rows of the node's tree use the positions from 1 to [R] exactly once
    each with none of them lying across the node's interval, and let the
    target's left and right lie in that range and outside the node's
    interval.  Then after the move the rows of the tree again use exactly
    the positions from 1 to [R], the returned node lies in that range
    with its old width, and every other tree has the rows it had. *)
Theorem move_child_within_tree_keeps_numbering (nd : node) (target : inst)
  (position : string) (st st' : store) (n : node) (R : Z) :
  _move_child_within_tree nd target position st = (st', Ok n) ->
  1 <= lft nd <= rght nd /\ rght nd <= R ->
  numbered 1 (tree_rows (tree_id nd) (rows st)) R ->
  (forall r, In r (rows st) -> tree_id r = tree_id nd ->
     (lft nd <= lft r <= rght nd <-> lft nd <= rght r <= rght nd)) ->
  1 <= lft (fields target) < rght (fields target) /\ rght (fields target) <= R ->
  lft (fields target) < lft nd \/ rght nd < lft (fields target) ->
  rght (fields target) < lft nd \/ rght nd < rght (fields target) ->
  numbered 1 (tree_rows (tree_id nd) (rows st')) R /\
  1 <= lft n /\ rght n <= R /\ rght n - lft n = rght nd - lft nd /\
  (forall t, t <> tree_id nd -> tree_rows t (rows st') = tree_rows t (rows st)).
Proof.
  intros H Hb Hnum Hwhole Ht Hl Hr.
  pose proof (move_child_within_tree_place nd target position st st' n R H Hb Ht Hl Hr)
    as Hplace.
  destruct (move_child_within_tree_ok nd target position st st' n H)
    as (nl & lc & Hnl & Hnr & _ & _ & _ & _ & ->).
  subst nl. cbn [rows with_rows].
  set (rs := rows st) in *. set (tid := tree_id nd) in *.
  set (pi := rotate (lft nd) (rght nd) (lft n)).
  set (rot := fun r : node =>
                mkNode (pk r) (parent r) (pi (lft r)) (pi (rght r))
                  (if between (lft nd) (rght nd) (lft r) then level r - lc else level r)
                  (tree_id r) (okey r)).
  set (F := fun r : node => if tree_id r =? tid then rot r else r).
  change (map _ rs) with (map F rs).
  assert (Htree : forall r, tree_id (F r) = tree_id r).
  { intros r. unfold F. destruct (tree_id r =? tid); reflexivity. }
  assert (Hrows : forall t, tree_rows t (map F rs) = map F (tree_rows t rs)).
  { intros t. unfold tree_rows. rewrite filter_mapped. f_equal.
    apply filter_ext. intros r. rewrite Htree. reflexivity. }
  split; [|split; [lia|split; [lia|split; [lia|]]]].
  - rewrite Hrows.
    rewrite (map_ext_in F rot).
    2:{ intros r Hrr. apply filter_In in Hrr. destruct Hrr as [_ Hrr].
        unfold F. rewrite Hrr. reflexivity. }
    destruct Hnum as (HR & Hperm & Hlt).
    assert (Hbd : forall l, boundaries (map rot l) = map pi (boundaries l)).
    { induction l as [|r l IH]; [reflexivity|].
      cbn [map boundaries flat_map app]. fold (boundaries l) (boundaries (map rot l)).
      rewrite IH. reflexivity. }
    repeat split.
    + rewrite length_map. exact HR.
    + rewrite Hbd, length_map.
      eapply Permutation_trans; [apply Permutation_map; exact Hperm|].
      apply NoDup_Permutation_bis.
      * apply nodup_image; [|apply positions_nodup].
        intros x y _ _. apply rotate_injective. lia.
      * rewrite length_map. apply Nat.le_refl.
      * intros x Hx. apply in_map_iff in Hx. destruct Hx as (y & <- & Hy).
        apply positions_from_in in Hy. apply positions_from_in.
        pose proof (rotate_in_range (lft nd) (rght nd) (lft n) R y Hb Hplace) as Hin.
        fold pi in Hin. lia.
    + rewrite Forall_map, Forall_forall. intros r Hrr.
      rewrite Forall_forall in Hlt. specialize (Hlt r Hrr).
      apply filter_In in Hrr. destruct Hrr as [Hrr Htid]. apply Z.eqb_eq in Htid.
      cbn [lft rght rot]. apply rotate_keeps_order; [lia | | exact Hlt].
      apply Hwhole; assumption.
  - intros t Hne. rewrite Hrows.
    rewrite <- (map_id (tree_rows t rs)) at 2. apply map_ext_in.
    intros r Hrr. apply filter_In in Hrr. destruct Hrr as [_ Hrr].
    apply Z.eqb_eq in Hrr. unfold F.
    replace (tree_id r =? tid) with false; [reflexivity|].
    symmetry. apply Z.eqb_neq. congruence.
Qed.

Lemma move_child_within_tree_keeps_numbering_witness :
  let st' := with_rows [node_A; mkNode (Some 2) (Some 1) 4 5 1 1 0;
                        mkNode (Some 3) (Some 1) 2 3 1 1 0; node_D] scenario_store in
  let n := mkNode (Some 2) (Some 1) 4 5 1 1 0 in
  numbered 1 (tree_rows 1 (rows st')) 6 /\
  1 <= lft n /\ rght n <= 6 /\ rght n - lft n = 3 - 2 /\
  (forall t, t <> 1 -> tree_rows t (rows st') = tree_rows t (rows scenario_store)).
Proof.
  apply (move_child_within_tree_keeps_numbering node_B (Inst node_C []) "right"
           scenario_store
           (with_rows [node_A; mkNode (Some 2) (Some 1) 4 5 1 1 0;
                       mkNode (Some 3) (Some 1) 2 3 1 1 0; node_D] scenario_store)
           (mkNode (Some 2) (Some 1) 4 5 1 1 0) 6).
  - reflexivity.
  - cbn. lia.
  - repeat split; cbn;
      [apply perm_skip; apply (Permutation_cons_append [2; 3; 4; 5] 6)
      | repeat constructor].
  - intros r [<- | [<- | [<- | [<- | []]]]]; cbn; lia.
  - cbn. lia.
  - cbn. lia.
  - cbn. lia.
Defined.

(** * Reordering root nodes *)

Lemma renumber_injective (tid new_tid x y : Z) :
  renumber tid new_tid x = renumber tid new_tid y -> x = y.
Proof.
  unfold renumber, between.
  destruct (tid <? new_tid) eqn:Ec;
    repeat match goal with
           | |- context [?a <=? ?b] =>
               let E := fresh "E" in destruct (a <=? b) eqn:E
           | |- context [?a =? ?b] =>
               let E := fresh "E" in destruct (a =? b) eqn:E
           end; cbn [andb]; lia.
Qed.

Lemma renumber_same (tid x : Z) : renumber tid tid x = x.
Proof.
  unfold renumber, between. rewrite Z.ltb_irrefl.
  destruct (Z.min tid tid <=? x) eqn:E1, (x <=? Z.max tid tid) eqn:E2,
           (x =? tid) eqn:E3; cbn [andb]; lia.
Qed.

Lemma picked_in (pick : option node -> node -> option node) (l : list node) :
  (forall acc r, pick acc r = acc \/ pick acc r = Some r) ->
  forall acc s, fold_left pick l acc = Some s -> acc = Some s \/ In s l.
Proof.
  intros Hpick. induction l as [|r l IH]; intros acc s H; cbn in H; [left; exact H|].
  destruct (IH _ _ H) as [Hacc | Hin]; [|right; right; exact Hin].
  destruct (Hpick acc r) as [E | E]; rewrite E in Hacc.
  - left. exact Hacc.
  - inversion Hacc. right. left. reflexivity.
Qed.

Lemma pick_max_in (key : node -> Z) (l : list node) (s : node) :
  pick_max key l = Some s -> In s l.
Proof.
  unfold pick_max. intros H. apply picked_in in H.
  - destruct H as [H | H]; [discriminate | exact H].
  - intros [b|] r; [destruct (key r >? key b)|]; auto.
Qed.

Lemma pick_min_in (key : node -> Z) (l : list node) (s : node) :
  pick_min key l = Some s -> In s l.
Proof.
  unfold pick_min. intros H. apply picked_in in H.
  - destruct H as [H | H]; [discriminate | exact H].
  - intros [b|] r; [destruct (key r <? key b)|]; auto.
Qed.

(** The tree id a root is given, the range of ids the query touches, and
    on which side of the target the node's tree comes to lie. *)
Lemma sibling_plan (target : inst) (position : string) (nd : node) (st s1 : store)
  (plan : option (Z * Z * Z * Z)) :
  is_root_node nd = true -> In nd (rows st) ->
  tree_id nd <> tree_id (fields target) ->
  (if eqs position "left"
   then
     if tree_id (fields target) >? tree_id nd
     then
       left_sibling <- get_previous_sibling (fields target) ;;
       match left_sibling with
       | Some s =>
           if node_eqb nd s then ret None
           else ret (Some (tree_id s, tree_id nd, tree_id s, -1))
       | None => raise AttributeError
       end
     else ret (Some (tree_id (fields target), tree_id (fields target), tree_id nd, 1))
   else if eqs position "right"
   then
     if tree_id (fields target) >? tree_id nd
     then ret (Some (tree_id (fields target), tree_id nd, tree_id (fields target), -1))
     else
       right_sibling <- get_next_sibling (fields target) ;;
       match right_sibling with
       | Some s =>
           if node_eqb nd s then ret None
           else ret (Some (tree_id s, tree_id s, tree_id nd, 1))
       | None => raise AttributeError
       end
   else raise (invalid_position position)) st = (s1, Ok plan) ->
  s1 = st /\
  let new_tid := match plan with
                 | Some (new_tid, _, _, _) => new_tid
                 | None => tree_id nd
                 end in
  match plan with
  | None => True
  | Some (_, lower, upper, shift) =>
      (shift = -1 /\ lower = tree_id nd /\ upper = new_tid /\ tree_id nd <= new_tid) \/
      (shift = 1 /\ lower = new_tid /\ upper = tree_id nd /\ new_tid <= tree_id nd)
  end /\
  (if eqs position "left"
   then new_tid < renumber (tree_id nd) new_tid (tree_id (fields target))
   else renumber (tree_id nd) new_tid (tree_id (fields target)) < new_tid).
Proof.
  intros Hroot Hin Hne Hplan. unfold get_previous_sibling, get_next_sibling in Hplan.
  assert (Hout : forall s, tree_id nd <= s < tree_id (fields target) \/
                           tree_id (fields target) < s <= tree_id nd ->
                           renumber (tree_id nd) s (tree_id (fields target))
                           = tree_id (fields target)).
  { intros s Hs. unfold renumber, between.
    destruct (Z.min (tree_id nd) s <=? tree_id (fields target)) eqn:E1,
             (tree_id (fields target) <=? Z.max (tree_id nd) s) eqn:E2;
      cbn [andb]; try reflexivity; lia. }
  assert (Hat : renumber (tree_id nd) (tree_id (fields target)) (tree_id (fields target))
                = if tree_id nd <? tree_id (fields target)
                  then tree_id (fields target) - 1 else tree_id (fields target) + 1).
  { unfold renumber, between.
    destruct (Z.min (tree_id nd) (tree_id (fields target)) <=? tree_id (fields target))
      eqn:E1,
      (tree_id (fields target) <=? Z.max (tree_id nd) (tree_id (fields target))) eqn:E2,
      (tree_id (fields target) =? tree_id nd) eqn:E3; cbn [andb]; try reflexivity; lia. }
  destruct (eqs position "left").
  - destruct (tree_id (fields target) >? tree_id nd) eqn:Eg.
    + apply bind_ok in Hplan. destruct Hplan as (s2 & sib & Hsib & Hplan).
      apply bind_ok in Hsib. destruct Hsib as (s3 & st0 & Hget & Hsib).
      unfold get in Hget. inversion Hget; subst s3 st0. clear Hget.
      unfold ret in Hsib. inversion Hsib; subst s2 sib. clear Hsib.
      destruct (pick_max tree_id _) as [s|] eqn:Epick; [|discriminate].
      assert (Hlow : tree_id nd <= tree_id s).
      { apply (pick_max_bound _ _ _ Epick nd).
        apply filter_In. split; [exact Hin|]. rewrite Hroot. cbn [andb]. lia. }
      assert (Hup : tree_id s < tree_id (fields target)).
      { apply pick_max_in in Epick. apply filter_In in Epick.
        destruct Epick as [_ Hs]. apply andb_true_iff in Hs. lia. }
      destruct (node_eqb nd s); unfold ret in Hplan; inversion Hplan; subst;
        (split; [reflexivity|]); cbn zeta.
      * split; [exact I|]. rewrite renumber_same. lia.
      * split; [left; repeat split; exact Hlow|]. rewrite Hout by lia. exact Hup.
    + unfold ret in Hplan. inversion Hplan; subst. split; [reflexivity|]. cbn zeta.
      split; [right; repeat split; lia|]. rewrite Hat.
      destruct (tree_id nd <? tree_id (fields target)) eqn:E; lia.
  - destruct (eqs position "right"); [|discriminate].
    destruct (tree_id (fields target) >? tree_id nd) eqn:Eg.
    + unfold ret in Hplan. inversion Hplan; subst. split; [reflexivity|]. cbn zeta.
      split; [left; repeat split; lia|]. rewrite Hat.
      destruct (tree_id nd <? tree_id (fields target)) eqn:E; lia.
    + apply bind_ok in Hplan. destruct Hplan as (s2 & sib & Hsib & Hplan).
      apply bind_ok in Hsib. destruct Hsib as (s3 & st0 & Hget & Hsib).
      unfold get in Hget. inversion Hget; subst s3 st0. clear Hget.
      unfold ret in Hsib. inversion Hsib; subst s2 sib. clear Hsib.
      destruct (pick_min tree_id _) as [s|] eqn:Epick; [|discriminate].
      assert (Hup : tree_id s <= tree_id nd).
      { apply (pick_min_bound _ _ _ Epick nd).
        apply filter_In. split; [exact Hin|]. rewrite Hroot. cbn [andb]. lia. }
      assert (Hlow : tree_id (fields target) < tree_id s).
      { apply pick_min_in in Epick. apply filter_In in Epick.
        destruct Epick as [_ Hs]. apply andb_true_iff in Hs. lia. }
      destruct (node_eqb nd s); unfold ret in Hplan; inversion Hplan; subst;
        (split; [reflexivity|]); cbn zeta.
      * split; [exact I|]. rewrite renumber_same. lia.
      * split; [right; repeat split; exact Hup|]. rewrite Hout by lia. exact Hlow.
Qed.

(** X24. When [_make_sibling_of_root_node] returns for a root that is in
    the table and whose tree id is not the target's, it has sent the tree
    id of every row through one map and changed nothing else.  The map
    never brings two tree ids together, takes the node's tree id to the
    one the returned node carries, leaves every id outside the range of
    these two alone, and puts the node's tree before the target's for
    position left and after it for position right. *)
Theorem make_sibling_of_root_renumbers (opts : mptt_meta) (nd : node) (target : inst)
  (position : string) (st st' : store) (n : node) :
  is_root_node nd = true ->
  In nd (rows st) ->
  tree_id nd <> tree_id (fields target) ->
  _make_sibling_of_root_node opts nd target position st = (st', Ok n) ->
  let sigma := renumber (tree_id nd) (tree_id n) in
  (forall x y, sigma x = sigma y -> x = y) /\
  sigma (tree_id nd) = tree_id n /\
  (forall x, x < Z.min (tree_id nd) (tree_id n) \/
             Z.max (tree_id nd) (tree_id n) < x -> sigma x = x) /\
  (if eqs position "left"
   then tree_id n < sigma (tree_id (fields target))
   else sigma (tree_id (fields target)) < tree_id n) /\
  Forall2 (fun r r' => r' = set_tree_id (sigma (tree_id r)) r) (rows st) (rows st').
Proof.
  intros Hroot Hin Hne H. cbn zeta. unfold _make_sibling_of_root_node in H.
  destruct (node_eqb nd (fields target)); [discriminate|].
  unfold is_child_node in H. rewrite Hroot in H. cbn [negb] in H.
  apply bind_ok in H. destruct H as (s1 & plan & Hplan & H).
  apply (sibling_plan target position nd st s1 plan Hroot Hin Hne) in Hplan.
  destruct Hplan as (-> & Hbounds & Hside). cbn zeta in Hbounds, Hside.
  assert (Hfix : forall a b x, x < Z.min a b \/ Z.max a b < x -> renumber a b x = x).
  { intros a b x Hx. unfold renumber, between.
    destruct (Z.min a b <=? x) eqn:E1, (x <=? Z.max a b) eqn:E2; cbn [andb];
      try reflexivity; lia. }
  assert (Hnode : forall a b, renumber a b a = b).
  { intros a b. unfold renumber, between. rewrite Z.eqb_refl.
    destruct (Z.min a b <=? a) eqn:E1, (a <=? Z.max a b) eqn:E2; cbn [andb];
      try reflexivity; lia. }
  destruct plan as [[[[new_tid lower] upper] shift]|].
  - apply bind_ok in H. destruct H as (s2 & [] & Hexec & H).
    unfold ret in H. inversion H; subst st' n. clear H.
    unfold execute, modify in Hexec. inversion Hexec; subst s2. clear Hexec.
    cbn [tree_id set_tree_id rows with_rows]. unfold clean_tree_ids, sql_update.
    split; [intros x y; apply renumber_injective|].
    split; [apply Hnode|]. split; [apply Hfix|]. split; [exact Hside|].
    apply Forall2_mapped. intros r _.
    destruct (between lower upper (tree_id r)) eqn:Eb.
    + f_equal. unfold renumber.
      replace (between (Z.min (tree_id nd) new_tid) (Z.max (tree_id nd) new_tid)
                 (tree_id r)) with true
        by (unfold between in *; destruct Hbounds as [Hc | Hc]; lia).
      destruct (tree_id r =? tree_id nd) eqn:E; [reflexivity|].
      unfold between in Eb. destruct Hbounds as [Hc | Hc];
        destruct (tree_id nd <? new_tid) eqn:E'; lia.
    + rewrite Hfix; [destruct r; reflexivity|].
      unfold between in Eb. destruct Hbounds as [Hc | Hc]; lia.
  - unfold ret in H. inversion H; subst st' n.
    split; [intros x y; apply renumber_injective|].
    split; [apply Hnode|]. split; [apply Hfix|]. split; [exact Hside|].
    rewrite <- (map_id (rows st)) at 2. apply Forall2_mapped. intros r _.
    rewrite renumber_same. destruct r; reflexivity.
Qed.

Lemma make_sibling_of_root_renumbers_witness :
  let sigma := renumber 2 1 in
  (forall x y, sigma x = sigma y -> x = y) /\
  sigma 2 = 1 /\
  (forall x, x < Z.min 2 1 \/ Z.max 2 1 < x -> sigma x = x) /\
  1 < sigma 1 /\
  Forall2 (fun r r' => r' = set_tree_id (sigma (tree_id r)) r)
    (rows scenario_store)
    [set_tree_id 2 node_A; set_tree_id 2 node_B; set_tree_id 2 node_C;
     set_tree_id 1 node_D].
Proof.
  apply (make_sibling_of_root_renumbers sequential_opts node_D (Inst node_A []) "left"
           scenario_store
           (with_rows [set_tree_id 2 node_A; set_tree_id 2 node_B; set_tree_id 2 node_C;
                       set_tree_id 1 node_D] scenario_store)
           (set_tree_id 1 node_D)).
  - reflexivity.
  - right. right. right. left. reflexivity.
  - cbn. lia.
  - reflexivity.
Defined.

(** * Rebuilding one tree of a table *)

Lemma helper_loop_more (visit visit' : node -> Z -> option (list node * Z))
  (cs : list node) :
  (forall c a res, In c cs -> visit c a = Some res -> visit' c a = Some res) ->
  forall right res,
    helper_loop visit cs right = Some res -> helper_loop visit' cs right = Some res.
Proof.
  induction cs as [|c cs IH]; intros Hv right res H; cbn [helper_loop] in *; [exact H|].
  destruct (visit c right) as [[us1 r1]|] eqn:E1; [|discriminate].
  rewrite (Hv c right _ (or_introl eq_refl) E1).
  destruct (helper_loop visit cs r1) as [[us2 r2]|] eqn:E2; [|discriminate].
  rewrite (IH (fun c' a res' Hc' => Hv c' a res' (or_intror Hc')) r1 _ E2).
  exact H.
Qed.

(** A walk that returns within some recursion depth returns the same
    within any larger one. *)
Lemma helper_more_fuel (ch : dict) (fuel : nat) :
  forall fuel' nd left tid lvl res,
    (fuel <= fuel')%nat ->
    _rebuild_helper fuel ch nd left tid lvl = Some res ->
    _rebuild_helper fuel' ch nd left tid lvl = Some res.
Proof.
  induction fuel as [|fuel IH]; intros fuel' nd left tid lvl res Hle H; [discriminate|].
  destruct fuel' as [|fuel']; [lia|].
  cbn [_rebuild_helper] in *.
  destruct (helper_loop _ (dict_get ch (pk nd)) (left + 1)) as [[us0 r]|] eqn:Eloop;
    [|discriminate].
  rewrite (helper_loop_more _
             (fun child right => _rebuild_helper fuel' ch child right tid (lvl + 1))
             (dict_get ch (pk nd))
             (fun c a res' _ Hrun => IH fuel' c a tid (lvl + 1) res' ltac:(lia) Hrun)
             (left + 1) _ Eloop).
  exact H.
Qed.

Lemma collected_more_fuel (fuel fuel' : nat) (ch : dict) (ps : list node) :
  (fuel <= fuel')%nat ->
  (forall p t, In p ps -> _rebuild_helper fuel ch p 1 t 0 <> None) ->
  forall ts, collected fuel' ch ps ts = collected fuel ch ps ts.
Proof.
  intros Hle. unfold collected.
  induction ps as [|p ps IH]; intros Hret [|t ts]; try reflexivity.
  cbn [combine flat_map fst snd]. f_equal.
  - unfold emitted.
    destruct (_rebuild_helper fuel ch p 1 t 0) as [res|] eqn:E;
      [|exfalso; exact (Hret p t (or_introl eq_refl) E)].
    rewrite (helper_more_fuel ch fuel fuel' p 1 t 0 res Hle E). reflexivity.
  - apply IH. intros q s Hq. apply Hret. right. exact Hq.
Qed.

(** The rows a filtered query reads are the rows of the tree. *)
Lemma filtered_rows (q : node -> bool) (tid : Z) (rs : list node) :
  filter (fun r => q r && matches (Some tid) r) rs
  = filter (fun r => q r && matches None r) (tree_rows tid rs).
Proof.
  unfold tree_rows, matches. induction rs as [|r rs IH]; [reflexivity|].
  cbn [filter]. destruct (tree_id r =? tid); cbn [filter]; rewrite IH;
    rewrite ?andb_true_r, ?andb_false_r; reflexivity.
Qed.

Lemma filtered_parents (opts : mptt_meta) (tid : Z) (rs : list node) :
  _get_parents opts (Some tid) rs = _get_parents opts None (tree_rows tid rs).
Proof. unfold _get_parents. rewrite filtered_rows. reflexivity. Qed.

Lemma filtered_children (opts : mptt_meta) (tid : Z) (rs : list node) :
  _get_children opts (Some tid) rs = _get_children opts None (tree_rows tid rs).
Proof. unfold _get_children. rewrite filtered_rows. reflexivity. Qed.

Lemma tree_rows_length (tid : Z) (rs : list node) :
  (List.length (tree_rows tid rs) <= List.length rs)%nat.
Proof. apply filter_length_le. Qed.

Lemma tree_rows_nodup (tid : Z) (rs : list node) :
  NoDup (map pk rs) -> NoDup (map pk (tree_rows tid rs)).
Proof. apply filter_keys_nodup. Qed.

Lemma filtered_rebuild_run (opts : mptt_meta) (uuid4 : nat -> Z) (tid : Z) (st : store) :
  NoDup (map pk (rows st)) ->
  exists st',
    rebuild opts uuid4 (Some tid) st = (st', Ok tt) /\
    rows st' = map (write_fields (tree_objects opts uuid4 tid st)) (rows st).
Proof.
  intros Hnd. unfold rebuild, bind at 1, log, modify. unfold bind at 1, get.
  cbn [rows with_journal]. unfold bind.
  rewrite filtered_parents, filtered_children.
  pose proof (tree_rows_nodup tid (rows st) Hnd) as HndT.
  assert (Hret : forall p t, In p (_get_parents opts None (tree_rows tid (rows st))) ->
             _rebuild_helper (S (List.length (tree_rows tid (rows st))))
               (_get_children opts None (tree_rows tid (rows st))) p 1 t 0 <> None).
  { intros p t Hp. destruct (parents_spec opts _ p Hp) as [Hprs Hroot].
    destruct (walk_returns opts _ HndT p t Hprs Hroot) as (ret & Hrun).
    rewrite Hrun. discriminate. }
  rewrite rebuild_roots_run.
  - eexists. split; [reflexivity|]. cbn [rows with_rows with_draws with_journal bulk_update modify].
    unfold bulk_update, modify. cbn [rows with_rows with_draws with_journal uuid_draws].
    unfold tree_objects.
    rewrite (collected_more_fuel (S (List.length (tree_rows tid (rows st))))
               (S (List.length (rows st)))); [reflexivity | | exact Hret].
    pose proof (tree_rows_length tid (rows st)). lia.
  - intros p t Hp Hnone.
    destruct (_rebuild_helper (S (List.length (tree_rows tid (rows st))))
                (_get_children opts None (tree_rows tid (rows st))) p 1 t 0)
      as [res|] eqn:E; [|exact (Hret p t Hp E)].
    assert (Hle : (S (List.length (tree_rows tid (rows st))) <= S (List.length (rows st)))%nat).
    { pose proof (tree_rows_length tid (rows st)). lia. }
    rewrite (helper_more_fuel _ _ _ p 1 t 0 res Hle E) in Hnone. discriminate.
Qed.

Lemma numbered_all (cursor ret : Z) (l : list node) :
  numbered cursor l ret -> ret = cursor + 2 * Z.of_nat (List.length l) - 1.
Proof. intros H. exact (proj1 H). Qed.

(** What a rebuild filtered to [tid] leaves of a tree with one root whose
    rows all lead to it. *)
Lemma filtered_rebuild_tree (opts : mptt_meta) (uuid4 : nat -> Z) (tid : Z) (st : store) :
  roots_of_tree tid st = 1%nat ->
  NoDup (map pk (rows st)) ->
  forest (tree_rows tid (rows st)) ->
  let new_tid := if root_node_ordering opts then tid else uuid4 (uuid_draws st) in
  (forall r, In r (rows st) -> tree_id r <> tid -> tree_id r <> new_tid) ->
  let W := write_fields (tree_objects opts uuid4 tid st) in
  tree_rows new_tid (map W (rows st)) = map W (tree_rows tid (rows st)) /\
  nested_set (map W (tree_rows tid (rows st))) /\
  numbered 1 (map W (tree_rows tid (rows st)))
    (2 * Z.of_nat (List.length (tree_rows tid (rows st)))).
Proof.
  intros Hone Hnd Hforest new_tid Hfresh W.
  set (T := tree_rows tid (rows st)) in *.
  pose proof (tree_rows_nodup tid (rows st) Hnd) as HndT. fold T in HndT.
  assert (Hlen : List.length (_get_parents opts None T) = 1%nat).
  { unfold T. rewrite <- filtered_parents. unfold _get_parents.
    rewrite (Permutation_length (order_by_perm _ _)). exact Hone. }
  assert (Hts : root_tids opts uuid4 tid 0 (uuid_draws st)
                  (List.length (_get_parents opts None T)) = [new_tid]).
  { rewrite Hlen. unfold root_tids, new_tid. cbn [seq map].
    destruct (root_node_ordering opts); [f_equal; cbn; lia | rewrite Nat.add_0_r; reflexivity]. }
  assert (HU : tree_objects opts uuid4 tid st
               = collected (S (List.length T)) (_get_children opts None T)
                   (_get_parents opts None T) [new_tid]).
  { unfold tree_objects. fold T. rewrite Hts. reflexivity. }
  assert (Hl1 : List.length [new_tid] = List.length (_get_parents opts None T)).
  { rewrite Hlen. reflexivity. }
  assert (Hn1 : NoDup [new_tid]) by (constructor; [intros [] | constructor]).
  destruct (_get_parents opts None T) as [|p [|q ps]] eqn:Eps; try discriminate Hlen.
  assert (Hp : In p T /\ parent p = None).
  { apply (parents_spec opts T). rewrite Eps. left. reflexivity. }
  destruct Hp as [HpT Hproot].
  destruct (walk_returns opts T HndT p new_tid HpT Hproot) as (ret & Hrun).
  assert (Htag : forall u, In u (tree_objects opts uuid4 tid st) -> tree_id u = new_tid).
  { rewrite HU. unfold collected. cbn [combine flat_map fst snd]. rewrite app_nil_r.
    destruct (helper_values _ _ _ _ _ _ _ _ Hrun) as (_ & _ & Ht & _).
    rewrite Forall_forall in Ht. exact Ht. }
  assert (Hkeys : Permutation (map pk T) (map pk (tree_objects opts uuid4 tid st))).
  { rewrite HU, <- Eps. apply written_keys; try assumption. rewrite Eps. exact Hl1. }
  assert (HndU : NoDup (map pk (tree_objects opts uuid4 tid st))).
  { eapply Permutation_NoDup; [exact Hkeys | exact HndT]. }
  assert (Hin : forall r, In r T ->
             exists u, In u (tree_objects opts uuid4 tid st) /\
                       W r = mkNode (pk r) (parent r) (lft u) (rght u) (level u)
                               (tree_id u) (okey r)).
  { intros r Hr.
    assert (Hk : In (pk r) (map pk (tree_objects opts uuid4 tid st))).
    { apply (Permutation_in _ Hkeys). apply in_map. exact Hr. }
    apply in_map_iff in Hk. destruct Hk as (u & Hpk & Hu).
    exists u. split; [exact Hu|]. apply write_fields_found; assumption. }
  assert (Hout : forall r, In r (rows st) -> tree_id r <> tid -> W r = r).
  { intros r Hr Hne. apply (write_fields_other tid _ (rows st)); try assumption.
    intros u Hu.
    assert (Hk : In (pk u) (map pk T)).
    { apply (Permutation_in _ (Permutation_sym Hkeys)). apply in_map. exact Hu. }
    apply in_map_iff in Hk. destruct Hk as (x & Hpk & Hx).
    apply filter_In in Hx. destruct Hx as [Hx Ht]. apply Z.eqb_eq in Ht.
    exists x. repeat split; assumption. }
  assert (Hsel : forall l, tree_rows new_tid (map W l) = map W l ->
             True) by (intros; exact Logic.I).
  clear Hsel.
  assert (Hnum : numbered 1 (tree_rows new_tid (map W T)) (rght (W p))).
  { assert (Htp : tree_id (W p) = new_tid).
    { destruct (Hin p HpT) as (u & Hu & ->). cbn. apply Htag, Hu. }
    rewrite <- Htp. unfold W. rewrite HU, <- Eps.
    apply written_numbered; try assumption.
    - rewrite Eps. exact Hl1.
    - apply in_map. exact HpT.
    - rewrite write_fields_parent. exact Hproot. }
  assert (Hall : tree_rows new_tid (map W T) = map W T).
  { unfold tree_rows. apply forallb_filter_id. apply forallb_forall.
    intros x Hx. apply in_map_iff in Hx. destruct Hx as (r & <- & Hr).
    destruct (Hin r Hr) as (u & Hu & ->). cbn. apply Z.eqb_eq, Htag, Hu. }
  rewrite Hall in Hnum.
  split; [|split].
  - unfold tree_rows at 1. rewrite filter_mapped. f_equal.
    apply filter_ext_in. intros r Hr.
    destruct (Z.eq_dec (tree_id r) tid) as [Heq | Hne].
    + assert (HrT : In r T).
      { apply filter_In. split; [exact Hr | apply Z.eqb_eq, Heq]. }
      destruct (Hin r HrT) as (u & Hu & ->). cbn. rewrite (Htag u Hu), Z.eqb_refl.
      symmetry. apply Z.eqb_eq, Heq.
    + rewrite (Hout r Hr Hne).
      transitivity false; [apply Z.eqb_neq, Hfresh; assumption|].
      symmetry. apply Z.eqb_neq, Hne.
  - unfold W. rewrite HU, <- Eps.
    apply written_nested_set; try assumption. rewrite Eps. exact Hl1.
  - pose proof (numbered_all _ _ _ Hnum) as Hret. rewrite length_map in Hret.
    replace (2 * Z.of_nat (List.length T)) with (rght (W p)) by lia.
    exact Hnum.
Qed.

(** C3. [partial_rebuild tree_id] goes three ways on the number of roots
    carrying [tree_id]: with none it returns without touching a row, with
    one it is [rebuild] filtered to [tree_id], with more it raises the
    RuntimeError that asks for a full rebuild, again without touching a
    row.  In a table with distinct keys the filtered rebuild, however it
    ends, keeps every row's key, parent and ordering value and leaves the
    rows of every other tree as they were.  And with one root, in a table
    with distinct keys where every row of the tree leads to that root by
    its parent links, the call returns and the rows of the tree, under
    the tree id the root is handed ([tree_id] itself with root ordering
    on, a drawn identifier otherwise, which no other row may carry), keep
    their keys and parents and form a nested set numbered without gaps
    from 1 to twice their number. *)
Theorem partial_rebuild_by_root_count (opts : mptt_meta) (uuid4 : nat -> Z)
  (tid : Z) (st : store) :
  let called := with_journal (journal st ++ [EvPartialRebuild tid]) st in
  partial_rebuild opts uuid4 tid st =
  match roots_of_tree tid st with
  | O => (called, Ok tt)
  | 1%nat => rebuild opts uuid4 (Some tid) called
  | _ => (called,
          Raise (RuntimeError
                   "More than one root node with tree_id %d. That's invalid, do a full rebuild."
                   tid))
  end
  /\ rows called = rows st
  /\ (NoDup (map pk (rows st)) ->
      forall st' res,
        rebuild opts uuid4 (Some tid) called = (st', res) ->
        Forall2 (fun r r' => pk r' = pk r /\ parent r' = parent r /\ okey r' = okey r /\
                             (tree_id r <> tid -> r' = r))
                (rows st) (rows st'))
  /\ (roots_of_tree tid st = 1%nat ->
      NoDup (map pk (rows st)) ->
      forest (tree_rows tid (rows st)) ->
      let new_tid := if root_node_ordering opts then tid else uuid4 (uuid_draws st) in
      (forall r, In r (rows st) -> tree_id r <> tid -> tree_id r <> new_tid) ->
      exists st',
        partial_rebuild opts uuid4 tid st = (st', Ok tt) /\
        map pk (tree_rows new_tid (rows st')) = map pk (tree_rows tid (rows st)) /\
        map parent (tree_rows new_tid (rows st')) = map parent (tree_rows tid (rows st)) /\
        nested_set (tree_rows new_tid (rows st')) /\
        numbered 1 (tree_rows new_tid (rows st'))
          (2 * Z.of_nat (List.length (tree_rows tid (rows st))))).
Proof.
  cbn zeta.
  assert (Hcases : partial_rebuild opts uuid4 tid st =
    match roots_of_tree tid st with
    | O => (with_journal (journal st ++ [EvPartialRebuild tid]) st, Ok tt)
    | 1%nat => rebuild opts uuid4 (Some tid)
                 (with_journal (journal st ++ [EvPartialRebuild tid]) st)
    | _ => (with_journal (journal st ++ [EvPartialRebuild tid]) st,
            Raise (RuntimeError
                     "More than one root node with tree_id %d. That's invalid, do a full rebuild."
                     tid))
    end).
  { unfold partial_rebuild, roots_of_tree, bind, log, modify, get.
    cbn [rows with_journal].
    destruct (List.length _) as [|[|n]]; reflexivity. }
  split; [exact Hcases|]. split; [reflexivity|]. split.
  - intros Hnd st' res Hrun.
    exact (filtered_rebuild_frame opts uuid4 tid
             (with_journal (journal st ++ [EvPartialRebuild tid]) st) st' res Hnd Hrun).
  - intros Hone Hnd Hforest Hfresh. rewrite Hcases, Hone.
    destruct (filtered_rebuild_run opts uuid4 tid
                (with_journal (journal st ++ [EvPartialRebuild tid]) st) Hnd)
      as (st' & Hrun & Hrows).
    exists st'. split; [exact Hrun|]. rewrite Hrows.
    change (tree_objects opts uuid4 tid
              (with_journal (journal st ++ [EvPartialRebuild tid]) st))
      with (tree_objects opts uuid4 tid st).
    cbn [rows with_journal].
    destruct (filtered_rebuild_tree opts uuid4 tid st Hone Hnd Hforest Hfresh)
      as (Hsel & Hnested & Hnum).
    rewrite Hsel, !map_map. split; [|split; [|split]].
    + apply map_ext. intros r. apply write_fields_pk.
    + apply map_ext. intros r. apply write_fields_parent.
    + exact Hnested.
    + exact Hnum.
Qed.

Lemma partial_rebuild_by_root_count_witness :
  let called := with_journal (journal scenario_store ++ [EvPartialRebuild 1]) scenario_store in
  partial_rebuild sequential_opts sample_uuid4 1 scenario_store
  = rebuild sequential_opts sample_uuid4 (Some 1) called
  /\ (forall st' res,
       rebuild sequential_opts sample_uuid4 (Some 1) called = (st', res) ->
       Forall2 (fun r r' => pk r' = pk r /\ parent r' = parent r /\ okey r' = okey r /\
                            (tree_id r <> 1 -> r' = r))
               (rows scenario_store) (rows st'))
  /\ exists st',
       partial_rebuild sequential_opts sample_uuid4 1 scenario_store = (st', Ok tt) /\
       map pk (tree_rows 1 (rows st')) = map pk (tree_rows 1 (rows scenario_store)) /\
       map parent (tree_rows 1 (rows st')) = map parent (tree_rows 1 (rows scenario_store)) /\
       nested_set (tree_rows 1 (rows st')) /\
       numbered 1 (tree_rows 1 (rows st'))
         (2 * Z.of_nat (List.length (tree_rows 1 (rows scenario_store)))).
Proof.
  cbv zeta.
  destruct (partial_rebuild_by_root_count sequential_opts sample_uuid4 1 scenario_store)
    as (Hrun & _ & Hframe & Htree).
  split; [exact Hrun|]. split.
  - apply Hframe. cbn. repeat constructor; cbn; intuition discriminate.
  - apply Htree.
    + reflexivity.
    + cbn. repeat constructor; cbn; intuition discriminate.
    + intros r [<- | [<- | [<- | []]]].
      * exists 0%nat, node_A. repeat split; [left; reflexivity | apply above_O].
      * exists 1%nat, node_A. repeat split; [left; reflexivity|].
        apply (above_S _ 0 node_B 1 (Some 1));
          [right; left; reflexivity | reflexivity | apply above_O].
      * exists 1%nat, node_A. repeat split; [left; reflexivity|].
        apply (above_S _ 0 node_C 1 (Some 1));
          [right; right; left; reflexivity | reflexivity | apply above_O].
    + cbn. intros r _ H. exact H.
Defined.

(** * Building at an anchor, then rebuilding *)

(** ** The loop over children, cut in two *)

Lemma helper_loop_app (visit : node -> Z -> option (list node * Z)) (l1 l2 : list node) :
  forall right,
    helper_loop visit (l1 ++ l2) right
    = match helper_loop visit l1 right with
      | Some (us1, a) =>
          match helper_loop visit l2 a with
          | Some (us2, r) => Some (us1 ++ us2, r)
          | None => None
          end
      | None => None
      end.
Proof.
  induction l1 as [|c l1 IH]; intros right; cbn [app helper_loop].
  - destruct (helper_loop visit l2 right) as [[us2 r]|]; reflexivity.
  - destruct (visit c right) as [[usc rc]|]; [|reflexivity].
    rewrite IH. destruct (helper_loop visit l1 rc) as [[us1 a]|]; [|reflexivity].
    destruct (helper_loop visit l2 a) as [[us2 r]|]; [|reflexivity].
    rewrite app_assoc. reflexivity.
Qed.

(** The call that emitted a given node of a loop, with what the loop did
    before and after it. *)
Lemma helper_loop_split (visit : node -> Z -> option (list node * Z)) (cs : list node) :
  forall right us r e,
    helper_loop visit cs right = Some (us, r) -> In e us ->
    exists l1 c l2 us1 a usc rc us2,
      cs = l1 ++ c :: l2 /\
      helper_loop visit l1 right = Some (us1, a) /\
      visit c a = Some (usc, rc) /\ In e usc /\
      helper_loop visit l2 rc = Some (us2, r) /\
      us = us1 ++ usc ++ us2.
Proof.
  induction cs as [|c cs IH]; intros right us r e H He; cbn [helper_loop] in H.
  - inversion H; subst. contradiction.
  - destruct (visit c right) as [[usc rc]|] eqn:Ev; [|discriminate].
    destruct (helper_loop visit cs rc) as [[us2 r2]|] eqn:El; [|discriminate].
    inversion H; subst. clear H. apply in_app_or in He. destruct He as [He | He].
    + exists [], c, cs, [], right, usc, rc, us2. repeat split; auto.
    + destruct (IH rc us2 r e El He)
        as (l1 & c' & l2 & us1 & a & usc' & rc' & us2' & -> & Hl1 & Hv & Hin & Hl2 & ->).
      exists (c :: l1), c', l2, (usc ++ us1), a, usc', rc', us2'.
      repeat split; auto.
      * cbn [helper_loop]. rewrite Ev, Hl1. reflexivity.
      * rewrite app_assoc. reflexivity.
Qed.

Lemma keys_apart (l1 l2 : list node) (a b : node) :
  NoDup (map pk (l1 ++ l2)) -> In a l1 -> In b l2 -> pk a <> pk b.
Proof.
  intros Hnd Ha Hb Heq. rewrite map_app in Hnd.
  apply (NoDup_app_apart _ _ (pk a) Hnd); [apply in_map, Ha|].
  rewrite Heq. apply in_map, Hb.
Qed.

(** ** A walk with one more child *)

Section Prefix.

Variables c0 c1 : dict.
Variable Pk : option Z.
Variable v : node.
Variables pre0 post0 pre1 post1 : list node.
Variable tid : Z.

Hypothesis at_P0 : dict_get c0 Pk = pre0 ++ post0.
Hypothesis at_P1 : dict_get c1 Pk = pre1 ++ v :: post1.
Hypothesis pre_keys : map pk pre1 = map pk pre0.

Let same_children (u : node) : Prop :=
  pk u <> Pk -> map pk (dict_get c1 (pk u)) = map pk (dict_get c0 (pk u)).

Let Good (u : node) : Prop :=
  map pk (dict_get c1 (pk u)) = map pk (dict_get c0 (pk u)).

Lemma good_away (us0 l : list node) :
  Forall same_children us0 -> incl l us0 ->
  (forall u, In u l -> pk u <> Pk) -> Forall Good l.
Proof.
  intros Hsame Hincl Hne. apply Forall_forall. intros u Hu.
  rewrite Forall_forall in Hsame. apply (Hsame u (Hincl u Hu)), Hne, Hu.
Qed.

Lemma loop_prefix_same (fuel : nat) (lvl : Z) (l0 l1 : list node) (a : Z)
  (us0 : list node) (r0 : Z) (us1 : list node) (r1 : Z) :
  map pk l1 = map pk l0 ->
  helper_loop (fun c r => _rebuild_helper fuel c0 c r tid lvl) l0 a = Some (us0, r0) ->
  Forall Good us0 ->
  helper_loop (fun c r => _rebuild_helper fuel c1 c r tid lvl) l1 a = Some (us1, r1) ->
  r1 = r0.
Proof.
  intros Hk H0 Hgood H1.
  destruct (helper_loop_transfer
              (fun c r => _rebuild_helper fuel c0 c r tid lvl)
              (fun c r => _rebuild_helper fuel c1 c r tid lvl)
              Good l0 l1 a us0 r0 Hk) as (us' & H' & _); [| exact H0 | exact Hgood |].
  - intros c c' a' usc rc _ Hpk Hv Hg.
    exact (helper_transfer c0 c1 fuel c c' a' tid lvl usc rc Hpk Hv Hg).
  - rewrite H' in H1. inversion H1. reflexivity.
Qed.

(** Where the second dictionary lists one more child [v] under [Pk] and
    otherwise the same children as the first, the walk over the second
    comes to [v] with the left the walk over the first has reached after
    the children listed before [v], one level below the node of key
    [Pk]. *)
Lemma walk_reaches_new_child (fuel : nat) :
  forall nd nd' left lvl us0 ret0 us1 ret1 eP,
    pk nd' = pk nd ->
    _rebuild_helper fuel c0 nd left tid lvl = Some (us0, ret0) ->
    _rebuild_helper fuel c1 nd' left tid lvl = Some (us1, ret1) ->
    NoDup (map pk us0) ->
    Forall same_children us0 ->
    In eP us0 -> pk eP = Pk ->
    exists fuel' usA L usB usT retT,
      helper_loop (fun c r => _rebuild_helper fuel' c0 c r tid (level eP + 1))
        pre0 (lft eP + 1) = Some (usA, L) /\
      helper_loop (fun c r => _rebuild_helper fuel' c0 c r tid (level eP + 1))
        post0 L = Some (usB, rght eP) /\
      incl usA us0 /\ incl usB us0 /\
      _rebuild_helper fuel' c1 v L tid (level eP + 1) = Some (usT, retT) /\
      incl usT us1.
Proof.
  induction fuel as [|fuel IH];
    intros nd nd' left lvl us0 ret0 us1 ret1 eP Hpk H0 H1 Hnd Hsame HeP HPk;
    [discriminate|].
  cbn [_rebuild_helper] in H0, H1.
  destruct (helper_loop _ (dict_get c0 (pk nd)) (left + 1)) as [[usl r]|] eqn:El0;
    [|discriminate].
  destruct (helper_loop _ (dict_get c1 (pk nd')) (left + 1)) as [[usl1 r1]|] eqn:El1;
    [|discriminate].
  inversion H0; subst us0 ret0. clear H0. inversion H1; subst us1 ret1. clear H1.
  set (E := set_tree_id tid (set_level lvl (set_rght r (set_lft left nd)))) in *.
  apply in_app_or in HeP. destruct HeP as [HeP | [<- | []]].
  - (* the node of key [Pk] is below one of the children *)
    assert (HndPk : pk nd <> Pk).
    { rewrite <- HPk. intros Heq.
      apply (keys_apart usl [E] eP E Hnd HeP (or_introl eq_refl)). rewrite <- Heq. reflexivity. }
    destruct (helper_loop_split _ _ _ _ _ eP El0 HeP)
      as (l1 & c & l2 & us1 & a & usc & rc & us2 & Hcs & Hl1 & Hv & Hin & Hl2 & Husl).
    assert (Hkeys : map pk (dict_get c1 (pk nd')) = map pk (dict_get c0 (pk nd))).
    { rewrite Forall_forall in Hsame. rewrite Hpk.
      apply (Hsame E); [apply in_or_app; right; left; reflexivity | exact HndPk]. }
    rewrite Hcs, map_app in Hkeys. cbn [map] in Hkeys.
    apply map_eq_app in Hkeys. destruct Hkeys as (l1' & rest & Hc1 & Hk1 & Hrest).
    apply map_eq_cons in Hrest. destruct Hrest as (c' & l2' & -> & Hpkc & Hk2).
    rewrite Hc1, helper_loop_app in El1.
    destruct (helper_loop _ l1' (left + 1)) as [[us1' a1]|] eqn:El1'; [|discriminate].
    cbn [helper_loop] in El1.
    destruct (_rebuild_helper fuel c1 c' a1 tid (lvl + 1)) as [[usc' rc']|] eqn:Ev';
      [|discriminate].
    destruct (helper_loop _ l2' rc') as [[us2' r2']|] eqn:El2'; [|discriminate].
    inversion El1; subst usl1 r1. clear El1.
    subst usl.
    assert (Hg1 : Forall Good us1).
    { apply (good_away (((us1 ++ usc ++ us2) ++ [E])) us1 Hsame).
      - intros x Hx. apply in_or_app. left. apply in_or_app. left. exact Hx.
      - intros u Hu. rewrite <- HPk.
        rewrite <- app_assoc in Hnd.
        apply (keys_apart us1 ((usc ++ us2) ++ [E]) u eP Hnd Hu).
        apply in_or_app. left. apply in_or_app. left. exact Hin. }
    assert (Ha : a1 = a) by exact (loop_prefix_same fuel (lvl + 1) l1 l1' (left + 1)
                                     us1 a us1' a1 Hk1 Hl1 Hg1 El1').
    subst a1.
    assert (Hndc : NoDup (map pk usc)).
    { rewrite <- !app_assoc, !map_app in Hnd.
      apply NoDup_app_remove_l in Hnd. apply NoDup_app_remove_r in Hnd. exact Hnd. }
    assert (Hsc : Forall same_children usc).
    { apply Forall_forall. intros u Hu. rewrite Forall_forall in Hsame. apply Hsame.
      apply in_or_app. left. apply in_or_app. right. apply in_or_app. left. exact Hu. }
    destruct (IH c c' a (lvl + 1) usc rc usc' rc' eP Hpkc Hv Ev' Hndc Hsc Hin HPk)
      as (fuel' & usA & L & usB & usT & retT & HA & HB & HiA & HiB & HT & HiT).
    exists fuel', usA, L, usB, usT, retT. repeat split; try assumption.
    + intros x Hx. apply in_or_app. left. apply in_or_app. right.
      apply in_or_app. left. apply HiA, Hx.
    + intros x Hx. apply in_or_app. left. apply in_or_app. right.
      apply in_or_app. left. apply HiB, Hx.
    + intros x Hx. apply in_or_app. left. apply in_or_app. right.
      apply in_or_app. left. apply HiT, Hx.
  - (* the node of key [Pk] is the one the walk is at *)
    subst E. cbn [pk lft rght level set_tree_id set_level set_rght set_lft] in *.
    rewrite HPk, at_P0, helper_loop_app in El0.
    destruct (helper_loop _ pre0 (left + 1)) as [[usA L]|] eqn:EA; [|discriminate].
    destruct (helper_loop _ post0 L) as [[usB rB]|] eqn:EB; [|discriminate].
    inversion El0; subst usl r. clear El0.
    rewrite Hpk, HPk, at_P1, helper_loop_app in El1.
    destruct (helper_loop _ pre1 (left + 1)) as [[usA1 L1]|] eqn:EA1; [|discriminate].
    cbn [helper_loop] in El1.
    destruct (_rebuild_helper fuel c1 v L1 tid (lvl + 1)) as [[usT retT]|] eqn:ET;
      [|discriminate].
    destruct (helper_loop _ post1 retT) as [[usB1 rB1]|] eqn:EB1; [|discriminate].
    inversion El1; subst usl1 r1. clear El1.
    assert (HgA : Forall Good usA).
    { apply (good_away ((usA ++ usB) ++ [set_tree_id tid (set_level lvl (set_rght rB (set_lft left nd)))])
               usA Hsame).
      - intros x Hx. apply in_or_app. left. apply in_or_app. left. exact Hx.
      - intros u Hu. rewrite <- HPk.
        rewrite <- app_assoc in Hnd.
        change (pk nd) with
          (pk (set_tree_id tid (set_level lvl (set_rght rB (set_lft left nd))))).
        apply (keys_apart usA (usB ++ [set_tree_id tid (set_level lvl (set_rght rB (set_lft left nd)))])
                 u _ Hnd Hu).
        apply in_or_app. right. left. reflexivity. }
    assert (HL : L1 = L) by exact (loop_prefix_same fuel (lvl + 1) pre0 pre1 (left + 1)
                                     usA L usA1 L1 pre_keys EA HgA EA1).
    subst L1.
    exists fuel, usA, L, usB, usT, retT. repeat split; try assumption.
    + intros x Hx. apply in_or_app. left. apply in_or_app. left. exact Hx.
    + intros x Hx. apply in_or_app. left. apply in_or_app. right. exact Hx.
    + intros x Hx. apply in_or_app. left. apply in_or_app. right.
      apply in_or_app. left. exact Hx.
Qed.

End Prefix.

(** ** Sorting one more row *)

Section Snoc.

Variable le : node -> node -> bool.
Hypothesis le_total : forall a b, le a b = true \/ le b a = true.
Hypothesis le_trans : forall a b c, le a b = true -> le b c = true -> le a c = true.

Lemma insert_by_before (a x : node) (F G : list node) :
  le a x = true ->
  insert_by le a (F ++ x :: G) = insert_by le a F ++ x :: G.
Proof.
  intros Hax. induction F as [|y F IH]; cbn [app insert_by].
  - rewrite Hax. reflexivity.
  - destruct (le a y); [reflexivity|]. rewrite IH. reflexivity.
Qed.

Lemma insert_by_after (a x : node) (F G : list node) :
  Forall (fun y => le a y = false) F -> le a x = false ->
  insert_by le a (F ++ x :: G) = F ++ x :: insert_by le a G.
Proof.
  intros HF Hax. induction HF as [|y F Hy _ IH]; cbn [app insert_by].
  - rewrite Hax. reflexivity.
  - rewrite Hy, IH. reflexivity.
Qed.

(** The stable sort puts a row appended to the table after the rows it
    does not sort before. *)
Lemma order_by_snoc (l : list node) (x : node) :
  order_by le (l ++ [x])
  = filter (fun a => le a x) (order_by le l)
    ++ x :: filter (fun a => negb (le a x)) (order_by le l).
Proof.
  induction l as [|a l IH]; [reflexivity|].
  cbn [app order_by]. rewrite IH.
  pose proof (order_by_sorted le le_total le_trans l) as Hs.
  rewrite !(filter_insert_by le le_trans) by exact Hs.
  destruct (le a x) eqn:Eax; cbn [negb].
  - apply insert_by_before. exact Eax.
  - apply insert_by_after; [|exact Eax].
    apply Forall_forall. intros y Hy. apply filter_In in Hy. destruct Hy as [_ Hyx].
    destruct (le a y) eqn:Eay; [|reflexivity].
    rewrite (le_trans a y x Eay Hyx) in Eax. discriminate.
Qed.

Lemma filter_all (q : node -> bool) (l : list node) :
  Forall (fun a => q a = true) l -> filter q l = l.
Proof.
  induction 1 as [|a l Ha _ IH]; [reflexivity|]. cbn. rewrite Ha, IH. reflexivity.
Qed.

Lemma filter_none (q : node -> bool) (l : list node) :
  Forall (fun a => q a = false) l -> filter q l = [].
Proof.
  induction 1 as [|a l Ha _ IH]; [reflexivity|]. cbn. rewrite Ha, IH. reflexivity.
Qed.

(** A sorted list whose front sorts before [x] and whose back does not
    takes [x] between the two. *)
Lemma order_by_between (l pre post : list node) (x : node) :
  order_by le l = pre ++ post ->
  Forall (fun a => le a x = true) pre ->
  Forall (fun a => le a x = false) post ->
  order_by le (l ++ [x]) = pre ++ x :: post.
Proof.
  intros Hl Hpre Hpost. rewrite order_by_snoc, Hl, !filter_app.
  rewrite (filter_all _ pre Hpre), (filter_none _ post Hpost), app_nil_r.
  rewrite (filter_none _ pre), (filter_all _ post); [reflexivity | |].
  - eapply Forall_impl; [|exact Hpost]. cbn. intros a ->. reflexivity.
  - eapply Forall_impl; [|exact Hpre]. cbn. intros a ->. reflexivity.
Qed.

Lemma sorted_after (pre post : list node) (x : node) :
  StronglySorted (fun a b => le a b = true) (pre ++ x :: post) ->
  Forall (fun a => le a x = true) pre /\ Forall (fun a => le x a = true) post.
Proof.
  induction pre as [|a pre IH]; cbn [app]; intros Hs.
  - inversion Hs; subst. split; [constructor | assumption].
  - inversion Hs as [|? ? Hs' Ha]; subst. destruct (IH Hs') as [Hp Hq].
    split; [|exact Hq]. constructor; [|exact Hp].
    rewrite Forall_forall in Ha. apply Ha. apply in_or_app. right. left. reflexivity.
Qed.

End Snoc.

(** ** The children lists once the records are in the table *)

Lemma opened_pk (size target tid : Z) (r : node) : pk (opened size target tid r) = pk r.
Proof. unfold opened. destruct (tree_id r =? tid); reflexivity. Qed.

Lemma opened_parent (size target tid : Z) (r : node) :
  parent (opened size target tid r) = parent r.
Proof. unfold opened. destruct (tree_id r =? tid); reflexivity. Qed.

Lemma opened_tree_id (size target tid : Z) (r : node) :
  tree_id (opened size target tid r) = tree_id r.
Proof. unfold opened. destruct (tree_id r =? tid); reflexivity. Qed.

Lemma opened_okey (size target tid : Z) (r : node) :
  okey (opened size target tid r) = okey r.
Proof. unfold opened. destruct (tree_id r =? tid); reflexivity. Qed.

(** Opening a space does not change the order rebuild reads rows in. *)
Lemma opened_order (opts : mptt_meta) (size target tid : Z) (a b : node) :
  0 <= size ->
  rebuild_order opts (opened size target tid a) (opened size target tid b)
  = rebuild_order opts a b.
Proof.
  intros Hs. unfold rebuild_order.
  destruct (order_insertion_by opts).
  - unfold insertion_order. rewrite !opened_okey. reflexivity.
  - unfold tree_order. rewrite !opened_tree_id.
    destruct (tree_id a <? tree_id b) eqn:Elt; [reflexivity|]. cbn [orb].
    destruct (tree_id a =? tree_id b) eqn:Eeq; [|reflexivity]. cbn [andb].
    apply Z.eqb_eq in Eeq. unfold opened. rewrite <- Eeq.
    destruct (tree_id a =? tid); [|reflexivity].
    cbn [lft set_rght set_lft].
    destruct (lft a <=? lft b) eqn:E.
    + apply Z.leb_le in E. apply Z.leb_le.
      destruct (Z.eq_dec (lft a) (lft b)) as [-> | Hne]; [lia|].
      pose proof (shift_above_increasing size target (lft a) (lft b) Hs). lia.
    + apply Z.leb_gt in E. apply Z.leb_gt.
      apply shift_above_increasing; assumption.
Qed.

Lemma filter_parent_mapped (g : node -> node) (K : option Z) (l : list node) :
  (forall r, parent (g r) = parent r) ->
  filter (fun x => opt_eqb (parent x) K) (map g l)
  = map g (filter (fun x => opt_eqb (parent x) K) l).
Proof.
  intros Hg. rewrite filter_mapped. f_equal. apply filter_ext. intros r.
  rewrite Hg. reflexivity.
Qed.

(** A change of the rows that keeps parents and the order rebuild reads
    rows in changes the children lists row by row. *)
Lemma mapped_children (opts : mptt_meta) (g : node -> node) (rs : list node)
  (k : option Z) :
  (forall r, parent (g r) = parent r) ->
  (forall a b, rebuild_order opts (g a) (g b) = rebuild_order opts a b) ->
  dict_get (_get_children opts None (map g rs)) k
  = map g (dict_get (_get_children opts None rs) k).
Proof.
  intros Hpar Hord. rewrite !get_children_lookup. destruct k as [k|]; [|reflexivity].
  rewrite filter_parent_mapped by exact Hpar.
  apply order_by_map. exact Hord.
Qed.

Lemma linked_top (par : option Z) (data : tree_data) :
  linked par data -> parent (top data) = par.
Proof. destruct data as [d cs]. cbn [linked top]. tauto. Qed.

Section Anchored.

Variable opts : mptt_meta.
Variables tid cursor lvl : Z.
Variable data : tree_data.
Variable rs : list node.
Variable Pkey : option Z.

Hypothesis data_linked : linked Pkey data.
Hypothesis data_nodup : NoDup (data_keys data).
Hypothesis data_fresh : fresh_keys data rs.
Hypothesis data_ordered : order_insertion_by opts = true -> ordered data.
Hypothesis anchor_stored : In Pkey (map pk rs).

Let stack : list node := fst (treeify tid data cursor lvl).

Lemma anchor_outside : ~ In Pkey (data_keys data).
Proof. intros H. exact (proj1 (data_fresh Pkey H) anchor_stored). Qed.

Lemma stack_filter (K : option Z) :
  ~ In K (data_keys data) ->
  filter (fun x => opt_eqb (parent x) K) stack
  = if opt_eqb Pkey K then firstn 1 stack else [].
Proof.
  intros HK.
  destruct (treeify_pushed tid data cursor lvl) as (Hid & _ & _). fold stack in Hid.
  pose proof (same_identity_filter K _ _ Hid) as Hf.
  rewrite (outside_parent K data Pkey data_linked HK) in Hf.
  destruct (treeify_top tid data cursor lvl) as (v & sub & Hst & _ & _ & _ & _ & Hv).
  fold stack in Hst. rewrite Hst in Hf |- *. cbn [firstn].
  destruct (opt_eqb Pkey K) eqn:E.
  - cbn [filter] in Hf |- *.
    assert (Hpv : opt_eqb (parent v) K = true).
    { destruct Hv as (_ & Hpar & _).
      rewrite Hpar, (linked_top Pkey data data_linked). exact E. }
    rewrite Hpv in Hf |- *. inversion Hf as [|? ? ? ? _ Hrest]; subst.
    inversion Hrest; subst. reflexivity.
  - destruct (filter (fun x => opt_eqb (parent x) K) (v :: sub)); [reflexivity|].
    inversion Hf.
Qed.

(** Under a key that is neither the anchor's nor one of the
    description's, the records add nothing. *)
Lemma children_elsewhere (rs0 : list node) (k : option Z) :
  k <> Pkey -> ~ In k (data_keys data) ->
  dict_get (_get_children opts None (rs0 ++ stack)) k
  = dict_get (_get_children opts None rs0) k.
Proof.
  intros Hk Hout. rewrite !get_children_lookup. destruct k as [k|]; [|reflexivity].
  rewrite filter_app, (stack_filter (Some k) Hout).
  destruct (opt_eqb Pkey (Some k)) eqn:E.
  - apply opt_eqb_eq in E. congruence.
  - rewrite app_nil_r. reflexivity.
Qed.

(** Under the anchor's key, the first record joins the rows already
    there. *)
Lemma children_at_anchor (rs0 : list node) (k : Z) :
  Pkey = Some k ->
  exists v sub,
    stack = v :: sub /\
    dict_get (_get_children opts None (rs0 ++ stack)) Pkey
    = order_by (rebuild_order opts)
        (filter (fun x => opt_eqb (parent x) Pkey) rs0 ++ [v]).
Proof.
  intros HP.
  destruct (treeify_top tid data cursor lvl) as (v & sub & Hst & _).
  fold stack in Hst. exists v, sub. split; [exact Hst|].
  rewrite get_children_lookup, HP. rewrite <- HP.
  rewrite filter_app, (stack_filter Pkey anchor_outside).
  assert (E : opt_eqb Pkey Pkey = true) by (apply opt_eqb_eq; reflexivity).
  rewrite E, Hst. reflexivity.
Qed.

(** Under each key of the description, the children the description
    nests there, in the same order. *)
Lemma children_of_records (rs0 : list node) :
  map parent rs0 = map parent rs ->
  forall fam, In fam (families data) ->
    map pk (dict_get (_get_children opts None (rs0 ++ stack)) (pk (fst fam)))
    = map pk (snd fam).
Proof.
  intros Hpar fam Hfam.
  pose proof (linked_keys data Pkey data_linked) as Hkeys. rewrite Forall_forall in Hkeys.
  pose proof (family_in_nodes data fam Hfam) as Hin.
  pose proof (families_filter data Pkey data_linked data_nodup anchor_outside) as Hff.
  rewrite Forall_forall in Hff. specialize (Hff fam Hfam).
  rewrite get_children_lookup.
  destruct (pk (fst fam)) as [k|] eqn:Ek; [|exfalso; exact (Hkeys _ Hin Ek)].
  rewrite filter_app, filter_parent_outside, app_nil_l.
  2:{ rewrite Hpar. apply data_fresh. rewrite <- Ek. apply in_map. exact Hin. }
  destruct (treeify_pushed tid data cursor lvl) as (Hid & Hsort & Hall).
  pose proof (same_identity_filter (Some k) _ _ Hid) as Hidf.
  rewrite Hff in Hidf. fold stack in Hidf.
  rewrite order_by_sorted_id; [apply same_identity_keys; exact Hidf|].
  unfold rebuild_order. destruct (order_insertion_by opts) eqn:Eo.
  - pose proof (families_ordered data (data_ordered eq_refl)) as Hfo.
    rewrite Forall_forall in Hfo. specialize (Hfo fam Hfam).
    pose proof (same_identity_sorted _ _ Hidf Hfo) as Hs.
    eapply StronglySorted_ind with (P := fun l => StronglySorted _ l); [| |exact Hs].
    + constructor.
    + intros a l _ IH Ha. constructor; [exact IH|].
      eapply Forall_impl; [|exact Ha]. intros b Hb. apply Z.leb_le. exact Hb.
  - apply sorted_tree_order with (tid := tid).
    + apply sorted_filter. exact Hsort.
    + apply Forall_forall. intros v Hv. apply filter_In in Hv.
      rewrite Forall_forall in Hall. apply (Hall v), Hv.
Qed.

End Anchored.

(** ** Where the first record sorts *)

Lemma placed_split (opts : mptt_meta) (position : string) (k : option Z) (v : node)
  (l : list node) :
  placed opts position k v (order_by (rebuild_order opts) l) ->
  exists pre post,
    order_by (rebuild_order opts) l = pre ++ post /\
    order_by (rebuild_order opts) (l ++ [v]) = pre ++ v :: post /\
    if is_sibling_position position
    then if eqs position "left"
         then exists x post', post = x :: post' /\ pk x = k
         else exists pre' x, pre = pre' ++ [x] /\ pk x = k
    else if eqs position "first-child" then pre = [] else post = [].
Proof.
  pose proof (order_by_sorted _ (rebuild_order_total opts) (rebuild_order_trans opts) l)
    as Hs.
  unfold placed. destruct (is_sibling_position position).
  - intros (pre & x & post & Hk & Hx & Hcase). rewrite Hk in Hs.
    destruct (sorted_after _ pre post x Hs) as [Hpre Hpost].
    destruct (eqs position "left").
    + destruct Hcase as [Hb Hxv]. exists pre, (x :: post).
      split; [exact Hk|]. split; [|exists x, post; split; [reflexivity | exact Hx]].
      apply (order_by_between _ (rebuild_order_total opts) (rebuild_order_trans opts));
        [exact Hk | exact Hb|].
      constructor; [exact Hxv|].
      eapply Forall_impl; [|exact Hpost]. cbn. intros s Hxs.
      destruct (rebuild_order opts s v) eqn:E; [|reflexivity].
      rewrite (rebuild_order_trans opts x s v Hxs E) in Hxv. discriminate.
    + destruct Hcase as [Hxv Ha]. exists (pre ++ [x]), post.
      rewrite <- !app_assoc. cbn [app].
      split; [exact Hk|]. split; [|exists pre, x; split; [reflexivity | exact Hx]].
      replace (pre ++ x :: v :: post) with ((pre ++ [x]) ++ v :: post)
        by (rewrite <- app_assoc; reflexivity).
      apply (order_by_between _ (rebuild_order_total opts) (rebuild_order_trans opts));
        [rewrite <- app_assoc; exact Hk | | exact Ha].
      apply Forall_app. split; [|constructor; [exact Hxv | constructor]].
      eapply Forall_impl; [|exact Hpre]. cbn. intros s Hsx.
      exact (rebuild_order_trans opts s x v Hsx Hxv).
  - destruct (eqs position "first-child").
    + intros Hall. exists [], (order_by (rebuild_order opts) l).
      split; [reflexivity|]. split; [|reflexivity].
      apply (order_by_between _ (rebuild_order_total opts) (rebuild_order_trans opts));
        [reflexivity | constructor | exact Hall].
    + intros Hall. exists (order_by (rebuild_order opts) l), [].
      split; [rewrite app_nil_r; reflexivity|]. split; [|reflexivity].
      apply (order_by_between _ (rebuild_order_total opts) (rebuild_order_trans opts));
        [rewrite app_nil_r; reflexivity | exact Hall | constructor].
Qed.

(** ** The node a walk came from *)

Lemma helper_parent_in (ch : dict) (fuel : nat) :
  forall nd left tid lvl us ret,
    _rebuild_helper fuel ch nd left tid lvl = Some (us, ret) ->
    forall u, In u us ->
      pk u = pk nd \/
      exists e c, In e us /\ In c (dict_get ch (pk e)) /\ pk c = pk u.
Proof.
  induction fuel as [|fuel IH]; intros nd left tid lvl us ret H u Hu; [discriminate|].
  cbn [_rebuild_helper] in H.
  destruct (helper_loop _ (dict_get ch (pk nd)) (left + 1)) as [[usl r]|] eqn:El;
    [|discriminate].
  inversion H; subst. clear H. apply in_app_or in Hu. destruct Hu as [Hu | [<- | []]].
  - right.
    destruct (helper_loop_in _ _ _ _ _ _ El Hu) as (c & a & usc & rc & Hc & Hv & Hin & Hsub).
    destruct (IH c a tid (lvl + 1) usc rc Hv u Hin) as [Hpk | (e & c' & He & Hc' & Hpk)].
    + eexists _, c. split; [apply in_or_app; right; left; reflexivity|].
      split; [exact Hc | symmetry; exact Hpk].
    + exists e, c'. split; [apply in_or_app; left; apply Hsub, He|]. split; assumption.
  - left. reflexivity.
Qed.

(** ** The entries of the anchor and of the row the description hangs under *)

Lemma anchor_entry (opts : mptt_meta) (rs : list node) (ts : list Z) (t et : node)
  (K : option Z) :
  NoDup (map pk rs) ->
  In t rs ->
  In et (collected (S (List.length rs)) (_get_children opts None rs)
           (_get_parents opts None rs) ts) ->
  pk et = pk t ->
  K <> None -> K = pk t \/ K = parent t ->
  exists root troot retO usO eP,
    In root rs /\ parent root = None /\
    _rebuild_helper (S (List.length rs)) (_get_children opts None rs) root 1 troot 0
    = Some (usO, retO) /\
    incl usO (collected (S (List.length rs)) (_get_children opts None rs)
                (_get_parents opts None rs) ts) /\
    In eP usO /\ pk eP = K /\ In K (map pk rs).
Proof.
  intros Hnd Ht Het Hpk HK Hcase.
  destruct (collected_walk opts rs Hnd ts et Het) as (root & troot & retO & Hroot & Hrun & Hin & Hincl).
  destruct (parents_spec opts rs root Hroot) as [Hrs Hnone].
  assert (Hkey : forall e, In e (emitted (S (List.length rs)) (_get_children opts None rs)
                                   root troot) -> In (pk e) (map pk rs)).
  { intros e He.
    destruct (emitted_above rs _ (children_sound opts rs) _ _ _ _ _ _ _ Hrun e He) as (d & Hd).
    apply (above_key_in rs d _ _ Hd). apply in_map. exact Hrs. }
  destruct Hcase as [-> | ->].
  - eexists root, troot, retO, _, et. split; [exact Hrs|]. split; [exact Hnone|].
    split; [exact Hrun|]. split; [exact Hincl|]. split; [exact Hin|].
    split; [exact Hpk|]. rewrite <- Hpk. apply Hkey, Hin.
  - destruct (helper_parent_in _ _ _ _ _ _ _ _ Hrun et Hin) as [Heq | (e & c & He & Hc & Hpkc)].
    + exfalso. apply HK. rewrite <- Hnone. f_equal.
      apply (NoDup_pk_inj rs t root Hnd Ht Hrs). congruence.
    + apply children_sound in Hc. destruct Hc as [Hcrs Hcpar].
      assert (c = t) by (apply (NoDup_pk_inj rs c t Hnd Hcrs Ht); congruence). subst c.
      eexists root, troot, retO, _, e. split; [exact Hrs|]. split; [exact Hnone|].
      split; [exact Hrun|]. split; [exact Hincl|]. split; [exact He|].
      split; [symmetry; exact Hcpar|]. rewrite Hcpar. apply Hkey, He.
Qed.

(** ** Where the walk stands when it comes to the first record *)

Lemma cursor_reached (ch : dict) (fuel : nat) (tid : Z) (t eP : node)
  (position : string) (g : node -> node)
  (pre0 post0 pre post usA usB us0 : list node) (L : Z) :
  (forall r, pk (g r) = pk r) ->
  map g pre0 = pre -> map g post0 = post ->
  helper_loop (fun c r => _rebuild_helper fuel ch c r tid (level eP + 1))
    pre0 (lft eP + 1) = Some (usA, L) ->
  helper_loop (fun c r => _rebuild_helper fuel ch c r tid (level eP + 1))
    post0 L = Some (usB, rght eP) ->
  incl usA us0 -> incl usB us0 ->
  (forall e, In e us0 -> pk e = pk t ->
             lft e = lft t /\ rght e = rght t /\ level e = level t) ->
  In eP us0 -> pk eP = link_key t position ->
  (if is_sibling_position position
   then if eqs position "left"
        then exists x post', post = x :: post' /\ pk x = pk t
        else exists pre' x, pre = pre' ++ [x] /\ pk x = pk t
   else if eqs position "first-child" then pre = [] else post = []) ->
  L = (if is_sibling_position position
       then if eqs position "left" then lft t else rght t + 1
       else if eqs position "first-child" then lft t + 1 else rght t) /\
  level eP + 1 = (if is_sibling_position position then level t else level t + 1).
Proof.
  intros Hg Hpre Hpost HA HB HiA HiB Huniq HeP HPk Hshape.
  unfold link_key in HPk.
  destruct (is_sibling_position position).
  - destruct (eqs position "left").
    + destruct Hshape as (x & post' & Hp & Hx). subst post.
      destruct post0 as [|x0 post0']; [discriminate|]. cbn [map] in Hp.
      injection Hp as Hx0 _. cbn [helper_loop] in HB.
      destruct (_rebuild_helper fuel ch x0 L tid (level eP + 1)) as [[usx rx]|] eqn:Ex;
        [|discriminate].
      destruct (helper_loop _ post0' rx) as [[usr rr]|]; [|discriminate].
      inversion HB; subst usB rr. clear HB.
      destruct (helper_nested _ _ _ _ _ _ _ _ Ex) as (_ & (e & He & Hpke & Hl & _ & Hlv & _) & _).
      destruct (Huniq e) as (Hlt & _ & Hlvt).
      { apply HiB. apply in_or_app. left. exact He. }
      { rewrite Hpke, <- Hx, <- Hx0. symmetry. apply Hg. }
      split; lia.
    + destruct Hshape as (pre' & x & Hp & Hx). subst pre.
      apply map_eq_app in Hp. destruct Hp as (p0 & q0 & -> & _ & Hq).
      destruct q0 as [|x0 [|]]; try discriminate. cbn [map] in Hq. injection Hq as Hx0.
      rewrite helper_loop_app in HA.
      destruct (helper_loop _ p0 (lft eP + 1)) as [[usp a]|]; [|discriminate].
      cbn [helper_loop] in HA.
      destruct (_rebuild_helper fuel ch x0 a tid (level eP + 1)) as [[usx rx]|] eqn:Ex;
        [|discriminate].
      inversion HA; subst usA L. clear HA.
      destruct (helper_nested _ _ _ _ _ _ _ _ Ex) as (_ & (e & He & Hpke & _ & Hr & Hlv & _) & _).
      destruct (Huniq e) as (_ & Hrt & Hlvt).
      { apply HiA. apply in_or_app. right. apply in_or_app. left. exact He. }
      { rewrite Hpke, <- Hx, <- Hx0. symmetry. apply Hg. }
      split; lia.
  - destruct (Huniq eP HeP HPk) as (Hl & Hr & Hlv).
    destruct (eqs position "first-child").
    + subst pre. destruct pre0; [|discriminate]. cbn [helper_loop] in HA.
      inversion HA; subst. split; lia.
    + subst post. destruct post0; [|discriminate]. cbn [helper_loop] in HB.
      inversion HB; subst. split; lia.
Qed.

(** ** The records among the objects of the rebuild *)

(** [_create_space] returns; inside a tracking scope it leaves the rows
    alone, outside it shifts those of the tree. *)
Lemma spaced_rows (size target tid : Z) (st : store) :
  _create_space size target tid st
  = (fst (_create_space size target tid st), Ok tt) /\
  rows (fst (_create_space size target tid st))
  = map (spaced (mptt_is_tracking st) size target tid) (rows st).
Proof.
  unfold spaced. destruct (mptt_is_tracking st) eqn:Htr.
  - unfold _create_space, _manage_space, bind, get, _mptt_track_tree_modified, modify.
    rewrite Htr. cbn. rewrite Htr, map_id. split; reflexivity.
  - unfold _create_space. rewrite (manage_space_run size target tid st Htr).
    split; reflexivity.
Qed.

Lemma spaced_pk (tracking : bool) (size target tid : Z) (r : node) :
  pk (spaced tracking size target tid r) = pk r.
Proof. unfold spaced. destruct tracking; [reflexivity | apply opened_pk]. Qed.

Lemma spaced_parent (tracking : bool) (size target tid : Z) (r : node) :
  parent (spaced tracking size target tid r) = parent r.
Proof. unfold spaced. destruct tracking; [reflexivity | apply opened_parent]. Qed.

Lemma spaced_order (opts : mptt_meta) (tracking : bool) (size target tid : Z)
  (a b : node) :
  0 <= size ->
  rebuild_order opts (spaced tracking size target tid a) (spaced tracking size target tid b)
  = rebuild_order opts a b.
Proof.
  intros Hs. unfold spaced. destruct tracking; [reflexivity | apply opened_order, Hs].
Qed.

(** Every record built under a stored row is among the objects the next
    full rebuild writes, with the left, right and level it was built
    with. *)
Lemma anchored_records_rewritten (opts : mptt_meta) (uuid4 : nat -> Z)
  (data : tree_data) (t : node) (position : string) (st st1 : store)
  (g : node -> node) (Pk : Z) (v : node) (sub : list node) :
  (forall r, pk (g r) = pk r) ->
  (forall r, parent (g r) = parent r) ->
  (forall a b, rebuild_order opts (g a) (g b) = rebuild_order opts a b) ->
  NoDup (map pk (rows st)) ->
  NoDup (data_keys data) ->
  fresh_keys data (rows st) ->
  (order_insertion_by opts = true -> ordered data) ->
  link_key t position = Some Pk ->
  linked (Some Pk) data ->
  In t (rows st) ->
  (exists e, In e (rebuild_objects opts uuid4 st) /\ pk e = pk t /\
             lft e = lft t /\ rght e = rght t /\ level e = level t) ->
  let cursor := if is_sibling_position position
                then if eqs position "left" then lft t else rght t + 1
                else if eqs position "first-child" then lft t + 1 else rght t in
  let lvl := if is_sibling_position position then level t else level t + 1 in
  let stack := fst (treeify (tree_id t) data cursor lvl) in
  stack = v :: sub ->
  placed opts position (pk t) v
    (dict_get (_get_children opts None (map g (rows st))) (Some Pk)) ->
  rows st1 = map g (rows st) ++ stack ->
  Forall (fun w => exists e, In e (rebuild_objects opts uuid4 st1) /\
                             geometry e = geometry w) stack.
Proof.
  intros Hgpk Hgpar Hgord Hnd Hdk Hfresh Hord EP Hl Ht
    (et & Het & Hpk & Hlft & Hrght & Hlvl) cursor lvl stack Hst Hplaced Hrows1.
  set (rs := rows st) in *. set (rs0 := map g rs) in *.
  assert (Hvid : pk v = pk (top data)).
  { destruct (treeify_top (tree_id t) data cursor lvl) as (v' & sub' & Hst' & _ & _ & _ & _ & Hid).
    fold stack in Hst'. rewrite Hst in Hst'. injection Hst' as <- <-. apply Hid. }
  (* the walk of the table as it was *)
  unfold rebuild_objects in Het. fold rs in Het.
  destruct (anchor_entry opts rs _ t et (Some Pk) Hnd Ht Het Hpk)
    as (root & troot & retO & usO & eP & Hroot & Hrnone & HrunO & HinclO & HeP & HePk & HPin).
  { discriminate. }
  { unfold link_key in EP. destruct (is_sibling_position position); [right | left]; congruence. }
  set (chO := _get_children opts None rs) in *.
  (* the table with the records *)
  assert (Hkeys0 : map pk rs0 = map pk rs).
  { unfold rs0. rewrite map_map. apply map_ext. exact Hgpk. }
  assert (Hpars0 : map parent rs0 = map parent rs).
  { unfold rs0. rewrite map_map. apply map_ext. exact Hgpar. }
  assert (Hnd0 : NoDup (map pk rs0)) by (rewrite Hkeys0; exact Hnd).
  assert (Hfresh0 : fresh_keys data rs0).
  { intros k Hk. rewrite Hkeys0, Hpars0. apply Hfresh, Hk. }
  assert (Hnd1 : NoDup (map pk (rows st1))).
  { rewrite Hrows1. apply built_keys_nodup; assumption. }
  set (fuel1 := S (List.length (rows st1))).
  set (ch1 := _get_children opts None (rows st1)).
  assert (Hroot1 : In (g root) (rows st1)).
  { rewrite Hrows1. apply in_or_app. left. apply in_map. exact Hroot. }
  assert (Hrnone1 : parent (g root) = None) by (rewrite Hgpar; exact Hrnone).
  assert (Hps1 : In (g root) (_get_parents opts None (rows st1))).
  { rewrite get_parents_lookup.
    eapply Permutation_in; [apply Permutation_sym, order_by_perm|].
    apply filter_In. split; [exact Hroot1 | apply is_root_node_spec, Hrnone1]. }
  unfold rebuild_objects.
  destruct (in_combine_exists _ (root_tids opts uuid4 1 0 (uuid_draws st1)
                                   (List.length (_get_parents opts None (rows st1))))
              (g root) Hps1) as (t1 & Ht1); [apply root_tids_length|].
  pose proof (emitted_in_collected fuel1 ch1 _ _ _ _ Ht1) as Hincl1.
  destruct (walk_returns opts (rows st1) Hnd1 (g root) t1 Hroot1 Hrnone1) as (ret1 & Hrun1).
  fold fuel1 ch1 in Hrun1.
  (* the walk of the table as it was, as deep and with the same tree id *)
  assert (Hle : (S (List.length rs) <= fuel1)%nat).
  { unfold fuel1. rewrite Hrows1, length_app. unfold rs0. rewrite length_map. lia. }
  pose proof (helper_more_fuel chO _ fuel1 root 1 troot 0 _ Hle HrunO) as Hrun0.
  pose proof (helper_retag troot t1 chO fuel1 root 1 0) as Hretag.
  rewrite Hrun0 in Hretag. clear Hrun0.
  set (us0 := map (set_tree_id t1) usO) in *.
  assert (Hnd_us0 : NoDup (map pk us0)).
  { exact (emitted_nodup rs Hnd chO (children_sound opts rs) (children_complete opts rs)
             (children_nodup opts rs Hnd) fuel1 root 1 t1 0 us0 retO Hretag). }
  assert (Hin0 : forall u, In u us0 -> In (pk u) (map pk rs)).
  { intros u Hu.
    apply (helper_keys (fun k => In k (map pk rs)) chO) with (3 := Hretag); [| |exact Hu].
    - intros k x Hx. apply children_sound in Hx. apply in_map, Hx.
    - apply in_map. exact Hroot. }
  assert (Huniq : forall e, In e us0 -> pk e = pk t ->
                    lft e = lft t /\ rght e = rght t /\ level e = level t).
  { intros e He Hpke. apply in_map_iff in He. destruct He as (e' & <- & He').
    assert (e' = et).
    { apply (NoDup_pk_inj _ e' et (U_nodup opts rs Hnd _) (HinclO e' He') Het).
      cbn in Hpke. congruence. }
    subst e'. cbn. auto. }
  (* the children lists *)
  assert (Hsame : Forall (fun u => pk u <> Some Pk ->
                     map pk (dict_get ch1 (pk u)) = map pk (dict_get chO (pk u))) us0).
  { apply Forall_forall. intros u Hu Hne. unfold ch1. rewrite Hrows1.
    unfold stack.
    rewrite (children_elsewhere opts (tree_id t) cursor lvl data (Some Pk)
               Hl rs0 (pk u) Hne).
    - unfold rs0. rewrite mapped_children by assumption.
      rewrite map_map. apply map_ext. exact Hgpk.
    - intros Hk. exact (proj1 (Hfresh _ Hk) (Hin0 u Hu)). }
  destruct (children_at_anchor opts (tree_id t) cursor lvl data rs (Some Pk)
              Hl Hfresh HPin rs0 Pk eq_refl) as (v' & sub' & Hst' & Hat1).
  fold stack in Hst', Hat1. rewrite Hst in Hst'. injection Hst' as <- <-.
  rewrite <- Hrows1 in Hat1. fold ch1 in Hat1.
  rewrite get_children_lookup in Hplaced.
  destruct (placed_split opts position (pk t) v _ Hplaced)
    as (pre & post & Hkids & Hsnoc & Hshape).
  rewrite Hsnoc in Hat1.
  assert (Hat0 : map g (dict_get chO (Some Pk)) = pre ++ post).
  { rewrite <- Hkids. unfold chO. rewrite <- mapped_children by assumption.
    rewrite get_children_lookup. reflexivity. }
  apply map_eq_app in Hat0. destruct Hat0 as (pre0 & post0 & HatO & Hpre & Hpost).
  assert (Hprek : map pk pre = map pk pre0).
  { rewrite <- Hpre, map_map. apply map_ext. exact Hgpk. }
  destruct (walk_reaches_new_child chO ch1 (Some Pk) v pre0 post0 pre post t1
              HatO Hat1 Hprek fuel1 root (g root) 1 0 us0 retO _ ret1
              (set_tree_id t1 eP) (Hgpk root) Hretag Hrun1 Hnd_us0 Hsame)
    as (fuel' & usA & L & usB & usT & retT & HA & HB & HiA & HiB & HT & HiT).
  { apply in_map. exact HeP. }
  { exact HePk. }
  destruct (cursor_reached chO fuel' t1 t (set_tree_id t1 eP) position g
              pre0 post0 pre post usA usB us0 L
              Hgpk Hpre Hpost HA HB HiA HiB Huniq)
    as (HL & Hlvl').
  { apply in_map. exact HeP. }
  { rewrite EP. exact HePk. }
  { exact Hshape. }
  fold cursor in HL. fold lvl in Hlvl'. rewrite HL, Hlvl' in HT.
  destruct (helper_follows_treeify (tree_id t) t1 ch1 data fuel' v cursor lvl usT retT)
    as (_ & Hcov).
  - intros fam Hfam. unfold ch1. rewrite Hrows1.
    apply (children_of_records opts (tree_id t) cursor lvl data rs (Some Pk)
             Hl Hdk Hfresh Hord HPin rs0 Hpars0 fam Hfam).
  - exact Hvid.
  - exact HT.
  - eapply Forall_impl; [|exact Hcov]. intros w (e & He & Hg).
    exists e. split; [apply Hincl1, HiT, He | exact Hg].
Qed.

Lemma build_at_anchor_then_rebuild (opts : mptt_meta) (uuid4 : nat -> Z)
  (data : tree_data) (t : node) (position : string) (st : store) :
  NoDup (map pk (rows st)) ->
  NoDup (data_keys data) ->
  fresh_keys data (rows st) ->
  (order_insertion_by opts = true -> ordered data) ->
  anchored opts uuid4 st t position data ->
  exists st0 records st' old new,
    build_tree_nodes opts data (Some t) position st = (st0, Ok records) /\
    map pk records = data_keys data /\
    build_then_rebuild opts uuid4 data (Some t) position st = (st', Ok records) /\
    rows st' = old ++ new /\
    map pk old = map pk (rows st) /\
    map shape new = map shape records.
Proof.
  intros Hrs Hnd Hfresh Hord [Hl Hm].
  pose proof (build_tree_nodes_anchored opts data t position st) as Hb.
  pose proof (anchored_records_rewritten opts uuid4 data t position st) as Hcov.
  cbn zeta in Hb, Hcov.
  set (cursor := if is_sibling_position position
                 then if eqs position "left" then lft t else rght t + 1
                 else if eqs position "first-child" then lft t + 1 else rght t) in *.
  set (lvl := if is_sibling_position position then level t else level t + 1) in *.
  set (records := fst (treeify (tree_id t) data cursor lvl)) in *.
  set (size := 2 * Z.of_nat (List.length records)) in *.
  assert (Hsize : 0 <= size) by (unfold size; lia).
  destruct (spaced_rows size (cursor - 1) (tree_id t) st) as [_ Hrows0].
  set (st0 := fst (_create_space size (cursor - 1) (tree_id t) st)) in *.
  set (g := spaced (mptt_is_tracking st) size (cursor - 1) (tree_id t)) in *.
  rewrite Hb in Hm.
  destruct (treeify_top (tree_id t) data cursor lvl)
    as (v & sub & Hst & Hvl & _ & Hvlvl & _).
  fold records in Hst. rewrite Hst in Hm.
  pose (st1 := with_rows (rows st0 ++ records) st0).
  assert (Hrows1 : rows st1 = map g (rows st) ++ records).
  { cbn [st1 rows with_rows]. rewrite Hrows0. reflexivity. }
  assert (Hkeys0 : map pk (map g (rows st)) = map pk (rows st)).
  { rewrite map_map. apply map_ext. intros r. apply spaced_pk. }
  assert (Hpars0 : map parent (map g (rows st)) = map parent (rows st)).
  { rewrite map_map. apply map_ext. intros r. apply spaced_parent. }
  assert (Hfresh0 : fresh_keys data (map g (rows st))).
  { intros k Hk. rewrite Hkeys0, Hpars0. apply Hfresh, Hk. }
  assert (Hnd1 : NoDup (map pk (rows st1))).
  { rewrite Hrows1. apply built_keys_nodup; [rewrite Hkeys0| |]; assumption. }
  pose (U := rebuild_objects opts uuid4 st1).
  exists st0, records,
    (rebuilt opts U (List.length (_get_parents opts None (rows st1))) st1),
    (map (write_fields U) (rows st0)), (map (write_fields U) records).
  split; [exact Hb|]. split.
  { apply same_identity_keys. apply (treeify_pushed (tree_id t) data cursor lvl). }
  split.
  { unfold build_then_rebuild, bind. rewrite Hb. unfold bulk_create, modify.
    fold st1. rewrite (rebuild_run opts uuid4 st1 Hnd1). reflexivity. }
  split.
  { cbn [rebuilt rows]. change (rows st1) with (rows st0 ++ records).
    rewrite map_app. reflexivity. }
  split.
  { rewrite Hrows0, !map_map. apply map_ext. intros r.
    rewrite write_fields_pk. apply spaced_pk. }
  assert (Hall : Forall (fun w => exists e, In e U /\ geometry e = geometry w) records).
  { destruct (link_key t position) as [Pk|] eqn:EP.
    - destruct Hm as (Ht & He & Hplaced). rewrite Hrows0 in Hplaced.
      apply (Hcov st1 g Pk v sub); try assumption.
      + intros r. apply spaced_pk.
      + intros r. apply spaced_parent.
      + intros a b. apply spaced_order. exact Hsize.
      + reflexivity.
    - destruct Hm as [Hv1 Hv0].
      assert (Hc : cursor = 1) by congruence. assert (Hlv : lvl = 0) by congruence.
      unfold records. rewrite Hc, Hlv.
      apply (built_records_rewritten opts uuid4 (tree_id t) data st1 (map g (rows st)));
        try assumption.
      + rewrite Hrows1. unfold records. rewrite Hc, Hlv. reflexivity.
      + rewrite Hkeys0. exact Hrs. }
  rewrite map_map. apply map_ext_in. intros w Hw.
  rewrite Forall_forall in Hall. destruct (Hall w Hw) as (e & He & Hg).
  assert (HU : NoDup (map pk U)) by (apply U_nodup; exact Hnd1).
  unfold geometry in Hg. injection Hg as Hpk Hlft Hrght Hlevel.
  rewrite (write_fields_found U e w HU He Hpk).
  unfold shape. cbn. congruence.
Qed.



